(** * PCjs device backplane: bus, memory blocks and cycle scheduler

    A shallow embedding of the JavaScript classes [NumIO], [Memory], [Bus]
    and [Time] of the PCjs device library, together with the properties the
    specification states about them.

    Conventions of the embedding.
    - A JavaScript number that the code uses as a count, index, address or
      memory value is an integer of [Z]; the 32-bit bitwise operators are
      written with their wrap-around ([toInt32], [toUint32]).  Quantities that
      the code computes with fractional arithmetic (clock multipliers,
      milliseconds, the cycle deposit) are rationals of [Q], and each
      operation on them gives the double nearest to its exact result
      ([fadd], [fsub], [fmul], [fdiv]); so does the sum of [setBits] and
      [clearBits], which may exceed [2^53].  Doubles are taken in their
      normal range: infinities and [NaN] are not represented, and a quotient
      by zero is 0.
    - [undefined] is [None] of [jsval]; an [Array] is a list of [jsval] whose
      holes are [None] and which grows when written past its end.
    - A field that holds a function is an enumeration of the functions the
      code ever stores there.
    - Callbacks and devices supplied by other components are external: a call
      is recorded in a trace, and what an external device returns, or calls
      back, is a function of the trace so far. *)

From Stdlib Require Import ZArith QArith Qround Qpower Qabs Lia Bool.
From Stdlib Require Ascii String.
From stdpp Require Import base tactics option list.

#[local] Open Scope Z_scope.

(** ** JavaScript values and arrays *)

Module JS.

Abbreviation jsval := (option Z).
Abbreviation jsarray := (list (option Z)).

Definition undefined : jsval := None.

(** [a[i]] for an index [i >= 0]: a hole or an index past the end reads
    [undefined]. *)
Definition aget (a : jsarray) (i : nat) : jsval := default None (a !! i).

(** [a[i] = v] on an [Array]: in range the element is replaced, past the end
    the array is extended with holes up to [i]. *)
Definition aset (a : jsarray) (i : nat) (v : jsval) : jsarray :=
  if (i <? length a)%nat then <[i := v]> a
  else a ++ replicate (i - length a) None ++ [v].

(** [new Array(n)]: [n] holes. *)
Definition newArray (n : nat) : jsarray := replicate n None.

(** Truthiness of a number or [undefined]. *)
Definition truthy (v : jsval) : bool :=
  match v with Some z => negb (z =? 0) | None => false end.

(** [ToInt32], [ToUint32] and the bitwise operators on them. *)
Definition toInt32 (z : Z) : Z := (z + 2^31) mod 2^32 - 2^31.
Definition toUint32 (z : Z) : Z := z mod 2^32.
Definition num (v : jsval) : Z := match v with Some z => z | None => 0 end.

Definition band (a b : Z) : Z := Z.land (toInt32 a) (toInt32 b).
Definition bor (a b : Z) : Z := Z.lor (toInt32 a) (toInt32 b).
Definition shl (a n : Z) : Z := toInt32 (Z.shiftl (toInt32 a) (toUint32 n mod 32)).
Definition sar (a n : Z) : Z := Z.shiftr (toInt32 a) (toUint32 n mod 32).
Definition shr (a n : Z) : Z := Z.shiftr (toUint32 a) (toUint32 n mod 32).

(** *** Doubles

    The result of an arithmetic operation on doubles is the exact result
    rounded to the nearest double, ties to the even significand.  Doubles
    are taken in their normal range (53 significant bits, the exponent not
    bounded); infinities and [NaN] are not represented.

    [n / d] rounded to the nearest integer, ties to the even one. *)
Definition divEven (n d : Z) : Z :=
  let q := n / d in
  let r := n mod d in
  if 2 * r <? d then q
  else if d <? 2 * r then q + 1
  else if Z.even q then q else q + 1.

(** The double nearest to an integer: integers up to [2^53] are doubles. *)
Definition double (z : Z) : Z :=
  let s := Z.log2 (Z.abs z) - 52 in
  if s <=? 0 then z else divEven z (2 ^ s) * 2 ^ s.

(** The integer nearest to a rational, ties to the even one. *)
Definition roundEven (x : Q) : Z := divEven (Qnum x) (Zpos (Qden x)).

(** [floor (log2 |x|)] of a rational other than 0: the logarithms of
    numerator and denominator give it up to one. *)
Definition exponent (x : Q) : Z :=
  let k := Z.log2 (Z.abs (Qnum x)) - Z.log2 (Zpos (Qden x)) in
  if Qle_bool (2 ^ k) (Qabs x) then k else k - 1.

(** The double nearest to a rational: a multiple of the unit in the last
    place, which is [2^(exponent - 52)], by 53 bits. *)
Definition fl (x : Q) : Q :=
  if Qnum x =? 0 then 0%Q
  else
    let ulp := (2 ^ (exponent x - 52))%Q in
    Qred (inject_Z (roundEven (x / ulp)) * ulp).

(** [x + y], [x - y], [x * y] and [x / y] on doubles. *)
Definition fadd (x y : Q) : Q := fl (x + y).
Definition fsub (x y : Q) : Q := fl (x - y).
Definition fmul (x y : Q) : Q := fl (x * y).
Definition fdiv (x y : Q) : Q := fl (x / y).

End JS.
(** ** NumIO: run-length compression of number arrays *)

Module NumIO.
Import JS.

(** The inner loop of [compress]:
    [while (iCompare < aSrc.length && aSrc[iCompare] === n) iCompare++]. *)
Fixpoint scanRun (fuel : nat) (aSrc : jsarray) (n : jsval) (iCompare : nat)
  : option nat :=
  match fuel with
  | O => None
  | S fuel' =>
      if (iCompare <? length aSrc)%nat && bool_decide (aget aSrc iCompare = n)
      then scanRun fuel' aSrc n (S iCompare)
      else Some iCompare
  end.

(** The outer loop of [compress]: [while (iSrc < aSrc.length) { ... }]. *)
Fixpoint compressLoop (fuel : nat) (aSrc : jsarray) (iSrc iComp : nat)
    (aComp : jsarray) : option jsarray :=
  match fuel with
  | O => None
  | S fuel' =>
      if (iSrc <? length aSrc)%nat then
        let n := aget aSrc iSrc in
        match scanRun (S (length aSrc)) aSrc n (S iSrc) with
        | None => None
        | Some iCompare =>
            let aComp1 := aset aComp iComp (Some (Z.of_nat iCompare - Z.of_nat iSrc)) in
            let aComp2 := aset aComp1 (S iComp) n in
            compressLoop fuel' aSrc iCompare (S (S iComp)) aComp2
        end
      else Some aComp
  end.

(** [compress(aSrc)]; [None] would mean that a loop did not finish within
    the fuel, which [compress_eq] excludes. *)
Definition compress (aSrc : jsarray) : option jsarray :=
  match compressLoop (S (length aSrc)) aSrc 0 0 [] with
  | None => None
  | Some aComp =>
      if (length aSrc <=? length aComp)%nat then Some aSrc else Some aComp
  end.

(** The inner loop of [decompress]: [while (c--) aDst[iDst++] = n].  A
    negative count never becomes falsy, so the loop then runs out of fuel. *)
Fixpoint fillRun (fuel : nat) (c : jsval) (n : jsval) (aDst : jsarray)
    (iDst : nat) : option (jsarray * nat) :=
  match fuel with
  | O => None
  | S fuel' =>
      if truthy c
      then fillRun fuel' (Some (num c - 1)) n (aset aDst iDst n) (S iDst)
      else Some (aDst, iDst)
  end.

(** The outer loop of [decompress]:
    [while (iComp < aComp.length - 1) { c = aComp[iComp++]; n = aComp[iComp++]; ... }]. *)
Fixpoint decompressLoop (fuel : nat) (aComp : jsarray) (iComp : nat)
    (aDst : jsarray) (iDst : nat) : option jsarray :=
  match fuel with
  | O => None
  | S fuel' =>
      if Z.of_nat iComp <? Z.of_nat (length aComp) - 1 then
        let c := aget aComp iComp in
        let n := aget aComp (S iComp) in
        match fillRun (S (Z.to_nat (num c))) c n aDst iDst with
        | None => None
        | Some (aDst', iDst') =>
            decompressLoop fuel' aComp (S (S iComp)) aDst' iDst'
        end
      else Some aDst
  end.

(** [decompress(aComp, length)]; [None] means that the call does not return
    (a negative count in [aComp]). *)
Definition decompress (aComp : jsarray) (length : nat) : option jsarray :=
  if (List.length aComp =? length)%nat then Some aComp
  else
    let aDst := if (length =? 0)%nat then [] else newArray length in
    decompressLoop (S (List.length aComp)) aComp 0 aDst 0.

(** The run-length encoding as the specification words it: the array is cut
    into maximal runs of equal elements, and each run is written as its
    count followed by its value. *)
Fixpoint runs (xs : jsarray) : list (nat * jsval) :=
  match xs with
  | [] => []
  | x :: xs' =>
      match runs xs' with
      | (c, y) :: rs =>
          if bool_decide (x = y) then (S c, y) :: rs else (1%nat, x) :: (c, y) :: rs
      | [] => [(1%nat, x)]
      end
  end.

Definition flatten (rs : list (nat * jsval)) : jsarray :=
  flat_map (fun r => [Some (Z.of_nat (fst r)); snd r]) rs.

Definition runLengthEncoding (xs : jsarray) : jsarray := flatten (runs xs).

Definition expand (rs : list (nat * jsval)) : jsarray :=
  flat_map (fun r => replicate (fst r) (snd r)) rs.

(** *** Bit operations for numbers of more than 32 bits *)

Definition TWO_POW32 : Z := 2 ^ 32.

(** [~a] *)
Definition bnot (a : Z) : Z := Z.lnot (toInt32 a).

(** [(num / shift)|0] for an integer [num]: the quotient is cut towards
    zero and wrapped to 32 bits. *)
Definition high (num : Z) : Z := toInt32 (Z.quot num TWO_POW32).

(** [clearBits(num, bits)]: the product by [shift] is exact, the sum is
    rounded to a double. *)
Definition clearBits (num bits : Z) : Z :=
  let shift := TWO_POW32 in
  let numHi := high num in
  let bitsHi := high bits in
  double (band num (bnot bits) + band numHi (bnot bitsHi) * shift).

(** [setBits(num, bits)] *)
Definition setBits (num bits : Z) : Z :=
  let shift := TWO_POW32 in
  let numHi := high num in
  let bitsHi := high bits in
  double (bor num bits + bor numHi bitsHi * shift).

(** [testBits(num, bits)] *)
Definition testBits (num bits : Z) : bool :=
  let numHi := high num in
  let bitsHi := high bits in
  (band num bits =? toInt32 bits) && (band numHi bitsHi =? bitsHi).

(** *** Strings of digits and of switches *)

Import Ascii String.

(** The character classes of the regular expressions of [isInt]; the one
    of base 16 ignores case. *)
Definition isBinary (c : ascii) : bool :=
  let n := nat_of_ascii c in (48 <=? n)%nat && (n <=? 49)%nat.
Definition isOctal (c : ascii) : bool :=
  let n := nat_of_ascii c in (48 <=? n)%nat && (n <=? 55)%nat.
Definition isDecimal (c : ascii) : bool :=
  let n := nat_of_ascii c in (48 <=? n)%nat && (n <=? 57)%nat.
Definition isHex (c : ascii) : bool :=
  let n := nat_of_ascii c in
  ((48 <=? n)%nat && (n <=? 57)%nat) || ((97 <=? n)%nat && (n <=? 102)%nat)
  || ((65 <=? n)%nat && (n <=? 70)%nat).

(** [/^[class]+$/]: one character of the class or more, up to the end. *)
Fixpoint digits (class : ascii -> bool) (s : string) : bool :=
  match s with
  | EmptyString => false
  | String c EmptyString => class c
  | String c s' => class c && digits class s'
  end.

(** [s.match(/^-?[class]+$/) !== null] *)
Definition matchInt (class : ascii -> bool) (s : string) : bool :=
  match s with
  | String "-" s' => digits class s'
  | _ => digits class s
  end.

(** [isInt(s, base)] *)
Definition isInt (s : string) (base : jsval) : bool :=
  if negb (truthy base) || (num base =? 10) then matchInt isDecimal s
  else if num base =? 16 then matchInt isHex s
  else if num base =? 8 then matchInt isOctal s
  else if num base =? 2 then matchInt isBinary s
  else false.

(** The loop of [parseDIPSwitches]; [mask] is [switchesDefault == -1]. *)
Fixpoint parseSwitches (mask : bool) (sws : string) (switches bit : Z) : Z :=
  match sws with
  | EmptyString => switches
  | String ch sws' =>
      let set :=
        if mask
        then (if negb (Ascii.eqb ch "0") && negb (Ascii.eqb ch "1") then 0 else bit)
        else (if Ascii.eqb ch "0" then bit else 0) in
      parseSwitches mask sws' (bor switches set) (shl bit 1)
  end.

(** [parseDIPSwitches(sws, switchesDefault)]; [None] for [sws] is
    [undefined]. *)
Definition parseDIPSwitches (sws : option string) (switchesDefault : jsval)
  : jsval :=
  match sws with
  | None | Some EmptyString => switchesDefault
  | Some s =>
      Some (parseSwitches (bool_decide (switchesDefault = Some (-1))) s 0 1)
  end.

(** What [parseDIPSwitches] makes of one character: with the default -1 (a
    mask is parsed) a switch exists where the character is a digit;
    otherwise a switch is on where the character is [0]. *)
Definition switchOf (mask : bool) (ch : ascii) : bool :=
  if mask then Ascii.eqb ch "0" || Ascii.eqb ch "1" else Ascii.eqb ch "0".

End NumIO.
(** ** Memory: a block of the address space *)

Module Memory.
Import JS.

(** [Memory.TYPE]: discrete bits, so that sets of types can be OR'ed. *)
Module TYPE.
Definition NONE : Z := 0x01.
Definition READONLY : Z := 0x02.
Definition READWRITE : Z := 0x04.
Definition READABLE : Z := 0x0E.
Definition WRITABLE : Z := 0x0C.
End TYPE.

(** [Bus.TYPE] of the bus a block belongs to ([this.bus.type]). *)
Inductive busType := STATIC | DYNAMIC.

(** The functions that the fields [readData], [readPair], [readDataOrig] and
    [readPairOrig] can hold, and those of the four write fields.
    [readDataTrap], [readPairTrap], [writeDataTrap] and [writePairTrap] are
    the closures that [trapRead] and [trapWrite] install. *)
Inductive reader :=
  | readNone | readNonePair | readValue | readValuePair
  | readValuePairBE | readValuePairLE | readValuePair16 | readValuePair16SE
  | readDataTrap | readPairTrap.

Inductive writer :=
  | writeNone | writeValue | writeValueDirty | writeValuePair
  | writeValuePairBE | writeValuePairLE | writeValuePair16 | writeValuePair16SE
  | writeValuePairDirty | writeDataTrap | writePairTrap.

(** A trap function is external; it is known by its identity. *)
Abbreviation callback := nat.

(** One invocation [func(base, offset, value)] of a trap function, with the
    stored values as they are at the moment of the call. *)
Record call := mkCall {
  func : callback;
  base : jsval;
  offset : nat;
  value : jsval;
  valuesSeen : jsarray
}.

Inductive error := TypeError | RangeError.

Inductive outcome (A : Type) :=
  | Returns (a : A)
  | Throws (e : error).
Arguments Returns {A} a.
Arguments Throws {A} e.

Record block := mkBlock {
  addr : jsval;
  size : Z;
  type : Z;
  bus : busType;
  dataWidth : Z;
  dataLimit : Z;
  pairLimit : Z;
  littleEndian : bool;
  buffer : bool;
  values : jsarray;
  fDirty : bool;
  readData : option reader;
  writeData : option writer;
  readPair : option reader;
  writePair : option writer;
  nReadTraps : nat;
  nWriteTraps : nat;
  readTrap : option callback;
  writeTrap : option callback;
  readDataOrig : option reader;
  writeDataOrig : option writer;
  readPairOrig : option reader;
  writePairOrig : option writer
}.

Definition set_values (x : jsarray) (b : block) : block :=
  mkBlock (addr b) (size b) (type b) (bus b) (dataWidth b) (dataLimit b) (pairLimit b) (littleEndian b) (buffer b) x (fDirty b) (readData b) (writeData b) (readPair b) (writePair b) (nReadTraps b) (nWriteTraps b) (readTrap b) (writeTrap b) (readDataOrig b) (writeDataOrig b) (readPairOrig b) (writePairOrig b).

Definition set_fDirty (x : bool) (b : block) : block :=
  mkBlock (addr b) (size b) (type b) (bus b) (dataWidth b) (dataLimit b) (pairLimit b) (littleEndian b) (buffer b) (values b) x (readData b) (writeData b) (readPair b) (writePair b) (nReadTraps b) (nWriteTraps b) (readTrap b) (writeTrap b) (readDataOrig b) (writeDataOrig b) (readPairOrig b) (writePairOrig b).

Definition set_readData (x : option reader) (b : block) : block :=
  mkBlock (addr b) (size b) (type b) (bus b) (dataWidth b) (dataLimit b) (pairLimit b) (littleEndian b) (buffer b) (values b) (fDirty b) x (writeData b) (readPair b) (writePair b) (nReadTraps b) (nWriteTraps b) (readTrap b) (writeTrap b) (readDataOrig b) (writeDataOrig b) (readPairOrig b) (writePairOrig b).

Definition set_writeData (x : option writer) (b : block) : block :=
  mkBlock (addr b) (size b) (type b) (bus b) (dataWidth b) (dataLimit b) (pairLimit b) (littleEndian b) (buffer b) (values b) (fDirty b) (readData b) x (readPair b) (writePair b) (nReadTraps b) (nWriteTraps b) (readTrap b) (writeTrap b) (readDataOrig b) (writeDataOrig b) (readPairOrig b) (writePairOrig b).

Definition set_readPair (x : option reader) (b : block) : block :=
  mkBlock (addr b) (size b) (type b) (bus b) (dataWidth b) (dataLimit b) (pairLimit b) (littleEndian b) (buffer b) (values b) (fDirty b) (readData b) (writeData b) x (writePair b) (nReadTraps b) (nWriteTraps b) (readTrap b) (writeTrap b) (readDataOrig b) (writeDataOrig b) (readPairOrig b) (writePairOrig b).

Definition set_writePair (x : option writer) (b : block) : block :=
  mkBlock (addr b) (size b) (type b) (bus b) (dataWidth b) (dataLimit b) (pairLimit b) (littleEndian b) (buffer b) (values b) (fDirty b) (readData b) (writeData b) (readPair b) x (nReadTraps b) (nWriteTraps b) (readTrap b) (writeTrap b) (readDataOrig b) (writeDataOrig b) (readPairOrig b) (writePairOrig b).

Definition set_nReadTraps (x : nat) (b : block) : block :=
  mkBlock (addr b) (size b) (type b) (bus b) (dataWidth b) (dataLimit b) (pairLimit b) (littleEndian b) (buffer b) (values b) (fDirty b) (readData b) (writeData b) (readPair b) (writePair b) x (nWriteTraps b) (readTrap b) (writeTrap b) (readDataOrig b) (writeDataOrig b) (readPairOrig b) (writePairOrig b).

Definition set_nWriteTraps (x : nat) (b : block) : block :=
  mkBlock (addr b) (size b) (type b) (bus b) (dataWidth b) (dataLimit b) (pairLimit b) (littleEndian b) (buffer b) (values b) (fDirty b) (readData b) (writeData b) (readPair b) (writePair b) (nReadTraps b) x (readTrap b) (writeTrap b) (readDataOrig b) (writeDataOrig b) (readPairOrig b) (writePairOrig b).

Definition set_readTrap (x : option callback) (b : block) : block :=
  mkBlock (addr b) (size b) (type b) (bus b) (dataWidth b) (dataLimit b) (pairLimit b) (littleEndian b) (buffer b) (values b) (fDirty b) (readData b) (writeData b) (readPair b) (writePair b) (nReadTraps b) (nWriteTraps b) x (writeTrap b) (readDataOrig b) (writeDataOrig b) (readPairOrig b) (writePairOrig b).

Definition set_writeTrap (x : option callback) (b : block) : block :=
  mkBlock (addr b) (size b) (type b) (bus b) (dataWidth b) (dataLimit b) (pairLimit b) (littleEndian b) (buffer b) (values b) (fDirty b) (readData b) (writeData b) (readPair b) (writePair b) (nReadTraps b) (nWriteTraps b) (readTrap b) x (readDataOrig b) (writeDataOrig b) (readPairOrig b) (writePairOrig b).

Definition set_readDataOrig (x : option reader) (b : block) : block :=
  mkBlock (addr b) (size b) (type b) (bus b) (dataWidth b) (dataLimit b) (pairLimit b) (littleEndian b) (buffer b) (values b) (fDirty b) (readData b) (writeData b) (readPair b) (writePair b) (nReadTraps b) (nWriteTraps b) (readTrap b) (writeTrap b) x (writeDataOrig b) (readPairOrig b) (writePairOrig b).

Definition set_writeDataOrig (x : option writer) (b : block) : block :=
  mkBlock (addr b) (size b) (type b) (bus b) (dataWidth b) (dataLimit b) (pairLimit b) (littleEndian b) (buffer b) (values b) (fDirty b) (readData b) (writeData b) (readPair b) (writePair b) (nReadTraps b) (nWriteTraps b) (readTrap b) (writeTrap b) (readDataOrig b) x (readPairOrig b) (writePairOrig b).

Definition set_readPairOrig (x : option reader) (b : block) : block :=
  mkBlock (addr b) (size b) (type b) (bus b) (dataWidth b) (dataLimit b) (pairLimit b) (littleEndian b) (buffer b) (values b) (fDirty b) (readData b) (writeData b) (readPair b) (writePair b) (nReadTraps b) (nWriteTraps b) (readTrap b) (writeTrap b) (readDataOrig b) (writeDataOrig b) x (writePairOrig b).

Definition set_writePairOrig (x : option writer) (b : block) : block :=
  mkBlock (addr b) (size b) (type b) (bus b) (dataWidth b) (dataLimit b) (pairLimit b) (littleEndian b) (buffer b) (values b) (fDirty b) (readData b) (writeData b) (readPair b) (writePair b) (nReadTraps b) (nWriteTraps b) (readTrap b) (writeTrap b) (readDataOrig b) (writeDataOrig b) (readPairOrig b) x.

(** [config] of the constructor: [addr], [size], [type], [values]. *)
Record config := mkConfig {
  cfg_addr : jsval;
  cfg_size : Z;
  cfg_type : jsval;
  cfg_values : option jsarray
}.

(** What the constructor reads from its bus. *)
Record busInfo := mkBusInfo {
  bus_type : busType;
  bus_dataWidth : Z;
  bus_littleEndian : bool
}.

Section Host.

(** [LITTLE_ENDIAN]: whether the host stores typed arrays little-endian. *)
Variable LITTLE_ENDIAN : bool.

(** [this.values[offset] = value]: on an [Array] the cell is set (the array
    grows past its end); on the [Uint8Array] of a buffer the value is stored
    modulo 256 and a write past the end is dropped. *)
Definition store (b : block) (off : nat) (v : jsval) : jsarray :=
  if buffer b then
    if (off <? length (values b))%nat
    then <[off := Some (num v mod 256)]> (values b)
    else values b
  else aset (values b) off v.

(** [initValues(values)] *)
Definition initValues (vals : option jsarray) (b : block) : block :=
  if negb (buffer b) then
    match vals with
    | Some vs => set_values vs b
    | None => set_values (replicate (Z.to_nat (size b)) (Some (dataLimit b))) b
    end
  else
    match vals with
    | Some vs =>
        fold_left (fun b' i => set_values (store b' i (aget vs i)) b')
                  (seq 0 (Z.to_nat (size b))) b
    | None => b
    end.

(** [new Memory(idMachine, idDevice, config)] on the bus [bi];
    [arrayBuffer] is [getMachineConfig('ArrayBuffer') !== false]. *)
Definition new (arrayBuffer : bool) (bi : busInfo) (cfg : config) : block :=
  let type := if truthy (cfg_type cfg) then num (cfg_type cfg) else TYPE.NONE in
  let dataWidth := bus_dataWidth bi in
  let littleEndian := bus_littleEndian bi in
  let static := match bus_type bi with STATIC => true | DYNAMIC => false end in
  let buffered := static && (dataWidth =? 8) && arrayBuffer in
  let readValue' := readValue in
  let writeValue' := if static then writeValueDirty else writeValue in
  let readPair' :=
    if static then
      if buffered then
        if eqb littleEndian LITTLE_ENDIAN then readValuePair16 else readValuePair16SE
      else if littleEndian then readValuePairLE else readValuePairBE
    else readValuePair in
  let writePair' := if static then writeValuePairDirty else writeValuePair in
  let b0 :=
    mkBlock (cfg_addr cfg) (cfg_size cfg) type (bus_type bi)
      dataWidth (2 ^ dataWidth - 1) (2 ^ (dataWidth * 2) - 1) littleEndian
      buffered
      (if buffered then replicate (Z.to_nat (cfg_size cfg)) (Some 0) else [])
      false None None None None 0 0 None None None None None None in
  let b1 := initValues (cfg_values cfg) b0 in
  if type =? TYPE.NONE then
    set_writePair (Some writeNone) (set_readPair (Some readNonePair)
      (set_writeData (Some writeNone) (set_readData (Some readNone) b1)))
  else if type =? TYPE.READONLY then
    set_writePair (Some writeNone) (set_readPair (Some readPair')
      (set_writeData (Some writeNone) (set_readData (Some readValue') b1)))
  else if type =? TYPE.READWRITE then
    set_writePair (Some writePair') (set_readPair (Some readPair')
      (set_writeData (Some writeValue') (set_readData (Some readValue') b1)))
  else b1.

(** [onReset()] *)
Definition onReset (b : block) : block :=
  if TYPE.READWRITE <=? type b
  then set_values (map (fun _ => Some 0) (values b)) b
  else b.

(** [isDirty()] *)
Definition isDirty (b : block) : bool * block :=
  if fDirty b then
    let b1 := set_fDirty false b in
    (true,
     if (nWriteTraps b1 =? 0)%nat
     then set_writePair (Some writeValuePairDirty) (set_writeData (Some writeValueDirty) b1)
     else set_writePairOrig (Some writeValuePairDirty)
            (set_writeDataOrig (Some writeValueDirty) b1))
  else (false, b).

(** The read functions other than the trap closures.  A trap closure stored
    as its own original would call itself without end; no operation builds
    such a block, and the model reports the exhausted stack. *)
Definition callReader (r : reader) (b : block) (off : nat) : outcome jsval :=
  match r with
  | readNone => Returns (Some (dataLimit b))
  | readNonePair =>
      Returns (Some (bor (dataLimit b) (shl (dataLimit b) (dataWidth b))))
  | readValue => Returns (aget (values b) off)
  | readValuePair | readValuePairBE | readValuePairLE =>
      let le := match r with
                | readValuePair => littleEndian b
                | readValuePairLE => true
                | _ => false
                end in
      if le
      then Returns (Some (bor (num (aget (values b) off))
                              (shl (num (aget (values b) (S off))) (dataWidth b))))
      else Returns (Some (bor (num (aget (values b) (S off)))
                              (shl (num (aget (values b) off)) (dataWidth b))))
  | readValuePair16 =>
      let k := Nat.div2 off in
      if Z.of_nat k <? sar (size b) 1 then
        let b0 := num (aget (values b) (2 * k)) in
        let b1 := num (aget (values b) (2 * k + 1)) in
        Returns (Some (if LITTLE_ENDIAN then b0 + 256 * b1 else b1 + 256 * b0))
      else Returns undefined
  | readValuePair16SE =>
      if size b <? Z.of_nat off + 2 then Throws RangeError
      else
        let b0 := num (aget (values b) off) in
        let b1 := num (aget (values b) (S off)) in
        Returns (Some (if littleEndian b then b0 + 256 * b1 else b1 + 256 * b0))
  | readDataTrap | readPairTrap => Throws RangeError
  end.

(** The bytes of [value] as a 16-bit unsigned integer, low byte first when
    [le]. *)
Definition store16 (le : bool) (b : block) (off : nat) (v : Z) : jsarray :=
  let u := v mod 65536 in
  let lo := Some (u mod 256) in
  let hi := Some (u / 256) in
  let vs1 := store b off (if le then lo else hi) in
  store (set_values vs1 b) (S off) (if le then hi else lo).

(** [writeValuePairLE] / [writeValuePairBE], also the bodies of
    [writeValuePair], whose [this.writeValue] is [Memory]'s own method. *)
Definition storePair (le : bool) (b : block) (off : nat) (v : Z) : block :=
  let first := if le then band v (dataLimit b) else sar v (dataWidth b) in
  let second := if le then sar v (dataWidth b) else band v (dataLimit b) in
  let b1 := set_values (store b off (Some first)) b in
  set_values (store b1 (S off) (Some second)) b1.

(** After a "dirty" handler has run once it replaces itself by the plain
    handler: in the field itself when no write trap is installed, in the
    saved original otherwise. *)
Definition swapWriteData (w : writer) (b : block) : block :=
  if (nWriteTraps b =? 0)%nat then set_writeData (Some w) b
  else set_writeDataOrig (Some w) b.

Definition swapWritePair (w : writer) (b : block) : block :=
  if (nWriteTraps b =? 0)%nat then set_writePair (Some w) b
  else set_writePairOrig (Some w) b.

(** The write functions other than the trap closures. *)
Definition callWriter (w : writer) (b : block) (off : nat) (v : Z)
  : outcome unit * block :=
  match w with
  | writeNone => (Returns tt, b)
  | writeValue => (Returns tt, set_values (store b off (Some v)) b)
  | writeValueDirty =>
      let b1 := set_values (store b off (Some v)) b in
      let b2 := set_fDirty true b1 in
      (Returns tt, swapWriteData writeValue b2)
  | writeValuePair => (Returns tt, storePair (littleEndian b) b off v)
  | writeValuePairBE => (Returns tt, storePair false b off v)
  | writeValuePairLE => (Returns tt, storePair true b off v)
  | writeValuePair16 =>
      let k := Nat.div2 off in
      if Z.of_nat k <? sar (size b) 1
      then (Returns tt, set_values (store16 LITTLE_ENDIAN b (2 * k) v) b)
      else (Returns tt, b)
  | writeValuePair16SE =>
      if size b <? Z.of_nat off + 2 then (Throws RangeError, b)
      else (Returns tt, set_values (store16 (littleEndian b) b off v) b)
  | writeValuePairDirty =>
      if negb (buffer b) then
        if littleEndian b
        then (Returns tt, swapWritePair writeValuePairLE (storePair true b off v))
        else (Returns tt, swapWritePair writeValuePairBE (storePair false b off v))
      else
        if eqb (littleEndian b) LITTLE_ENDIAN then
          let k := Nat.div2 off in
          let b1 := if Z.of_nat k <? sar (size b) 1
                    then set_values (store16 LITTLE_ENDIAN b (2 * k) v) b else b in
          (Returns tt, swapWritePair writeValuePair16 b1)
        else
          if size b <? Z.of_nat off + 2 then (Throws RangeError, b)
          else (Returns tt,
                swapWritePair writeValuePair16SE
                  (set_values (store16 (littleEndian b) b off v) b))
  | writeDataTrap | writePairTrap => (Throws RangeError, b)
  end.

(** [block.readTrap(block.addr, offset, value)], and the same for
    [writeTrap]: a call of [null] throws. *)
Definition invoke (f : option callback) (b : block) (off : nat) (v : jsval)
  : outcome unit * list call :=
  match f with
  | Some fn => (Returns tt, [mkCall fn (addr b) off v (values b)])
  | None => (Throws TypeError, [])
  end.

(** A call through a read field: [field(offset)].  Reading does not change
    the block; the result is the value and the trap calls made. *)
Definition callRead (field : option reader) (b : block) (off : nat)
  : outcome jsval * list call :=
  match field with
  | None => (Throws TypeError, [])
  | Some readDataTrap =>
      match readDataOrig b with
      | None => (Throws TypeError, [])
      | Some r =>
          match callReader r b off with
          | Throws e => (Throws e, [])
          | Returns v =>
              match invoke (readTrap b) b off v with
              | (Throws e, cs) => (Throws e, cs)
              | (Returns _, cs) => (Returns v, cs)
              end
          end
      end
  | Some readPairTrap =>
      match readPairOrig b with
      | None => (Throws TypeError, [])
      | Some r =>
          match callReader r b off with
          | Throws e => (Throws e, [])
          | Returns v =>
              match invoke (readTrap b) b off v with
              | (Throws e, cs) => (Throws e, cs)
              | (Returns _, cs1) =>
                  match invoke (readTrap b) b (S off) v with
                  | (Throws e, cs2) => (Throws e, cs1 ++ cs2)
                  | (Returns _, cs2) => (Returns v, cs1 ++ cs2)
                  end
              end
          end
      end
  | Some r => (callReader r b off, [])
  end.

(** A call through a write field: [field(offset, value)]. *)
Definition callWrite (field : option writer) (b : block) (off : nat) (v : Z)
  : outcome unit * block * list call :=
  match field with
  | None => (Throws TypeError, b, [])
  | Some writeDataTrap =>
      match invoke (writeTrap b) b off (Some v) with
      | (Throws e, cs) => (Throws e, b, cs)
      | (Returns _, cs) =>
          match writeDataOrig b with
          | None => (Throws TypeError, b, cs)
          | Some w => (callWriter w b off v, cs)
          end
      end
  | Some writePairTrap =>
      match invoke (writeTrap b) b off (Some v) with
      | (Throws e, cs) => (Throws e, b, cs)
      | (Returns _, cs1) =>
          match invoke (writeTrap b) b (S off) (Some v) with
          | (Throws e, cs2) => (Throws e, b, cs1 ++ cs2)
          | (Returns _, cs2) =>
              match writePairOrig b with
              | None => (Throws TypeError, b, cs1 ++ cs2)
              | Some w => (callWriter w b off v, cs1 ++ cs2)
              end
          end
      end
  | Some w => (callWriter w b off v, [])
  end.

(** The four accessors of a block as the bus calls them. *)
Definition read (b : block) (off : nat) := callRead (readData b) b off.
Definition readPairAt (b : block) (off : nat) := callRead (readPair b) b off.
Definition write (b : block) (off : nat) (v : Z) := callWrite (writeData b) b off v.
Definition writePairAt (b : block) (off : nat) (v : Z) :=
  callWrite (writePair b) b off v.

(** [trapRead(func)] *)
Definition trapRead (f : callback) (b : block) : bool * block :=
  if (nReadTraps b =? 0)%nat then
    let b1 := set_nReadTraps (S (nReadTraps b)) b in
    let b2 := set_readTrap (Some f) b1 in
    let b3 := set_readDataOrig (readData b2) b2 in
    let b4 := set_readPairOrig (readPair b3) b3 in
    let b5 := set_readData (Some readDataTrap) b4 in
    (true, set_readPair (Some readPairTrap) b5)
  else if bool_decide (readTrap b = Some f) then
    (true, set_nReadTraps (S (nReadTraps b)) b)
  else (false, b).

(** [trapWrite(func)] *)
Definition trapWrite (f : callback) (b : block) : bool * block :=
  if (nWriteTraps b =? 0)%nat then
    let b1 := set_nWriteTraps (S (nWriteTraps b)) b in
    let b2 := set_writeTrap (Some f) b1 in
    let b3 := set_writeDataOrig (writeData b2) b2 in
    let b4 := set_writePairOrig (writePair b3) b3 in
    let b5 := set_writeData (Some writeDataTrap) b4 in
    (true, set_writePair (Some writePairTrap) b5)
  else if bool_decide (writeTrap b = Some f) then
    (true, set_nWriteTraps (S (nWriteTraps b)) b)
  else (false, b).

(** [untrapRead(func)] *)
Definition untrapRead (f : callback) (b : block) : bool * block :=
  if negb (nReadTraps b =? 0)%nat && bool_decide (readTrap b = Some f) then
    let b1 := set_nReadTraps (Nat.pred (nReadTraps b)) b in
    if (nReadTraps b1 =? 0)%nat then
      let b2 := set_readData (readDataOrig b1) b1 in
      let b3 := set_readPair (readPairOrig b2) b2 in
      (true, set_readTrap None (set_readPairOrig None (set_readDataOrig None b3)))
    else (true, b1)
  else (false, b).

(** [untrapWrite(func)] *)
Definition untrapWrite (f : callback) (b : block) : bool * block :=
  if negb (nWriteTraps b =? 0)%nat && bool_decide (writeTrap b = Some f) then
    let b1 := set_nWriteTraps (Nat.pred (nWriteTraps b)) b in
    if (nWriteTraps b1 =? 0)%nat then
      let b2 := set_writeData (writeDataOrig b1) b1 in
      let b3 := set_writePair (writePairOrig b2) b2 in
      (true, set_writeTrap None (set_writePairOrig None (set_writeDataOrig None b3)))
    else (true, b1)
  else (false, b).

End Host.

(** *** The invariant of a block

    The functions a block would use if it had no trap installed: the fields
    themselves, or the originals saved by [trapRead] and [trapWrite]. *)
Definition baseReadData (b : block) : option reader :=
  if (nReadTraps b =? 0)%nat then readData b else readDataOrig b.
Definition baseReadPair (b : block) : option reader :=
  if (nReadTraps b =? 0)%nat then readPair b else readPairOrig b.
Definition baseWriteData (b : block) : option writer :=
  if (nWriteTraps b =? 0)%nat then writeData b else writeDataOrig b.
Definition baseWritePair (b : block) : option writer :=
  if (nWriteTraps b =? 0)%nat then writePair b else writePairOrig b.

Definition plainReader (r : reader) : bool :=
  match r with readDataTrap | readPairTrap => false | _ => true end.
Definition plainWriter (w : writer) : bool :=
  match w with writeDataTrap | writePairTrap => false | _ => true end.

(** The trap fields agree with the trap counts. *)
Definition trapsOk (b : block) : Prop :=
  (if (nReadTraps b =? 0)%nat
   then readTrap b = None /\ readDataOrig b = None /\ readPairOrig b = None
   else readData b = Some readDataTrap /\ readPair b = Some readPairTrap /\
        is_Some (readTrap b)) /\
  (if (nWriteTraps b =? 0)%nat
   then writeTrap b = None /\ writeDataOrig b = None /\ writePairOrig b = None
   else writeData b = Some writeDataTrap /\ writePair b = Some writePairTrap /\
        is_Some (writeTrap b)).

(** The pair functions are never trap closures below the trap layer. *)
Definition pairsOk (b : block) : Prop :=
  (exists r, baseReadPair b = Some r /\ plainReader r = true) /\
  (exists w, baseWritePair b = Some w /\ plainWriter w = true).

(** The single-unit functions follow the type of the block and the type of
    its bus; only a READWRITE block of a STATIC bus is ever dirty. *)
Definition accessOk (b : block) : Prop :=
  (type b = TYPE.NONE /\ baseReadData b = Some readNone /\
   baseWriteData b = Some writeNone /\ baseWritePair b = Some writeNone /\
   fDirty b = false) \/
  (type b = TYPE.READONLY /\ baseReadData b = Some readValue /\
   baseWriteData b = Some writeNone /\ baseWritePair b = Some writeNone /\
   fDirty b = false) \/
  (type b = TYPE.READWRITE /\ baseReadData b = Some readValue /\
   match bus b with
   | STATIC =>
       baseWriteData b = Some writeValueDirty \/
       (baseWriteData b = Some writeValue /\ fDirty b = true)
   | DYNAMIC =>
       baseWriteData b = Some writeValue /\ baseWritePair b = Some writeValuePair /\
       fDirty b = false
   end).

Definition wf (b : block) : Prop :=
  dataLimit b = 2 ^ dataWidth b - 1 /\ trapsOk b /\ pairsOk b /\ accessOk b.

(** The operations of a block, and the blocks that they reach from a newly
    constructed one. *)
Inductive op :=
  | Read (off : nat) | Write (off : nat) (v : Z)
  | ReadPair (off : nat) | WritePair (off : nat) (v : Z)
  | TrapRead (f : callback) | TrapWrite (f : callback)
  | UntrapRead (f : callback) | UntrapWrite (f : callback)
  | IsDirty | Reset.

Definition step (LITTLE_ENDIAN : bool) (o : op) (b : block) : block :=
  match o with
  | Read _ | ReadPair _ => b
  | Write off v => snd (fst (write LITTLE_ENDIAN b off v))
  | WritePair off v => snd (fst (writePairAt LITTLE_ENDIAN b off v))
  | TrapRead f => snd (trapRead f b)
  | TrapWrite f => snd (trapWrite f b)
  | UntrapRead f => snd (untrapRead f b)
  | UntrapWrite f => snd (untrapWrite f b)
  | IsDirty => snd (isDirty b)
  | Reset => onReset b
  end.

(** The configurations of a block of one of the three types. *)
Definition typed (cfg : config) : Prop :=
  cfg_type cfg = None \/ cfg_type cfg = Some 0 \/
  cfg_type cfg = Some TYPE.NONE \/ cfg_type cfg = Some TYPE.READONLY \/
  cfg_type cfg = Some TYPE.READWRITE.

Inductive reachable (LITTLE_ENDIAN : bool) : block -> Prop :=
  | reach_new arrayBuffer bi cfg :
      typed cfg -> reachable LITTLE_ENDIAN (new LITTLE_ENDIAN arrayBuffer bi cfg)
  | reach_step o b :
      reachable LITTLE_ENDIAN b -> reachable LITTLE_ENDIAN (step LITTLE_ENDIAN o b).

(** *** Pairs

    The pair functions that the constructor chooses for a block that holds
    values, by the type of its bus, its storage and its byte order. *)
Definition pairReader (LITTLE_ENDIAN : bool) (b : block) : reader :=
  match bus b with
  | DYNAMIC => readValuePair
  | STATIC =>
      if buffer b then
        if eqb (littleEndian b) LITTLE_ENDIAN then readValuePair16 else readValuePair16SE
      else if littleEndian b then readValuePairLE else readValuePairBE
  end.

(** The pair-write function of a READWRITE block once [writeValuePairDirty]
    has replaced itself. *)
Definition pairWriter (LITTLE_ENDIAN : bool) (b : block) : writer :=
  match bus b with
  | DYNAMIC => writeValuePair
  | STATIC =>
      if buffer b then
        if eqb (littleEndian b) LITTLE_ENDIAN then writeValuePair16 else writeValuePair16SE
      else if littleEndian b then writeValuePairLE else writeValuePairBE
  end.

(** The pair functions below the trap layer follow the type of the block;
    and a buffer is a byte array of the size of the block, on a STATIC bus
    of width 8. *)
Definition paired (LITTLE_ENDIAN : bool) (b : block) : Prop :=
  ((type b = TYPE.NONE /\ baseReadPair b = Some readNonePair /\
    baseWritePair b = Some writeNone) \/
   (type b = TYPE.READONLY /\ baseReadPair b = Some (pairReader LITTLE_ENDIAN b) /\
    baseWritePair b = Some writeNone) \/
   (type b = TYPE.READWRITE /\ baseReadPair b = Some (pairReader LITTLE_ENDIAN b) /\
    (baseWritePair b = Some (pairWriter LITTLE_ENDIAN b) \/
     (bus b = STATIC /\ baseWritePair b = Some writeValuePairDirty)))) /\
  (buffer b = true ->
   bus b = STATIC /\ dataWidth b = 8 /\
   length (values b) = Z.to_nat (size b)).

(** [sameShape b x]: [x] is [b] with other values ([fDirty] and the
    single-unit functions may differ too). *)
Definition sameShape (b x : block) : Prop :=
  type x = type b /\ bus x = bus b /\ buffer x = buffer b /\
  littleEndian x = littleEndian b /\ dataWidth x = dataWidth b /\
  size x = size b /\
  (buffer b = true -> length (values x) = length (values b)) /\
  nReadTraps x = nReadTraps b /\ nWriteTraps x = nWriteTraps b /\
  readPair x = readPair b /\ readPairOrig x = readPairOrig b /\
  writePair x = writePair b /\ writePairOrig x = writePairOrig b.

(** *** Sequences of operations

    The block after the operations [ops], the first of the list first. *)
Definition run (LITTLE_ENDIAN : bool) (ops : list op) (b : block) : block :=
  fold_left (fun b' o => step LITTLE_ENDIAN o b') ops b.

(** Whether a single-unit write is more recent than the last [isDirty()],
    [d] being the answer before the operations [ops]. *)
Definition dirtied (ops : list op) (d : bool) : bool :=
  fold_left (fun d' o =>
               match o with Write _ _ => true | IsDirty => false | _ => d' end)
            ops d.

(** *** Preconditions

    A pair access that stays inside the block: both offsets hold values,
    the value fits two units of at most 15 bits, and on a buffer the size
    is a 32-bit integer and, when block and host agree on the byte order,
    the offset is even. *)
Definition inside (LITTLE_ENDIAN : bool) (b : block) (off : nat) (v : Z) : Prop :=
  (S off < length (values b))%nat /\
  0 < dataWidth b <= 15 /\ 0 <= v < 2 ^ (2 * dataWidth b) /\
  (buffer b = true ->
   size b < 2 ^ 31 /\ (littleEndian b = LITTLE_ENDIAN -> Nat.even off = true)).

(** The values that a byte buffer holds unchanged. *)
Definition bytes (vs : jsarray) : Prop :=
  Forall (fun x => exists z, x = Some z /\ 0 <= z < 256) vs.

(** *** Saved state

    An element of the state array that [saveState] fills: the identity of a
    device, a flag, or an array of values. *)
Inductive item := Id (idDevice : nat) | Flag (f : bool) | Values (vs : jsarray).

(** [saveState(state)] of the block of identity [idDevice]; [None] would
    mean that [compress] does not return. *)
Definition saveState (idDevice : nat) (b : block) (state : list item)
  : option (list item) :=
  match NumIO.compress (values b) with
  | Some aComp =>
      Some (state ++ [Id idDevice; Flag (fDirty b); Flag false; Values aComp])
  | None => None
  end.

(** [initValues(values)] once the block has its array of values:
    [for (i = 0; i < this.size; i++) this.values[i] = values[i]]. *)
Definition copyValues (vs : jsarray) (b : block) : block :=
  fold_left (fun b' i => set_values (store b' i (aget vs i)) b')
            (seq 0 (Z.to_nat (size b))) b.

(** [loadState(state)] on a state array whose elements are of the kinds
    that [saveState] writes: the value returned, the block, and what is
    left of the array.  [None]: the array is of another shape, or
    [decompress] does not return. *)
Definition loadState (idDevice : nat) (state : list item) (b : block)
  : option (bool * block * list item) :=
  match state with
  | [] => Some (false, b, [])
  | Id i :: rest =>
      if (i =? idDevice)%nat then
        match rest with
        | Flag f :: _ :: Values aComp :: rest' =>
            match NumIO.decompress aComp (Z.to_nat (size b)) with
            | Some vs => Some (true, copyValues vs (set_fDirty f b), rest')
            | None => None
            end
        | _ => None
        end
      else Some (false, b, rest)
  | _ => None
  end.

End Memory.
(** ** Bus: the address space *)

Module Bus.
Import JS.

(** [BusConfig]: [config\['type'\] == "static"], and the optional
    [addrWidth], [dataWidth], [blockSize] and [littleEndian]. *)
Record config := mkConfig {
  cfg_static : bool;
  cfg_addrWidth : jsval;
  cfg_dataWidth : jsval;
  cfg_blockSize : jsval;
  cfg_littleEndian : option bool
}.

(** The bus.  Memory blocks are objects: [heap] holds them, and a slot of
    [blocks] holds a reference into [heap] (or is still empty), so that one
    block can fill several slots, as the NONE placeholder does. *)
Record bus := mkBus {
  type : Memory.busType;
  addrWidth : Z;
  addrTotal : Z;
  addrLimit : Z;
  blockSize : Z;
  blockTotal : Z;
  blockShift : Z;
  blockLimit : Z;
  dataWidth : Z;
  dataLimit : Z;
  littleEndian : bool;
  blocks : list (option nat);
  nTraps : Z;
  heap : list Memory.block
}.

Definition set_blocks (x : list (option nat)) (b : bus) : bus :=
  mkBus (type b) (addrWidth b) (addrTotal b) (addrLimit b) (blockSize b)
    (blockTotal b) (blockShift b) (blockLimit b) (dataWidth b) (dataLimit b)
    (littleEndian b) x (nTraps b) (heap b).

Definition set_nTraps (x : Z) (b : bus) : bus :=
  mkBus (type b) (addrWidth b) (addrTotal b) (addrLimit b) (blockSize b)
    (blockTotal b) (blockShift b) (blockLimit b) (dataWidth b) (dataLimit b)
    (littleEndian b) (blocks b) x (heap b).

Definition set_heap (x : list Memory.block) (b : bus) : bus :=
  mkBus (type b) (addrWidth b) (addrTotal b) (addrLimit b) (blockSize b)
    (blockTotal b) (blockShift b) (blockLimit b) (dataWidth b) (dataLimit b)
    (littleEndian b) (blocks b) (nTraps b) x.

(** What a block reads from this bus when it is constructed. *)
Definition info (b : bus) : Memory.busInfo :=
  Memory.mkBusInfo (type b) (dataWidth b) (littleEndian b).

(** [this.blocks\[iBlock\]]: the block a slot refers to, if any. *)
Definition slot (b : bus) (iBlock : Z) : option Memory.block :=
  if iBlock <? 0 then None
  else match blocks b !! Z.to_nat iBlock with
       | Some (Some r) => heap b !! r
       | _ => None
       end.

Section Host.

(** [LITTLE_ENDIAN] of the host, and whether the machine configuration
    allows [ArrayBuffer] storage. *)
Variable LITTLE_ENDIAN : bool.
Variable arrayBuffer : bool.

(** [new Memory(...)] for this bus: the new object is added to the heap and
    its reference returned. *)
Definition newMemory (cfg : Memory.config) (b : bus) : nat * bus :=
  (length (heap b),
   set_heap (heap b ++ [Memory.new LITTLE_ENDIAN arrayBuffer (info b) cfg]) b).

(** [values.slice(start, end)] for [0 <= start <= end]. *)
Definition slice (vs : jsarray) (from to : Z) : jsarray :=
  take (Z.to_nat (to - from)) (drop (Z.to_nat from) vs).

(** The loop of [addBlocks]; [block] is the optional preallocated block, a
    reference into the heap.  The result is the value returned and the bus
    after the call. *)
Fixpoint addBlocksLoop (fuel : nat) (b : bus) (addrNext sizeLeft offset iBlock : Z)
    (type : jsval) (block : option nat) : option (bool * bus) :=
  match fuel with
  | O => None
  | S fuel' =>
      if (0 <? sizeLeft) && (iBlock <? Z.of_nat (length (blocks b))) then
        let addrBlock := iBlock * blockSize b in
        let sizeBlock := blockSize b - (addrNext - addrBlock) in
        let sizeBlock := if sizeLeft <? sizeBlock then sizeLeft else sizeBlock in
        let blockExisting := slot b iBlock in
        if negb (addrNext =? addrBlock) || negb (sizeBlock =? blockSize b)
        then Some (false, b)
        else if match blockExisting with
                | Some e => negb (Memory.type e =? Memory.TYPE.NONE)
                | None => false
                end
        then Some (false, b)
        else
          let fresh vals :=
            newMemory (Memory.mkConfig (Some addrNext) sizeBlock type vals) b in
          let created :=
            match block with
            | None => Some (fresh None)
            | Some r =>
                match heap b !! r with
                | None => Some (fresh None) (* no such object: as without [block] *)
                | Some blk =>
                    if Memory.size blk =? blockSize b then Some (r, b)
                    else
                      let values := slice (Memory.values blk) offset (offset + sizeBlock) in
                      if negb (Z.of_nat (length values) =? sizeBlock) then None
                      else Some (fresh (Some values))
                end
            end in
          match created with
          | None => Some (false, b)
          | Some (blockNew, b1) =>
              let b2 := set_blocks (<[Z.to_nat iBlock := Some blockNew]> (blocks b1)) b1 in
              addBlocksLoop fuel' b2 (addrBlock + blockSize b) (sizeLeft - sizeBlock)
                (offset + sizeBlock) (iBlock + 1) type block
          end
      else Some (true, b)
  end.

(** [addBlocks(addr, size, type, block)].  Every iteration of the loop moves
    to the next slot, so the number of slots bounds the iterations. *)
Definition addBlocks (b : bus) (addr size : Z) (type : jsval) (block : option nat)
  : option (bool * bus) :=
  addBlocksLoop (S (length (blocks b))) b addr size 0 (shr addr (blockShift b))
    type block.

(** [selectInterface(nDelta)]: the accessors it selects are the same block
    functions in every case; what it changes is the trap count. *)
Definition selectInterface (nDelta : Z) (b : bus) : bus :=
  set_nTraps (nTraps b + nDelta) b.

(** The loop of the constructor:
    [for (addr = 0; addr < addrTotal; addr += blockSize) addBlocks(...)]. *)
Fixpoint fillLoop (fuel : nat) (b : bus) (addr : Z) (block : nat) : option bus :=
  match fuel with
  | O => None
  | S fuel' =>
      if addr <? addrTotal b then
        match addBlocks b addr (blockSize b) (Some Memory.TYPE.NONE) (Some block) with
        | None => None
        | Some (_, b1) => fillLoop fuel' b1 (addr + blockSize b) block
        end
      else Some b
  end.

(** [new Bus(idMachine, idDevice, config)]; [None] when the loop over the
    address space does not end (a block size below 1). *)
Definition new (cfg : config) : option bus :=
  let type := if cfg_static cfg then Memory.STATIC else Memory.DYNAMIC in
  let addrWidth := if truthy (cfg_addrWidth cfg) then num (cfg_addrWidth cfg) else 16 in
  let addrTotal := 2 ^ addrWidth in
  let addrLimit := toInt32 (addrTotal - 1) in
  let blockSize :=
    if truthy (cfg_blockSize cfg) then num (cfg_blockSize cfg)
    else if 16 <? addrWidth then 4096 else 1024 in
  let blockSize := if addrTotal <? blockSize then addrTotal else blockSize in
  let blockTotal := toInt32 (Z.quot addrTotal blockSize) in
  let blockShift := toInt32 (Z.log2 blockSize) in
  let blockLimit := shl 1 blockShift - 1 in
  let dataWidth := if truthy (cfg_dataWidth cfg) then num (cfg_dataWidth cfg) else 8 in
  let dataLimit := 2 ^ dataWidth - 1 in
  let littleEndian :=
    match cfg_littleEndian cfg with Some false => false | _ => true end in
  let b0 :=
    mkBus type addrWidth addrTotal addrLimit blockSize blockTotal blockShift
      blockLimit dataWidth dataLimit littleEndian
      (replicate (Z.to_nat blockTotal) None) 0 [] in
  let '(block, b1) := newMemory (Memory.mkConfig None blockSize None None) b0 in
  match fillLoop (S (S (Z.to_nat blockTotal))) b1 0 block with
  | None => None
  | Some b2 =>
      Some (selectInterface
              (match type with Memory.STATIC => 0 | Memory.DYNAMIC => 1 end) b2)
  end.

(** Running an operation of the block that owns [addr], in place. *)
Definition ref (b : bus) (addr : Z) : option nat :=
  match blocks b !! Z.to_nat (shr addr (blockShift b)) with
  | Some (Some r) => Some r
  | _ => None
  end.

Definition update (b : bus) (r : nat) (blk : Memory.block) : bus :=
  set_heap (<[r := blk]> (heap b)) b.

(** [readBlockData(addr)] and [writeBlockData(addr, value)].  A slot that
    holds no block makes the call throw. *)
Definition readBlockData (b : bus) (addr : Z)
  : Memory.outcome jsval * list Memory.call :=
  match slot b (shr addr (blockShift b)) with
  | Some blk =>
      Memory.read LITTLE_ENDIAN blk (Z.to_nat (band addr (blockLimit b)))
  | None => (Memory.Throws Memory.TypeError, [])
  end.

Definition writeBlockData (b : bus) (addr value : Z)
  : Memory.outcome unit * bus * list Memory.call :=
  match ref b addr, slot b (shr addr (blockShift b)) with
  | Some r, Some blk =>
      let '(o, blk', cs) :=
        Memory.write LITTLE_ENDIAN blk (Z.to_nat (band addr (blockLimit b))) value in
      (o, update b r blk', cs)
  | _, _ => (Memory.Throws Memory.TypeError, b, [])
  end.

(** [readBlockPairLE(addr)] and [readBlockPairBE(addr)], of which
    [selectInterface] chooses by [littleEndian].  At an odd address the pair
    is two single reads through the bus, the left operand of [|] first; the
    second address wraps around at [addrLimit]. *)
Definition readBlockPair (le : bool) (b : bus) (addr : Z)
  : Memory.outcome jsval * list Memory.call :=
  if negb (band addr 1 =? 0) then
    let addrNext := band (addr + 1) (addrLimit b) in
    let left := if le then addr else addrNext in
    let right := if le then addrNext else addr in
    match readBlockData b left with
    | (Memory.Throws e, cs) => (Memory.Throws e, cs)
    | (Memory.Returns x, cs1) =>
        match readBlockData b right with
        | (Memory.Throws e, cs2) => (Memory.Throws e, cs1 ++ cs2)
        | (Memory.Returns y, cs2) =>
            (Memory.Returns (Some (bor (num x) (shl (num y) (dataWidth b)))),
             cs1 ++ cs2)
        end
    end
  else
    match slot b (shr addr (blockShift b)) with
    | Some blk =>
        Memory.readPairAt LITTLE_ENDIAN blk (Z.to_nat (band addr (blockLimit b)))
    | None => (Memory.Throws Memory.TypeError, [])
    end.

(** [writeBlockPairLE(addr, value)] and [writeBlockPairBE(addr, value)]:
    at an odd address two single writes through the bus. *)
Definition writeBlockPair (le : bool) (b : bus) (addr value : Z)
  : Memory.outcome unit * bus * list Memory.call :=
  if negb (band addr 1 =? 0) then
    let addrNext := band (addr + 1) (addrLimit b) in
    let low := band value (dataLimit b) in
    let high := sar value (dataWidth b) in
    match writeBlockData b addr (if le then low else high) with
    | (Memory.Throws e, b1, cs) => (Memory.Throws e, b1, cs)
    | (Memory.Returns _, b1, cs1) =>
        let '(o, b2, cs2) := writeBlockData b1 addrNext (if le then high else low) in
        (o, b2, cs1 ++ cs2)
    end
  else
    match ref b addr, slot b (shr addr (blockShift b)) with
    | Some r, Some blk =>
        let '(o, blk', cs) :=
          Memory.writePairAt LITTLE_ENDIAN blk (Z.to_nat (band addr (blockLimit b)))
            value in
        (o, update b r blk', cs)
    | _, _ => (Memory.Throws Memory.TypeError, b, [])
    end.

(** The pair functions that [selectInterface] installs. *)
Definition readPair (b : bus) (addr : Z) := readBlockPair (littleEndian b) b addr.
Definition writePair (b : bus) (addr value : Z) :=
  writeBlockPair (littleEndian b) b addr value.

(** The loop of [cleanBlocks]: [isDirty()] of the block of each slot in
    turn; a slot without a block makes the call throw. *)
Fixpoint cleanLoop (fuel : nat) (b : bus) (size sizeBlock iBlock : Z) (clean : bool)
  : option (Memory.outcome bool * bus) :=
  match fuel with
  | O => None
  | S fuel' =>
      if (0 <? size) && (iBlock <? Z.of_nat (length (blocks b))) then
        match blocks b !! Z.to_nat iBlock with
        | Some (Some r) =>
            match heap b !! r with
            | Some blk =>
                let '(dirty, blk') := Memory.isDirty blk in
                cleanLoop fuel' (update b r blk') (size - sizeBlock) (blockSize b)
                  (iBlock + 1) (if dirty then false else clean)
            | None => Some (Memory.Throws Memory.TypeError, b)
            end
        | _ => Some (Memory.Throws Memory.TypeError, b)
        end
      else Some (Memory.Returns clean, b)
  end.

(** [cleanBlocks(addr, size)]; the loop moves to the next slot at every
    turn, so the number of slots bounds its turns. *)
Definition cleanBlocks (b : bus) (addr size : Z) : option (Memory.outcome bool * bus) :=
  cleanLoop (S (length (blocks b))) b size
    (blockSize b - band addr (blockLimit b)) (shr addr (blockShift b)) true.

(** [trapRead(addr, func)] and its three companions: the call goes to the
    block that owns [addr]; on success the trap count of the bus moves. *)
Definition trapWith (op : Memory.callback -> Memory.block -> bool * Memory.block)
    (nDelta : Z) (b : bus) (addr : Z) (f : Memory.callback)
  : Memory.outcome bool * bus :=
  match ref b addr, slot b (shr addr (blockShift b)) with
  | Some r, Some blk =>
      let '(ok, blk') := op f blk in
      if ok then (Memory.Returns true, selectInterface nDelta (update b r blk'))
      else (Memory.Returns false, update b r blk')
  | _, _ => (Memory.Throws Memory.TypeError, b)
  end.

Definition trapRead := trapWith Memory.trapRead 1.
Definition trapWrite := trapWith Memory.trapWrite 1.
Definition untrapRead := trapWith Memory.untrapRead (-1).
Definition untrapWrite := trapWith Memory.untrapWrite (-1).

(** The calls that change a bus, and the bus after a sequence of them,
    the first of the list first. *)
Inductive op :=
  | AddBlocks (addr size : Z) (type : jsval)
  | WriteData (addr value : Z)
  | TrapRead (addr : Z) (f : Memory.callback)
  | TrapWrite (addr : Z) (f : Memory.callback)
  | UntrapRead (addr : Z) (f : Memory.callback)
  | UntrapWrite (addr : Z) (f : Memory.callback).

Definition step (o : op) (b : bus) : bus :=
  match o with
  | AddBlocks addr size type =>
      match addBlocks b addr size type None with
      | Some (_, b') => b'
      | None => b
      end
  | WriteData addr value => snd (fst (writeBlockData b addr value))
  | TrapRead addr f => snd (trapRead b addr f)
  | TrapWrite addr f => snd (trapWrite b addr f)
  | UntrapRead addr f => snd (untrapRead b addr f)
  | UntrapWrite addr f => snd (untrapWrite b addr f)
  end.

Definition run (ops : list op) (b : bus) : bus :=
  fold_left (fun b' o => step o b') ops b.

End Host.

(** The properties of a bus that [addBlocks] relies on: the block size is
    the power of two that [blockShift] names, the address space fits 32
    bits, and every slot refers to an object of the heap. *)
Definition wf (b : bus) : Prop :=
  0 <= blockShift b < 32 /\ blockSize b = 2 ^ blockShift b /\
  blockSize b * Z.of_nat (length (blocks b)) <= 2 ^ 32 /\
  (forall i r, blocks b !! i = Some (Some r) -> (r < length (heap b))%nat).

(** A bus as its constructor and [addBlocks] leave it: the offset mask is
    the block size minus one, and every slot holds a block. *)
Definition mapped (b : bus) : Prop :=
  wf b /\ blockShift b <= 30 /\ blockLimit b = blockSize b - 1 /\
  (forall i, (i < length (blocks b))%nat -> exists r, blocks b !! i = Some (Some r)).

(** The traps installed on the Memory objects that the bus has created:
    the blocks that its slots hold and the blocks that [addBlocks] has
    since replaced in them. *)
Definition trapCount (b : bus) : Z :=
  fold_right
    (fun blk n =>
       Z.of_nat (Memory.nReadTraps blk) + Z.of_nat (Memory.nWriteTraps blk) + n)
    0 (heap b).

(** The slots that overlap the addresses [addr, addr + size). *)
Definition overlaps (b : bus) (addr size s : Z) : Prop :=
  shr addr (blockShift b) <= s < Z.of_nat (length (blocks b)) /\
  s * blockSize b < addr + size.

(** Whether the block of slot [s] is dirty. *)
Definition dirtyAt (b : bus) (s : Z) : Prop :=
  exists blk, slot b s = Some blk /\ Memory.fDirty blk = true.

(** A slot that [addBlocks] may fill: it is empty or holds a NONE block. *)
Definition isFree (b : bus) (iBlock : Z) : bool :=
  match slot b iBlock with
  | Some e => Memory.type e =? Memory.TYPE.NONE
  | None => true
  end.

(** The number of free slots in a row from slot [iBlock] on, [m] at most. *)
Fixpoint freeRun (b : bus) (iBlock : Z) (m : nat) : nat :=
  match m with
  | O => O
  | S m' => if isFree b iBlock then S (freeRun b (iBlock + 1) m') else O
  end.

(** The bus after [k] slots from slot [iBlock] on have each received a new
    block of type [type] of one block size: the new blocks are added to the
    heap, the [k] slots refer to them, and nothing else changes. *)
Definition written (LITTLE_ENDIAN arrayBuffer : bool) (b : bus) (iBlock : Z)
    (k : nat) (type : jsval) : bus :=
  set_blocks
    (take (Z.to_nat iBlock) (blocks b)
     ++ map Some (seq (length (heap b)) k)
     ++ drop (Z.to_nat iBlock + k) (blocks b))
    (set_heap
       (heap b
        ++ map (fun j =>
                  Memory.new LITTLE_ENDIAN arrayBuffer (info b)
                    (Memory.mkConfig (Some ((iBlock + Z.of_nat j) * blockSize b))
                       (blockSize b) type None))
             (seq 0 k))
       b).

(** One turn of the loop of [addBlocks] that succeeds: slot [i] receives a
    new block. *)
Definition fillSlot (LITTLE_ENDIAN arrayBuffer : bool) (b : bus) (i : Z)
    (type : jsval) : bus :=
  let '(r, b1) :=
    newMemory LITTLE_ENDIAN arrayBuffer
      (Memory.mkConfig (Some (i * blockSize b)) (blockSize b) type None) b in
  set_blocks (<[Z.to_nat i := Some r]> (blocks b1)) b1.

End Bus.
(** ** Time: the cycle scheduler *)

Module Time.
Import JS.

#[local] Open Scope Q_scope.

(** Comparisons and rounding of rationals. *)
Definition Qleb (x y : Q) : bool := Qle_bool x y.
Definition Qltb (x y : Q) : bool := negb (Qle_bool y x).
Definition Qeqb (x y : Q) : bool := Qeq_bool x y.

(** [Math.round]: the nearest integer, halves upwards. *)
Definition Qround (x : Q) : Z := Qfloor (x + (1 # 2)).

(** The integer part, as [ToInt32] takes it before it wraps. *)
Definition Qtrunc (x : Q) : Z := if Qltb x 0 then Qceiling x else Qfloor x.

(** A numeric field that may still be [undefined] (which arithmetic turns
    into [NaN]): [None] is [undefined] or [NaN]. *)
Definition nadd (a b : option Q) : option Q :=
  match a, b with Some x, Some y => Some (fadd x y) | _, _ => None end.
Definition nsub (a b : option Q) : option Q :=
  match a, b with Some x, Some y => Some (fsub x y) | _, _ => None end.
Definition nlt (a : option Q) (q : Q) : bool :=
  match a with Some x => Qltb x q | None => false end.
Definition ntruthy (a : option Q) : bool :=
  match a with Some x => negb (Qeqb x 0) | None => false end.
Definition nint32 (a : option Q) : Z :=
  match a with Some x => toInt32 (Qtrunc x) | None => 0%Z end.

(** The callback of a timer: the scheduler's own [onYield], or a function
    of another device, known by its identity. *)
Inductive callback := onYield | external (f : nat).

(** [Timer]: [{id, callBack, msAuto, nCyclesLeft}] *)
Record timer := mkTimer {
  id : nat;
  callBack : callback;
  msAuto : Q;
  nCyclesLeft : Z
}.

Definition set_nCyclesLeft (x : Z) (tm : timer) : timer :=
  mkTimer (id tm) (callBack tm) (msAuto tm) x.

(** What a call of [startClock] does: it returns the cycles it executed, or
    throws an error with a message. *)
Inductive outcome := Returns (nCycles : Z) | Throws (message : nat).

Inductive message :=
  | Started | Stopped | ErrorMessage (message : nat)
  | NegativeCycles | SlowUpdates.

Inductive binding := RUN | SPEED | STEP | THROTTLE.

Inductive task := onRunTimeout | onStepTimeout.

(** The calls that leave the scheduler. *)
Inductive event :=
  | StartClock (clock : nat) (nCycles : Z) (result : outcome)
  | StopClock (clock : nat)
  | Callback (cb : callback)
  | Animation (f : nat)
  | Print (m : message)
  | BindingText (b : binding)
  | OnUpdate (device : nat) (fTransition : bool)
  | DateNow (ms : Q)
  | SetTimeout (f : task) (ms : Q) (id : Z)
  | ClearTimeout (id : Z)
  | RequestAnimationFrame (id : Z)
  | CancelAnimationFrame (id : Z).

(** The outside: what a clocked device answers to [startClock], what
    [Date.now()] reads, and the identifier that [setTimeout] or
    [requestAnimationFrame] returns, each as a function of the calls made so
    far.  The callback of a device may call the scheduler back: the
    callbacks of [Input] ([onKeyTimer] through [advanceKeyState], and
    [checkAutoRelease]) call [setTimer(iTimer, ms)] on the timer that
    fires.  [timerCalls] gives the calls [setTimer(iTimer, ms, fReset)]
    that the callback [f] makes when it is invoked, in their order. *)
Record host := mkHost {
  startClock : list event -> nat -> Z -> outcome;
  timerCalls : list event -> nat -> list (Z * Q * bool);
  dateNow : list event -> Q;
  newId : list event -> Z
}.

(** The scheduler.  [throttle] stands for the value, minimum and maximum of
    the throttle control, when one is bound; [log] is not a field of the
    JavaScript object: it records the calls made to the outside. *)
Record time := mkTime {
  nCyclesMinimum : Q;
  nCyclesMaximum : Q;
  nCyclesPerSecond : Q;
  nYieldsPerSecond : Q;
  nYieldsPerUpdate : Q;
  fClockByFrame : bool;
  fRequestAnimationFrame : bool;
  nBaseMultiplier : Q;
  nCurrentMultiplier : Q;
  nTargetMultiplier : Q;
  mhzBase : Q;
  mhzCurrent : Q;
  mhzTarget : Q;
  nYields : Z;
  msYield : Q;
  aAnimations : list nat;
  aClocks : list nat;
  aTimers : list timer;
  aUpdates : list nat;
  throttle : option (Q * Q * Q);
  fPowered : bool;
  fRunning : bool;
  fYield : bool;
  fThrottling : bool;
  nStepping : Z;
  idRunTimeout : Z;
  idStepTimeout : Z;
  idAnimation : Z;
  nCyclesLife : Z;
  nCyclesRun : Z;
  nCyclesThisRun : Z;
  nCyclesBurst : Z;
  nCyclesRemain : Z;
  nCyclesDeposited : option Q;
  nCyclesDepositPerFrame : option Q;
  nCyclesPerYield : Q;
  msStartRun : Q;
  msEndRun : Q;
  msStartThisRun : Q;
  msOutsideThisRun : Q;
  log : list event
}.

Definition set_nCurrentMultiplier (x : Q) (t : time) : time :=
  mkTime (nCyclesMinimum t) (nCyclesMaximum t) (nCyclesPerSecond t)
    (nYieldsPerSecond t) (nYieldsPerUpdate t) (fClockByFrame t)
    (fRequestAnimationFrame t) (nBaseMultiplier t) x (nTargetMultiplier t)
    (mhzBase t) (mhzCurrent t) (mhzTarget t) (nYields t) (msYield t)
    (aAnimations t) (aClocks t) (aTimers t) (aUpdates t) (throttle t)
    (fPowered t) (fRunning t) (fYield t) (fThrottling t) (nStepping t)
    (idRunTimeout t) (idStepTimeout t) (idAnimation t) (nCyclesLife t)
    (nCyclesRun t) (nCyclesThisRun t) (nCyclesBurst t) (nCyclesRemain t)
    (nCyclesDeposited t) (nCyclesDepositPerFrame t) (nCyclesPerYield t)
    (msStartRun t) (msEndRun t) (msStartThisRun t) (msOutsideThisRun t) (log
    t).

Definition set_nTargetMultiplier (x : Q) (t : time) : time :=
  mkTime (nCyclesMinimum t) (nCyclesMaximum t) (nCyclesPerSecond t)
    (nYieldsPerSecond t) (nYieldsPerUpdate t) (fClockByFrame t)
    (fRequestAnimationFrame t) (nBaseMultiplier t) (nCurrentMultiplier t) x
    (mhzBase t) (mhzCurrent t) (mhzTarget t) (nYields t) (msYield t)
    (aAnimations t) (aClocks t) (aTimers t) (aUpdates t) (throttle t)
    (fPowered t) (fRunning t) (fYield t) (fThrottling t) (nStepping t)
    (idRunTimeout t) (idStepTimeout t) (idAnimation t) (nCyclesLife t)
    (nCyclesRun t) (nCyclesThisRun t) (nCyclesBurst t) (nCyclesRemain t)
    (nCyclesDeposited t) (nCyclesDepositPerFrame t) (nCyclesPerYield t)
    (msStartRun t) (msEndRun t) (msStartThisRun t) (msOutsideThisRun t) (log
    t).

Definition set_mhzCurrent (x : Q) (t : time) : time :=
  mkTime (nCyclesMinimum t) (nCyclesMaximum t) (nCyclesPerSecond t)
    (nYieldsPerSecond t) (nYieldsPerUpdate t) (fClockByFrame t)
    (fRequestAnimationFrame t) (nBaseMultiplier t) (nCurrentMultiplier t)
    (nTargetMultiplier t) (mhzBase t) x (mhzTarget t) (nYields t) (msYield t)
    (aAnimations t) (aClocks t) (aTimers t) (aUpdates t) (throttle t)
    (fPowered t) (fRunning t) (fYield t) (fThrottling t) (nStepping t)
    (idRunTimeout t) (idStepTimeout t) (idAnimation t) (nCyclesLife t)
    (nCyclesRun t) (nCyclesThisRun t) (nCyclesBurst t) (nCyclesRemain t)
    (nCyclesDeposited t) (nCyclesDepositPerFrame t) (nCyclesPerYield t)
    (msStartRun t) (msEndRun t) (msStartThisRun t) (msOutsideThisRun t) (log
    t).

Definition set_mhzTarget (x : Q) (t : time) : time :=
  mkTime (nCyclesMinimum t) (nCyclesMaximum t) (nCyclesPerSecond t)
    (nYieldsPerSecond t) (nYieldsPerUpdate t) (fClockByFrame t)
    (fRequestAnimationFrame t) (nBaseMultiplier t) (nCurrentMultiplier t)
    (nTargetMultiplier t) (mhzBase t) (mhzCurrent t) x (nYields t) (msYield t)
    (aAnimations t) (aClocks t) (aTimers t) (aUpdates t) (throttle t)
    (fPowered t) (fRunning t) (fYield t) (fThrottling t) (nStepping t)
    (idRunTimeout t) (idStepTimeout t) (idAnimation t) (nCyclesLife t)
    (nCyclesRun t) (nCyclesThisRun t) (nCyclesBurst t) (nCyclesRemain t)
    (nCyclesDeposited t) (nCyclesDepositPerFrame t) (nCyclesPerYield t)
    (msStartRun t) (msEndRun t) (msStartThisRun t) (msOutsideThisRun t) (log
    t).

Definition set_nYields (x : Z) (t : time) : time :=
  mkTime (nCyclesMinimum t) (nCyclesMaximum t) (nCyclesPerSecond t)
    (nYieldsPerSecond t) (nYieldsPerUpdate t) (fClockByFrame t)
    (fRequestAnimationFrame t) (nBaseMultiplier t) (nCurrentMultiplier t)
    (nTargetMultiplier t) (mhzBase t) (mhzCurrent t) (mhzTarget t) x (msYield
    t) (aAnimations t) (aClocks t) (aTimers t) (aUpdates t) (throttle t)
    (fPowered t) (fRunning t) (fYield t) (fThrottling t) (nStepping t)
    (idRunTimeout t) (idStepTimeout t) (idAnimation t) (nCyclesLife t)
    (nCyclesRun t) (nCyclesThisRun t) (nCyclesBurst t) (nCyclesRemain t)
    (nCyclesDeposited t) (nCyclesDepositPerFrame t) (nCyclesPerYield t)
    (msStartRun t) (msEndRun t) (msStartThisRun t) (msOutsideThisRun t) (log
    t).

Definition set_msYield (x : Q) (t : time) : time :=
  mkTime (nCyclesMinimum t) (nCyclesMaximum t) (nCyclesPerSecond t)
    (nYieldsPerSecond t) (nYieldsPerUpdate t) (fClockByFrame t)
    (fRequestAnimationFrame t) (nBaseMultiplier t) (nCurrentMultiplier t)
    (nTargetMultiplier t) (mhzBase t) (mhzCurrent t) (mhzTarget t) (nYields t)
    x (aAnimations t) (aClocks t) (aTimers t) (aUpdates t) (throttle t)
    (fPowered t) (fRunning t) (fYield t) (fThrottling t) (nStepping t)
    (idRunTimeout t) (idStepTimeout t) (idAnimation t) (nCyclesLife t)
    (nCyclesRun t) (nCyclesThisRun t) (nCyclesBurst t) (nCyclesRemain t)
    (nCyclesDeposited t) (nCyclesDepositPerFrame t) (nCyclesPerYield t)
    (msStartRun t) (msEndRun t) (msStartThisRun t) (msOutsideThisRun t) (log
    t).

Definition set_aAnimations (x : list nat) (t : time) : time :=
  mkTime (nCyclesMinimum t) (nCyclesMaximum t) (nCyclesPerSecond t)
    (nYieldsPerSecond t) (nYieldsPerUpdate t) (fClockByFrame t)
    (fRequestAnimationFrame t) (nBaseMultiplier t) (nCurrentMultiplier t)
    (nTargetMultiplier t) (mhzBase t) (mhzCurrent t) (mhzTarget t) (nYields t)
    (msYield t) x (aClocks t) (aTimers t) (aUpdates t) (throttle t) (fPowered
    t) (fRunning t) (fYield t) (fThrottling t) (nStepping t) (idRunTimeout t)
    (idStepTimeout t) (idAnimation t) (nCyclesLife t) (nCyclesRun t)
    (nCyclesThisRun t) (nCyclesBurst t) (nCyclesRemain t) (nCyclesDeposited t)
    (nCyclesDepositPerFrame t) (nCyclesPerYield t) (msStartRun t) (msEndRun t)
    (msStartThisRun t) (msOutsideThisRun t) (log t).

Definition set_aClocks (x : list nat) (t : time) : time :=
  mkTime (nCyclesMinimum t) (nCyclesMaximum t) (nCyclesPerSecond t)
    (nYieldsPerSecond t) (nYieldsPerUpdate t) (fClockByFrame t)
    (fRequestAnimationFrame t) (nBaseMultiplier t) (nCurrentMultiplier t)
    (nTargetMultiplier t) (mhzBase t) (mhzCurrent t) (mhzTarget t) (nYields t)
    (msYield t) (aAnimations t) x (aTimers t) (aUpdates t) (throttle t)
    (fPowered t) (fRunning t) (fYield t) (fThrottling t) (nStepping t)
    (idRunTimeout t) (idStepTimeout t) (idAnimation t) (nCyclesLife t)
    (nCyclesRun t) (nCyclesThisRun t) (nCyclesBurst t) (nCyclesRemain t)
    (nCyclesDeposited t) (nCyclesDepositPerFrame t) (nCyclesPerYield t)
    (msStartRun t) (msEndRun t) (msStartThisRun t) (msOutsideThisRun t) (log
    t).

Definition set_aTimers (x : list timer) (t : time) : time :=
  mkTime (nCyclesMinimum t) (nCyclesMaximum t) (nCyclesPerSecond t)
    (nYieldsPerSecond t) (nYieldsPerUpdate t) (fClockByFrame t)
    (fRequestAnimationFrame t) (nBaseMultiplier t) (nCurrentMultiplier t)
    (nTargetMultiplier t) (mhzBase t) (mhzCurrent t) (mhzTarget t) (nYields t)
    (msYield t) (aAnimations t) (aClocks t) x (aUpdates t) (throttle t)
    (fPowered t) (fRunning t) (fYield t) (fThrottling t) (nStepping t)
    (idRunTimeout t) (idStepTimeout t) (idAnimation t) (nCyclesLife t)
    (nCyclesRun t) (nCyclesThisRun t) (nCyclesBurst t) (nCyclesRemain t)
    (nCyclesDeposited t) (nCyclesDepositPerFrame t) (nCyclesPerYield t)
    (msStartRun t) (msEndRun t) (msStartThisRun t) (msOutsideThisRun t) (log
    t).

Definition set_aUpdates (x : list nat) (t : time) : time :=
  mkTime (nCyclesMinimum t) (nCyclesMaximum t) (nCyclesPerSecond t)
    (nYieldsPerSecond t) (nYieldsPerUpdate t) (fClockByFrame t)
    (fRequestAnimationFrame t) (nBaseMultiplier t) (nCurrentMultiplier t)
    (nTargetMultiplier t) (mhzBase t) (mhzCurrent t) (mhzTarget t) (nYields t)
    (msYield t) (aAnimations t) (aClocks t) (aTimers t) x (throttle t)
    (fPowered t) (fRunning t) (fYield t) (fThrottling t) (nStepping t)
    (idRunTimeout t) (idStepTimeout t) (idAnimation t) (nCyclesLife t)
    (nCyclesRun t) (nCyclesThisRun t) (nCyclesBurst t) (nCyclesRemain t)
    (nCyclesDeposited t) (nCyclesDepositPerFrame t) (nCyclesPerYield t)
    (msStartRun t) (msEndRun t) (msStartThisRun t) (msOutsideThisRun t) (log
    t).

Definition set_throttle (x : option (Q * Q * Q)) (t : time) : time :=
  mkTime (nCyclesMinimum t) (nCyclesMaximum t) (nCyclesPerSecond t)
    (nYieldsPerSecond t) (nYieldsPerUpdate t) (fClockByFrame t)
    (fRequestAnimationFrame t) (nBaseMultiplier t) (nCurrentMultiplier t)
    (nTargetMultiplier t) (mhzBase t) (mhzCurrent t) (mhzTarget t) (nYields t)
    (msYield t) (aAnimations t) (aClocks t) (aTimers t) (aUpdates t) x
    (fPowered t) (fRunning t) (fYield t) (fThrottling t) (nStepping t)
    (idRunTimeout t) (idStepTimeout t) (idAnimation t) (nCyclesLife t)
    (nCyclesRun t) (nCyclesThisRun t) (nCyclesBurst t) (nCyclesRemain t)
    (nCyclesDeposited t) (nCyclesDepositPerFrame t) (nCyclesPerYield t)
    (msStartRun t) (msEndRun t) (msStartThisRun t) (msOutsideThisRun t) (log
    t).

Definition set_fPowered (x : bool) (t : time) : time :=
  mkTime (nCyclesMinimum t) (nCyclesMaximum t) (nCyclesPerSecond t)
    (nYieldsPerSecond t) (nYieldsPerUpdate t) (fClockByFrame t)
    (fRequestAnimationFrame t) (nBaseMultiplier t) (nCurrentMultiplier t)
    (nTargetMultiplier t) (mhzBase t) (mhzCurrent t) (mhzTarget t) (nYields t)
    (msYield t) (aAnimations t) (aClocks t) (aTimers t) (aUpdates t) (throttle
    t) x (fRunning t) (fYield t) (fThrottling t) (nStepping t) (idRunTimeout
    t) (idStepTimeout t) (idAnimation t) (nCyclesLife t) (nCyclesRun t)
    (nCyclesThisRun t) (nCyclesBurst t) (nCyclesRemain t) (nCyclesDeposited t)
    (nCyclesDepositPerFrame t) (nCyclesPerYield t) (msStartRun t) (msEndRun t)
    (msStartThisRun t) (msOutsideThisRun t) (log t).

Definition set_fRunning (x : bool) (t : time) : time :=
  mkTime (nCyclesMinimum t) (nCyclesMaximum t) (nCyclesPerSecond t)
    (nYieldsPerSecond t) (nYieldsPerUpdate t) (fClockByFrame t)
    (fRequestAnimationFrame t) (nBaseMultiplier t) (nCurrentMultiplier t)
    (nTargetMultiplier t) (mhzBase t) (mhzCurrent t) (mhzTarget t) (nYields t)
    (msYield t) (aAnimations t) (aClocks t) (aTimers t) (aUpdates t) (throttle
    t) (fPowered t) x (fYield t) (fThrottling t) (nStepping t) (idRunTimeout
    t) (idStepTimeout t) (idAnimation t) (nCyclesLife t) (nCyclesRun t)
    (nCyclesThisRun t) (nCyclesBurst t) (nCyclesRemain t) (nCyclesDeposited t)
    (nCyclesDepositPerFrame t) (nCyclesPerYield t) (msStartRun t) (msEndRun t)
    (msStartThisRun t) (msOutsideThisRun t) (log t).

Definition set_fYield (x : bool) (t : time) : time :=
  mkTime (nCyclesMinimum t) (nCyclesMaximum t) (nCyclesPerSecond t)
    (nYieldsPerSecond t) (nYieldsPerUpdate t) (fClockByFrame t)
    (fRequestAnimationFrame t) (nBaseMultiplier t) (nCurrentMultiplier t)
    (nTargetMultiplier t) (mhzBase t) (mhzCurrent t) (mhzTarget t) (nYields t)
    (msYield t) (aAnimations t) (aClocks t) (aTimers t) (aUpdates t) (throttle
    t) (fPowered t) (fRunning t) x (fThrottling t) (nStepping t) (idRunTimeout
    t) (idStepTimeout t) (idAnimation t) (nCyclesLife t) (nCyclesRun t)
    (nCyclesThisRun t) (nCyclesBurst t) (nCyclesRemain t) (nCyclesDeposited t)
    (nCyclesDepositPerFrame t) (nCyclesPerYield t) (msStartRun t) (msEndRun t)
    (msStartThisRun t) (msOutsideThisRun t) (log t).

Definition set_fThrottling (x : bool) (t : time) : time :=
  mkTime (nCyclesMinimum t) (nCyclesMaximum t) (nCyclesPerSecond t)
    (nYieldsPerSecond t) (nYieldsPerUpdate t) (fClockByFrame t)
    (fRequestAnimationFrame t) (nBaseMultiplier t) (nCurrentMultiplier t)
    (nTargetMultiplier t) (mhzBase t) (mhzCurrent t) (mhzTarget t) (nYields t)
    (msYield t) (aAnimations t) (aClocks t) (aTimers t) (aUpdates t) (throttle
    t) (fPowered t) (fRunning t) (fYield t) x (nStepping t) (idRunTimeout t)
    (idStepTimeout t) (idAnimation t) (nCyclesLife t) (nCyclesRun t)
    (nCyclesThisRun t) (nCyclesBurst t) (nCyclesRemain t) (nCyclesDeposited t)
    (nCyclesDepositPerFrame t) (nCyclesPerYield t) (msStartRun t) (msEndRun t)
    (msStartThisRun t) (msOutsideThisRun t) (log t).

Definition set_nStepping (x : Z) (t : time) : time :=
  mkTime (nCyclesMinimum t) (nCyclesMaximum t) (nCyclesPerSecond t)
    (nYieldsPerSecond t) (nYieldsPerUpdate t) (fClockByFrame t)
    (fRequestAnimationFrame t) (nBaseMultiplier t) (nCurrentMultiplier t)
    (nTargetMultiplier t) (mhzBase t) (mhzCurrent t) (mhzTarget t) (nYields t)
    (msYield t) (aAnimations t) (aClocks t) (aTimers t) (aUpdates t) (throttle
    t) (fPowered t) (fRunning t) (fYield t) (fThrottling t) x (idRunTimeout t)
    (idStepTimeout t) (idAnimation t) (nCyclesLife t) (nCyclesRun t)
    (nCyclesThisRun t) (nCyclesBurst t) (nCyclesRemain t) (nCyclesDeposited t)
    (nCyclesDepositPerFrame t) (nCyclesPerYield t) (msStartRun t) (msEndRun t)
    (msStartThisRun t) (msOutsideThisRun t) (log t).

Definition set_idRunTimeout (x : Z) (t : time) : time :=
  mkTime (nCyclesMinimum t) (nCyclesMaximum t) (nCyclesPerSecond t)
    (nYieldsPerSecond t) (nYieldsPerUpdate t) (fClockByFrame t)
    (fRequestAnimationFrame t) (nBaseMultiplier t) (nCurrentMultiplier t)
    (nTargetMultiplier t) (mhzBase t) (mhzCurrent t) (mhzTarget t) (nYields t)
    (msYield t) (aAnimations t) (aClocks t) (aTimers t) (aUpdates t) (throttle
    t) (fPowered t) (fRunning t) (fYield t) (fThrottling t) (nStepping t) x
    (idStepTimeout t) (idAnimation t) (nCyclesLife t) (nCyclesRun t)
    (nCyclesThisRun t) (nCyclesBurst t) (nCyclesRemain t) (nCyclesDeposited t)
    (nCyclesDepositPerFrame t) (nCyclesPerYield t) (msStartRun t) (msEndRun t)
    (msStartThisRun t) (msOutsideThisRun t) (log t).

Definition set_idStepTimeout (x : Z) (t : time) : time :=
  mkTime (nCyclesMinimum t) (nCyclesMaximum t) (nCyclesPerSecond t)
    (nYieldsPerSecond t) (nYieldsPerUpdate t) (fClockByFrame t)
    (fRequestAnimationFrame t) (nBaseMultiplier t) (nCurrentMultiplier t)
    (nTargetMultiplier t) (mhzBase t) (mhzCurrent t) (mhzTarget t) (nYields t)
    (msYield t) (aAnimations t) (aClocks t) (aTimers t) (aUpdates t) (throttle
    t) (fPowered t) (fRunning t) (fYield t) (fThrottling t) (nStepping t)
    (idRunTimeout t) x (idAnimation t) (nCyclesLife t) (nCyclesRun t)
    (nCyclesThisRun t) (nCyclesBurst t) (nCyclesRemain t) (nCyclesDeposited t)
    (nCyclesDepositPerFrame t) (nCyclesPerYield t) (msStartRun t) (msEndRun t)
    (msStartThisRun t) (msOutsideThisRun t) (log t).

Definition set_idAnimation (x : Z) (t : time) : time :=
  mkTime (nCyclesMinimum t) (nCyclesMaximum t) (nCyclesPerSecond t)
    (nYieldsPerSecond t) (nYieldsPerUpdate t) (fClockByFrame t)
    (fRequestAnimationFrame t) (nBaseMultiplier t) (nCurrentMultiplier t)
    (nTargetMultiplier t) (mhzBase t) (mhzCurrent t) (mhzTarget t) (nYields t)
    (msYield t) (aAnimations t) (aClocks t) (aTimers t) (aUpdates t) (throttle
    t) (fPowered t) (fRunning t) (fYield t) (fThrottling t) (nStepping t)
    (idRunTimeout t) (idStepTimeout t) x (nCyclesLife t) (nCyclesRun t)
    (nCyclesThisRun t) (nCyclesBurst t) (nCyclesRemain t) (nCyclesDeposited t)
    (nCyclesDepositPerFrame t) (nCyclesPerYield t) (msStartRun t) (msEndRun t)
    (msStartThisRun t) (msOutsideThisRun t) (log t).

Definition set_nCyclesLife (x : Z) (t : time) : time :=
  mkTime (nCyclesMinimum t) (nCyclesMaximum t) (nCyclesPerSecond t)
    (nYieldsPerSecond t) (nYieldsPerUpdate t) (fClockByFrame t)
    (fRequestAnimationFrame t) (nBaseMultiplier t) (nCurrentMultiplier t)
    (nTargetMultiplier t) (mhzBase t) (mhzCurrent t) (mhzTarget t) (nYields t)
    (msYield t) (aAnimations t) (aClocks t) (aTimers t) (aUpdates t) (throttle
    t) (fPowered t) (fRunning t) (fYield t) (fThrottling t) (nStepping t)
    (idRunTimeout t) (idStepTimeout t) (idAnimation t) x (nCyclesRun t)
    (nCyclesThisRun t) (nCyclesBurst t) (nCyclesRemain t) (nCyclesDeposited t)
    (nCyclesDepositPerFrame t) (nCyclesPerYield t) (msStartRun t) (msEndRun t)
    (msStartThisRun t) (msOutsideThisRun t) (log t).

Definition set_nCyclesRun (x : Z) (t : time) : time :=
  mkTime (nCyclesMinimum t) (nCyclesMaximum t) (nCyclesPerSecond t)
    (nYieldsPerSecond t) (nYieldsPerUpdate t) (fClockByFrame t)
    (fRequestAnimationFrame t) (nBaseMultiplier t) (nCurrentMultiplier t)
    (nTargetMultiplier t) (mhzBase t) (mhzCurrent t) (mhzTarget t) (nYields t)
    (msYield t) (aAnimations t) (aClocks t) (aTimers t) (aUpdates t) (throttle
    t) (fPowered t) (fRunning t) (fYield t) (fThrottling t) (nStepping t)
    (idRunTimeout t) (idStepTimeout t) (idAnimation t) (nCyclesLife t) x
    (nCyclesThisRun t) (nCyclesBurst t) (nCyclesRemain t) (nCyclesDeposited t)
    (nCyclesDepositPerFrame t) (nCyclesPerYield t) (msStartRun t) (msEndRun t)
    (msStartThisRun t) (msOutsideThisRun t) (log t).

Definition set_nCyclesThisRun (x : Z) (t : time) : time :=
  mkTime (nCyclesMinimum t) (nCyclesMaximum t) (nCyclesPerSecond t)
    (nYieldsPerSecond t) (nYieldsPerUpdate t) (fClockByFrame t)
    (fRequestAnimationFrame t) (nBaseMultiplier t) (nCurrentMultiplier t)
    (nTargetMultiplier t) (mhzBase t) (mhzCurrent t) (mhzTarget t) (nYields t)
    (msYield t) (aAnimations t) (aClocks t) (aTimers t) (aUpdates t) (throttle
    t) (fPowered t) (fRunning t) (fYield t) (fThrottling t) (nStepping t)
    (idRunTimeout t) (idStepTimeout t) (idAnimation t) (nCyclesLife t)
    (nCyclesRun t) x (nCyclesBurst t) (nCyclesRemain t) (nCyclesDeposited t)
    (nCyclesDepositPerFrame t) (nCyclesPerYield t) (msStartRun t) (msEndRun t)
    (msStartThisRun t) (msOutsideThisRun t) (log t).

Definition set_nCyclesBurst (x : Z) (t : time) : time :=
  mkTime (nCyclesMinimum t) (nCyclesMaximum t) (nCyclesPerSecond t)
    (nYieldsPerSecond t) (nYieldsPerUpdate t) (fClockByFrame t)
    (fRequestAnimationFrame t) (nBaseMultiplier t) (nCurrentMultiplier t)
    (nTargetMultiplier t) (mhzBase t) (mhzCurrent t) (mhzTarget t) (nYields t)
    (msYield t) (aAnimations t) (aClocks t) (aTimers t) (aUpdates t) (throttle
    t) (fPowered t) (fRunning t) (fYield t) (fThrottling t) (nStepping t)
    (idRunTimeout t) (idStepTimeout t) (idAnimation t) (nCyclesLife t)
    (nCyclesRun t) (nCyclesThisRun t) x (nCyclesRemain t) (nCyclesDeposited t)
    (nCyclesDepositPerFrame t) (nCyclesPerYield t) (msStartRun t) (msEndRun t)
    (msStartThisRun t) (msOutsideThisRun t) (log t).

Definition set_nCyclesRemain (x : Z) (t : time) : time :=
  mkTime (nCyclesMinimum t) (nCyclesMaximum t) (nCyclesPerSecond t)
    (nYieldsPerSecond t) (nYieldsPerUpdate t) (fClockByFrame t)
    (fRequestAnimationFrame t) (nBaseMultiplier t) (nCurrentMultiplier t)
    (nTargetMultiplier t) (mhzBase t) (mhzCurrent t) (mhzTarget t) (nYields t)
    (msYield t) (aAnimations t) (aClocks t) (aTimers t) (aUpdates t) (throttle
    t) (fPowered t) (fRunning t) (fYield t) (fThrottling t) (nStepping t)
    (idRunTimeout t) (idStepTimeout t) (idAnimation t) (nCyclesLife t)
    (nCyclesRun t) (nCyclesThisRun t) (nCyclesBurst t) x (nCyclesDeposited t)
    (nCyclesDepositPerFrame t) (nCyclesPerYield t) (msStartRun t) (msEndRun t)
    (msStartThisRun t) (msOutsideThisRun t) (log t).

Definition set_nCyclesDeposited (x : option Q) (t : time) : time :=
  mkTime (nCyclesMinimum t) (nCyclesMaximum t) (nCyclesPerSecond t)
    (nYieldsPerSecond t) (nYieldsPerUpdate t) (fClockByFrame t)
    (fRequestAnimationFrame t) (nBaseMultiplier t) (nCurrentMultiplier t)
    (nTargetMultiplier t) (mhzBase t) (mhzCurrent t) (mhzTarget t) (nYields t)
    (msYield t) (aAnimations t) (aClocks t) (aTimers t) (aUpdates t) (throttle
    t) (fPowered t) (fRunning t) (fYield t) (fThrottling t) (nStepping t)
    (idRunTimeout t) (idStepTimeout t) (idAnimation t) (nCyclesLife t)
    (nCyclesRun t) (nCyclesThisRun t) (nCyclesBurst t) (nCyclesRemain t) x
    (nCyclesDepositPerFrame t) (nCyclesPerYield t) (msStartRun t) (msEndRun t)
    (msStartThisRun t) (msOutsideThisRun t) (log t).

Definition set_nCyclesDepositPerFrame (x : option Q) (t : time) : time :=
  mkTime (nCyclesMinimum t) (nCyclesMaximum t) (nCyclesPerSecond t)
    (nYieldsPerSecond t) (nYieldsPerUpdate t) (fClockByFrame t)
    (fRequestAnimationFrame t) (nBaseMultiplier t) (nCurrentMultiplier t)
    (nTargetMultiplier t) (mhzBase t) (mhzCurrent t) (mhzTarget t) (nYields t)
    (msYield t) (aAnimations t) (aClocks t) (aTimers t) (aUpdates t) (throttle
    t) (fPowered t) (fRunning t) (fYield t) (fThrottling t) (nStepping t)
    (idRunTimeout t) (idStepTimeout t) (idAnimation t) (nCyclesLife t)
    (nCyclesRun t) (nCyclesThisRun t) (nCyclesBurst t) (nCyclesRemain t)
    (nCyclesDeposited t) x (nCyclesPerYield t) (msStartRun t) (msEndRun t)
    (msStartThisRun t) (msOutsideThisRun t) (log t).

Definition set_nCyclesPerYield (x : Q) (t : time) : time :=
  mkTime (nCyclesMinimum t) (nCyclesMaximum t) (nCyclesPerSecond t)
    (nYieldsPerSecond t) (nYieldsPerUpdate t) (fClockByFrame t)
    (fRequestAnimationFrame t) (nBaseMultiplier t) (nCurrentMultiplier t)
    (nTargetMultiplier t) (mhzBase t) (mhzCurrent t) (mhzTarget t) (nYields t)
    (msYield t) (aAnimations t) (aClocks t) (aTimers t) (aUpdates t) (throttle
    t) (fPowered t) (fRunning t) (fYield t) (fThrottling t) (nStepping t)
    (idRunTimeout t) (idStepTimeout t) (idAnimation t) (nCyclesLife t)
    (nCyclesRun t) (nCyclesThisRun t) (nCyclesBurst t) (nCyclesRemain t)
    (nCyclesDeposited t) (nCyclesDepositPerFrame t) x (msStartRun t) (msEndRun
    t) (msStartThisRun t) (msOutsideThisRun t) (log t).

Definition set_msStartRun (x : Q) (t : time) : time :=
  mkTime (nCyclesMinimum t) (nCyclesMaximum t) (nCyclesPerSecond t)
    (nYieldsPerSecond t) (nYieldsPerUpdate t) (fClockByFrame t)
    (fRequestAnimationFrame t) (nBaseMultiplier t) (nCurrentMultiplier t)
    (nTargetMultiplier t) (mhzBase t) (mhzCurrent t) (mhzTarget t) (nYields t)
    (msYield t) (aAnimations t) (aClocks t) (aTimers t) (aUpdates t) (throttle
    t) (fPowered t) (fRunning t) (fYield t) (fThrottling t) (nStepping t)
    (idRunTimeout t) (idStepTimeout t) (idAnimation t) (nCyclesLife t)
    (nCyclesRun t) (nCyclesThisRun t) (nCyclesBurst t) (nCyclesRemain t)
    (nCyclesDeposited t) (nCyclesDepositPerFrame t) (nCyclesPerYield t) x
    (msEndRun t) (msStartThisRun t) (msOutsideThisRun t) (log t).

Definition set_msEndRun (x : Q) (t : time) : time :=
  mkTime (nCyclesMinimum t) (nCyclesMaximum t) (nCyclesPerSecond t)
    (nYieldsPerSecond t) (nYieldsPerUpdate t) (fClockByFrame t)
    (fRequestAnimationFrame t) (nBaseMultiplier t) (nCurrentMultiplier t)
    (nTargetMultiplier t) (mhzBase t) (mhzCurrent t) (mhzTarget t) (nYields t)
    (msYield t) (aAnimations t) (aClocks t) (aTimers t) (aUpdates t) (throttle
    t) (fPowered t) (fRunning t) (fYield t) (fThrottling t) (nStepping t)
    (idRunTimeout t) (idStepTimeout t) (idAnimation t) (nCyclesLife t)
    (nCyclesRun t) (nCyclesThisRun t) (nCyclesBurst t) (nCyclesRemain t)
    (nCyclesDeposited t) (nCyclesDepositPerFrame t) (nCyclesPerYield t)
    (msStartRun t) x (msStartThisRun t) (msOutsideThisRun t) (log t).

Definition set_msStartThisRun (x : Q) (t : time) : time :=
  mkTime (nCyclesMinimum t) (nCyclesMaximum t) (nCyclesPerSecond t)
    (nYieldsPerSecond t) (nYieldsPerUpdate t) (fClockByFrame t)
    (fRequestAnimationFrame t) (nBaseMultiplier t) (nCurrentMultiplier t)
    (nTargetMultiplier t) (mhzBase t) (mhzCurrent t) (mhzTarget t) (nYields t)
    (msYield t) (aAnimations t) (aClocks t) (aTimers t) (aUpdates t) (throttle
    t) (fPowered t) (fRunning t) (fYield t) (fThrottling t) (nStepping t)
    (idRunTimeout t) (idStepTimeout t) (idAnimation t) (nCyclesLife t)
    (nCyclesRun t) (nCyclesThisRun t) (nCyclesBurst t) (nCyclesRemain t)
    (nCyclesDeposited t) (nCyclesDepositPerFrame t) (nCyclesPerYield t)
    (msStartRun t) (msEndRun t) x (msOutsideThisRun t) (log t).

Definition set_msOutsideThisRun (x : Q) (t : time) : time :=
  mkTime (nCyclesMinimum t) (nCyclesMaximum t) (nCyclesPerSecond t)
    (nYieldsPerSecond t) (nYieldsPerUpdate t) (fClockByFrame t)
    (fRequestAnimationFrame t) (nBaseMultiplier t) (nCurrentMultiplier t)
    (nTargetMultiplier t) (mhzBase t) (mhzCurrent t) (mhzTarget t) (nYields t)
    (msYield t) (aAnimations t) (aClocks t) (aTimers t) (aUpdates t) (throttle
    t) (fPowered t) (fRunning t) (fYield t) (fThrottling t) (nStepping t)
    (idRunTimeout t) (idStepTimeout t) (idAnimation t) (nCyclesLife t)
    (nCyclesRun t) (nCyclesThisRun t) (nCyclesBurst t) (nCyclesRemain t)
    (nCyclesDeposited t) (nCyclesDepositPerFrame t) (nCyclesPerYield t)
    (msStartRun t) (msEndRun t) (msStartThisRun t) x (log t).

Definition set_log (x : list event) (t : time) : time :=
  mkTime (nCyclesMinimum t) (nCyclesMaximum t) (nCyclesPerSecond t)
    (nYieldsPerSecond t) (nYieldsPerUpdate t) (fClockByFrame t)
    (fRequestAnimationFrame t) (nBaseMultiplier t) (nCurrentMultiplier t)
    (nTargetMultiplier t) (mhzBase t) (mhzCurrent t) (mhzTarget t) (nYields t)
    (msYield t) (aAnimations t) (aClocks t) (aTimers t) (aUpdates t) (throttle
    t) (fPowered t) (fRunning t) (fYield t) (fThrottling t) (nStepping t)
    (idRunTimeout t) (idStepTimeout t) (idAnimation t) (nCyclesLife t)
    (nCyclesRun t) (nCyclesThisRun t) (nCyclesBurst t) (nCyclesRemain t)
    (nCyclesDeposited t) (nCyclesDepositPerFrame t) (nCyclesPerYield t)
    (msStartRun t) (msEndRun t) (msStartThisRun t) (msOutsideThisRun t) x.

(** The result of a function that runs clocked devices: it returns, or
    an exception leaves it, or the model runs out of fuel. *)
Inductive result (A : Type) :=
  | Ok (a : A) (t : time)
  | Throw (message : nat) (t : time)
  | OutOfFuel.
Arguments Ok {A} a t.
Arguments Throw {A} message t.
Arguments OutOfFuel {A}.

Definition emit (e : event) (t : time) : time := set_log (log t ++ [e]) t.

Definition println (m : message) (t : time) : time := emit (Print m) t.
Definition setBindingText (b : binding) (t : time) : time := emit (BindingText b) t.

(** [getBounded(n, min, max)] *)
Definition getBounded (n min max : Q) : Q :=
  let n := if Qltb n min then min else n in
  if Qltb max n then max else n.

(** [getCyclesPerMS(ms)] *)
Definition getCyclesPerMS (ms : Q) (t : time) : Z :=
  Qceiling (fmul (fdiv (fmul (nCyclesPerSecond t) (nCurrentMultiplier t)) 1000) ms).

(** [calcCycles()] *)
Definition calcCycles (t : time) : time :=
  let nMultiplier := fdiv (mhzCurrent t) (mhzBase t) in
  let nMultiplier :=
    if Qeqb nMultiplier 0 || Qltb (nTargetMultiplier t) nMultiplier
    then nTargetMultiplier t else nMultiplier in
  set_nCurrentMultiplier nMultiplier
    (set_nCyclesPerYield
       (fmul (fdiv (nCyclesPerSecond t) (nYieldsPerSecond t)) nMultiplier) t).

(** [calcSpeed(nCycles, msElapsed)] *)
Definition calcSpeed (nCycles : Z) (msElapsed : Q) (t : time) : time :=
  if negb (Qeqb msElapsed 0)
  then set_mhzCurrent (fdiv (fdiv (inject_Z nCycles) (fmul msElapsed 10)) 100) t
  else t.

(** [update(fTransition)]; [None] is a call without argument. *)
Definition update (fTransition : option bool) (t : time) : time :=
  let t :=
    match fTransition with
    | Some true => println (if fRunning t then Started else Stopped) t
    | _ => t
    end in
  let t := setBindingText RUN t in
  let t := setBindingText STEP t in
  let t := if negb (fThrottling t) then setBindingText SPEED t else t in
  fold_left (fun t device => emit (OnUpdate device (bool_decide (is_Some fTransition))) t)
            (aUpdates t) t.

(** [yield()] *)
Definition yield (t : time) : time :=
  let t := set_fYield true t in
  let nYields0 := nYields t in
  let nCyclesPerSecond := getCyclesPerMS 1000 t in
  let t :=
    if Qleb (nYieldsPerSecond t) (inject_Z nCyclesPerSecond)
    then set_nYields (nYields t + 1)%Z t
    else set_nYields
           (nYields t + Qceiling (fdiv (nYieldsPerSecond t) (inject_Z nCyclesPerSecond)))%Z
           t in
  let t :=
    if Qleb (nYieldsPerUpdate t) (inject_Z (nYields t))
       && Qltb (inject_Z nYields0) (nYieldsPerUpdate t)
    then update None t else t in
  if Qleb (nYieldsPerSecond t) (inject_Z (nYields t)) then set_nYields 0%Z t else t.

(** [endBurst(nCycles)]; without argument [nCycles] is
    [nCyclesBurst - nCyclesRemain]. *)
Definition endBurst (arg : option Z) (t : time) : Z * time :=
  let nCycles :=
    match arg with Some n => n | None => (nCyclesBurst t - nCyclesRemain t)%Z end in
  let t :=
    if fClockByFrame t then
      let t :=
        if negb (fRunning t) then
          let t :=
            if ntruthy (nCyclesDeposited t)
            then fold_left (fun t clock => emit (StopClock clock) t) (aClocks t) t
            else t in
          set_nCyclesDeposited (Some (inject_Z nCycles)) t
        else t in
      let t :=
        set_nCyclesDeposited (nsub (nCyclesDeposited t) (Some (inject_Z nCycles))) t in
      if nlt (nCyclesDeposited t) 1 then yield t else t
    else t in
  let t := set_nCyclesRemain 0%Z (set_nCyclesBurst 0%Z t) in
  let t := set_nCyclesThisRun (nCyclesThisRun t + nCycles)%Z t in
  let t := set_nCyclesRun (nCyclesRun t + nCycles)%Z t in
  let t := set_nCyclesLife (nCyclesLife t + nCycles)%Z t in
  let t := if negb (fRunning t) then set_nCyclesRun 0%Z t else t in
  (nCycles, t).

(** [setTimer(iTimer, ms, fReset)]; [iTimer] counts from 1. *)
Definition setTimer (iTimer : Z) (ms : Q) (fReset : bool) (t : time) : Z * time :=
  if ((0 <? iTimer) && (iTimer <=? Z.of_nat (length (aTimers t))))%Z then
    match aTimers t !! Z.to_nat (iTimer - 1) with
    | None => ((-1)%Z, t)
    | Some tm =>
        if fReset || (nCyclesLeft tm <? 0)%Z then
          let nCycles := getCyclesPerMS ms t in
          let '(nCycles, t) :=
            if fRunning t
            then let '(n, t) := endBurst None t in ((nCycles + n)%Z, t)
            else (nCycles, t) in
          (nCycles,
           set_aTimers
             (alter (set_nCyclesLeft nCycles) (Z.to_nat (iTimer - 1)) (aTimers t)) t)
        else ((-1)%Z, t)
    end
  else ((-1)%Z, t).

(** [addTimer(id, callBack, msAuto)]; without [msAuto] it is -1. *)
Definition addTimer (id : nat) (cb : callback) (msAuto : Q) (t : time) : Z * time :=
  let iTimer := (Z.of_nat (length (aTimers t)) + 1)%Z in
  let t := set_aTimers (aTimers t ++ [mkTimer id cb msAuto (-1)]) t in
  let t := if Qleb 0 msAuto then snd (setTimer iTimer msAuto false t) else t in
  (iTimer, t).

(** [addAnimation], [addClock], [addUpdate] *)
Definition addAnimation (f : nat) (t : time) : time :=
  set_aAnimations (aAnimations t ++ [f]) t.
Definition addClock (clock : nat) (t : time) : time :=
  set_aClocks (aClocks t ++ [clock]) t.
Definition addUpdate (device : nat) (t : time) : time :=
  set_aUpdates (aUpdates t ++ [device]) t.

(** The indices [length, ..., 1] that the loops over the timers visit. *)
Definition timerIndices (t : time) : list Z :=
  map (fun i => Z.of_nat (S i)) (rev (seq 0 (length (aTimers t)))).

(** [resetTimers()] *)
Definition resetTimers (t : time) : time :=
  fold_left
    (fun t iTimer =>
       match aTimers t !! Z.to_nat (iTimer - 1) with
       | Some tm =>
           if Qleb 0 (msAuto tm) then snd (setTimer iTimer (msAuto tm) true t) else t
       | None => t
       end)
    (timerIndices t) t.

(** [setSpeed(nMultiplier)]; [None] is a call without argument. *)
Definition setSpeed (nMultiplier : option Q) (t : time) : bool * time :=
  let '(fSuccess, t) :=
    match nMultiplier with
    | None => (true, t)
    | Some nMultiplier =>
        let revert :=
          negb (fThrottling t) && Qltb 0 (mhzCurrent t)
          && Qltb (mhzCurrent t) (fmul (mhzTarget t) (fl (9 # 10))) in
        let nMultiplier := if revert then nBaseMultiplier t else nMultiplier in
        let t := set_nTargetMultiplier nMultiplier t in
        let mhzTarget' := fmul (mhzBase t) (nTargetMultiplier t) in
        let t :=
          if negb (Qeqb (mhzTarget t) mhzTarget')
          then setBindingText SPEED (set_mhzTarget mhzTarget' t) else t in
        (negb revert, set_mhzCurrent (mhzTarget t) t)
    end in
  let t :=
    if fClockByFrame t then
      let nCyclesPerSecond := fmul (mhzCurrent t) 1000000 in
      set_nCyclesDeposited (Some 0)
        (set_nCyclesDepositPerFrame
           (Some (fadd (fdiv nCyclesPerSecond 60) (fl (1 # 100000000)))) t)
    else t in
  let t := set_nCyclesRun 0%Z t in
  let t := set_msEndRun 0 (set_msStartRun 0 t) in
  (fSuccess, resetTimers (calcCycles t)).

(** [setSpeedThrottle()] *)
Definition setSpeedThrottle (t : time) : bool * time :=
  match throttle t with
  | Some (value, min, max) =>
      let ratio := fdiv (fsub value min) (fsub max min) in
      let nCycles :=
        Qfloor (fadd (fmul (fsub (nCyclesMaximum t) (nCyclesMinimum t)) ratio)
                  (nCyclesMinimum t)) in
      let nMultiplier := fdiv (inject_Z nCycles) (nCyclesPerSecond t) in
      (true, snd (setSpeed (Some nMultiplier) t))
  | None => (false, t)
  end.

(** [resetSpeed()] *)
Definition resetSpeed (t : time) : time :=
  let t := set_nCyclesRemain 0%Z (set_nCyclesBurst 0%Z (set_nCyclesRun 0%Z t)) in
  let '(found, t) := setSpeedThrottle t in
  if negb found then snd (setSpeed (Some (nBaseMultiplier t)) t) else t.

(** [TimeConfig], each property optional. *)
Record config := mkConfig {
  cyclesMinimum : option Q;
  cyclesMaximum : option Q;
  cyclesPerSecond : option Q;
  yieldsPerSecond : option Q;
  yieldsPerUpdate : option Q;
  clockByFrame : option bool;
  requestAnimationFrame : option bool
}.

Definition YIELDS_PER_SECOND : Q := 120.
Definition YIELDS_PER_UPDATE : Q := 60.

(** [new Time(idMachine, idDevice, config)] *)
Definition new (cfg : config) : time :=
  let nCyclesMinimum := default 100000 (cyclesMinimum cfg) in
  let nCyclesMaximum := default 3000000 (cyclesMaximum cfg) in
  let nCyclesPerSecond :=
    getBounded (default 650000 (cyclesPerSecond cfg)) nCyclesMinimum nCyclesMaximum in
  let nYieldsPerSecond :=
    getBounded (default YIELDS_PER_SECOND (yieldsPerSecond cfg)) 30 120 in
  let nYieldsPerUpdate :=
    getBounded (default YIELDS_PER_UPDATE (yieldsPerUpdate cfg)) 1 nYieldsPerSecond in
  let fClockByFrame := default (Qleb nCyclesPerSecond 120) (clockByFrame cfg) in
  let fRequestAnimationFrame :=
    fClockByFrame || default true (requestAnimationFrame cfg) in
  let mhzBase := fdiv (fdiv nCyclesPerSecond 10000) 100 in
  let msYield := inject_Z (Qround (fdiv 1000 nYieldsPerSecond)) in
  let t :=
    mkTime nCyclesMinimum nCyclesMaximum nCyclesPerSecond nYieldsPerSecond
      nYieldsPerUpdate fClockByFrame fRequestAnimationFrame
      1 1 1 mhzBase (fmul mhzBase 1) (fmul mhzBase 1) 0%Z msYield
      [] [] [] [] None false false false false 0%Z 0%Z 0%Z 0%Z
      0%Z 0%Z 0%Z 0%Z 0%Z
      (if fClockByFrame then Some 0 else None)
      (if fClockByFrame then Some 0 else None)
      0 0 0 0 0 [] in
  let t := if fClockByFrame then t else snd (addTimer 0 onYield msYield t) in
  resetSpeed t.

(** The first half of [getCyclesPerRun] without [nMinCycles]: the cycles that
    the target rate allows, from the deposit of the animation frames or from
    the yield period. *)
Definition rateBudget (fAnimation : bool) (t : time) : Z * time :=
  if fAnimation then
    let '(nCycles, t) :=
      if nlt (nCyclesDeposited t) 1 then
        let d := nadd (nCyclesDeposited t) (nCyclesDepositPerFrame t) in
        (d, set_nCyclesDeposited d t)
      else (nCyclesDeposited t, t) in
    let '(nCycles, t) :=
      if nlt nCycles 0
      then (Some 0, set_nCyclesDeposited (Some 0) (emit (Print NegativeCycles) t))
      else (nCycles, t) in
    (nint32 nCycles, t)
  else (getCyclesPerMS (msYield t) t, t).

(** The body of the loop of [getCyclesPerRun] over the timers. *)
Definition capByTimer (nCycles : Z) (tm : timer) : Z :=
  if (nCyclesLeft tm <? 0)%Z then nCycles
  else if (nCyclesLeft tm <? nCycles)%Z then nCyclesLeft tm
  else nCycles.

(** [getCyclesPerRun(fAnimation, nMinCycles)]; without [nMinCycles] it
    is 0. *)
Definition getCyclesPerRun (fAnimation : bool) (nMinCycles : Z) (t : time)
  : Z * time :=
  if negb (nMinCycles =? 0)%Z then
    (nMinCycles,
     set_nCyclesDeposited (nadd (nCyclesDeposited t) (Some (inject_Z nMinCycles))) t)
  else
    let '(nCycles, t) := rateBudget fAnimation t in
    (fold_left
       (fun nCycles iTimer =>
          match aTimers t !! Z.to_nat (iTimer - 1) with
          | Some tm => capByTimer nCycles tm
          | None => nCycles
          end)
       (timerIndices t) nCycles,
     t).

Section Host.

Variable h : host.

(** [timer.callBack()]: the scheduler's own callback is [yield]; the
    callback of a device is recorded, and the calls of [setTimer] that it
    makes are carried out. *)
Definition invoke (cb : callback) (t : time) : time :=
  let t := emit (Callback cb) t in
  match cb with
  | onYield => yield t
  | external f =>
      fold_left
        (fun t '(iTimer, ms, fReset) => snd (setTimer iTimer ms fReset t))
        (timerCalls h (log t) f) t
  end.

(** One timer of [notifyTimers]: the body of its loop for [iTimer]. *)
Definition notifyTimer (nCycles : Z) (t : time) (iTimer : Z) : time :=
  match aTimers t !! Z.to_nat (iTimer - 1) with
  | None => t
  | Some tm =>
      if (nCyclesLeft tm <? 0)%Z then t
      else
        let left := (nCyclesLeft tm - nCycles)%Z in
        let arm n t :=
          set_aTimers (alter (set_nCyclesLeft n) (Z.to_nat (iTimer - 1)) (aTimers t)) t in
        let t := arm left t in
        if (left <=? 0)%Z then
          let t := arm (-1)%Z t in
          let t := invoke (callBack tm) t in
          if Qleb 0 (msAuto tm) then snd (setTimer iTimer (msAuto tm) false t) else t
        else t
  end.

(** [notifyTimers(nCycles)] *)
Definition notifyTimers (nCycles : Z) (t : time) : time :=
  if (1 <=? nCycles)%Z
  then fold_left (notifyTimer nCycles) (timerIndices t) t
  else t.

(** The loop of [doBurst]: [while (this.nCyclesRemain > 0) { ... }]. *)
Fixpoint doBurstLoop (fuel : nat) (iClock : nat) (nCycles : Z) (t : time)
  : result Z :=
  match fuel with
  | O => OutOfFuel
  | S fuel' =>
      if (0 <? nCyclesRemain t)%Z then
        match aClocks t !! iClock with
        | Some clock =>
            let r := startClock h (log t) clock nCycles in
            let t := emit (StartClock clock nCycles r) t in
            match r with
            | Throws e => Throw e t
            | Returns n =>
                let nCycles := if (n =? 0)%Z then 1%Z else n in
                doBurstLoop fuel' (S iClock) nCycles
                  (set_nCyclesRemain (nCyclesRemain t - nCycles)%Z t)
            end
        | None =>
            doBurstLoop fuel' 0 0%Z (set_nCyclesRemain (nCyclesRemain t - 0)%Z t)
        end
      else Ok (nCyclesBurst t - nCyclesRemain t)%Z t
  end.

(** [doBurst(nCycles)] *)
Definition doBurst (fuel : nat) (nCycles : Z) (t : time) : result Z :=
  let t := set_nCyclesRemain nCycles (set_nCyclesBurst nCycles t) in
  match aClocks t with
  | [] => Ok (nCyclesBurst t) (set_nCyclesRemain 0%Z t)
  | _ => doBurstLoop fuel 0 nCycles t
  end.

(** [notifyTimers(endBurst(doBurst(getCyclesPerRun(fAnimation, nMinCycles))))] *)
Definition burst (fuel : nat) (fAnimation : bool) (nMinCycles : Z) (t : time)
  : result unit :=
  let '(nCycles, t) := getCyclesPerRun fAnimation nMinCycles t in
  match doBurst fuel nCycles t with
  | Ok n t =>
      let '(n, t) := endBurst (Some n) t in
      Ok tt (notifyTimers n t)
  | Throw e t => Throw e t
  | OutOfFuel => OutOfFuel
  end.

(** [setTimeout(f, ms)] and [requestAnimationFrame(f)] *)
Definition setTimeout (f : task) (ms : Q) (t : time) : Z * time :=
  let i := newId h (log t) in (i, emit (SetTimeout f ms i) t).
Definition requestFrame (t : time) : Z * time :=
  let i := newId h (log t) in (i, emit (RequestAnimationFrame i) t).

(** [start()] *)
Definition start (t : time) : bool * time :=
  if fRunning t || negb (nStepping t =? 0)%Z then (false, t)
  else
    let t := set_fRunning true t in
    let t := set_msEndRun 0 (set_msStartRun 0 t) in
    let t := update (Some true) t in
    let t :=
      if negb (fClockByFrame t)
      then let '(i, t) := setTimeout onRunTimeout 0 t in set_idRunTimeout i t
      else t in
    let t :=
      if fRequestAnimationFrame t
      then let '(i, t) := requestFrame t in set_idAnimation i t
      else t in
    (true, t).

(** [stop()] *)
Definition stop (t : time) : bool * time :=
  if fRunning t then
    let t := set_fRunning false t in
    let t := snd (endBurst None t) in
    let t :=
      if negb (idRunTimeout t =? 0)%Z
      then set_idRunTimeout 0%Z (emit (ClearTimeout (idRunTimeout t)) t) else t in
    let t :=
      if negb (idAnimation t =? 0)%Z
      then set_idAnimation 0%Z (emit (CancelAnimationFrame (idAnimation t)) t) else t in
    (true, update (Some true) t)
  else if negb (nStepping t =? 0)%Z then
    (true, update (Some true) (set_nStepping 0%Z t))
  else (false, t).

(** [step(nRepeat)]; without [nRepeat] it is 1. *)
Definition step (fuel : nat) (nRepeat : Z) (t : time) : result bool :=
  if negb (fRunning t) then
    let t :=
      if negb (nRepeat =? 0)%Z && (nStepping t =? 0)%Z
      then set_nStepping nRepeat t else t in
    if negb (nStepping t =? 0)%Z then
      let t := set_nStepping (nStepping t - 1)%Z t in
      match burst fuel true 1 t with
      | Ok _ t =>
          let t := update (Some false) t in
          if negb (nStepping t =? 0)%Z then
            let '(i, t) := setTimeout onStepTimeout 0 t in
            Ok true (set_idStepTimeout i t)
          else Ok true t
      | Throw e t => Throw e t
      | OutOfFuel => OutOfFuel
      end
    else Ok true t
  else Ok false t.

(** [startRun()] *)
Definition startRun (t : time) : time :=
  let t := calcCycles t in
  let t := set_msOutsideThisRun 0 (set_nCyclesThisRun 0%Z t) in
  let now := dateNow h (log t) in
  let t := set_msStartThisRun now (emit (DateNow now) t) in
  let t := if Qeqb (msStartRun t) 0 then set_msStartRun (msStartThisRun t) t else t in
  if negb (Qeqb (msEndRun t) 0) then
    let msDelta := fsub (msStartThisRun t) (msEndRun t) in
    if Qltb (msYield t) msDelta then
      let t := set_msStartRun (fadd (msStartRun t) msDelta) t in
      if Qltb (msStartThisRun t) (msStartRun t)
      then set_msStartRun (msStartThisRun t) t else t
    else t
  else t.

(** [stopRun()] *)
Definition stopRun (t : time) : Q * time :=
  let now := dateNow h (log t) in
  let t := set_msEndRun now (emit (DateNow now) t) in
  let t :=
    if negb (Qeqb (msOutsideThisRun t) 0)
    then set_msStartThisRun (fadd (msStartThisRun t) (msOutsideThisRun t))
           (set_msStartRun (fadd (msStartRun t) (msOutsideThisRun t)) t)
    else t in
  let msYield' :=
    if negb (nCyclesThisRun t =? 0)%Z
    then inject_Z
           (Qround (fdiv (fmul (msYield t) (inject_Z (nCyclesThisRun t)))
                      (nCyclesPerYield t)))
    else msYield t in
  let msElapsedThisRun := fsub (msEndRun t) (msStartThisRun t) in
  let msRemainsThisRun := fsub msYield' msElapsedThisRun in
  let nCycles := nCyclesRun t in
  let msElapsed := fsub (msEndRun t) (msStartRun t) in
  let t :=
    if Qltb msRemainsThisRun 0 && Qltb 1 (nTargetMultiplier t)
    then println SlowUpdates t else t in
  let t := calcSpeed nCycles msElapsed t in
  let '(msRemainsThisRun, t) :=
    if Qltb msRemainsThisRun 0 then
      (0,
       if Qltb msRemainsThisRun (-1000)
       then set_msStartRun (fsub (msStartRun t) msRemainsThisRun) t else t)
    else if Qltb (mhzCurrent t) (mhzTarget t) then (0, t)
    else (msRemainsThisRun, t) in
  (msRemainsThisRun, set_msEndRun (fadd (msEndRun t) msRemainsThisRun) t).

(** The loop of [runCycles]:
    [do { ... } while (this.fRunning && !this.fYield)]. *)
Fixpoint runLoop (fuel : nat) (fAnimation : bool) (t : time) : result unit :=
  match fuel with
  | O => OutOfFuel
  | S fuel' =>
      match burst fuel fAnimation 0 t with
      | Ok _ t =>
          if fRunning t && negb (fYield t) then runLoop fuel' fAnimation t
          else Ok tt t
      | Throw e t => Throw e t
      | OutOfFuel => OutOfFuel
      end
  end.

(** [runCycles(fAnimation)]: an exception of the loop is caught. *)
Definition runCycles (fuel : nat) (fAnimation : bool) (t : time) : result Q :=
  let t := startRun t in
  let t := set_fYield false t in
  match runLoop fuel fAnimation t with
  | Ok _ t => let '(ms, t) := stopRun t in Ok ms t
  | Throw e t =>
      let t := println (ErrorMessage e) t in
      let t := snd (stop t) in
      let '(ms, t) := stopRun t in Ok ms t
  | OutOfFuel => OutOfFuel
  end.

(** [animate(t)], the callback of [requestAnimationFrame]. *)
Definition animate (fuel : nat) (t : time) : result unit :=
  let continue t :=
    let t := fold_left (fun t f => emit (Animation f) t) (aAnimations t) t in
    if fRunning t && fRequestAnimationFrame t
    then let '(i, t) := requestFrame t in Ok tt (set_idAnimation i t)
    else Ok tt t in
  if fClockByFrame t then
    let t := set_idAnimation 0%Z t in
    if negb (fRunning t) then Ok tt t
    else
      match runCycles fuel true t with
      | Ok _ t => continue t
      | Throw e t => Throw e t
      | OutOfFuel => OutOfFuel
      end
  else continue t.

(** [run()], the callback of [setTimeout] while running. *)
Definition run (fuel : nat) (t : time) : result unit :=
  let t := set_idRunTimeout 0%Z t in
  if negb (fRunning t) then Ok tt t
  else
    match runCycles fuel false t with
    | Ok msRemains t =>
        if fRunning t then
          let '(i, t) := setTimeout onRunTimeout msRemains t in
          let t := set_idRunTimeout i t in
          if negb (fRequestAnimationFrame t) then animate fuel t else Ok tt t
        else Ok tt t
    | Throw e t => Throw e t
    | OutOfFuel => OutOfFuel
    end.

(** The states that the operations of the scheduler reach from a new one. *)
Definition final {A} (r : result A) : option time :=
  match r with Ok _ t => Some t | Throw _ t => Some t | OutOfFuel => None end.

Inductive reachable : time -> Prop :=
  | reach_new cfg : reachable (new cfg)
  | reach_addClock clock t : reachable t -> reachable (addClock clock t)
  | reach_addTimer i f ms t :
      reachable t -> reachable (snd (addTimer i (external f) ms t))
  | reach_addUpdate device t : reachable t -> reachable (addUpdate device t)
  | reach_addAnimation f t : reachable t -> reachable (addAnimation f t)
  | reach_setTimer iTimer ms fReset t :
      reachable t -> reachable (snd (setTimer iTimer ms fReset t))
  | reach_setSpeed nMultiplier t :
      reachable t -> reachable (snd (setSpeed nMultiplier t))
  | reach_start t : reachable t -> reachable (snd (start t))
  | reach_stop t : reachable t -> reachable (snd (stop t))
  | reach_step fuel nRepeat t t' :
      reachable t -> final (step fuel nRepeat t) = Some t' -> reachable t'
  | reach_run fuel t t' :
      reachable t -> final (run fuel t) = Some t' -> reachable t'
  | reach_animate fuel t t' :
      reachable t -> final (animate fuel t) = Some t' -> reachable t'.

End Host.

(** *** What [notifyTimers] is specified to do

    The callbacks invoked according to a log, in order. *)
Definition callbacks (l : list event) : list callback :=
  omap (fun e => match e with Callback cb => Some cb | _ => None end) l.


(** The cycles of [ms] milliseconds at a multiplier: the cycles of one
    second times the multiplier, by 1000, times [ms], each step a double,
    and the next integer at or above. *)
Definition cyclesAt (nCyclesPerSecond nMultiplier ms : Q) : Z :=
  Qceiling (fl (fl (fl (nCyclesPerSecond * nMultiplier) / 1000) * ms)).



(** *** Relations between the states of the scheduler

    [ext l l']: the log [l'] goes on from [l] with calls none of which is a
    callback of a timer. *)
Definition ext (l l' : list event) : Prop :=
  exists m, callbacks m = [] /\ l' = l ++ m.

(** [logged t t']: the state [t'] is [t] with such a longer log. *)
Definition logged (t t' : time) : Prop :=
  exists l', ext (log t) l' /\ t' = set_log l' t.

(** The fields that a burst, its accounting and the timers change. *)
Definition touch (l : list event) (y : Z) (fy : bool) (d : option Q)
    (life run thisRun remain burst : Z) (ts : list timer) (t : time) : time :=
  set_log l (set_nYields y (set_fYield fy (set_nCyclesDeposited d
    (set_nCyclesLife life (set_nCyclesRun run (set_nCyclesThisRun thisRun
      (set_nCyclesRemain remain (set_nCyclesBurst burst (set_aTimers ts t))))))))).

(** [touched t t']: the state [t'] differs from [t] in these fields only. *)
Definition touched (t t' : time) : Prop :=
  exists l y fy d life run thisRun remain burst ts,
    t' = touch l y fy d life run thisRun remain burst ts t.

(** [after P r]: the state in which [r] ends, by a return or by an
    exception, has the property [P]. *)
Definition after {A} (P : time -> Prop) (r : result A) : Prop :=
  match r with Ok _ t | Throw _ t => P t | OutOfFuel => True end.

(** [thrownBy r]: when [r] is an exception, the last call in the log is the
    call of [startClock] that threw it. *)
Definition thrownBy {A} (r : result A) : Prop :=
  match r with
  | Throw e t => exists clock n, last (log t) = Some (StartClock clock n (Throws e))
  | _ => True
  end.

(** A host whose clocks execute exactly the cycles they are asked for, as
    [CPU.startClock] does for a target of one cycle or more. *)
Definition exact (h : host) : Prop :=
  forall l clock nCycles,
    (1 <= nCycles)%Z -> startClock h l clock nCycles = Returns nCycles.

(** A host whose clocks return, and never a negative count. *)
Definition polite (h : host) : Prop :=
  forall l clock nCycles,
    exists n, startClock h l clock nCycles = Returns n /\ (0 <= n)%Z.

(** The cycles that the clocks report in a log; a report of 0 counts as 1,
    as in [doBurst]. *)
Definition clocked (l : list event) : Z :=
  fold_right
    (fun e n =>
       match e with
       | StartClock _ _ (Returns m) => ((if (m =? 0)%Z then 1 else m) + n)%Z
       | _ => n
       end)
    0%Z l.

(** [getCycles()]; [getClock] is what each clocked device answers to
    [getClock()]. *)
Definition getCycles (getClock : nat -> Z) (t : time) : Z :=
  let nCyclesClocked :=
    fold_left (fun n clock => (n + getClock clock)%Z) (aClocks t) 0%Z in
  (nCyclesLife t + (nCyclesBurst t - nCyclesRemain t) + nCyclesClocked)%Z.

(** The rates of a scheduler are sane: the yields per second and per
    update are within the bounds of the constructor, and the machine is not
    clocked faster than its target. *)
Definition sane (t : time) : Prop :=
  30 <= nYieldsPerSecond t <= 120 /\
  1 <= nYieldsPerUpdate t <= nYieldsPerSecond t /\
  nCurrentMultiplier t <= nTargetMultiplier t.

(** [steady t t']: between [t] and [t'] the rates and the target are the
    same, and the current multiplier is the same or has been computed
    anew. *)
Definition steady (t t' : time) : Prop :=
  nYieldsPerSecond t' = nYieldsPerSecond t /\
  nYieldsPerUpdate t' = nYieldsPerUpdate t /\
  nTargetMultiplier t' = nTargetMultiplier t /\
  (nCurrentMultiplier t' = nCurrentMultiplier t \/
   nCurrentMultiplier t' <= nTargetMultiplier t').

(** [settles t t']: the machine does not start to run between [t] and [t'],
    and the steps to go are the same or none. *)
Definition settles (t t' : time) : Prop :=
  (fRunning t' = true -> fRunning t = true) /\
  (nStepping t' = nStepping t \/ nStepping t' = 0%Z).

(** A running machine has no steps to go. *)
Definition exclusive (t : time) : Prop := fRunning t = true -> nStepping t = 0%Z.

End Time.
(** ** Concrete inputs

    Small machines on which the theorems below are instantiated. *)

Module Examples.
Import JS.

(** A four-unit READWRITE block at address 0 of a STATIC 8-bit bus, without
    [ArrayBuffer] support, on a little-endian host. *)
Definition staticBlock : Memory.block :=
  Memory.new true false (Memory.mkBusInfo Memory.STATIC 8 true)
    (Memory.mkConfig (Some 0) 4 (Some Memory.TYPE.READWRITE) None).

(** The same block on a DYNAMIC bus. *)
Definition dynamicBlock : Memory.block :=
  Memory.new true false (Memory.mkBusInfo Memory.DYNAMIC 8 true)
    (Memory.mkConfig (Some 0) 4 (Some Memory.TYPE.READWRITE) None).

(** [staticBlock] with the function 7 installed as read and as write trap. *)
Definition trappedBlock : Memory.block :=
  snd (Memory.trapWrite 7 (snd (Memory.trapRead 7 staticBlock))).

(** A four-byte READWRITE block of a big-endian STATIC bus, backed by a
    byte buffer, on a little-endian host. *)
Definition bufferBlock : Memory.block :=
  Memory.new true true (Memory.mkBusInfo Memory.STATIC 8 false)
    (Memory.mkConfig (Some 0) 4 (Some Memory.TYPE.READWRITE) None).

(** A DYNAMIC bus of 12 address bits and block size 1024: four slots. *)
Definition smallBusConfig : Bus.config :=
  Bus.mkConfig false (Some 12) None (Some 1024) None.

Definition smallBus : Bus.bus :=
  default (Bus.mkBus Memory.DYNAMIC 0 0 0 0 0 0 0 0 0 true [] 0 [])
          (Bus.new true false smallBusConfig).

(** [smallBus] with two READWRITE blocks at the addresses 1024 to 3071. *)
Definition ramBus : Bus.bus :=
  match
    Bus.addBlocks true false smallBus 1024 2048 (Some Memory.TYPE.READWRITE) None
  with
  | Some (_, b) => b
  | None => smallBus
  end.

(** The first of the two blocks. *)
Definition ramBlock : Memory.block :=
  Memory.new true false (Bus.info smallBus)
    (Memory.mkConfig (Some 1024) 1024 (Some Memory.TYPE.READWRITE) None).

(** The second of the two blocks. *)
Definition ramBlockNext : Memory.block :=
  Memory.new true false (Bus.info smallBus)
    (Memory.mkConfig (Some 2048) 1024 (Some Memory.TYPE.READWRITE) None).

(** A STATIC bus of the same geometry with the same two blocks, after a
    write at the address 1030. *)
Definition staticBus : Bus.bus :=
  Bus.run true false
    [Bus.AddBlocks 1024 2048 (Some Memory.TYPE.READWRITE); Bus.WriteData 1030 5]
    (default smallBus
       (Bus.new true false (Bus.mkConfig true (Some 12) None (Some 1024) None))).

(** A scheduler with the default configuration: 650000 cycles per second,
    and the timer of [yield] armed for 8 milliseconds, 5200 cycles. *)
Definition timeConfig : Time.config :=
  Time.mkConfig None None None None None None None.

Definition machine : Time.time := Time.new timeConfig.

(** A host whose clock 0 executes 100 cycles at each call and whose other
    clocks throw the error 7; its time stands still and its callbacks call
    nothing. *)
Definition faultyHost : Time.host :=
  Time.mkHost
    (fun _ clock _ =>
       match clock with O => Time.Returns 100 | _ => Time.Throws 7 end)
    (fun _ _ => [])
    (fun _ => 0%Q)
    (fun _ => 1).

(** A host whose clocks execute exactly the cycles asked for (one cycle
    when asked for less). *)
Definition exactHost : Time.host :=
  Time.mkHost
    (fun _ _ nCycles => Time.Returns (Z.max 1 nCycles))
    (fun _ _ => [])
    (fun _ => 0%Q)
    (fun _ => 1).



(** [machine] with the clocks 0 and 1, started. *)
Definition faultyMachine : Time.time :=
  snd (Time.start faultyHost (Time.addClock 1 (Time.addClock 0 machine))).

(** The state in which the exception of clock 1 leaves the loop of
    [runCycles]. *)
Definition faultyState : Time.time :=
  match
    Time.runLoop faultyHost 5 false
      (Time.set_fYield false (Time.startRun faultyHost faultyMachine))
  with
  | Time.Throw _ t => t
  | _ => faultyMachine
  end.

End Examples.

(** * Properties *)

Import JS.

(** ** Arrays *)

Lemma length_aset a i v :
  length (aset a i v) = Nat.max (length a) (S i).
Proof.
  unfold aset. destruct (Nat.ltb_spec i (length a)).
  - rewrite length_insert. lia.
  - rewrite !length_app, length_replicate. simpl. lia.
Qed.

Lemma aset_end a v : aset a (length a) v = a ++ [v].
Proof.
  unfold aset. rewrite Nat.ltb_irrefl, Nat.sub_diag. reflexivity.
Qed.

Lemma aget_aset_eq a i v : aget (aset a i v) i = v.
Proof.
  unfold aget, aset. destruct (Nat.ltb_spec i (length a)).
  - rewrite list_lookup_insert_eq by lia. reflexivity.
  - rewrite lookup_app_r by lia.
    rewrite lookup_app_r by (rewrite length_replicate; lia).
    rewrite length_replicate.
    replace (i - length a - (i - length a))%nat with 0%nat by lia. reflexivity.
Qed.

Lemma aget_aset_ne a i j v : i <> j -> (j < length a)%nat -> aget (aset a i v) j = aget a j.
Proof.
  intros Hne Hj. unfold aget, aset. destruct (Nat.ltb_spec i (length a)).
  - rewrite list_lookup_insert_ne by done. reflexivity.
  - rewrite lookup_app_l by lia. reflexivity.
Qed.


(** ** Doubles *)

Section Doubles.

(** What [divEven] returns is a nearest integer, and the even one of two. *)
Lemma divEven_spec n d :
  0 < d ->
  let q := divEven n d in
  (2 * q - 1) * d <= 2 * n <= (2 * q + 1) * d /\
  (2 * n = (2 * q - 1) * d -> Z.even q = true) /\
  (2 * n = (2 * q + 1) * d -> Z.even q = true).
Proof.
  intros Hd. unfold divEven. cbv zeta.
  pose proof (Z.div_mod n d ltac:(lia)) as E.
  pose proof (Z.mod_pos_bound n d Hd) as Hr.
  set (q0 := n / d) in *. set (r := n mod d) in *.
  destruct (Z.ltb_spec (2 * r) d) as [H1|H1]; [split; [nia|split; intros; nia]|].
  destruct (Z.ltb_spec d (2 * r)) as [H2|H2]; [split; [nia|split; intros; nia]|].
  destruct (Z.even q0) eqn:Ev.
  - split; [nia|]. split; [intros; nia|intros _; exact Ev].
  - split; [nia|]. split; [|intros; nia].
    intros _. replace (q0 + 1) with (Z.succ q0) by lia.
    rewrite Z.even_succ, <- Z.negb_even, Ev. reflexivity.
Qed.

Lemma divEven_mono n1 d1 n2 d2 :
  0 < d1 -> 0 < d2 -> n1 * d2 <= n2 * d1 -> divEven n1 d1 <= divEven n2 d2.
Proof.
  intros Hd1 Hd2 Hle.
  destruct (divEven_spec n1 d1 Hd1) as ((L1 & _) & T1 & _).
  destruct (divEven_spec n2 d2 Hd2) as ((_ & U2) & _ & T2).
  set (q1 := divEven n1 d1) in *. set (q2 := divEven n2 d2) in *.
  destruct (Z.le_gt_cases q1 q2) as [H|H]; [exact H|exfalso].
  assert (Hp : 0 < d1 * d2) by nia.
  assert (A : (2 * q1 - 1) * (d1 * d2) <= 2 * (n1 * d2)) by nia.
  assert (B : 2 * (n2 * d1) <= (2 * q2 + 1) * (d1 * d2)) by nia.
  assert (C : (2 * q1 - 1) * (d1 * d2) <= (2 * q2 + 1) * (d1 * d2)) by lia.
  assert (Hq : q1 = q2 + 1) by nia.
  assert (E1 : 2 * n1 = (2 * q1 - 1) * d1) by nia.
  assert (E2 : 2 * n2 = (2 * q2 + 1) * d2) by nia.
  specialize (T1 E1). specialize (T2 E2).
  rewrite Hq in T1. replace (q2 + 1) with (Z.succ q2) in T1 by lia.
  rewrite Z.even_succ, <- Z.negb_even, T2 in T1. discriminate T1.
Qed.

Lemma divEven_mul k d : 0 < d -> divEven (k * d) d = k.
Proof.
  intros Hd. unfold divEven. cbv zeta.
  rewrite Z.div_mul, Z.mod_mul by lia.
  replace (2 * 0 <? d) with true by lia. reflexivity.
Qed.

#[local] Open Scope Q_scope.

Lemma roundEven_mono x y : x <= y -> (roundEven x <= roundEven y)%Z.
Proof. intros H. apply divEven_mono; [reflexivity|reflexivity|exact H]. Qed.

Lemma roundEven_inject k : roundEven (inject_Z k) = k.
Proof.
  unfold roundEven. cbn [Qnum Qden inject_Z].
  rewrite <- (Z.mul_1_r k) at 1. apply divEven_mul. reflexivity.
Qed.

Lemma pow2_pos z : 0 < 2 ^ z.
Proof. apply Qpower_0_lt. reflexivity. Qed.

Lemma pow2_inject k : (0 <= k)%Z -> 2 ^ k == inject_Z (2 ^ k).
Proof. intros Hk. rewrite Zpower_Qpower by exact Hk. reflexivity. Qed.

Lemma Qabs_make x : Qabs x = (Z.abs (Qnum x) # Qden x).
Proof. destruct x. reflexivity. Qed.

Lemma Qdiv_inject a b : (0 < b)%Z -> inject_Z a / inject_Z b == a # Z.to_pos b.
Proof.
  intros Hb. rewrite Qmake_Qdiv. rewrite Z2Pos.id by exact Hb. reflexivity.
Qed.

Lemma Qdiv_inject_le a b c d :
  (0 < b)%Z -> (0 < d)%Z -> (a * d <= c * b)%Z ->
  inject_Z a / inject_Z b <= inject_Z c / inject_Z d.
Proof.
  intros Hb Hd H. rewrite !Qdiv_inject by assumption.
  unfold Qle. cbn [Qnum Qden]. rewrite !Z2Pos.id by assumption. exact H.
Qed.

Lemma Qdiv_inject_lt a b c d :
  (0 < b)%Z -> (0 < d)%Z -> (a * d < c * b)%Z ->
  inject_Z a / inject_Z b < inject_Z c / inject_Z d.
Proof.
  intros Hb Hd H. rewrite !Qdiv_inject by assumption.
  unfold Qlt. cbn [Qnum Qden]. rewrite !Z2Pos.id by assumption. exact H.
Qed.

Lemma exponent_spec x :
  ~ x == 0 -> 2 ^ exponent x <= Qabs x /\ Qabs x < 2 ^ (exponent x + 1).
Proof.
  intros Hx. unfold exponent. cbv zeta.
  set (n := Z.abs (Qnum x)). set (d := Zpos (Qden x)).
  assert (Hn : (0 < n)%Z).
  { subst n. destruct x as [[|p|p] q]; cbn; try lia. exfalso. apply Hx. reflexivity. }
  assert (Hd : (0 < d)%Z) by (subst d; lia).
  destruct (Z.log2_spec n Hn) as [Ln Un]. destruct (Z.log2_spec d Hd) as [Ld Ud].
  pose proof (Z.log2_nonneg n) as L0. pose proof (Z.log2_nonneg d) as M0.
  set (L := Z.log2 n) in *. set (M := Z.log2 d) in *.
  replace (Z.succ L) with (L + 1)%Z in Un by lia.
  replace (Z.succ M) with (M + 1)%Z in Ud by lia.
  assert (P1 : (0 < 2 ^ M)%Z) by (apply Z.pow_pos_nonneg; lia).
  assert (P2 : (0 < 2 ^ (M + 1))%Z) by (apply Z.pow_pos_nonneg; lia).
  assert (Eabs : Qabs x == inject_Z n / inject_Z d).
  { rewrite Qabs_make. fold n. subst d. apply Qmake_Qdiv. }
  assert (A : 2 ^ (L - M - 1) <= Qabs x).
  { replace (L - M - 1)%Z with (L - (M + 1))%Z by lia.
    rewrite Qpower_minus by discriminate.
    rewrite !pow2_inject by lia. rewrite Eabs.
    apply Qdiv_inject_le; [lia|lia|nia]. }
  assert (B : Qabs x < 2 ^ (L - M + 1)).
  { replace (L - M + 1)%Z with (L + 1 - M)%Z by lia.
    rewrite Qpower_minus by discriminate.
    rewrite !pow2_inject by lia. rewrite Eabs.
    apply Qdiv_inject_lt; [lia|lia|nia]. }
  destruct (Qle_bool (2 ^ (L - M)) (Qabs x)) eqn:E.
  - split; [apply Qle_bool_iff, E|exact B].
  - split; [exact A|].
    replace (L - M - 1 + 1)%Z with (L - M)%Z by lia.
    apply Qnot_le_lt. intros H. apply Qle_bool_iff in H. rewrite H in E. discriminate E.
Qed.

Lemma fl_zero x : x == 0 -> fl x = 0.
Proof.
  intros H. unfold fl. destruct x as [n d]. unfold Qeq in H. cbn in H |- *.
  replace n with 0%Z by lia. reflexivity.
Qed.

Lemma fl_nonzero x :
  ~ x == 0 ->
  fl x == inject_Z (roundEven (x / 2 ^ (exponent x - 52))) * 2 ^ (exponent x - 52).
Proof.
  intros H. unfold fl. destruct (Z.eqb_spec (Qnum x) 0) as [E|E].
  - exfalso. apply H. destruct x as [n d]. cbn in E. subst n. reflexivity.
  - cbv zeta. apply Qred_correct.
Qed.

Lemma pow2_52 e : inject_Z (2 ^ 52) * 2 ^ (e - 52) == 2 ^ e.
Proof.
  rewrite <- pow2_inject by lia. rewrite <- Qpower_plus by discriminate.
  replace (52 + (e - 52))%Z with e by lia. reflexivity.
Qed.

Lemma pow2_53 e : inject_Z (2 ^ 53) * 2 ^ (e - 52) == 2 ^ (e + 1).
Proof.
  rewrite <- pow2_inject by lia. rewrite <- Qpower_plus by discriminate.
  replace (53 + (e - 52))%Z with (e + 1)%Z by lia. reflexivity.
Qed.

(** A positive number rounds to a double of the same binade, or to the
    power of two above. *)
Lemma fl_pos_bounds x :
  0 < x -> 2 ^ exponent x <= fl x /\ fl x <= 2 ^ (exponent x + 1).
Proof.
  intros Hx.
  assert (Hne : ~ x == 0) by (intros E; rewrite E in Hx; discriminate Hx).
  destruct (exponent_spec x Hne) as [Lo Hi].
  rewrite Qabs_pos in Lo, Hi by (apply Qlt_le_weak, Hx).
  rewrite (fl_nonzero x Hne).
  set (E := exponent x) in *. pose proof (pow2_pos (E - 52)) as Hu.
  assert (H1 : inject_Z (2 ^ 52) <= x / 2 ^ (E - 52)).
  { apply Qle_shift_div_l; [exact Hu|]. rewrite pow2_52. exact Lo. }
  assert (H2 : x / 2 ^ (E - 52) <= inject_Z (2 ^ 53)).
  { apply Qle_shift_div_r; [exact Hu|]. rewrite pow2_53. apply Qlt_le_weak, Hi. }
  apply roundEven_mono in H1, H2. rewrite roundEven_inject in H1, H2.
  split.
  - rewrite <- (pow2_52 E). apply Qmult_le_compat_r; [|apply Qlt_le_weak, Hu].
    rewrite <- Zle_Qle. exact H1.
  - rewrite <- (pow2_53 E). apply Qmult_le_compat_r; [|apply Qlt_le_weak, Hu].
    rewrite <- Zle_Qle. exact H2.
Qed.

Lemma Qopp_mult_l a b : - a * b == - (a * b).
Proof. ring. Qed.

Lemma fl_neg_bounds x :
  x < 0 -> - 2 ^ (exponent x + 1) <= fl x /\ fl x <= - 2 ^ exponent x.
Proof.
  intros Hx.
  assert (Hne : ~ x == 0) by (intros E; rewrite E in Hx; discriminate Hx).
  destruct (exponent_spec x Hne) as [Lo Hi].
  rewrite Qabs_neg in Lo, Hi by (apply Qlt_le_weak, Hx).
  rewrite (fl_nonzero x Hne).
  set (E := exponent x) in *. pose proof (pow2_pos (E - 52)) as Hu.
  assert (H1 : x / 2 ^ (E - 52) <= inject_Z (- 2 ^ 52)).
  { apply Qle_shift_div_r; [exact Hu|].
    rewrite inject_Z_opp.
    rewrite Qopp_mult_l.
    rewrite pow2_52. apply Qopp_le_compat in Lo. rewrite Qopp_involutive in Lo.
    exact Lo. }
  assert (H2 : inject_Z (- 2 ^ 53) <= x / 2 ^ (E - 52)).
  { apply Qle_shift_div_l; [exact Hu|].
    rewrite inject_Z_opp.
    rewrite Qopp_mult_l.
    rewrite pow2_53. apply Qlt_le_weak in Hi. apply Qopp_le_compat in Hi.
    rewrite Qopp_involutive in Hi. exact Hi. }
  apply roundEven_mono in H1, H2. rewrite roundEven_inject in H1, H2.
  split.
  - rewrite <- (pow2_53 E).
    rewrite <- Qopp_mult_l, <- inject_Z_opp.
    apply Qmult_le_compat_r; [|apply Qlt_le_weak, Hu].
    rewrite <- Zle_Qle. exact H2.
  - rewrite <- (pow2_52 E).
    rewrite <- Qopp_mult_l, <- inject_Z_opp.
    apply Qmult_le_compat_r; [|apply Qlt_le_weak, Hu].
    rewrite <- Zle_Qle. exact H1.
Qed.

Lemma fl_nonneg x : 0 <= x -> 0 <= fl x.
Proof.
  intros Hx. destruct (Qlt_le_dec 0 x) as [Hp|Hz].
  - destruct (fl_pos_bounds x Hp) as [H _].
    eapply Qle_trans; [|exact H]. apply Qlt_le_weak, pow2_pos.
  - rewrite fl_zero by (apply Qle_antisym; assumption). apply Qle_refl.
Qed.

Lemma fl_nonpos x : x <= 0 -> fl x <= 0.
Proof.
  intros Hx. destruct (Qlt_le_dec x 0) as [Hn|Hz].
  - destruct (fl_neg_bounds x Hn) as [_ H].
    eapply Qle_trans; [exact H|].
    change 0 with (- 0). apply Qopp_le_compat, Qlt_le_weak, pow2_pos.
  - rewrite fl_zero by (apply Qle_antisym; assumption). apply Qle_refl.
Qed.

(** Two numbers of one binade are rounded on the same grid. *)
Lemma fl_mono_binade x y :
  ~ x == 0 -> ~ y == 0 -> exponent x = exponent y -> x <= y -> fl x <= fl y.
Proof.
  intros Hx Hy He Hle. rewrite (fl_nonzero x Hx), (fl_nonzero y Hy), He.
  pose proof (pow2_pos (exponent y - 52)) as Hu.
  apply Qmult_le_compat_r; [|apply Qlt_le_weak, Hu].
  rewrite <- Zle_Qle. apply roundEven_mono.
  unfold Qdiv. apply Qmult_le_compat_r; [exact Hle|].
  apply Qlt_le_weak, Qinv_lt_0_compat, Hu.
Qed.

(** Rounding to a double keeps the order. *)
Lemma fl_mono x y : x <= y -> fl x <= fl y.
Proof.
  intros Hle.
  destruct (Qlt_le_dec 0 x) as [Hxp|Hxn].
  - assert (Hyp : 0 < y) by exact (Qlt_le_trans _ _ _ Hxp Hle).
    assert (Hx : ~ x == 0) by (intros E; rewrite E in Hxp; discriminate Hxp).
    assert (Hy : ~ y == 0) by (intros E; rewrite E in Hyp; discriminate Hyp).
    destruct (exponent_spec x Hx) as [Lx _]. destruct (exponent_spec y Hy) as [_ Uy].
    rewrite Qabs_pos in Lx, Uy by (apply Qlt_le_weak; assumption).
    assert (Hlt : 2 ^ exponent x < 2 ^ (exponent y + 1))
      by exact (Qle_lt_trans _ _ _ Lx (Qle_lt_trans _ _ _ Hle Uy)).
    apply Qpower_lt_compat_l_inv in Hlt; [|reflexivity].
    destruct (Z.eq_dec (exponent x) (exponent y)) as [E|Hne].
    + apply fl_mono_binade; assumption.
    + destruct (fl_pos_bounds x Hxp) as [_ Ux]. destruct (fl_pos_bounds y Hyp) as [Ly _].
      eapply Qle_trans; [exact Ux|]. eapply Qle_trans; [|exact Ly].
      apply Qpower_le_compat_l; [lia|discriminate].
  - destruct (Qlt_le_dec y 0) as [Hyn|Hyp].
    + assert (Hxn' : x < 0) by exact (Qle_lt_trans _ _ _ Hle Hyn).
      assert (Hx : ~ x == 0) by (intros E; rewrite E in Hxn'; discriminate Hxn').
      assert (Hy : ~ y == 0) by (intros E; rewrite E in Hyn; discriminate Hyn).
      destruct (exponent_spec x Hx) as [_ Ux]. destruct (exponent_spec y Hy) as [Ly _].
      rewrite Qabs_neg in Ux, Ly by (apply Qlt_le_weak; assumption).
      assert (Hlt : 2 ^ exponent y < 2 ^ (exponent x + 1)).
      { eapply Qle_lt_trans; [exact Ly|]. eapply Qle_lt_trans; [|exact Ux].
        apply Qopp_le_compat, Hle. }
      apply Qpower_lt_compat_l_inv in Hlt; [|reflexivity].
      destruct (Z.eq_dec (exponent x) (exponent y)) as [E|Hne].
      * apply fl_mono_binade; assumption.
      * destruct (fl_neg_bounds x Hxn') as [_ Ux']. destruct (fl_neg_bounds y Hyn) as [Ly' _].
        eapply Qle_trans; [exact Ux'|]. eapply Qle_trans; [|exact Ly'].
        apply Qopp_le_compat, Qpower_le_compat_l; [lia|discriminate].
    + eapply Qle_trans; [apply fl_nonpos, Hxn|apply fl_nonneg, Hyp].
Qed.

End Doubles.

(** ** 32-bit integers *)

Lemma toInt32_range z : - 2^31 <= toInt32 z < 2^31.
Proof.
  unfold toInt32. pose proof (Z.mod_pos_bound (z + 2^31) (2^32) ltac:(lia)). lia.
Qed.

Lemma toInt32_id z : - 2^31 <= z < 2^31 -> toInt32 z = z.
Proof. intros H. unfold toInt32. rewrite Z.mod_small by lia. lia. Qed.

Lemma toInt32_mod z : exists k, toInt32 z = z + k * 2^32.
Proof.
  unfold toInt32. exists (- ((z + 2^31) / 2^32)).
  pose proof (Z.div_mod (z + 2^31) (2^32) ltac:(lia)). lia.
Qed.

(** Adding a multiple of [2^32] leaves the low 32 bits alone. *)
Lemma testbit_add_mul_low z k i :
  0 <= i < 32 -> Z.testbit (z + k * 2^32) i = Z.testbit z i.
Proof.
  intros Hi. rewrite <- (Z.mod_pow2_bits_low (z + k * 2^32) 32 i) by lia.
  rewrite <- (Z.mod_pow2_bits_low z 32 i) by lia.
  rewrite Z.mod_add by lia. reflexivity.
Qed.

(** The bits of a 32-bit integer from bit 31 on are its sign. *)
Lemma testbit_int32_high z i :
  - 2^31 <= z < 2^31 -> 31 <= i -> Z.testbit z i = (z <? 0).
Proof.
  intros Hz Hi.
  assert (Hp : 2^31 <= 2^i) by (apply Z.pow_le_mono_r; lia).
  destruct (Z.ltb_spec z 0) as [Hneg|Hpos].
  - apply Z.testbit_true; [lia|].
    replace (z / 2^i) with (-1); [reflexivity|].
    apply (Z.div_unique_pos z (2^i) (-1) (z + 2^i)); lia.
  - apply Z.testbit_false; [lia|]. rewrite Z.div_small by lia. reflexivity.
Qed.

Lemma toInt32_testbit z i :
  0 <= i -> Z.testbit (toInt32 z) i = Z.testbit z (Z.min i 31).
Proof.
  intros Hi. destruct (toInt32_mod z) as [k Hk].
  destruct (Z.lt_ge_cases i 31) as [Hlt|Hge].
  - rewrite Z.min_l by lia. rewrite Hk. apply testbit_add_mul_low. lia.
  - rewrite Z.min_r by lia.
    rewrite (testbit_int32_high _ i (toInt32_range z) Hge).
    rewrite <- (testbit_int32_high _ 31 (toInt32_range z) ltac:(lia)).
    rewrite Hk. apply testbit_add_mul_low. lia.
Qed.

Lemma toUint32_testbit z i :
  0 <= i -> Z.testbit (toUint32 z) i = (i <? 32) && Z.testbit z i.
Proof.
  intros Hi. unfold toUint32. destruct (Z.ltb_spec i 32).
  - rewrite Z.mod_pow2_bits_low by lia. reflexivity.
  - rewrite Z.mod_pow2_bits_high by lia. reflexivity.
Qed.

(** A number is a 32-bit integer when its bits from bit 31 on agree. *)
Lemma int32_of_bits z :
  (forall i, 31 <= i -> Z.testbit z i = Z.testbit z 31) -> - 2^31 <= z < 2^31.
Proof.
  intros H.
  assert (E : toInt32 z = z).
  { apply Z.bits_inj'. intros i Hi. rewrite toInt32_testbit by lia.
    destruct (Z.lt_ge_cases i 31); [rewrite Z.min_l by lia; reflexivity|].
    rewrite Z.min_r by lia. symmetry. apply H. lia. }
  rewrite <- E. apply toInt32_range.
Qed.

Lemma band_testbit a b i :
  0 <= i ->
  Z.testbit (band a b) i = Z.testbit a (Z.min i 31) && Z.testbit b (Z.min i 31).
Proof. intros Hi. unfold band. rewrite Z.land_spec, !toInt32_testbit by lia. reflexivity. Qed.

Lemma bor_testbit a b i :
  0 <= i ->
  Z.testbit (bor a b) i = Z.testbit a (Z.min i 31) || Z.testbit b (Z.min i 31).
Proof. intros Hi. unfold bor. rewrite Z.lor_spec, !toInt32_testbit by lia. reflexivity. Qed.

Lemma band_range a b : - 2^31 <= band a b < 2^31.
Proof.
  apply int32_of_bits. intros i Hi. rewrite !band_testbit by lia.
  rewrite !Z.min_r by lia. reflexivity.
Qed.

Lemma bor_range a b : - 2^31 <= bor a b < 2^31.
Proof.
  apply int32_of_bits. intros i Hi. rewrite !bor_testbit by lia.
  rewrite !Z.min_r by lia. reflexivity.
Qed.

Lemma toInt32_split z :
  toInt32 z = z mod 2^32 - (if Z.testbit z 31 then 2^32 else 0).
Proof.
  pose proof (Z.mod_pos_bound z (2^32) ltac:(lia)) as Hr.
  rewrite <- (Z.mod_pow2_bits_low z 32 31) by lia.
  pose proof (Z.div_mod z (2^32) ltac:(lia)) as Hz.
  destruct (Z.testbit (z mod 2^32) 31) eqn:E.
  - apply Z.testbit_true in E; [|lia].
    assert (2^31 <= z mod 2^32).
    { destruct (Z.lt_ge_cases (z mod 2^32) (2^31)) as [Hlt|]; [|assumption].
      rewrite Z.div_small in E by lia. discriminate E. }
    unfold toInt32.
    rewrite <- (Z.mod_unique_pos (z + 2^31) (2^32) (z / 2^32 + 1) (z mod 2^32 - 2^31));
      lia.
  - apply Z.testbit_false in E; [|lia].
    assert (z mod 2^32 < 2^31).
    { destruct (Z.lt_ge_cases (z mod 2^32) (2^31)) as [|Hge]; [assumption|].
      replace ((z mod 2^32) / 2^31) with 1 in E; [discriminate E|].
      apply (Z.div_unique_pos _ (2^31) 1 (z mod 2^32 - 2^31)); lia. }
    unfold toInt32.
    rewrite <- (Z.mod_unique_pos (z + 2^31) (2^32) (z / 2^32) (z mod 2^32 + 2^31));
      lia.
Qed.

Lemma testbit_above n k i :
  0 <= k -> 0 <= n < 2^k -> k <= i -> Z.testbit n i = false.
Proof.
  intros Hk Hn Hi. apply Z.testbit_false; [lia|].
  rewrite Z.div_small; [reflexivity|].
  assert (2^k <= 2^i) by (apply Z.pow_le_mono_r; lia). lia.
Qed.

Lemma lt_pow2_of_bits z k :
  0 <= k -> 0 <= z -> (forall i, k <= i -> Z.testbit z i = false) -> z < 2^k.
Proof.
  intros Hk Hz H. destruct (Z.eq_dec z 0) as [->|Hne].
  - apply Z.pow_pos_nonneg; lia.
  - apply Z.log2_lt_pow2; [lia|].
    destruct (Z.lt_ge_cases (Z.log2 z) k) as [|Hge]; [assumption|].
    specialize (H _ Hge). rewrite Z.bit_log2 in H by lia. discriminate H.
Qed.

(** ** NumIO: compression *)

Section Compression.
Import NumIO.

(** Length of the longest prefix of [l] whose elements all equal [n]. *)
Local Fixpoint prefixLen (n : jsval) (l : jsarray) : nat :=
  match l with
  | x :: l' => if bool_decide (x = n) then S (prefixLen n l') else O
  | [] => O
  end.

Lemma aget_drop (a : jsarray) i x : a !! i = Some x -> aget a i = x.
Proof. unfold aget. intros ->. reflexivity. Qed.

Lemma scanRun_prefix fuel : forall (aSrc : jsarray) n i,
  (length aSrc - i < fuel)%nat ->
  scanRun fuel aSrc n i = Some (i + prefixLen n (drop i aSrc))%nat.
Proof.
  induction fuel as [|fuel IH]; intros aSrc n i Hf; [lia|].
  simpl. destruct (Nat.ltb_spec i (length aSrc)) as [Hi|Hi]; simpl.
  - destruct (lookup_lt_is_Some_2 aSrc i Hi) as [x Hx].
    rewrite (drop_S _ _ _ Hx), (aget_drop _ _ _ Hx). simpl.
    destruct (bool_decide (x = n)).
    + rewrite IH by lia. f_equal. lia.
    + f_equal. lia.
  - rewrite drop_ge by lia. simpl. f_equal. lia.
Qed.

Lemma runs_cons (l : jsarray) : forall x,
  runs (x :: l) = (S (prefixLen x l), x) :: runs (drop (prefixLen x l) l).
Proof.
  induction l as [|y l IH]; intros x; [reflexivity|].
  change (runs (x :: y :: l)) with
    (match runs (y :: l) with
     | (c, z) :: rs =>
         if bool_decide (x = z) then (S c, z) :: rs else (1%nat, x) :: (c, z) :: rs
     | [] => [(1%nat, x)]
     end).
  rewrite (IH y). cbn [prefixLen].
  destruct (bool_decide_reflect (x = y)) as [->|Hne].
  - rewrite bool_decide_eq_true_2 by reflexivity. reflexivity.
  - rewrite bool_decide_eq_false_2 by congruence.
    cbn [drop]. rewrite (IH y). reflexivity.
Qed.

Lemma compressLoop_runs fuel : forall (aSrc : jsarray) i (acc : jsarray),
  (length aSrc - i < fuel)%nat ->
  compressLoop fuel aSrc i (length acc) acc
  = Some (acc ++ runLengthEncoding (drop i aSrc)).
Proof.
  induction fuel as [|fuel IH]; intros aSrc i acc Hf; [lia|].
  simpl. destruct (Nat.ltb_spec i (length aSrc)) as [Hi|Hi].
  - destruct (lookup_lt_is_Some_2 aSrc i Hi) as [x Hx].
    rewrite (aget_drop _ _ _ Hx).
    pose proof (scanRun_prefix (S (length aSrc)) aSrc x (S i) ltac:(lia)) as Hs.
    cbn [scanRun] in Hs. rewrite Hs. clear Hs.
    set (p := prefixLen x (drop (S i) aSrc)).
    rewrite aset_end.
    replace (S (length acc)) with (length (acc ++ [Some (Z.of_nat (S i + p) - Z.of_nat i)]))
      by (rewrite length_app; simpl; lia).
    rewrite aset_end.
    replace (S (length (acc ++ [Some (Z.of_nat (S i + p) - Z.of_nat i)])))
      with (length ((acc ++ [Some (Z.of_nat (S i + p) - Z.of_nat i)]) ++ [x]))
      by (rewrite !length_app; simpl; lia).
    rewrite IH by lia.
    rewrite (drop_S _ _ _ Hx). unfold runLengthEncoding.
    rewrite runs_cons. fold p. cbn [flatten flat_map fst snd].
    rewrite drop_drop. rewrite <- !app_assoc. simpl.
    do 4 f_equal. lia.
  - rewrite drop_ge by lia. unfold runLengthEncoding. simpl.
    rewrite app_nil_r. reflexivity.
Qed.

Lemma compress_eq (xs : jsarray) :
  compress xs
  = Some (if (length (runLengthEncoding xs) <? length xs)%nat
          then runLengthEncoding xs else xs).
Proof.
  unfold compress.
  pose proof (compressLoop_runs (S (length xs)) xs 0 [] ltac:(lia)) as H.
  change (length (@nil (option Z))) with 0%nat in H.
  rewrite H, drop_0. cbn [app].
  destruct (Nat.leb_spec (length xs) (length (runLengthEncoding xs)));
    destruct (Nat.ltb_spec (length (runLengthEncoding xs)) (length xs));
    try reflexivity; lia.
Qed.

Lemma fillRun_S fuel c n (aDst : jsarray) iDst :
  fillRun (S fuel) c n aDst iDst
  = if truthy c
    then fillRun fuel (Some (num c - 1)) n (aset aDst iDst n) (S iDst)
    else Some (aDst, iDst).
Proof. reflexivity. Qed.

Lemma fillRun_count k : forall n (aDst : jsarray) iDst,
  (iDst + k <= length aDst)%nat ->
  fillRun (S k) (Some (Z.of_nat k)) n aDst iDst
  = Some (take iDst aDst ++ replicate k n ++ drop (iDst + k) aDst, (iDst + k)%nat).
Proof.
  induction k as [|k IH]; intros n aDst iDst Hlen.
  - simpl. rewrite Nat.add_0_r, take_drop. reflexivity.
  - rewrite fillRun_S. cbn [truthy num].
    replace (Z.of_nat (S k) =? 0) with false by (symmetry; apply Z.eqb_neq; lia).
    cbn [negb]. replace (Z.of_nat (S k) - 1) with (Z.of_nat k) by lia.
    unfold aset. replace (iDst <? length aDst)%nat with true
      by (symmetry; apply Nat.ltb_lt; lia).
    rewrite IH by (rewrite length_insert; lia).
    f_equal. f_equal; [|lia].
    rewrite (take_S_r _ _ n) by (apply list_lookup_insert_eq; lia).
    rewrite take_insert_ge by lia.
    rewrite drop_insert_lt by lia.
    rewrite <- app_assoc. simpl.
    replace (S (iDst + k)) with (iDst + S k)%nat by lia. reflexivity.
Qed.

Lemma length_flatten rs : length (flatten rs) = (2 * length rs)%nat.
Proof. induction rs as [|r rs IH]; simpl; [reflexivity|]. rewrite IH. lia. Qed.

Lemma decompressLoop_expand rs : forall (pre aDst : jsarray) iDst fuel,
  (length rs < fuel)%nat ->
  (iDst + length (expand rs) <= length aDst)%nat ->
  decompressLoop fuel (pre ++ flatten rs) (length pre) aDst iDst
  = Some (take iDst aDst ++ expand rs ++ drop (iDst + length (expand rs)) aDst).
Proof.
  induction rs as [|[c v] rs IH]; intros pre aDst iDst fuel Hf Hlen;
    (destruct fuel as [|fuel]; [simpl in Hf; lia|]).
  - simpl. rewrite app_nil_r.
    replace (Z.of_nat (length pre) <? Z.of_nat (length pre) - 1) with false
      by (symmetry; apply Z.ltb_ge; lia).
    rewrite Nat.add_0_r, take_drop. reflexivity.
  - cbn [decompressLoop].
    assert (Hl : length (pre ++ flatten ((c, v) :: rs))
                 = (length pre + 2 + 2 * length rs)%nat).
    { rewrite length_app, length_flatten. simpl. lia. }
    replace (Z.of_nat (length pre) <? Z.of_nat (length (pre ++ flatten ((c, v) :: rs))) - 1)
      with true by (symmetry; apply Z.ltb_lt; lia).
    assert (Hc : aget (pre ++ flatten ((c, v) :: rs)) (length pre) = Some (Z.of_nat c)).
    { unfold aget. rewrite lookup_app_r by lia. rewrite Nat.sub_diag. reflexivity. }
    assert (Hv : aget (pre ++ flatten ((c, v) :: rs)) (S (length pre)) = v).
    { unfold aget. rewrite lookup_app_r by lia.
      replace (S (length pre) - length pre)%nat with 1%nat by lia. reflexivity. }
    rewrite Hc, Hv. cbn [num]. rewrite Nat2Z.id.
    cbn [expand flat_map fst snd] in Hlen. rewrite length_app, length_replicate in Hlen.
    rewrite fillRun_count by lia.
    replace (pre ++ flatten ((c, v) :: rs)) with ((pre ++ [Some (Z.of_nat c); v]) ++ flatten rs)
      by (rewrite <- app_assoc; reflexivity).
    replace (S (S (length pre))) with (length (pre ++ [Some (Z.of_nat c); v]))
      by (rewrite length_app; simpl; lia).
    fold (expand rs) in Hlen.
    rewrite IH;
      [|simpl in Hf; lia
       |rewrite !length_app, length_take, length_replicate, length_drop; lia].
    f_equal. cbn [expand flat_map fst snd]. fold (expand rs).
    assert (Ht : length (take iDst aDst ++ replicate c v) = (iDst + c)%nat)
      by (rewrite length_app, length_take, length_replicate; lia).
    rewrite (app_assoc (take iDst aDst) (replicate c v)).
    rewrite take_app_length' by (symmetry; exact Ht).
    replace (iDst + c + length (expand rs))%nat
      with (length (take iDst aDst ++ replicate c v) + length (expand rs))%nat by lia.
    rewrite <- drop_drop, drop_app_length, drop_drop.
    rewrite length_app, length_replicate, <- !app_assoc.
    do 3 f_equal. f_equal. lia.
Qed.

Lemma expand_runs (xs : jsarray) : expand (runs xs) = xs.
Proof.
  induction xs as [|x xs IH]; [reflexivity|].
  cbn [runs]. destruct (runs xs) as [|[c y] rs]; simpl in *.
  - rewrite <- IH. reflexivity.
  - destruct (bool_decide_reflect (x = y)) as [->|Hne]; simpl; rewrite <- IH; reflexivity.
Qed.

Lemma decompress_runLengthEncoding (xs : jsarray) :
  (length (runLengthEncoding xs) < length xs)%nat ->
  decompress (runLengthEncoding xs) (length xs) = Some xs.
Proof.
  intros Hlt. unfold decompress.
  replace (length (runLengthEncoding xs) =? length xs)%nat with false
    by (symmetry; apply Nat.eqb_neq; lia).
  replace (length xs =? 0)%nat with false by (symmetry; apply Nat.eqb_neq; lia).
  unfold runLengthEncoding in *.
  pose proof (decompressLoop_expand (runs xs) [] (newArray (length xs)) 0
                (S (length (flatten (runs xs))))) as H.
  cbn [app length] in H. rewrite H.
  - rewrite expand_runs. unfold newArray.
    rewrite take_0, drop_ge by (rewrite length_replicate; lia).
    simpl. rewrite app_nil_r. reflexivity.
  - rewrite length_flatten. lia.
  - rewrite expand_runs. unfold newArray. rewrite length_replicate. lia.
Qed.

Lemma decompress_same_length (xs : jsarray) : decompress xs (length xs) = Some xs.
Proof. unfold decompress. rewrite Nat.eqb_refl. reflexivity. Qed.

(** The encoding of the specification is the decomposition into maximal
    runs: counts are positive and neighbouring runs differ in value. *)
Lemma runs_maximal (xs : jsarray) :
  Forall (fun r => (0 < fst r)%nat) (runs xs) /\
  (forall i r1 r2, runs xs !! i = Some r1 -> runs xs !! S i = Some r2 ->
                   snd r1 <> snd r2).
Proof.
  induction xs as [|x xs [IH1 IH2]]; [split; [constructor|intros i ? ? H; discriminate H]|].
  cbn [runs]. destruct (runs xs) as [|[c y] rs].
  - split; [repeat constructor|]. intros [|i] r1 r2 H1 H2; discriminate H2.
  - destruct (bool_decide_reflect (x = y)) as [->|Hne].
    + split.
      * inversion IH1; subst. constructor; [simpl; lia|assumption].
      * intros [|i] r1 r2 H1 H2.
        -- injection H1 as <-. simpl. apply (IH2 0%nat (c, y) r2); [reflexivity|exact H2].
        -- apply (IH2 (S i) r1 r2); assumption.
    + split.
      * constructor; [simpl; lia|assumption].
      * intros [|i] r1 r2 H1 H2.
        -- injection H1 as <-. injection H2 as <-. exact Hne.
        -- apply (IH2 i r1 r2); assumption.
Qed.

End Compression.

(** C5.  Decompressing what [compress] returns, with the length of the
    original array, gives the original array back, for every array
    (all-equal and all-distinct ones included); and [compress] returns the
    alternating (count, value) run-length encoding exactly when that
    encoding is strictly shorter than the array, and the array itself
    otherwise. *)
Theorem compress_decompress_roundtrip (xs : jsarray) :
  (exists ys, NumIO.compress xs = Some ys /\
              NumIO.decompress ys (length xs) = Some xs) /\
  NumIO.compress xs
  = Some (if (length (NumIO.runLengthEncoding xs) <? length xs)%nat
          then NumIO.runLengthEncoding xs else xs).
Proof.
  split; [|apply compress_eq].
  rewrite compress_eq.
  destruct (Nat.ltb_spec (length (NumIO.runLengthEncoding xs)) (length xs)) as [Hlt|Hge].
  - eexists. split; [reflexivity|]. apply decompress_runLengthEncoding, Hlt.
  - eexists. split; [reflexivity|]. apply decompress_same_length.
Qed.

Example compress_all_equal :
  NumIO.compress (replicate 6 (Some 7)) = Some [Some 6; Some 7] /\
  NumIO.decompress [Some 6; Some 7] 6 = Some (replicate 6 (Some 7)).
Proof. split; reflexivity. Qed.

Example compress_all_distinct :
  NumIO.compress [Some 1; Some 2; Some 3] = Some [Some 1; Some 2; Some 3] /\
  NumIO.decompress [Some 1; Some 2; Some 3] 3 = Some [Some 1; Some 2; Some 3].
Proof. split; reflexivity. Qed.

(** ** NumIO: bits, digits and switches *)

Section NumIOBits.
Import NumIO.

Lemma bnot_testbit a i :
  0 <= i -> Z.testbit (bnot a) i = negb (Z.testbit a (Z.min i 31)).
Proof. intros Hi. unfold bnot. rewrite Z.lnot_spec, toInt32_testbit by lia. reflexivity. Qed.

Lemma high_testbit n i :
  0 <= n -> 0 <= i -> Z.testbit (high n) i = Z.testbit n (32 + Z.min i 31).
Proof.
  intros Hn Hi. unfold high, TWO_POW32. rewrite Z.quot_div_nonneg by lia.
  rewrite toInt32_testbit by lia. rewrite <- Z.shiftr_div_pow2 by lia.
  rewrite Z.shiftr_spec by lia. f_equal. lia.
Qed.

Lemma high_small n : 0 <= n < 2^63 -> high n = n / 2^32.
Proof.
  intros Hn. unfold high, TWO_POW32. rewrite Z.quot_div_nonneg by lia.
  apply toInt32_id. split.
  - pose proof (Z.div_pos n (2^32) ltac:(lia) ltac:(lia)). lia.
  - apply Z.div_lt_upper_bound; lia.
Qed.

(** X1.  For numbers that are not negative, [bits] below [2^64],
    [testBits(num, bits)] is true exactly when every bit of [bits] is set in
    [num]. *)
Theorem testBits_spec num bits :
  0 <= num -> 0 <= bits < 2^64 ->
  testBits num bits = true <-> Z.land num bits = bits.
Proof.
  intros Hn Hb. unfold testBits. cbv zeta.
  rewrite andb_true_iff, !Z.eqb_eq. split.
  - intros [Hlo Hhi]. apply Z.bits_inj'. intros j Hj. rewrite Z.land_spec.
    destruct (Z.lt_ge_cases j 32) as [H32|H32].
    + apply (f_equal (fun z => Z.testbit z j)) in Hlo.
      rewrite band_testbit, toInt32_testbit in Hlo by lia.
      rewrite Z.min_l in Hlo by lia. exact Hlo.
    + destruct (Z.lt_ge_cases j 64) as [H64|H64].
      * apply (f_equal (fun z => Z.testbit z (j - 32))) in Hhi.
        rewrite band_testbit, !high_testbit in Hhi by lia.
        rewrite !Z.min_l in Hhi by lia.
        replace (32 + (j - 32)) with j in Hhi by lia. exact Hhi.
      * rewrite (testbit_above bits 64 j) by lia. apply andb_false_r.
  - intros H.
    assert (Hbit : forall j, 0 <= j ->
              Z.testbit num j && Z.testbit bits j = Z.testbit bits j).
    { intros j Hj. rewrite <- Z.land_spec, H. reflexivity. }
    split; apply Z.bits_inj'; intros i Hi.
    + rewrite band_testbit, toInt32_testbit by lia. apply Hbit. lia.
    + rewrite band_testbit, !high_testbit by lia.
      rewrite Z.min_l by lia. apply Hbit. lia.
Qed.

Lemma bor_toInt32 a b : bor a b = toInt32 (Z.lor a b).
Proof.
  apply Z.bits_inj'. intros i Hi.
  rewrite bor_testbit, toInt32_testbit, Z.lor_spec by lia. reflexivity.
Qed.

Lemma band_bnot_toInt32 a b : band a (bnot b) = toInt32 (Z.ldiff a b).
Proof.
  apply Z.bits_inj'. intros i Hi.
  rewrite band_testbit, toInt32_testbit, Z.ldiff_spec by lia.
  rewrite bnot_testbit by lia.
  rewrite (Z.min_l (Z.min i 31) 31) by lia. reflexivity.
Qed.

(** An integer of fewer than 54 bits is a double. *)
Lemma double_small z : - 2^53 < z < 2^53 -> double z = z.
Proof.
  intros Hz. unfold double. cbv zeta.
  replace (Z.log2 (Z.abs z) - 52 <=? 0) with true; [reflexivity|].
  symmetry. apply Z.leb_le.
  destruct (Z.eq_dec (Z.abs z) 0) as [->|Hne]; [cbn; lia|].
  assert (Z.log2 (Z.abs z) < 53) by (apply Z.log2_lt_pow2; lia). lia.
Qed.

Lemma setBits_eq num bits :
  0 <= num < 2^63 -> 0 <= bits < 2^63 ->
  setBits num bits
  = double (Z.lor num bits - (if Z.testbit (Z.lor num bits) 31 then 2^32 else 0)).
Proof.
  intros Hn Hb. unfold setBits, TWO_POW32. cbv zeta. f_equal.
  rewrite bor_toInt32, toInt32_split.
  rewrite !high_small by assumption.
  assert (Hhi : bor (num / 2^32) (bits / 2^32) = Z.lor num bits / 2^32).
  { rewrite bor_toInt32. rewrite <- !Z.shiftr_div_pow2 by lia.
    rewrite <- Z.shiftr_lor. rewrite !Z.shiftr_div_pow2 by lia.
    apply toInt32_id.
    assert (0 <= Z.lor num bits) by (apply Z.lor_nonneg; lia).
    assert (Z.lor num bits < 2^63).
    { apply lt_pow2_of_bits; [lia|assumption|]. intros i Hi.
      rewrite Z.lor_spec, (testbit_above num 63 i), (testbit_above bits 63 i) by lia.
      reflexivity. }
    split.
    - pose proof (Z.div_pos (Z.lor num bits) (2^32) ltac:(lia) ltac:(lia)). lia.
    - apply Z.div_lt_upper_bound; lia. }
  rewrite Hhi.
  pose proof (Z.div_mod (Z.lor num bits) (2^32) ltac:(lia)). lia.
Qed.

Lemma clearBits_eq num bits :
  0 <= num < 2^63 -> 0 <= bits < 2^63 ->
  clearBits num bits
  = double (Z.ldiff num bits - (if Z.testbit (Z.ldiff num bits) 31 then 2^32 else 0)).
Proof.
  intros Hn Hb. unfold clearBits, TWO_POW32. cbv zeta. f_equal.
  rewrite band_bnot_toInt32, toInt32_split.
  rewrite !high_small by assumption.
  assert (Hhi : band (num / 2^32) (bnot (bits / 2^32)) = Z.ldiff num bits / 2^32).
  { rewrite band_bnot_toInt32. rewrite <- !Z.shiftr_div_pow2 by lia.
    rewrite <- Z.shiftr_ldiff. rewrite !Z.shiftr_div_pow2 by lia.
    apply toInt32_id.
    assert (0 <= Z.ldiff num bits) by (apply Z.ldiff_nonneg; lia).
    assert (Z.ldiff num bits < 2^63).
    { apply lt_pow2_of_bits; [lia|assumption|]. intros i Hi.
      rewrite Z.ldiff_spec, (testbit_above num 63 i) by lia. reflexivity. }
    split.
    - pose proof (Z.div_pos (Z.ldiff num bits) (2^32) ltac:(lia) ltac:(lia)). lia.
    - apply Z.div_lt_upper_bound; lia. }
  rewrite Hhi.
  pose proof (Z.div_mod (Z.ldiff num bits) (2^32) ltac:(lia)). lia.
Qed.

(** The bits of two numbers below [2^k] combine to a number below [2^k]. *)
Lemma lor_below num bits k :
  0 <= k -> 0 <= num < 2^k -> 0 <= bits < 2^k -> 0 <= Z.lor num bits < 2^k.
Proof.
  intros Hk Hn Hb. split; [apply Z.lor_nonneg; lia|].
  apply lt_pow2_of_bits; [lia|apply Z.lor_nonneg; lia|]. intros i Hi.
  rewrite Z.lor_spec, (testbit_above num k i), (testbit_above bits k i) by lia.
  reflexivity.
Qed.

Lemma ldiff_below num bits k :
  0 <= k -> 0 <= num < 2^k -> 0 <= bits -> 0 <= Z.ldiff num bits < 2^k.
Proof.
  intros Hk Hn Hb. split; [apply Z.ldiff_nonneg; lia|].
  apply lt_pow2_of_bits; [lia|apply Z.ldiff_nonneg; lia|]. intros i Hi.
  rewrite Z.ldiff_spec, (testbit_above num k i) by lia. reflexivity.
Qed.

(** X2.  For integers below [2^63] that are not negative, [setBits(num, bits)]
    is the double nearest to [num | bits] as long as bit 31 of [num | bits]
    is clear, and the double nearest to [2^32] less when bit 31 is set;
    [clearBits(num, bits)] is the same of [num & ~bits].  For numbers below
    [2^53] nothing is rounded: the value is [num | bits] (or [num & ~bits]),
    less [2^32] when its bit 31 is set. *)
Theorem setBits_clearBits_bit31 num bits :
  0 <= num < 2^63 -> 0 <= bits < 2^63 ->
  let set := Z.lor num bits - (if Z.testbit (Z.lor num bits) 31 then 2^32 else 0) in
  let clear :=
    Z.ldiff num bits - (if Z.testbit (Z.ldiff num bits) 31 then 2^32 else 0) in
  setBits num bits = double set /\
  clearBits num bits = double clear /\
  (num < 2^53 -> bits < 2^53 ->
   setBits num bits = set /\ clearBits num bits = clear).
Proof.
  intros Hn Hb set clear.
  split; [apply setBits_eq; assumption|].
  split; [apply clearBits_eq; assumption|].
  intros Hn53 Hb53.
  rewrite setBits_eq, clearBits_eq by assumption. fold set clear.
  pose proof (lor_below num bits 53 ltac:(lia) ltac:(lia) ltac:(lia)) as Hl.
  pose proof (ldiff_below num bits 53 ltac:(lia) ltac:(lia) ltac:(lia)) as Hd.
  split; apply double_small; subst set clear;
    match goal with |- context [if ?c then _ else _] => destruct c end; lia.
Qed.

(** Above [2^53] the sum is rounded: bit 0 is not set. *)
Example setBits_rounds : setBits (2^53) 1 = 2^53.
Proof. reflexivity. Qed.

(** Bit 32 is lost where bit 31 is set, and [testBits] does not find the
    bits that [setBits] has just set. *)
Example setBits_loses_bit32 :
  setBits (2^32) (2^31) = 2^31 /\
  testBits (setBits (2^32) (2^32 + 2^31)) (2^32 + 2^31) = false.
Proof. split; reflexivity. Qed.

End NumIOBits.

Section NumIOStrings.
Import NumIO.
Import Ascii String.

Lemma digits_mono (p q : ascii -> bool) :
  (forall c, p c = true -> q c = true) ->
  forall s, digits p s = true -> digits q s = true.
Proof.
  intros Hpq. induction s as [|c s IH]; [discriminate|].
  cbn [digits]. destruct s as [|c' s']; [apply Hpq|].
  rewrite !andb_true_iff. intros [Hc Hs]. split; [apply Hpq, Hc|apply IH, Hs].
Qed.

Lemma matchInt_mono (p q : ascii -> bool) :
  (forall c, p c = true -> q c = true) ->
  forall s, matchInt p s = true -> matchInt q s = true.
Proof.
  intros Hpq s. unfold matchInt.
  destruct s as [|c s]; [discriminate|].
  destruct (Ascii.eqb_spec c "-") as [->|Hne].
  - apply digits_mono, Hpq.
  - destruct c as [[] [] [] [] [] [] [] []]; try apply digits_mono, Hpq;
      contradiction Hne; reflexivity.
Qed.

Lemma digits_nonempty p s : digits p s = true -> s <> EmptyString.
Proof. destruct s; [discriminate|intros _; discriminate]. Qed.

Ltac class_le :=
  intros c; unfold isBinary, isOctal, isDecimal, isHex; cbv zeta;
  rewrite ?orb_true_iff, ?andb_true_iff, ?Nat.leb_le; lia.

(** X4.  Whatever [isInt] accepts in base 2 it accepts in base 8, what it
    accepts in base 8 it accepts in base 10, and what it accepts in base 10
    it accepts in base 16; without a base it is the test of base 10; every
    other base is refused; and neither the empty string nor a lone minus
    sign is accepted in any base. *)
Theorem isInt_bases (s : string) :
  (isInt s (Some 2) = true -> isInt s (Some 8) = true) /\
  (isInt s (Some 8) = true -> isInt s (Some 10) = true) /\
  (isInt s (Some 10) = true -> isInt s (Some 16) = true) /\
  isInt s None = isInt s (Some 10) /\
  (forall base, base <> 2 -> base <> 8 -> base <> 10 -> base <> 16 -> base <> 0 ->
     isInt s (Some base) = false) /\
  (forall base, isInt EmptyString base = false /\ isInt "-" base = false).
Proof.
  repeat split.
  - apply matchInt_mono. class_le.
  - apply matchInt_mono. class_le.
  - apply matchInt_mono. class_le.
  - intros base H2 H8 H10 H16 H0. unfold isInt. cbn [truthy num].
    repeat match goal with
           | |- context [?a =? ?b] =>
               replace (a =? b) with false by (symmetry; apply Z.eqb_neq; assumption)
           end.
    reflexivity.
  - unfold isInt. repeat match goal with |- context [if ?c then _ else _] => destruct c end;
      reflexivity.
  - unfold isInt. repeat match goal with |- context [if ?c then _ else _] => destruct c end;
      reflexivity.
Qed.

Lemma shl_1_testbit b i :
  0 <= i < 32 -> Z.testbit (shl b 1) i = (0 <? i) && Z.testbit b (i - 1).
Proof.
  intros Hi. unfold shl. change (toUint32 1 mod 32) with 1.
  rewrite toInt32_testbit by lia. rewrite Z.min_l by lia.
  rewrite Z.shiftl_spec by lia.
  destruct (Z.ltb_spec 0 i).
  - rewrite toInt32_testbit by lia. rewrite Z.min_l by lia. reflexivity.
  - replace (i - 1) with (-1) by lia. rewrite !Z.testbit_neg_r by lia. reflexivity.
Qed.

Lemma parseSwitches_bits mask : forall (s : string) switches bit (k : nat),
  (forall i, 0 <= i < 32 -> Z.testbit bit i = (i =? Z.of_nat k)) ->
  forall n : nat, (n < 32)%nat ->
  Z.testbit (parseSwitches mask s switches bit) (Z.of_nat n)
  = Z.testbit switches (Z.of_nat n)
    || (k <=? n)%nat &&
       match String.get (n - k) s with
       | Some ch => switchOf mask ch
       | None => false
       end.
Proof.
  induction s as [|ch s IH]; intros switches bit k Hbit n Hn.
  - cbn. rewrite andb_false_r, orb_false_r. reflexivity.
  - cbn [parseSwitches]. cbv zeta.
    match goal with
    | |- context [bor switches ?set] =>
        replace set with (if switchOf mask ch then bit else 0)
          by (unfold switchOf; destruct mask; destruct (Ascii.eqb ch "0");
              destruct (Ascii.eqb ch "1"); reflexivity)
    end.
    assert (Hset : Z.testbit (if switchOf mask ch then bit else 0) (Z.of_nat n)
                   = switchOf mask ch && (n =? k)%nat).
    { destruct (switchOf mask ch); [|apply Z.bits_0].
      rewrite Hbit by lia. cbn [andb].
      destruct (Nat.eqb_spec n k); destruct (Z.eqb_spec (Z.of_nat n) (Z.of_nat k));
        (reflexivity || lia). }
    rewrite (IH _ (shl bit 1) (S k)).
    + rewrite bor_testbit by lia. rewrite Z.min_l by lia.
      rewrite <- orb_assoc. f_equal. rewrite Hset.
      destruct (Nat.leb_spec k n) as [Hkn|Hkn].
      * destruct (Nat.eq_dec n k) as [->|Hne].
        -- rewrite Nat.sub_diag, Nat.eqb_refl. cbn [String.get].
           replace (S k <=? k)%nat with false by (symmetry; apply Nat.leb_gt; lia).
           rewrite andb_true_r. apply orb_false_r.
        -- replace (S k <=? n)%nat with true by (symmetry; apply Nat.leb_le; lia).
           replace (n - k)%nat with (S (n - S k)) by lia. cbn [String.get andb].
           replace (n =? k)%nat with false by (symmetry; apply Nat.eqb_neq; lia).
           rewrite andb_false_r. reflexivity.
      * replace (S k <=? n)%nat with false by (symmetry; apply Nat.leb_gt; lia).
        replace (n =? k)%nat with false by (symmetry; apply Nat.eqb_neq; lia).
        rewrite andb_false_r. reflexivity.
    + intros i Hi. rewrite shl_1_testbit by lia.
      destruct (Z.ltb_spec 0 i); cbn [andb].
      * rewrite Hbit by lia. destruct (Z.eqb_spec (i - 1) (Z.of_nat k));
          destruct (Z.eqb_spec i (Z.of_nat (S k))); lia.
      * destruct (Z.eqb_spec i (Z.of_nat (S k))); lia.
    + exact Hn.
Qed.

(** X3.  For a string that is not empty, bit [n] of what
    [parseDIPSwitches] returns tells the switch of character [n]: on where
    the character is [0] (bit sense and bit order are reversed), or, with
    the default -1, present where the character is a digit.  This holds for
    the first 32 characters; the characters after them are ignored. *)
Theorem parseDIPSwitches_bits (s : string) (switchesDefault : jsval) (n : nat) :
  s <> EmptyString -> (n < 32)%nat ->
  exists switches,
    parseDIPSwitches (Some s) switchesDefault = Some switches /\
    Z.testbit switches (Z.of_nat n)
    = match String.get n s with
      | Some ch => switchOf (bool_decide (switchesDefault = Some (-1))) ch
      | None => false
      end.
Proof.
  intros Hs Hn. destruct s as [|ch s]; [contradiction|].
  eexists. split; [reflexivity|].
  rewrite (parseSwitches_bits _ _ 0 1 0%nat).
  - rewrite Z.bits_0, Nat.sub_0_r. reflexivity.
  - intros i Hi. change (Z.of_nat 0) with 0.
    destruct (Z.eqb_spec i 0) as [->|Hne]; [reflexivity|].
    change 1 with (2^0). apply Z.pow2_bits_false. lia.
  - exact Hn.
Qed.

(** X3, on the switches [0110]: switch 0 and switch 3 are on. *)
Lemma parseDIPSwitches_bits_witness :
  exists switches,
    NumIO.parseDIPSwitches (Some "0110"%string) None = Some switches /\
    Z.testbit switches (Z.of_nat 3)
    = match String.get 3 "0110"%string with
      | Some ch => NumIO.switchOf (bool_decide (@None Z = Some (-1))) ch
      | None => false
      end.
Proof. apply parseDIPSwitches_bits; [discriminate|lia]. Defined.

Example parseDIPSwitches_0110 :
  NumIO.parseDIPSwitches (Some "0110"%string) None = Some 9 /\
  NumIO.parseDIPSwitches (Some "0x10"%string) (Some (-1)) = Some 13 /\
  NumIO.parseDIPSwitches (Some ""%string) (Some 5) = Some 5.
Proof. repeat split. Qed.

End NumIOStrings.

(** X1, on a number of 33 bits. *)
Lemma testBits_spec_witness :
  NumIO.testBits (2^32 + 5) (2^32 + 4) = true <->
  Z.land (2^32 + 5) (2^32 + 4) = 2^32 + 4.
Proof. apply testBits_spec; lia. Defined.

(** X2, where bit 31 is set. *)
Lemma setBits_clearBits_bit31_witness :
  NumIO.setBits (2^32) (2^31)
  = Z.lor (2^32) (2^31) - (if Z.testbit (Z.lor (2^32) (2^31)) 31 then 2^32 else 0) /\
  NumIO.clearBits (2^32) (2^31)
  = Z.ldiff (2^32) (2^31)
    - (if Z.testbit (Z.ldiff (2^32) (2^31)) 31 then 2^32 else 0).
Proof.
  destruct (setBits_clearBits_bit31 (2^32) (2^31) ltac:(lia) ltac:(lia))
    as (_ & _ & H).
  apply H; lia.
Defined.


Section Decompression.
Import NumIO.

(** [fillRun] writes [k] copies from [iDst] on; past the end of the array
    the array grows. *)
Lemma fillRun_grow k : forall n (aDst : jsarray) iDst,
  (iDst <= length aDst)%nat ->
  fillRun (S k) (Some (Z.of_nat k)) n aDst iDst
  = Some (take iDst aDst ++ replicate k n ++ drop (iDst + k) aDst, (iDst + k)%nat).
Proof.
  induction k as [|k IH]; intros n aDst iDst Hlen.
  - simpl. rewrite Nat.add_0_r, take_drop. reflexivity.
  - rewrite fillRun_S. cbn [truthy num].
    replace (Z.of_nat (S k) =? 0) with false by (symmetry; apply Z.eqb_neq; lia).
    cbn [negb]. replace (Z.of_nat (S k) - 1) with (Z.of_nat k) by lia.
    rewrite IH by (rewrite length_aset; apply Nat.le_max_r).
    f_equal. f_equal; [|lia].
    destruct (Nat.eq_dec iDst (length aDst)) as [->|Hne].
    + rewrite aset_end.
      rewrite (take_ge (aDst ++ [n])) by (rewrite length_app; cbn; lia).
      rewrite (take_ge aDst) by lia.
      rewrite (drop_ge (aDst ++ [n])) by (rewrite length_app; cbn; lia).
      rewrite (drop_ge aDst) by lia.
      rewrite <- app_assoc. reflexivity.
    + unfold aset. replace (iDst <? length aDst)%nat with true
        by (symmetry; apply Nat.ltb_lt; lia).
      rewrite (take_S_r _ _ n) by (apply list_lookup_insert_eq; lia).
      rewrite take_insert_ge by lia.
      rewrite drop_insert_lt by lia.
      rewrite <- app_assoc. simpl.
      replace (S (iDst + k)) with (iDst + S k)%nat by lia. reflexivity.
Qed.

Lemma decompressLoop_grow rs : forall (pre aDst : jsarray) iDst fuel,
  (length rs < fuel)%nat ->
  (iDst <= length aDst)%nat ->
  decompressLoop fuel (pre ++ flatten rs) (length pre) aDst iDst
  = Some (take iDst aDst ++ expand rs ++ drop (iDst + length (expand rs)) aDst).
Proof.
  induction rs as [|[c v] rs IH]; intros pre aDst iDst fuel Hf Hlen;
    (destruct fuel as [|fuel]; [simpl in Hf; lia|]).
  - simpl. rewrite app_nil_r.
    replace (Z.of_nat (length pre) <? Z.of_nat (length pre) - 1) with false
      by (symmetry; apply Z.ltb_ge; lia).
    rewrite Nat.add_0_r, take_drop. reflexivity.
  - cbn [decompressLoop].
    assert (Hl : length (pre ++ flatten ((c, v) :: rs))
                 = (length pre + 2 + 2 * length rs)%nat).
    { rewrite length_app, length_flatten. simpl. lia. }
    replace (Z.of_nat (length pre) <? Z.of_nat (length (pre ++ flatten ((c, v) :: rs))) - 1)
      with true by (symmetry; apply Z.ltb_lt; lia).
    assert (Hc : aget (pre ++ flatten ((c, v) :: rs)) (length pre) = Some (Z.of_nat c)).
    { unfold aget. rewrite lookup_app_r by lia. rewrite Nat.sub_diag. reflexivity. }
    assert (Hv : aget (pre ++ flatten ((c, v) :: rs)) (S (length pre)) = v).
    { unfold aget. rewrite lookup_app_r by lia.
      replace (S (length pre) - length pre)%nat with 1%nat by lia. reflexivity. }
    rewrite Hc, Hv. cbn [num]. rewrite Nat2Z.id.
    rewrite fillRun_grow by lia.
    replace (pre ++ flatten ((c, v) :: rs)) with ((pre ++ [Some (Z.of_nat c); v]) ++ flatten rs)
      by (rewrite <- app_assoc; reflexivity).
    replace (S (S (length pre))) with (length (pre ++ [Some (Z.of_nat c); v]))
      by (rewrite length_app; simpl; lia).
    assert (Ht : length (take iDst aDst ++ replicate c v) = (iDst + c)%nat)
      by (rewrite length_app, length_take, length_replicate; lia).
    rewrite IH;
      [|simpl in Hf; lia
       |rewrite !length_app, length_take, length_replicate; lia].
    f_equal. cbn [expand flat_map fst snd]. fold (expand rs).
    rewrite (app_assoc (take iDst aDst) (replicate c v)).
    rewrite take_app_length' by (symmetry; exact Ht).
    replace (iDst + c + length (expand rs))%nat
      with (length (take iDst aDst ++ replicate c v) + length (expand rs))%nat by lia.
    rewrite <- drop_drop, drop_app_length, drop_drop.
    rewrite length_app, length_replicate, <- !app_assoc.
    do 3 f_equal. f_equal. lia.
Qed.

(** X5.  [decompress] undoes the run-length encoding of an array whatever
    length it is given, provided that this is not the length of the
    encoding itself: the length only sizes the array beforehand, so that a
    length beyond that of the original array leaves holes at the end. *)
Theorem decompress_presized (xs : jsarray) (n : nat) :
  n <> length (runLengthEncoding xs) ->
  decompress (runLengthEncoding xs) n
  = Some (xs ++ replicate (n - length xs) None).
Proof.
  intros Hn. unfold decompress.
  replace (length (runLengthEncoding xs) =? n)%nat with false
    by (symmetry; apply Nat.eqb_neq; lia).
  unfold runLengthEncoding in *.
  pose proof (decompressLoop_grow (runs xs) []
                (if (n =? 0)%nat then [] else newArray n) 0
                (S (length (flatten (runs xs))))) as H.
  cbn [app length] in H. rewrite H; [|rewrite length_flatten; lia|lia].
  rewrite expand_runs, take_0. cbn [app Nat.add]. f_equal. f_equal.
  destruct (Nat.eqb_spec n 0) as [->|Hne].
  - rewrite drop_nil. reflexivity.
  - unfold newArray. rewrite drop_replicate. reflexivity.
Qed.

(** X6.  The inner loop of [decompress], [while (c--)], has no end for a
    count below zero: however many turns it is given, it does not return;
    and [decompress] does not return for an encoding whose first count is
    below zero (unless its length is the one asked for). *)
Theorem decompress_negative_count (c : Z) (v : jsval) :
  c < 0 ->
  (forall fuel (aDst : jsarray) iDst, fillRun fuel (Some c) v aDst iDst = None) /\
  (forall rest n, n <> S (S (length rest)) ->
     decompress (Some c :: v :: rest) n = None).
Proof.
  intros Hc.
  assert (H : forall fuel c (aDst : jsarray) iDst,
            c < 0 -> fillRun fuel (Some c) v aDst iDst = None).
  { induction fuel as [|fuel IH]; intros c' aDst iDst Hc'; [reflexivity|].
    rewrite fillRun_S. cbn [truthy num].
    replace (c' =? 0) with false by (symmetry; apply Z.eqb_neq; lia).
    apply IH. lia. }
  split; [intros; apply H, Hc|].
  intros rest n Hn. unfold decompress. cbn [length].
  replace (S (S (length rest)) =? n)%nat with false
    by (symmetry; apply Nat.eqb_neq; lia).
  cbn [decompressLoop length].
  replace (Z.of_nat 0 <? Z.of_nat (S (S (length rest))) - 1) with true
    by (symmetry; apply Z.ltb_lt; lia).
  change (aget (Some c :: v :: rest) 0) with (Some c).
  change (aget (Some c :: v :: rest) 1) with v.
  rewrite H by exact Hc. reflexivity.
Qed.

End Decompression.

(** X5, on six equal numbers and the length 8. *)
Lemma decompress_presized_witness :
  NumIO.decompress (NumIO.runLengthEncoding (replicate 6 (Some 7))) 8
  = Some (replicate 6 (Some 7) ++ replicate (8 - length (replicate 6 (Some 7))) None).
Proof. apply decompress_presized. vm_compute. lia. Defined.

(** X6, on the count -1. *)
Lemma decompress_negative_count_witness :
  (forall fuel (aDst : jsarray) iDst,
     NumIO.fillRun fuel (Some (-1)) (Some 7) aDst iDst = None) /\
  (forall rest n, n <> S (S (length rest)) ->
     NumIO.decompress (Some (-1) :: Some 7 :: rest) n = None).
Proof. apply decompress_negative_count. lia. Defined.

(** ** Memory blocks *)

Section MemoryFacts.
Import Memory.

Variable LITTLE_ENDIAN : bool.

Local Abbreviation read := (Memory.read LITTLE_ENDIAN).
Local Abbreviation write := (Memory.write LITTLE_ENDIAN).
Local Abbreviation readPairAt := (Memory.readPairAt LITTLE_ENDIAN).
Local Abbreviation writePairAt := (Memory.writePairAt LITTLE_ENDIAN).
Local Abbreviation callReader := (Memory.callReader LITTLE_ENDIAN).
Local Abbreviation callWriter := (Memory.callWriter LITTLE_ENDIAN).

Ltac mem_unfold :=
  unfold wf, trapsOk, pairsOk, accessOk,
    baseReadData, baseReadPair, baseWriteData, baseWritePair in *;
  simpl in *.

(** Through a read field that holds a plain function the call goes straight
    to the function. *)
Lemma callRead_plain r b off :
  plainReader r = true ->
  callRead LITTLE_ENDIAN (Some r) b off = (callReader r b off, []).
Proof. destruct r; intros H; try discriminate H; reflexivity. Qed.

Lemma callWrite_plain w b off v :
  plainWriter w = true ->
  callWrite LITTLE_ENDIAN (Some w) b off v = (callWriter w b off v, []).
Proof. destruct w; intros H; try discriminate H; reflexivity. Qed.

(** The single-unit functions below the trap layer. *)
Lemma wf_baseReadData b :
  wf b ->
  baseReadData b = Some (if type b =? TYPE.NONE then readNone else readValue).
Proof.
  intros (_ & _ & _ & [H|[H|H]]); destruct H as (Ht & Hr & _); rewrite Ht, Hr; reflexivity.
Qed.

Lemma wf_baseWriteData b :
  wf b ->
  exists w, baseWriteData b = Some w /\
    (w = writeNone \/ w = writeValue \/ w = writeValueDirty).
Proof.
  intros (_ & _ & _ & [H|[H|H]]).
  - destruct H as (_ & _ & Hw & _). eauto.
  - destruct H as (_ & _ & Hw & _). eauto.
  - destruct H as (_ & _ & Hw). destruct (bus b).
    + destruct Hw as [Hw|[Hw _]]; eauto.
    + destruct Hw as [Hw _]; eauto.
Qed.

(** What a single-unit read does: the function below the trap layer runs,
    and then the trap function, if one is installed, is called once. *)
Lemma read_dispatch b off :
  wf b ->
  exists r x, baseReadData b = Some r /\ callReader r b off = Returns x /\
    read b off
    = (Returns x,
       if (nReadTraps b =? 0)%nat then []
       else match readTrap b with
            | Some f => [mkCall f (addr b) off x (values b)]
            | None => []
            end).
Proof.
  intros Hwf. pose proof (wf_baseReadData b Hwf) as Hr.
  destruct Hwf as (_ & [Htr _] & _ & _).
  exists (if type b =? TYPE.NONE then readNone else readValue).
  exists (if type b =? TYPE.NONE then Some (dataLimit b) else aget (values b) off).
  split; [exact Hr|]. split; [destruct (type b =? TYPE.NONE); reflexivity|].
  unfold Memory.read, baseReadData in *.
  destruct (nReadTraps b =? 0)%nat.
  - rewrite Hr. destruct (type b =? TYPE.NONE); reflexivity.
  - destruct Htr as (Hd & _ & [f Hf]). rewrite Hd. cbn [callRead]. rewrite Hr, Hf.
    destruct (type b =? TYPE.NONE); reflexivity.
Qed.

(** What a single-unit write does: the trap function, if one is installed,
    is called once on the block as it is, and then the function below the
    trap layer runs. *)
Lemma write_dispatch b off v :
  wf b ->
  exists w, baseWriteData b = Some w /\
    (w = writeNone \/ w = writeValue \/ w = writeValueDirty) /\
    write b off v
    = (callWriter w b off v,
       if (nWriteTraps b =? 0)%nat then []
       else match writeTrap b with
            | Some f => [mkCall f (addr b) off (Some v) (values b)]
            | None => []
            end).
Proof.
  intros Hwf. destruct (wf_baseWriteData b Hwf) as (w & Hw & Hcases).
  destruct Hwf as (_ & [_ Htw] & _ & _).
  exists w. split; [exact Hw|]. split; [exact Hcases|].
  unfold Memory.write, baseWriteData in *.
  destruct (nWriteTraps b =? 0)%nat.
  - rewrite Hw. apply callWrite_plain. destruct Hcases as [->|[->| ->]]; reflexivity.
  - destruct Htw as (Hd & _ & [f Hf]). rewrite Hd. cbn [callWrite]. rewrite Hw, Hf.
    reflexivity.
Qed.

(** The pair functions: the same two layers. *)
Lemma readPair_dispatch b off :
  wf b ->
  exists r, baseReadPair b = Some r /\ plainReader r = true /\
    readPairAt b off
    = match callReader r b off with
      | Returns x =>
          (Returns x,
           if (nReadTraps b =? 0)%nat then []
           else match readTrap b with
                | Some f => [mkCall f (addr b) off x (values b);
                             mkCall f (addr b) (S off) x (values b)]
                | None => []
                end)
      | Throws e => (Throws e, [])
      end.
Proof.
  intros (_ & [Htr _] & [(r & Hr & Hp) _] & _).
  exists r. split; [exact Hr|]. split; [exact Hp|].
  unfold Memory.readPairAt, baseReadPair in *.
  destruct (nReadTraps b =? 0)%nat.
  - rewrite Hr, callRead_plain by exact Hp. destruct (callReader r b off); reflexivity.
  - destruct Htr as (_ & Hd & [f Hf]). rewrite Hd. cbn [callRead]. rewrite Hr, Hf.
    destruct (callReader r b off); reflexivity.
Qed.

Lemma writePair_dispatch b off v :
  wf b ->
  exists w, baseWritePair b = Some w /\ plainWriter w = true /\
    writePairAt b off v
    = (callWriter w b off v,
       if (nWriteTraps b =? 0)%nat then []
       else match writeTrap b with
            | Some f => [mkCall f (addr b) off (Some v) (values b);
                         mkCall f (addr b) (S off) (Some v) (values b)]
            | None => []
            end).
Proof.
  intros (_ & [_ Htw] & [_ (w & Hw & Hp)] & _).
  exists w. split; [exact Hw|]. split; [exact Hp|].
  unfold Memory.writePairAt, baseWritePair in *.
  destruct (nWriteTraps b =? 0)%nat.
  - rewrite Hw. apply callWrite_plain, Hp.
  - destruct Htw as (_ & Hd & [f Hf]). rewrite Hd. cbn [callWrite]. rewrite Hw, Hf.
    reflexivity.
Qed.

(** A pair read inside the block returns: only the [DataView] read of a
    buffer checks its bounds. *)
Lemma callReader_pair_returns r b off :
  plainReader r = true -> Z.of_nat off + 2 <= size b ->
  exists x, callReader r b off = Returns x.
Proof.
  intros Hp Hoff. destruct r; try discriminate Hp; cbn [Memory.callReader]; eauto.
  - destruct (littleEndian b); eauto.
  - destruct (Z.of_nat (Nat.div2 off) <? sar (size b) 1); eauto.
  - replace (size b <? Z.of_nat off + 2) with false by (symmetry; apply Z.ltb_ge; lia).
    eauto.
Qed.

(** *** The invariant holds of every reachable block *)

Lemma wf_set_values x b : wf b -> wf (set_values x b).
Proof. exact id. Qed.

Lemma initValues_values vals b : exists vs, initValues vals b = set_values vs b.
Proof.
  unfold initValues. destruct (negb (buffer b)); destruct vals as [vs|]; eauto.
  - generalize (seq 0 (Z.to_nat (size b))). intros l.
    assert (H : forall b', (exists ws, b' = set_values ws b) ->
      exists ws, fold_left (fun b'' i => set_values (store b'' i (aget vs i)) b'') l b'
                 = set_values ws b).
    { induction l as [|i l IH]; intros b' [ws ->]; simpl; [eauto|].
      apply IH. eexists. reflexivity. }
    apply H. exists (values b). destruct b; reflexivity.
  - exists (values b). destruct b; reflexivity.
Qed.

Lemma new_wf arrayBuffer bi cfg :
  typed cfg -> wf (new LITTLE_ENDIAN arrayBuffer bi cfg).
Proof.
  intros Ht. unfold new.
  match goal with |- context [initValues ?v ?b0] =>
    destruct (initValues_values v b0) as [vs ->] end.
  destruct bi as [bt dw le].
  destruct Ht as [Ht|[Ht|[Ht|[Ht|Ht]]]]; rewrite Ht; cbn;
    (split; [reflexivity|]); (split; [repeat split; reflexivity|]);
    (destruct bt; cbn;
     [ destruct (dw =? 8); destruct arrayBuffer; cbn;
       try (destruct (eqb le LITTLE_ENDIAN)); try (destruct le)
     | ]);
    (split; [split; eexists; split; reflexivity|]);
    unfold accessOk; cbn; tauto.
Qed.

Lemma write_wf b off v : wf b -> wf (snd (fst (write b off v))).
Proof.
  intros Hwf. destruct (write_dispatch b off v Hwf) as (w & Hw & Hc & ->).
  cbn [fst snd]. destruct Hc as [->|[->| ->]]; cbn [Memory.callWriter fst snd].
  - exact Hwf.
  - exact Hwf.
  - destruct Hwf as (Hd & [Htr Htw] & Hp & Ha). unfold swapWriteData.
    cbn [nWriteTraps set_fDirty set_values].
    unfold wf, trapsOk, pairsOk, accessOk,
      baseReadData, baseReadPair, baseWriteData, baseWritePair in *.
    destruct (nWriteTraps b =? 0)%nat eqn:En; cbn; rewrite ?En;
      (split; [exact Hd|]); (split; [split; assumption|]); (split; [exact Hp|]);
      destruct Ha as [Ha|[Ha|Ha]];
      try (destruct Ha as (_ & _ & Ha & _); congruence);
      destruct Ha as (Ht & Hr & Ha); right; right; (split; [exact Ht|]);
      (split; [exact Hr|]); destruct (bus b); intuition congruence.
Qed.

Ltac wf_open H :=
  let Hd := fresh "Hd" in let Htr := fresh "Htr" in let Htw := fresh "Htw" in
  let Hpr := fresh "Hpr" in let Hpw := fresh "Hpw" in let Ha := fresh "Ha" in
  destruct H as (Hd & [Htr Htw] & [Hpr Hpw] & Ha);
  unfold wf, trapsOk, pairsOk, accessOk,
    baseReadData, baseReadPair, baseWriteData, baseWritePair
    in Hd, Htr, Htw, Hpr, Hpw, Ha |- *.

(** Replacing the pair-write function below the trap layer by a plain one
    keeps the invariant, except where the type of the block fixes it. *)
Lemma swapWritePair_wf w b :
  wf b -> plainWriter w = true ->
  type b = TYPE.READWRITE -> bus b = STATIC ->
  wf (swapWritePair w b).
Proof.
  intros Hwf Hp Ht Hb. wf_open Hwf. unfold swapWritePair.
  destruct (nWriteTraps b =? 0)%nat eqn:En; cbn; rewrite ?En;
    (split; [exact Hd|]); (split; [split; assumption|]);
    (split; [split; [exact Hpr|eauto]|]);
    destruct Ha as [Ha|[Ha|Ha]];
    try (destruct Ha as (Ht' & _); rewrite Ht in Ht'; discriminate Ht');
    right; right; rewrite Hb in *; exact Ha.
Qed.

Lemma wf_pairDirty_static b :
  wf b -> baseWritePair b = Some writeValuePairDirty ->
  type b = TYPE.READWRITE /\ bus b = STATIC.
Proof.
  intros Hwf Hw. wf_open Hwf. unfold baseWritePair in Hw.
  destruct Ha as [Ha|[Ha|Ha]];
    try (destruct Ha as (_ & _ & _ & Ha & _); rewrite Hw in Ha; discriminate Ha).
  destruct Ha as (Ht & _ & Ha). split; [exact Ht|].
  destruct (bus b); [reflexivity|].
  destruct Ha as (_ & Ha & _). rewrite Hw in Ha. discriminate Ha.
Qed.

Lemma writePair_wf b off v : wf b -> wf (snd (fst (writePairAt b off v))).
Proof.
  intros Hwf. destruct (writePair_dispatch b off v Hwf) as (w & Hw & Hp & ->).
  cbn [fst snd].
  destruct w; try discriminate Hp; cbn [Memory.callWriter fst snd];
    try exact Hwf.
  - destruct (wf_baseWriteData b Hwf) as (w' & Hw' & _).
    pose proof Hwf as Hwf'. wf_open Hwf'. unfold swapWriteData.
    unfold baseWritePair in Hw.
    cbn [nWriteTraps set_fDirty set_values].
    destruct Ha as [Ha|[Ha|Ha]];
      try (destruct Ha as (_ & _ & _ & Ha & _); rewrite Hw in Ha; discriminate Ha).
    destruct Ha as (Ht & Hr & Ha).
    destruct (nWriteTraps b =? 0)%nat eqn:En; cbn; rewrite ?En;
      (split; [exact Hd|]); (split; [split; assumption|]);
      (split; [split; [exact Hpr|exact Hpw]|]);
      right; right; (split; [exact Ht|]); (split; [exact Hr|]);
      destruct (bus b); [right; split; reflexivity
                        |destruct Ha as (_ & Ha & _); rewrite Hw in Ha; discriminate Ha
                        |right; split; reflexivity
                        |destruct Ha as (_ & Ha & _); rewrite Hw in Ha; discriminate Ha].
  - destruct (Z.of_nat (Nat.div2 off) <? sar (size b) 1); exact Hwf.
  - destruct (size b <? Z.of_nat off + 2); exact Hwf.
  - destruct (wf_pairDirty_static b Hwf Hw) as [Ht Hb].
    destruct (negb (buffer b)).
    + destruct (littleEndian b); cbn [snd];
        apply swapWritePair_wf; try reflexivity; assumption.
    + destruct (eqb (littleEndian b) LITTLE_ENDIAN).
      * cbn [snd]. destruct (Z.of_nat (Nat.div2 off) <? sar (size b) 1);
          apply swapWritePair_wf; try reflexivity; assumption.
      * destruct (size b <? Z.of_nat off + 2); cbn [snd]; [exact Hwf|].
        apply swapWritePair_wf; try reflexivity; assumption.
Qed.

Lemma trapRead_wf f b : wf b -> wf (snd (trapRead f b)).
Proof.
  intros Hwf. wf_open Hwf. unfold trapRead.
  destruct (nReadTraps b =? 0)%nat eqn:En; cbn.
  - split; [exact Hd|]. split; [split; [eauto|exact Htw]|].
    split; [split; assumption|exact Ha].
  - destruct (bool_decide (readTrap b = Some f)); cbn; rewrite ?En;
      (split; [exact Hd|]); (split; [split; assumption|]);
      (split; [split; assumption|exact Ha]).
Qed.

Lemma trapWrite_wf f b : wf b -> wf (snd (trapWrite f b)).
Proof.
  intros Hwf. wf_open Hwf. unfold trapWrite.
  destruct (nWriteTraps b =? 0)%nat eqn:En; cbn.
  - split; [exact Hd|]. split; [split; [exact Htr|eauto]|].
    split; [split; assumption|exact Ha].
  - destruct (bool_decide (writeTrap b = Some f)); cbn; rewrite ?En;
      (split; [exact Hd|]); (split; [split; assumption|]);
      (split; [split; assumption|exact Ha]).
Qed.

Lemma untrapRead_wf f b : wf b -> wf (snd (untrapRead f b)).
Proof.
  intros Hwf. pose proof Hwf as Hwf'. wf_open Hwf'. unfold untrapRead.
  destruct (nReadTraps b) as [|n] eqn:En; cbn; [exact Hwf|].
  destruct (bool_decide (readTrap b = Some f)); cbn; [|exact Hwf].
  destruct n as [|n]; cbn; rewrite ?En; cbn;
    (split; [exact Hd|]); (split; [split; [auto|exact Htw]|]);
    (split; [split; assumption|exact Ha]).
Qed.

Lemma untrapWrite_wf f b : wf b -> wf (snd (untrapWrite f b)).
Proof.
  intros Hwf. pose proof Hwf as Hwf'. wf_open Hwf'. unfold untrapWrite.
  destruct (nWriteTraps b) as [|n] eqn:En; cbn; [exact Hwf|].
  destruct (bool_decide (writeTrap b = Some f)); cbn; [|exact Hwf].
  destruct n as [|n]; cbn; rewrite ?En; cbn;
    (split; [exact Hd|]); (split; [split; [exact Htr|auto]|]);
    (split; [split; assumption|exact Ha]).
Qed.

Lemma isDirty_wf b : wf b -> wf (snd (isDirty b)).
Proof.
  intros Hwf. pose proof Hwf as Hwf'. wf_open Hwf'. unfold isDirty.
  destruct (fDirty b) eqn:Ef; cbn; [|exact Hwf].
  destruct Ha as [Ha|[Ha|Ha]];
    try (destruct Ha as (_ & _ & _ & _ & Ha); discriminate Ha).
  destruct Ha as (Ht & Hr & Ha).
  destruct (bus b) eqn:Eb; [|destruct Ha as (_ & _ & Ha); discriminate Ha].
  destruct (nWriteTraps b =? 0)%nat eqn:En; cbn; rewrite ?En, ?Eb;
    (split; [exact Hd|]); (split; [split; assumption|]);
    (split; [split; [exact Hpr|eexists; split; reflexivity]|]);
    right; right; (split; [exact Ht|]); (split; [exact Hr|]); left; reflexivity.
Qed.

Lemma onReset_wf b : wf b -> wf (onReset b).
Proof. intros Hwf. unfold onReset. destruct (TYPE.READWRITE <=? type b); exact Hwf. Qed.

Lemma step_wf o b : wf b -> wf (step LITTLE_ENDIAN o b).
Proof.
  intros Hwf. destruct o; cbn [step];
    auto using write_wf, writePair_wf, trapRead_wf, trapWrite_wf,
      untrapRead_wf, untrapWrite_wf, isDirty_wf, onReset_wf.
Qed.

Lemma reachable_wf b : reachable LITTLE_ENDIAN b -> wf b.
Proof. induction 1; [apply new_wf; assumption|apply step_wf; assumption]. Qed.

(** *** Reads and writes *)

Lemma read_eq b off :
  wf b ->
  exists cs,
    read b off
    = (Returns (if type b =? TYPE.NONE then Some (dataLimit b)
                else aget (values b) off), cs).
Proof.
  intros Hwf. pose proof (wf_baseReadData b Hwf) as Hr.
  destruct (read_dispatch b off Hwf) as (r & x & Hr' & Hx & ->).
  rewrite Hr in Hr'. injection Hr' as <-.
  eexists. f_equal. rewrite <- Hx.
  destruct (type b =? TYPE.NONE); reflexivity.
Qed.

Lemma aget_store b off v :
  (off < length (values b))%nat ->
  aget (store b off (Some v)) off = Some (if buffer b then v mod 256 else v).
Proof.
  intros Hoff. unfold store. destruct (buffer b).
  - replace (off <? length (values b))%nat with true
      by (symmetry; apply Nat.ltb_lt; exact Hoff).
    unfold aget. rewrite list_lookup_insert_eq by exact Hoff. reflexivity.
  - apply aget_aset_eq.
Qed.

(** C1 (as amended).  On a READWRITE block a write followed by a read of
    the same valid offset returns the value written (reduced modulo 256 when
    the block is backed by a byte buffer); the write leaves the block dirty
    when its bus is STATIC and leaves the dirty flag clear when its bus is
    DYNAMIC.  On a NONE or READONLY block a write changes nothing.  A read
    of a NONE block returns the all-ones value [2 ^ dataWidth - 1]. *)
Theorem write_then_read b off v :
  wf b -> (off < length (values b))%nat ->
  (type b = TYPE.READWRITE ->
   exists b' cs,
     write b off v = (Returns tt, b', cs) /\
     (exists cs',
        read b' off = (Returns (Some (if buffer b then v mod 256 else v)), cs')) /\
     fDirty b' = match bus b with STATIC => true | DYNAMIC => false end) /\
  (type b = TYPE.NONE \/ type b = TYPE.READONLY ->
   exists cs, write b off v = (Returns tt, b, cs)) /\
  (type b = TYPE.NONE ->
   exists cs, read b off = (Returns (Some (2 ^ dataWidth b - 1)), cs)).
Proof.
  intros Hwf Hoff.
  pose proof (write_wf b off v Hwf) as Hwf'.
  destruct (write_dispatch b off v Hwf) as (w & Hw & _ & Hwr).
  rewrite Hwr in Hwf'. cbn [fst snd] in Hwf'.
  pose proof Hwf as (Hd & _ & _ & Ha). unfold accessOk in Ha.
  split; [|split].
  - intros Ht. destruct Ha as [Ha|[Ha|Ha]];
      try (destruct Ha as (Ht' & _); rewrite Ht in Ht'; discriminate Ht').
    destruct Ha as (_ & _ & Ha).
    assert (Hcase :
      exists b', callWriter w b off v = (Returns tt, b') /\
        values b' = store b off (Some v) /\ type b' = type b /\
        fDirty b' = match bus b with STATIC => true | DYNAMIC => false end).
    { destruct (bus b).
      - destruct Ha as [Ha|[Ha Hf]]; rewrite Hw in Ha; injection Ha as ->;
          cbn [Memory.callWriter]; eexists; (split; [reflexivity|]).
        + unfold swapWriteData. destruct (nWriteTraps _ =? 0)%nat; cbn; auto.
        + cbn. auto.
      - destruct Ha as (Ha & _ & Hf). rewrite Hw in Ha. injection Ha as ->.
        cbn [Memory.callWriter]. eexists. split; [reflexivity|]. cbn. auto. }
    destruct Hcase as (b' & Hcw & Hv & Ht' & Hf).
    rewrite Hcw in Hwr, Hwf'. cbn [snd] in Hwf'.
    exists b'. eexists. split; [exact Hwr|]. split; [|exact Hf].
    destruct (read_eq b' off Hwf') as [cs' Hrd]. exists cs'.
    rewrite Hrd, Ht', Ht, Hv, aget_store by exact Hoff. reflexivity.
  - intros Ht.
    assert (Hn : w = writeNone).
    { destruct Ha as [Ha|[Ha|Ha]].
      - destruct Ha as (_ & _ & Ha & _). congruence.
      - destruct Ha as (_ & _ & Ha & _). congruence.
      - destruct Ha as (Ht' & _). destruct Ht as [Ht|Ht]; rewrite Ht in Ht';
          discriminate Ht'. }
    subst w. eexists. exact Hwr.
  - intros Ht. destruct (read_eq b off Hwf) as [cs Hrd]. exists cs.
    rewrite Hrd, Ht, Hd. reflexivity.
Qed.

(** *** Traps *)

(** C4.  With a read trap installed, a single-unit read first runs the
    function below the trap and then calls the trap function with the base
    address of the block (or [undefined]), the offset and the value read,
    and returns that value.  With a write trap installed, a single-unit
    write calls the trap function with the base address, the offset and the
    value about to be written while the block still holds its old contents,
    and then runs the function below the trap. *)
Theorem trap_after_read_before_write b off v :
  wf b ->
  (nReadTraps b <> 0%nat ->
   exists f r x,
     readTrap b = Some f /\ readDataOrig b = Some r /\
     callReader r b off = Returns x /\
     read b off = (Returns x, [mkCall f (addr b) off x (values b)])) /\
  (nWriteTraps b <> 0%nat ->
   exists f w,
     writeTrap b = Some f /\ writeDataOrig b = Some w /\
     write b off v
     = (callWriter w b off v, [mkCall f (addr b) off (Some v) (values b)])).
Proof.
  intros Hwf. split; intros Hn.
  - destruct (read_dispatch b off Hwf) as (r & x & Hr & Hx & Hrd).
    destruct Hwf as (_ & [Htr _] & _). unfold baseReadData in Hr.
    replace (nReadTraps b =? 0)%nat with false in *
      by (symmetry; apply Nat.eqb_neq; exact Hn).
    destruct Htr as (_ & _ & [f Hf]). rewrite Hf in Hrd. eauto 8.
  - destruct (write_dispatch b off v Hwf) as (w & Hw & _ & Hwr).
    destruct Hwf as (_ & [_ Htw] & _). unfold baseWriteData in Hw.
    replace (nWriteTraps b =? 0)%nat with false in *
      by (symmetry; apply Nat.eqb_neq; exact Hn).
    destruct Htw as (_ & _ & [f Hf]). rewrite Hf in Hwr. eauto.
Qed.

Lemma trapRead_base f b :
  baseReadData (snd (trapRead f b)) = baseReadData b /\
  baseReadPair (snd (trapRead f b)) = baseReadPair b.
Proof.
  unfold trapRead, baseReadData, baseReadPair.
  destruct (nReadTraps b =? 0)%nat eqn:En; cbn; [split; reflexivity|].
  destruct (bool_decide (readTrap b = Some f)); cbn; rewrite ?En; split; reflexivity.
Qed.

(** C10.  With a read trap installed, a pair read inside the block runs the
    pair function below the trap, calls the trap function twice, for
    [offset] and for [offset + 1], each time with the whole pair value, and
    returns that value, the one the pair read returns without the trap.
    With a write trap installed, a pair write calls the trap function twice,
    for [offset] and [offset + 1], with the whole pair value and the old
    contents, and then runs the pair write below the trap. *)
Theorem pair_trap_twice b off v :
  wf b ->
  (nReadTraps b <> 0%nat -> Z.of_nat off + 2 <= size b ->
   exists f r x,
     readTrap b = Some f /\ readPairOrig b = Some r /\
     callReader r b off = Returns x /\
     readPairAt b off
     = (Returns x, [mkCall f (addr b) off x (values b);
                    mkCall f (addr b) (S off) x (values b)])) /\
  (nReadTraps b = 0%nat ->
   forall f, fst (readPairAt (snd (trapRead f b)) off) = fst (readPairAt b off)) /\
  (nWriteTraps b <> 0%nat ->
   exists f w,
     writeTrap b = Some f /\ writePairOrig b = Some w /\
     writePairAt b off v
     = (callWriter w b off v, [mkCall f (addr b) off (Some v) (values b);
                               mkCall f (addr b) (S off) (Some v) (values b)])).
Proof.
  intros Hwf. split; [|split].
  - intros Hn Hoff.
    destruct (readPair_dispatch b off Hwf) as (r & Hr & Hp & Hrd).
    destruct (callReader_pair_returns r b off Hp Hoff) as [x Hx].
    rewrite Hx in Hrd.
    destruct Hwf as (_ & [Htr _] & _). unfold baseReadPair in Hr.
    replace (nReadTraps b =? 0)%nat with false in *
      by (symmetry; apply Nat.eqb_neq; exact Hn).
    destruct Htr as (_ & _ & [f Hf]). rewrite Hf in Hrd. eauto 8.
  - intros Hn f.
    pose proof (trapRead_wf f b Hwf) as Hwf1.
    destruct (readPair_dispatch b off Hwf) as (r & Hr & Hp & ->).
    destruct (readPair_dispatch _ off Hwf1) as (r1 & Hr1 & Hp1 & ->).
    rewrite (proj2 (trapRead_base f b)), Hr in Hr1. injection Hr1 as <-.
    assert (Hc : callReader r (snd (trapRead f b)) off = callReader r b off).
    { unfold trapRead. rewrite Hn. cbn [Nat.eqb snd].
      destruct r; reflexivity. }
    rewrite Hc. destruct (callReader r b off); reflexivity.
  - intros Hn.
    destruct (writePair_dispatch b off v Hwf) as (w & Hw & _ & Hwr).
    destruct Hwf as (_ & [_ Htw] & _). unfold baseWritePair in Hw.
    replace (nWriteTraps b =? 0)%nat with false in *
      by (symmetry; apply Nat.eqb_neq; exact Hn).
    destruct Htw as (_ & _ & [f Hf]). rewrite Hf in Hwr. eauto.
Qed.

Lemma wf_untrapped_read b :
  wf b -> nReadTraps b = 0%nat ->
  readTrap b = None /\ readDataOrig b = None /\ readPairOrig b = None.
Proof. intros (_ & [Htr _] & _) Hn. rewrite Hn in Htr. exact Htr. Qed.

Lemma wf_untrapped_write b :
  wf b -> nWriteTraps b = 0%nat ->
  writeTrap b = None /\ writeDataOrig b = None /\ writePairOrig b = None.
Proof. intros (_ & [_ Htw] & _) Hn. rewrite Hn in Htw. exact Htw. Qed.

(** The four cases of installing and removing a read trap. *)
Lemma trapRead_fresh f b :
  nReadTraps b = 0%nat ->
  trapRead f b
  = (true,
     set_readPair (Some readPairTrap) (set_readData (Some readDataTrap)
       (set_readPairOrig (readPair b) (set_readDataOrig (readData b)
         (set_readTrap (Some f) (set_nReadTraps 1 b)))))).
Proof. intros Hn. unfold trapRead. rewrite Hn. reflexivity. Qed.

Lemma trapRead_same f b :
  nReadTraps b <> 0%nat -> readTrap b = Some f ->
  trapRead f b = (true, set_nReadTraps (S (nReadTraps b)) b).
Proof.
  intros Hn Hf. unfold trapRead.
  rewrite (proj2 (Nat.eqb_neq _ _) Hn), Hf, bool_decide_eq_true_2 by reflexivity.
  reflexivity.
Qed.

Lemma trapRead_other f g b :
  nReadTraps b <> 0%nat -> readTrap b = Some f -> f <> g ->
  trapRead g b = (false, b).
Proof.
  intros Hn Hf Hne. unfold trapRead.
  rewrite (proj2 (Nat.eqb_neq _ _) Hn), Hf, bool_decide_eq_false_2 by congruence.
  reflexivity.
Qed.

Lemma untrapRead_nested f b n :
  nReadTraps b = S (S n) -> readTrap b = Some f ->
  untrapRead f b = (true, set_nReadTraps (S n) b).
Proof.
  intros Hn Hf. unfold untrapRead.
  rewrite Hn, Hf, bool_decide_eq_true_2 by reflexivity. reflexivity.
Qed.

Lemma untrapRead_last f b :
  nReadTraps b = 1%nat -> readTrap b = Some f ->
  untrapRead f b
  = (true,
     set_readTrap None (set_readPairOrig None (set_readDataOrig None
       (set_readPair (readPairOrig b) (set_readData (readDataOrig b)
         (set_nReadTraps 0 b)))))).
Proof.
  intros Hn Hf. unfold untrapRead.
  rewrite Hn, Hf, bool_decide_eq_true_2 by reflexivity. reflexivity.
Qed.

(** The same four cases for a write trap. *)
Lemma trapWrite_fresh f b :
  nWriteTraps b = 0%nat ->
  trapWrite f b
  = (true,
     set_writePair (Some writePairTrap) (set_writeData (Some writeDataTrap)
       (set_writePairOrig (writePair b) (set_writeDataOrig (writeData b)
         (set_writeTrap (Some f) (set_nWriteTraps 1 b)))))).
Proof. intros Hn. unfold trapWrite. rewrite Hn. reflexivity. Qed.

Lemma trapWrite_same f b :
  nWriteTraps b <> 0%nat -> writeTrap b = Some f ->
  trapWrite f b = (true, set_nWriteTraps (S (nWriteTraps b)) b).
Proof.
  intros Hn Hf. unfold trapWrite.
  rewrite (proj2 (Nat.eqb_neq _ _) Hn), Hf, bool_decide_eq_true_2 by reflexivity.
  reflexivity.
Qed.

Lemma trapWrite_other f g b :
  nWriteTraps b <> 0%nat -> writeTrap b = Some f -> f <> g ->
  trapWrite g b = (false, b).
Proof.
  intros Hn Hf Hne. unfold trapWrite.
  rewrite (proj2 (Nat.eqb_neq _ _) Hn), Hf, bool_decide_eq_false_2 by congruence.
  reflexivity.
Qed.

Lemma untrapWrite_nested f b n :
  nWriteTraps b = S (S n) -> writeTrap b = Some f ->
  untrapWrite f b = (true, set_nWriteTraps (S n) b).
Proof.
  intros Hn Hf. unfold untrapWrite.
  rewrite Hn, Hf, bool_decide_eq_true_2 by reflexivity. reflexivity.
Qed.

Lemma untrapWrite_last f b :
  nWriteTraps b = 1%nat -> writeTrap b = Some f ->
  untrapWrite f b
  = (true,
     set_writeTrap None (set_writePairOrig None (set_writeDataOrig None
       (set_writePair (writePairOrig b) (set_writeData (writeDataOrig b)
         (set_nWriteTraps 0 b)))))).
Proof.
  intros Hn Hf. unfold untrapWrite.
  rewrite Hn, Hf, bool_decide_eq_true_2 by reflexivity. reflexivity.
Qed.

(** C3.  On a block without a read trap, [trapRead(f)] returns true, and so
    does a second [trapRead(f)], which brings the count to two; while [f] is
    installed [trapRead(g)] for another function [g] returns false and
    changes nothing.  One [untrapRead(f)] returns true and leaves the trap
    in place: a read still calls [f].  The second [untrapRead(f)] returns
    true and gives back the block as it was: a read calls nothing.  The same
    holds of [trapWrite] and [untrapWrite]. *)
Theorem trap_nesting b f g off v :
  wf b -> f <> g ->
  (nReadTraps b = 0%nat ->
   let b1 := snd (trapRead f b) in
   let b2 := snd (trapRead f b1) in
   let b3 := snd (untrapRead f b2) in
   let b4 := snd (untrapRead f b3) in
   fst (trapRead f b) = true /\ fst (trapRead f b1) = true /\
   nReadTraps b2 = 2%nat /\
   trapRead g b1 = (false, b1) /\ trapRead g b2 = (false, b2) /\
   fst (untrapRead f b2) = true /\
   (exists x, read b3 off = (Returns x, [mkCall f (addr b) off x (values b)])) /\
   fst (untrapRead f b3) = true /\ b4 = b /\
   (exists x, read b4 off = (Returns x, []))) /\
  (nWriteTraps b = 0%nat ->
   let b1 := snd (trapWrite f b) in
   let b2 := snd (trapWrite f b1) in
   let b3 := snd (untrapWrite f b2) in
   let b4 := snd (untrapWrite f b3) in
   fst (trapWrite f b) = true /\ fst (trapWrite f b1) = true /\
   nWriteTraps b2 = 2%nat /\
   trapWrite g b1 = (false, b1) /\ trapWrite g b2 = (false, b2) /\
   fst (untrapWrite f b2) = true /\
   (exists r, write b3 off v
              = (r, [mkCall f (addr b) off (Some v) (values b)])) /\
   fst (untrapWrite f b3) = true /\ b4 = b /\
   (exists r, write b4 off v = (r, []))).
Proof.
  intros Hwf Hne. split; intros Hn; cbv zeta.
  - destruct (wf_untrapped_read b Hwf Hn) as (Ht & Ho & Hp).
    pose proof (trapRead_wf f b Hwf) as Hwf1.
    pose proof (trapRead_wf f _ Hwf1) as Hwf2.
    pose proof (untrapRead_wf f _ Hwf2) as Hwf3.
    destruct (read_dispatch _ off Hwf3) as (r3 & x3 & _ & _ & Hrd3).
    destruct (read_dispatch b off Hwf) as (r & x & _ & _ & Hrd).
    rewrite Hn in Hrd. cbn [Nat.eqb] in Hrd.
    rewrite (trapRead_fresh f b Hn) in *. cbn [fst snd] in *.
    match goal with |- context [trapRead f ?b1] =>
      rewrite (trapRead_same f b1) in * by (cbn; congruence);
      rewrite (trapRead_other f g b1) by (cbn; congruence)
    end.
    cbn [fst snd] in *.
    match goal with |- context [untrapRead f ?b2] =>
      rewrite (trapRead_other f g b2) by (cbn; congruence);
      rewrite (untrapRead_nested f b2 0) in * by reflexivity
    end.
    cbn [fst snd] in *.
    match goal with |- context [untrapRead f ?b3] =>
      rewrite (untrapRead_last f b3) by reflexivity
    end.
    cbn [fst snd] in *.
    assert (Hb : forall b0, b0 = b -> exists x0, read b0 off = (Returns x0, []))
      by (intros b0 ->; eauto).
    repeat split; eauto.
    + exists x3. rewrite Hrd3. reflexivity.
    + clear -Hn Ht Ho Hp. destruct b; cbn in *; subst; reflexivity.
    + apply Hb. clear -Hn Ht Ho Hp. destruct b; cbn in *; subst; reflexivity.
  - destruct (wf_untrapped_write b Hwf Hn) as (Ht & Ho & Hp).
    pose proof (trapWrite_wf f b Hwf) as Hwf1.
    pose proof (trapWrite_wf f _ Hwf1) as Hwf2.
    pose proof (untrapWrite_wf f _ Hwf2) as Hwf3.
    destruct (write_dispatch _ off v Hwf3) as (w3 & _ & _ & Hwr3).
    destruct (write_dispatch b off v Hwf) as (w & _ & _ & Hwr).
    rewrite Hn in Hwr. cbn [Nat.eqb] in Hwr.
    rewrite (trapWrite_fresh f b Hn) in *. cbn [fst snd] in *.
    match goal with |- context [trapWrite f ?b1] =>
      rewrite (trapWrite_same f b1) in * by (cbn; congruence);
      rewrite (trapWrite_other f g b1) by (cbn; congruence)
    end.
    cbn [fst snd] in *.
    match goal with |- context [untrapWrite f ?b2] =>
      rewrite (trapWrite_other f g b2) by (cbn; congruence);
      rewrite (untrapWrite_nested f b2 0) in * by reflexivity
    end.
    cbn [fst snd] in *.
    match goal with |- context [untrapWrite f ?b3] =>
      rewrite (untrapWrite_last f b3) by reflexivity
    end.
    cbn [fst snd] in *.
    assert (Hb : forall b0, b0 = b -> exists r0, write b0 off v = (r0, []))
      by (intros b0 ->; eauto).
    repeat split; eauto.
    + clear -Hn Ht Ho Hp. destruct b; cbn in *; subst; reflexivity.
    + apply Hb. clear -Hn Ht Ho Hp. destruct b; cbn in *; subst; reflexivity.
Qed.

End MemoryFacts.
(** ** Memory: the pair functions of a block *)

Section MemoryPairs.
Import Memory.
Variable LITTLE_ENDIAN : bool.

Local Abbreviation read := (Memory.read LITTLE_ENDIAN).
Local Abbreviation write := (Memory.write LITTLE_ENDIAN).
Local Abbreviation readPairAt := (Memory.readPairAt LITTLE_ENDIAN).
Local Abbreviation writePairAt := (Memory.writePairAt LITTLE_ENDIAN).
Local Abbreviation callReader := (Memory.callReader LITTLE_ENDIAN).
Local Abbreviation callWriter := (Memory.callWriter LITTLE_ENDIAN).
Local Abbreviation paired := (Memory.paired LITTLE_ENDIAN).
Local Abbreviation pairReader := (Memory.pairReader LITTLE_ENDIAN).
Local Abbreviation pairWriter := (Memory.pairWriter LITTLE_ENDIAN).

(** [paired] looks at the type, the bus, the storage and the pair functions
    below the trap layer. *)
Lemma paired_ext2 b b' :
  type b' = type b -> bus b' = bus b -> buffer b' = buffer b ->
  littleEndian b' = littleEndian b -> dataWidth b' = dataWidth b ->
  size b' = size b ->
  (buffer b = true -> length (values b') = length (values b)) ->
  baseReadPair b' = baseReadPair b ->
  (baseWritePair b' = baseWritePair b \/
   (type b = TYPE.READWRITE /\ baseWritePair b' = Some (pairWriter b)) \/
   (type b = TYPE.READWRITE /\ bus b = STATIC /\
    baseWritePair b' = Some writeValuePairDirty)) ->
  paired b -> paired b'.
Proof.
  intros Ht Hb Hf Hl Hd Hs Hv Hr Hw.
  unfold Memory.paired, Memory.pairReader, Memory.pairWriter in *.
  rewrite Ht, Hb, Hf, Hl, Hd, Hs, Hr. intros [H1 H2]. split.
  - destruct Hw as [Hw|[[Ht' Hw]|(Ht' & Hb' & Hw)]]; rewrite Hw.
    + exact H1.
    + destruct H1 as [H1|[H1|H1]];
        try (destruct H1 as (H1 & _); rewrite Ht' in H1; discriminate H1).
      right. right. destruct H1 as (_ & H1 & _). auto.
    + destruct H1 as [H1|[H1|H1]];
        try (destruct H1 as (H1 & _); rewrite Ht' in H1; discriminate H1).
      right. right. destruct H1 as (_ & H1 & _). auto.
  - intros Hbuf. rewrite (Hv Hbuf). exact (H2 Hbuf).
Qed.

Lemma paired_ext b b' :
  type b' = type b -> bus b' = bus b -> buffer b' = buffer b ->
  littleEndian b' = littleEndian b -> dataWidth b' = dataWidth b ->
  size b' = size b ->
  (buffer b = true -> length (values b') = length (values b)) ->
  baseReadPair b' = baseReadPair b -> baseWritePair b' = baseWritePair b ->
  paired b -> paired b'.
Proof. intros. apply (paired_ext2 b); auto. Qed.

Lemma length_store b off v : buffer b = true -> length (store b off v) = length (values b).
Proof.
  intros Hb. unfold store. rewrite Hb.
  destruct (off <? length (values b))%nat; [apply length_insert|reflexivity].
Qed.

Lemma initValues_frame vals b :
  exists vs, initValues vals b = set_values vs b /\
    (buffer b = true -> length vs = length (values b)).
Proof.
  unfold initValues. destruct (buffer b) eqn:Eb; cbn [negb].
  - destruct vals as [vs|].
    + generalize (seq 0 (Z.to_nat (size b))). intros l.
      assert (H : forall b', (exists ws, b' = set_values ws b /\
                                length ws = length (values b)) ->
        exists ws, fold_left (fun b'' i => set_values (store b'' i (aget vs i)) b'') l b'
                   = set_values ws b /\ length ws = length (values b)).
      { induction l as [|i l IH]; intros b' (ws & -> & Hl); simpl; [eauto|].
        apply IH. eexists. split; [reflexivity|].
        rewrite length_store by exact Eb. exact Hl. }
      destruct (H b) as (ws & Hws & Hl);
        [exists (values b); split; [destruct b; reflexivity|reflexivity]|].
      exists ws. split; [exact Hws|intros _; exact Hl].
    + exists (values b). split; [destruct b; reflexivity|reflexivity].
  - destruct vals as [vs|]; eexists; (split; [reflexivity|discriminate]).
Qed.

Lemma new_paired arrayBuffer bi cfg :
  typed cfg -> paired (new LITTLE_ENDIAN arrayBuffer bi cfg).
Proof.
  intros Ht. unfold new.
  match goal with |- context [initValues ?v ?b0] =>
    destruct (initValues_frame v b0) as (vs & -> & Hlen) end.
  cbn [buffer values] in Hlen.
  destruct bi as [bt dw le].
  unfold Memory.paired, Memory.pairReader, Memory.pairWriter, baseReadPair, baseWritePair.
  destruct Ht as [Ht|[Ht|[Ht|[Ht|Ht]]]]; rewrite Ht; cbn;
    (split;
     [ try (left; repeat split; reflexivity);
       try (right; left; repeat split; try reflexivity;
            destruct bt; cbn; try reflexivity;
            destruct (dw =? 8); destruct arrayBuffer; cbn; reflexivity);
       try (right; right; repeat split; try reflexivity;
            destruct bt; cbn; auto;
            destruct (dw =? 8); destruct arrayBuffer; cbn; auto)
     | destruct bt; cbn in *; try discriminate;
       destruct (Z.eqb_spec dw 8); cbn in *; try discriminate;
       destruct arrayBuffer; cbn in *; try discriminate;
       intros _; rewrite Hlen, ?length_replicate by reflexivity; auto ]).
Qed.



Lemma write_paired b off v : wf b -> paired b -> paired (snd (fst (write b off v))).
Proof.
  intros Hwf Hp. destruct (write_dispatch LITTLE_ENDIAN b off v Hwf) as (w & Hw & Hc & ->).
  cbn [fst snd].
  destruct Hc as [->|[->| ->]]; cbn [Memory.callWriter fst snd]; [exact Hp| |].
  - apply (paired_ext b); try reflexivity; [|exact Hp].
    intros Hb. cbn. apply length_store, Hb.
  - unfold swapWriteData. cbn [nWriteTraps set_fDirty set_values].
    destruct (nWriteTraps b =? 0)%nat eqn:En;
      apply (paired_ext b); try exact Hp;
      try (intros Hb; cbn; apply length_store, Hb);
      unfold baseReadPair, baseWritePair; cbn; rewrite ?En; reflexivity.
Qed.

Lemma length_store16 le b off v :
  buffer b = true -> length (store16 le b off v) = length (values b).
Proof.
  intros Hb. unfold store16. cbv zeta.
  rewrite length_store by exact Hb. cbn. apply length_store, Hb.
Qed.

Lemma storePair_frame le b off v :
  let b' := storePair le b off v in
  type b' = type b /\ bus b' = bus b /\ buffer b' = buffer b /\
  littleEndian b' = littleEndian b /\ dataWidth b' = dataWidth b /\
  size b' = size b /\ fDirty b' = fDirty b /\
  (buffer b = true -> length (values b') = length (values b)) /\
  baseReadPair b' = baseReadPair b /\ baseWritePair b' = baseWritePair b.
Proof.
  unfold storePair. cbv zeta. cbn. repeat split.
  intros Hb. rewrite length_store by exact Hb. cbn. apply length_store, Hb.
Qed.

Lemma swapWritePair_base w b :
  baseWritePair (swapWritePair w b) = Some w /\
  baseReadPair (swapWritePair w b) = baseReadPair b.
Proof.
  unfold swapWritePair, baseWritePair, baseReadPair.
  destruct (nWriteTraps b =? 0)%nat eqn:En; cbn; rewrite En; split; reflexivity.
Qed.


Lemma sameShape_refl b : sameShape b b.
Proof. repeat split. Qed.

Lemma sameShape_set_values b vs :
  (buffer b = true -> length vs = length (values b)) -> sameShape b (set_values vs b).
Proof. intros H. repeat split. exact H. Qed.

Lemma sameShape_storePair le b off v : sameShape b (storePair le b off v).
Proof.
  unfold storePair. cbv zeta. repeat split.
  intros Hb. cbn. rewrite length_store by exact Hb. cbn. apply length_store, Hb.
Qed.

Lemma sameShape_base b x :
  sameShape b x ->
  baseReadPair x = baseReadPair b /\ baseWritePair x = baseWritePair b.
Proof.
  intros (_&_&_&_&_&_&_&H1&H2&H3&H4&H5&H6).
  unfold baseReadPair, baseWritePair. rewrite H1, H2, H3, H4, H5, H6. auto.
Qed.

Lemma sameShape_paired b x : sameShape b x -> paired b -> paired x.
Proof.
  intros Hs. destruct (sameShape_base b x Hs) as [B1 B2].
  destruct Hs as (F1&F2&F3&F4&F5&F6&F7&_).
  apply (paired_ext b); assumption.
Qed.

Lemma sameShape_swap b x w :
  sameShape b x -> paired b ->
  type b = TYPE.READWRITE -> w = pairWriter b ->
  paired (swapWritePair w x).
Proof.
  intros Hs Hp Ht ->. destruct (sameShape_base b x Hs) as [B1 B2].
  destruct (swapWritePair_base (pairWriter b) x) as [S1 S2].
  destruct Hs as (F1&F2&F3&F4&F5&F6&F7&_).
  apply (paired_ext2 b); try exact Hp;
    first [ unfold swapWritePair; destruct (nWriteTraps x =? 0)%nat; assumption
          | rewrite S2; exact B1
          | right; left; split; [exact Ht|exact S1] ].
Qed.

Lemma writePair_paired b off v :
  wf b -> paired b -> paired (snd (fst (writePairAt b off v))).
Proof.
  intros Hwf Hp.
  destruct (writePair_dispatch LITTLE_ENDIAN b off v Hwf) as (w & Hw & Hpl & ->).
  cbn [fst snd]. pose proof Hp as [Hcase Hbuf].
  assert (Hw' : w = writeNone \/
                (type b = TYPE.READWRITE /\ w = pairWriter b) \/
                (type b = TYPE.READWRITE /\ bus b = STATIC /\ w = writeValuePairDirty)).
  { destruct Hcase as [H|[H|H]].
    - destruct H as (_ & _ & H). left. congruence.
    - destruct H as (_ & _ & H). left. congruence.
    - destruct H as (Ht & _ & [H|[Hb H]]); right; [left|right]; split; try split;
        congruence. }
  assert (H16 : forall le off', sameShape b (set_values (store16 le b off' v) b)).
  { intros le off'. apply sameShape_set_values. intros Hb. apply length_store16, Hb. }
  destruct Hw' as [->|[[Ht ->]|(Ht & Hb & ->)]].
  - exact Hp.
  - apply (sameShape_paired b); [|exact Hp].
    unfold Memory.pairWriter.
    destruct (bus b); [destruct (buffer b); [destruct (eqb _ _)|destruct (littleEndian b)]|];
      cbn [Memory.callWriter];
      repeat match goal with |- context [if ?c then _ else _] => destruct c end;
      cbn [snd]; auto using sameShape_refl, sameShape_storePair.
  - cbn [Memory.callWriter].
    destruct (buffer b) eqn:Ebuf; cbn [negb].
    + destruct (eqb (littleEndian b) LITTLE_ENDIAN) eqn:Ele.
      * cbn [snd]. apply (sameShape_swap b); try assumption.
        -- destruct (Z.of_nat (Nat.div2 off) <? sar (size b) 1);
             auto using sameShape_refl.
        -- unfold Memory.pairWriter. rewrite Hb, Ebuf, Ele. reflexivity.
      * destruct (size b <? Z.of_nat off + 2); cbn [snd]; [exact Hp|].
        apply (sameShape_swap b); try assumption; [apply H16|].
        unfold Memory.pairWriter. rewrite Hb, Ebuf, Ele. reflexivity.
    + destruct (littleEndian b) eqn:Ele; cbn [snd];
        (apply (sameShape_swap b); try assumption; [apply sameShape_storePair|]);
        unfold Memory.pairWriter; rewrite Hb, Ebuf, Ele; reflexivity.
Qed.


Lemma trap_base f b :
  (baseReadPair (snd (trapRead f b)) = baseReadPair b /\
   baseWritePair (snd (trapRead f b)) = baseWritePair b) /\
  (baseReadPair (snd (trapWrite f b)) = baseReadPair b /\
   baseWritePair (snd (trapWrite f b)) = baseWritePair b) /\
  (baseReadPair (snd (untrapRead f b)) = baseReadPair b /\
   baseWritePair (snd (untrapRead f b)) = baseWritePair b) /\
  (baseReadPair (snd (untrapWrite f b)) = baseReadPair b /\
   baseWritePair (snd (untrapWrite f b)) = baseWritePair b).
Proof.
  unfold trapRead, trapWrite, untrapRead, untrapWrite, baseReadPair, baseWritePair.
  destruct (nReadTraps b) as [|[|n]] eqn:Er; destruct (nWriteTraps b) as [|[|m]] eqn:Ew;
    cbn;
    destruct (bool_decide (readTrap b = Some f));
    destruct (bool_decide (writeTrap b = Some f)); cbn;
    rewrite ?Er, ?Ew; cbn; repeat split.
Qed.

Lemma trap_frame f b :
  forall b', b' = snd (trapRead f b) \/ b' = snd (trapWrite f b) \/
             b' = snd (untrapRead f b) \/ b' = snd (untrapWrite f b) ->
  type b' = type b /\ bus b' = bus b /\ buffer b' = buffer b /\
  littleEndian b' = littleEndian b /\ dataWidth b' = dataWidth b /\
  size b' = size b /\ values b' = values b /\ fDirty b' = fDirty b.
Proof.
  intros b' H. unfold trapRead, trapWrite, untrapRead, untrapWrite in H.
  destruct (nReadTraps b) as [|[|n]]; destruct (nWriteTraps b) as [|[|m]];
    cbn in H;
    destruct (bool_decide (readTrap b = Some f));
    destruct (bool_decide (writeTrap b = Some f)); cbn in H;
    destruct H as [->|[->|[->| ->]]]; repeat split.
Qed.

Ltac trap_paired b f :=
  let b' := fresh "b'" in
  match goal with |- Memory.paired _ ?x => set (b' := x) end;
  destruct (trap_frame f b b') as (F1&F2&F3&F4&F5&F6&F7&_); [subst b'; tauto|];
  apply (paired_ext b); try assumption;
  [ intros _; rewrite F7; reflexivity
  | subst b'; apply (trap_base f b)
  | subst b'; apply (trap_base f b) ].

Lemma trapRead_paired f b : paired b -> paired (snd (trapRead f b)).
Proof. intros Hp. trap_paired b f. Qed.

Lemma trapWrite_paired f b : paired b -> paired (snd (trapWrite f b)).
Proof. intros Hp. trap_paired b f. Qed.

Lemma untrapRead_paired f b : paired b -> paired (snd (untrapRead f b)).
Proof. intros Hp. trap_paired b f. Qed.

Lemma untrapWrite_paired f b : paired b -> paired (snd (untrapWrite f b)).
Proof. intros Hp. trap_paired b f. Qed.

(** Only a READWRITE block of a STATIC bus is ever dirty. *)
Lemma wf_dirty_static b :
  wf b -> fDirty b = true -> type b = TYPE.READWRITE /\ bus b = STATIC.
Proof.
  intros (_ & _ & _ & Ha) Hf. destruct Ha as [Ha|[Ha|Ha]].
  - destruct Ha as (_ & _ & _ & _ & Ha). congruence.
  - destruct Ha as (_ & _ & _ & _ & Ha). congruence.
  - destruct Ha as (Ht & _ & Ha). split; [exact Ht|].
    destruct (bus b); [reflexivity|]. destruct Ha as (_ & _ & Ha). congruence.
Qed.

Lemma isDirty_paired b : wf b -> paired b -> paired (snd (isDirty b)).
Proof.
  intros Hwf Hp. unfold isDirty. destruct (fDirty b) eqn:Ef; [|exact Hp].
  destruct (wf_dirty_static b Hwf Ef) as [Ht Hb]. cbn [snd].
  cbn [nWriteTraps set_fDirty].
  apply (paired_ext2 b); try exact Hp;
    first [ destruct (nWriteTraps b =? 0)%nat; reflexivity
          | intros _; destruct (nWriteTraps b =? 0)%nat; reflexivity
          | unfold baseReadPair; destruct (nWriteTraps b =? 0)%nat; reflexivity
          | right; right; split; [exact Ht|]; split; [exact Hb|];
            unfold baseWritePair; destruct (nWriteTraps b =? 0)%nat eqn:En; cbn;
            rewrite En; reflexivity ].
Qed.

Lemma onReset_paired b : paired b -> paired (onReset b).
Proof.
  intros Hp. unfold onReset. destruct (TYPE.READWRITE <=? type b); [|exact Hp].
  apply (paired_ext b); try exact Hp; try reflexivity.
  intros _. cbn. apply length_map.
Qed.

Lemma step_paired o b : wf b -> paired b -> paired (step LITTLE_ENDIAN o b).
Proof.
  intros Hwf Hp. destruct o; cbn [step];
    auto using write_paired, writePair_paired, trapRead_paired, trapWrite_paired,
      untrapRead_paired, untrapWrite_paired, isDirty_paired, onReset_paired.
Qed.

(** Every reachable block has the pair functions of its type. *)
Lemma reachable_paired b : reachable LITTLE_ENDIAN b -> paired b.
Proof.
  induction 1 as [arrayBuffer bi cfg Ht|o b Hr IH]; [apply new_paired, Ht|].
  apply step_paired; [apply (reachable_wf LITTLE_ENDIAN), Hr|exact IH].
Qed.

End MemoryPairs.

(** ** Memory: pair accesses, the dirty flag and saved state *)

Section MemoryPairAccess.
Import Memory.
Variable LITTLE_ENDIAN : bool.

Local Abbreviation read := (Memory.read LITTLE_ENDIAN).
Local Abbreviation write := (Memory.write LITTLE_ENDIAN).
Local Abbreviation readPairAt := (Memory.readPairAt LITTLE_ENDIAN).
Local Abbreviation writePairAt := (Memory.writePairAt LITTLE_ENDIAN).
Local Abbreviation callReader := (Memory.callReader LITTLE_ENDIAN).
Local Abbreviation callWriter := (Memory.callWriter LITTLE_ENDIAN).
Local Abbreviation paired := (Memory.paired LITTLE_ENDIAN).
Local Abbreviation pairReader := (Memory.pairReader LITTLE_ENDIAN).
Local Abbreviation pairWriter := (Memory.pairWriter LITTLE_ENDIAN).
Local Abbreviation reachable := (Memory.reachable LITTLE_ENDIAN).
Local Abbreviation inside := (Memory.inside LITTLE_ENDIAN).

(** What no write function changes. *)
Lemma callWriter_frame w b off v :
  let b' := snd (callWriter w b off v) in
  type b' = type b /\ bus b' = bus b /\ buffer b' = buffer b /\
  littleEndian b' = littleEndian b /\ dataWidth b' = dataWidth b /\
  dataLimit b' = dataLimit b /\ size b' = size b /\ addr b' = addr b.
Proof.
  cbv zeta.
  destruct w; cbn [Memory.callWriter]; unfold swapWriteData, swapWritePair, storePair;
    repeat match goal with |- context [if ?c then _ else _] => destruct c eqn:? end;
    cbn; repeat split; assumption.
Qed.

(** Of the write functions only [writeValueDirty] marks the block. *)
Lemma callWriter_fDirty w b off v :
  w <> writeValueDirty -> fDirty (snd (callWriter w b off v)) = fDirty b.
Proof.
  intros Hw. destruct w; try (exfalso; apply Hw; reflexivity);
    cbn [Memory.callWriter]; unfold swapWritePair, storePair;
    repeat match goal with |- context [if ?c then _ else _] => destruct c end;
    cbn; reflexivity.
Qed.

(** The pair function that a pair write of a block runs. *)
Lemma paired_writer b :
  paired b ->
  exists w, baseWritePair b = Some w /\
    (w = writeNone \/ (type b = TYPE.READWRITE /\ w = pairWriter b) \/
     (type b = TYPE.READWRITE /\ bus b = STATIC /\ w = writeValuePairDirty)).
Proof.
  intros [[H|[H|H]] _].
  - destruct H as (_ & _ & H). eauto.
  - destruct H as (_ & _ & H). eauto.
  - destruct H as (Ht & _ & [H|[Hb H]]); eauto 10.
Qed.

Lemma writePair_eq b off v :
  wf b -> paired b ->
  exists w cs, baseWritePair b = Some w /\
    writePairAt b off v = (callWriter w b off v, cs) /\
    (w = writeNone \/ (type b = TYPE.READWRITE /\ w = pairWriter b) \/
     (type b = TYPE.READWRITE /\ bus b = STATIC /\ w = writeValuePairDirty)).
Proof.
  intros Hwf Hp. destruct (paired_writer b Hp) as (w & Hw & Hc).
  destruct (writePair_dispatch LITTLE_ENDIAN b off v Hwf) as (w' & Hw' & _ & ->).
  rewrite Hw in Hw'. injection Hw' as <-. eauto 10.
Qed.

Lemma paired_writer_rw b w :
  paired b -> type b = TYPE.READWRITE -> baseWritePair b = Some w ->
  w = pairWriter b \/ (bus b = STATIC /\ w = writeValuePairDirty).
Proof.
  intros [[H|[H|H]] _] Ht Hw.
  - destruct H as (H & _). rewrite Ht in H. discriminate H.
  - destruct H as (H & _). rewrite Ht in H. discriminate H.
  - destruct H as (_ & _ & [H|[Hb H]]); rewrite Hw in H; injection H as ->; tauto.
Qed.

Lemma paired_reader_rw b :
  paired b -> type b = TYPE.READWRITE -> baseReadPair b = Some (pairReader b).
Proof.
  intros [[H|[H|H]] _] Ht.
  - destruct H as (H & _). rewrite Ht in H. discriminate H.
  - destruct H as (H & _). rewrite Ht in H. discriminate H.
  - tauto.
Qed.

Lemma pairWriter_not_dirty b : pairWriter b <> writeValueDirty.
Proof.
  unfold Memory.pairWriter.
  destruct (bus b), (buffer b), (eqb (littleEndian b) LITTLE_ENDIAN), (littleEndian b);
    discriminate.
Qed.

Lemma writePair_fDirty b off v :
  wf b -> paired b -> fDirty (snd (fst (writePairAt b off v))) = fDirty b.
Proof.
  intros Hwf Hp. destruct (writePair_eq b off v Hwf Hp) as (w & cs & _ & -> & Hc).
  cbn [fst snd]. apply callWriter_fDirty.
  destruct Hc as [->|[[_ ->]|(_ & _ & ->)]];
    [discriminate|apply pairWriter_not_dirty|discriminate].
Qed.

(** X7.  A pair write never marks a block dirty: whatever the block, its
    traps and its history, [fDirty] is after the call what it was before. *)
Theorem writePair_keeps_fDirty b off v :
  reachable b -> fDirty (snd (fst (writePairAt b off v))) = fDirty b.
Proof.
  intros Hr. apply writePair_fDirty;
    [apply (reachable_wf LITTLE_ENDIAN), Hr|apply (reachable_paired LITTLE_ENDIAN), Hr].
Qed.


(** *** The two units of a pair *)

Lemma pair_join v w :
  0 <= w -> Z.lor (v mod 2 ^ w) (Z.shiftl (v / 2 ^ w) w) = v.
Proof.
  intros Hw. apply Z.bits_inj'. intros n Hn.
  rewrite Z.lor_spec, Z.shiftl_spec by lia.
  destruct (Z.lt_ge_cases n w).
  - rewrite Z.mod_pow2_bits_low by lia.
    rewrite (Z.testbit_neg_r _ (n - w)) by lia. apply orb_false_r.
  - rewrite Z.mod_pow2_bits_high by lia.
    rewrite <- Z.shiftr_div_pow2 by lia. rewrite Z.shiftr_spec by lia.
    simpl. f_equal. lia.
Qed.

Lemma halves_range v w :
  0 < w <= 15 -> 0 <= v < 2 ^ (2 * w) ->
  2 ^ w <= 2 ^ 15 /\ 2 ^ (2 * w) <= 2 ^ 30 /\
  0 <= v mod 2 ^ w < 2 ^ w /\ 0 <= v / 2 ^ w < 2 ^ w /\
  v = 2 ^ w * (v / 2 ^ w) + v mod 2 ^ w.
Proof.
  intros Hw Hv.
  assert (H1 : 2 ^ w <= 2 ^ 15) by (apply Z.pow_le_mono_r; lia).
  assert (H2 : 2 ^ (2 * w) <= 2 ^ 30) by (apply Z.pow_le_mono_r; lia).
  assert (H0 : 0 < 2 ^ w) by (apply Z.pow_pos_nonneg; lia).
  assert (H3 : 2 ^ (2 * w) = 2 ^ w * 2 ^ w)
    by (replace (2 * w) with (w + w) by lia; apply Z.pow_add_r; lia).
  split; [exact H1|]. split; [exact H2|].
  split; [apply Z.mod_pos_bound; exact H0|].
  split; [|apply Z.div_mod; lia].
  split; [apply Z.div_pos; lia|].
  apply Z.div_lt_upper_bound; lia.
Qed.

Lemma toUint32_width w : 0 <= w < 32 -> toUint32 w mod 32 = w.
Proof.
  intros Hw. unfold toUint32. rewrite (Z.mod_small w (2 ^ 32)) by lia.
  apply Z.mod_small. lia.
Qed.

Lemma band_limit v w : 0 <= w <= 30 -> 0 <= v < 2 ^ 31 -> band v (2 ^ w - 1) = v mod 2 ^ w.
Proof.
  intros Hw Hv. unfold band.
  assert (2 ^ w <= 2 ^ 30) by (apply Z.pow_le_mono_r; lia).
  assert (0 < 2 ^ w) by (apply Z.pow_pos_nonneg; lia).
  rewrite !toInt32_id by lia.
  replace (2 ^ w - 1) with (Z.ones w) by (rewrite Z.ones_equiv; lia).
  apply Z.land_ones. lia.
Qed.

Lemma sar_div v w : 0 <= w < 32 -> 0 <= v < 2 ^ 31 -> sar v w = v / 2 ^ w.
Proof.
  intros Hw Hv. unfold sar. rewrite toUint32_width, toInt32_id by lia.
  apply Z.shiftr_div_pow2. lia.
Qed.

Lemma bor_shl_halves v w :
  0 < w <= 15 -> 0 <= v < 2 ^ (2 * w) -> bor (v mod 2 ^ w) (shl (v / 2 ^ w) w) = v.
Proof.
  intros Hw Hv. destruct (halves_range v w Hw Hv) as (H1 & H2 & Hlo & Hhi & Hsplit).
  unfold bor, shl. rewrite toUint32_width by lia.
  rewrite (toInt32_id (v / 2 ^ w)) by lia.
  assert (Hs : Z.shiftl (v / 2 ^ w) w = 2 ^ w * (v / 2 ^ w))
    by (rewrite Z.shiftl_mul_pow2 by lia; lia).
  rewrite !toInt32_id; rewrite ?toInt32_id; rewrite ?Hs; try nia.
  rewrite <- Hs. apply pair_join. lia.
Qed.

Lemma even_div2 n : Nat.even n = true -> (2 * Nat.div2 n)%nat = n.
Proof.
  intros H. pose proof (Nat.div2_odd n) as E. unfold Nat.odd in E.
  rewrite H in E. cbn [negb Nat.b2n] in E. lia.
Qed.

Lemma store_in_range b off x :
  (off < length (values b))%nat -> (buffer b = true -> 0 <= x < 256) ->
  store b off (Some x) = <[off := Some x]> (values b).
Proof.
  intros Hoff Hx. unfold store, aset.
  replace (off <? length (values b))%nat with true
    by (symmetry; apply Nat.ltb_lt; exact Hoff).
  destruct (buffer b); [|reflexivity].
  cbn [num]. rewrite Z.mod_small by (apply Hx; reflexivity). reflexivity.
Qed.

Lemma storePair_values b off v :
  buffer b = false -> dataLimit b = 2 ^ dataWidth b - 1 ->
  (S off < length (values b))%nat ->
  0 < dataWidth b <= 15 -> 0 <= v < 2 ^ (2 * dataWidth b) ->
  values (storePair (littleEndian b) b off v)
  = <[S off := Some (if littleEndian b then v / 2 ^ dataWidth b else v mod 2 ^ dataWidth b)]>
      (<[off := Some (if littleEndian b then v mod 2 ^ dataWidth b else v / 2 ^ dataWidth b)]>
         (values b)).
Proof.
  intros Hb Hd Hoff Hw Hv.
  destruct (halves_range v _ Hw Hv) as (H1 & H2 & Hlo & Hhi & Hsplit).
  unfold storePair. cbv zeta. cbn [values set_values].
  rewrite Hd, band_limit, sar_div by lia.
  rewrite (store_in_range b) by (try lia; rewrite Hb; discriminate).
  rewrite store_in_range;
    cbn [values set_values buffer]; rewrite ?length_insert; try lia;
    try (rewrite Hb; discriminate).
  destruct (littleEndian b); reflexivity.
Qed.

Lemma store16_values b off v :
  buffer b = true -> (S off < length (values b))%nat -> 0 <= v < 2 ^ 16 ->
  store16 (littleEndian b) b off v
  = <[S off := Some (if littleEndian b then v / 2 ^ 8 else v mod 2 ^ 8)]>
      (<[off := Some (if littleEndian b then v mod 2 ^ 8 else v / 2 ^ 8)]> (values b)).
Proof.
  intros Hb Hoff Hv.
  destruct (halves_range v 8 ltac:(lia) Hv) as (H1 & H2 & Hlo & Hhi & Hsplit).
  change (2 ^ 8) with 256 in *.
  unfold store16. cbv zeta. change 65536 with (2 ^ 16). rewrite (Z.mod_small v) by lia.
  destruct (littleEndian b).
  - rewrite (store_in_range b) by (intros; lia).
    rewrite store_in_range; cbn [values set_values buffer]; rewrite ?length_insert;
      try (intros; lia). reflexivity.
  - rewrite (store_in_range b) by (intros; lia).
    rewrite store_in_range; cbn [values set_values buffer]; rewrite ?length_insert;
      try (intros; lia). reflexivity.
Qed.

Lemma values_swapWritePair w b : values (swapWritePair w b) = values b.
Proof. unfold swapWritePair. destruct (nWriteTraps b =? 0)%nat; reflexivity. Qed.

Lemma pairs_in_buffer b off :
  0 <= size b < 2 ^ 31 -> Z.of_nat off + 2 <= size b ->
  (Z.of_nat (Nat.div2 off) <? sar (size b) 1) = true.
Proof.
  intros Hs Hoff. rewrite sar_div by lia. apply Z.ltb_lt.
  change (2 ^ 1) with 2.
  pose proof (Nat.div2_odd off) as E.
  assert (Z.of_nat (Nat.div2 off) + 1 <= size b / 2); [|lia].
  apply Z.div_le_lower_bound; [lia|].
  destruct (Nat.odd off); cbn [Nat.b2n] in E; lia.
Qed.

Lemma pairWrite_layout w b off v :
  wf b -> paired b ->
  (w = pairWriter b \/ (bus b = STATIC /\ w = writeValuePairDirty)) ->
  inside b off v ->
  exists b', callWriter w b off v = (Returns tt, b') /\
    values b'
    = <[S off := Some (if littleEndian b then v / 2 ^ dataWidth b
                       else v mod 2 ^ dataWidth b)]>
        (<[off := Some (if littleEndian b then v mod 2 ^ dataWidth b
                        else v / 2 ^ dataWidth b)]> (values b)).
Proof.
  intros (Hd & _) [_ Hbuf] Hw (Hoff & Hwd & Hv & Hin).
  destruct (buffer b) eqn:Eb.
  - destruct (Hbuf eq_refl) as (Hbus & Hw8 & Hlen).
    destruct (Hin eq_refl) as (Hsz & Heven).
    rewrite Hw8 in *. change (2 * 8) with 16 in Hv.
    assert (Hsize : Z.of_nat off + 2 <= size b) by lia.
    assert (Hs0 : 0 <= size b < 2 ^ 31) by lia.
    pose proof (store16_values b off v Eb Hoff Hv) as H16.
    assert (Hw' : w = pairWriter b \/ w = writeValuePairDirty) by tauto.
    clear Hw. unfold Memory.pairWriter in Hw'. rewrite Hbus, Eb in Hw'.
    destruct (eqb (littleEndian b) LITTLE_ENDIAN) eqn:Ele.
    + apply eqb_prop in Ele. specialize (Heven Ele).
      destruct Hw' as [-> | ->]; cbn [Memory.callWriter]; rewrite ?Eb; cbn [negb];
        rewrite <- ?Ele, ?eqb_reflx, pairs_in_buffer, even_div2 by assumption;
        eexists; (split; [reflexivity|]);
        rewrite ?values_swapWritePair; exact H16.
    + replace (size b <? Z.of_nat off + 2) with false in *
        by (symmetry; apply Z.ltb_ge; lia).
      destruct Hw' as [-> | ->]; cbn [Memory.callWriter]; rewrite ?Eb; cbn [negb];
        rewrite ?Ele;
        replace (size b <? Z.of_nat off + 2) with false
          by (symmetry; apply Z.ltb_ge; lia);
        eexists; (split; [reflexivity|]);
        rewrite ?values_swapWritePair; exact H16.
  - pose proof (storePair_values b off v Eb Hd Hoff Hwd Hv) as HP.
    unfold Memory.pairWriter in Hw. rewrite Eb in Hw.
    destruct Hw as [-> | [Hbus ->]].
    + destruct (bus b); [destruct (littleEndian b) eqn:Ele|];
        cbn [Memory.callWriter]; eexists; (split; [reflexivity|]);
        rewrite ?Ele in *; exact HP.
    + cbn [Memory.callWriter]. rewrite Eb. cbn [negb].
      destruct (littleEndian b) eqn:Ele; eexists; (split; [reflexivity|]);
        rewrite values_swapWritePair; exact HP.
Qed.


Lemma pairRead_layout b off v :
  paired b -> inside b off v ->
  aget (values b) off
  = Some (if littleEndian b then v mod 2 ^ dataWidth b else v / 2 ^ dataWidth b) ->
  aget (values b) (S off)
  = Some (if littleEndian b then v / 2 ^ dataWidth b else v mod 2 ^ dataWidth b) ->
  callReader (pairReader b) b off = Returns (Some v).
Proof.
  intros [_ Hbuf] (Hoff & Hwd & Hv & Hin) H0 H1.
  pose proof (bor_shl_halves v _ Hwd Hv) as Hjoin.
  destruct (halves_range v _ Hwd Hv) as (_ & _ & _ & _ & Hsplit).
  unfold Memory.pairReader. destruct (buffer b) eqn:Eb.
  - destruct (Hbuf eq_refl) as (Hbus & Hw8 & Hlen).
    destruct (Hin eq_refl) as (Hsz & Heven).
    rewrite Hw8 in *. rewrite Hbus. change (2 ^ 8) with 256 in *.
    destruct (eqb (littleEndian b) LITTLE_ENDIAN) eqn:Ele.
    + apply eqb_prop in Ele. specialize (Heven Ele).
      cbn [Memory.callReader]. rewrite pairs_in_buffer by lia.
      rewrite even_div2 by assumption.
      replace (off + 1)%nat with (S off) by lia. rewrite H0, H1, <- Ele.
      cbn [num]. do 2 f_equal. destruct (littleEndian b); lia.
    + cbn [Memory.callReader].
      replace (size b <? Z.of_nat off + 2) with false
        by (symmetry; apply Z.ltb_ge; lia).
      rewrite H0, H1. cbn [num]. do 2 f_equal. destruct (littleEndian b); lia.
  - destruct (bus b); [destruct (littleEndian b) eqn:Ele|];
      cbn [Memory.callReader]; rewrite ?Ele, H0, H1; cbn [num];
      try (destruct (littleEndian b)); rewrite Hjoin; reflexivity.
Qed.

Lemma inside_frame b b' off v :
  buffer b' = buffer b -> littleEndian b' = littleEndian b ->
  dataWidth b' = dataWidth b -> size b' = size b ->
  length (values b') = length (values b) ->
  inside b off v -> inside b' off v.
Proof. unfold Memory.inside. intros -> -> -> -> ->. tauto. Qed.

Lemma aget_insert_eq (a : jsarray) i x : (i < length a)%nat -> aget (<[i := x]> a) i = x.
Proof. intros H. unfold aget. rewrite list_lookup_insert_eq by exact H. reflexivity. Qed.

Lemma aget_insert_ne (a : jsarray) i j x : i <> j -> aget (<[i := x]> a) j = aget a j.
Proof. intros H. unfold aget. rewrite list_lookup_insert_ne by exact H. reflexivity. Qed.

(** A pair write inside a READWRITE block: the call returns, the two units
    hold the halves of the value in the order of the block, and the block
    keeps its invariants. *)
Lemma writePair_inside b off v :
  wf b -> paired b -> type b = TYPE.READWRITE -> inside b off v ->
  exists b' cs,
    writePairAt b off v = (Returns tt, b', cs) /\
    wf b' /\ paired b' /\ type b' = TYPE.READWRITE /\
    littleEndian b' = littleEndian b /\ dataWidth b' = dataWidth b /\
    inside b' off v /\
    aget (values b') off
    = Some (if littleEndian b then v mod 2 ^ dataWidth b else v / 2 ^ dataWidth b) /\
    aget (values b') (S off)
    = Some (if littleEndian b then v / 2 ^ dataWidth b else v mod 2 ^ dataWidth b).
Proof.
  intros Hwf Hp Ht Hin.
  pose proof (writePair_wf LITTLE_ENDIAN b off v Hwf) as Hwf'.
  pose proof (writePair_paired LITTLE_ENDIAN b off v Hwf Hp) as Hp'.
  destruct (writePair_eq b off v Hwf Hp) as (w & cs & Hbw & Heq & _).
  rewrite Heq in Hwf', Hp'. cbn [fst snd] in Hwf', Hp'.
  pose proof (paired_writer_rw b w Hp Ht Hbw) as Hw.
  destruct (pairWrite_layout w b off v Hwf Hp Hw Hin) as (b' & Hcw & Hvals).
  pose proof (callWriter_frame w b off v) as F. cbv zeta in F.
  rewrite Hcw in F, Hwf', Hp', Heq. cbn [snd] in F, Hwf', Hp'.
  destruct F as (F1 & F2 & F3 & F4 & F5 & F6 & F7 & F8).
  pose proof Hin as (Hoff & _).
  exists b', cs. split; [exact Heq|]. split; [exact Hwf'|]. split; [exact Hp'|].
  split; [congruence|]. split; [exact F4|]. split; [exact F5|].
  split; [|split].
  - apply (inside_frame b); try assumption. rewrite Hvals, !length_insert. reflexivity.
  - rewrite Hvals, aget_insert_ne, aget_insert_eq by lia. reflexivity.
  - rewrite Hvals, aget_insert_eq by (rewrite length_insert; lia). reflexivity.
Qed.


(** X8.  On a READWRITE block a pair write followed by a pair read of the
    same offset returns the value written, whatever the bus, the storage
    and the byte orders of block and host, when the pair lies inside the
    block and the value fits two units (on a buffer of the byte order of
    the host the offset must be even). *)
Theorem writePair_then_readPair b off v :
  reachable b -> type b = TYPE.READWRITE -> inside b off v ->
  exists b' cs cs',
    writePairAt b off v = (Returns tt, b', cs) /\
    readPairAt b' off = (Returns (Some v), cs').
Proof.
  intros Hr Ht Hin.
  pose proof (reachable_wf LITTLE_ENDIAN b Hr) as Hwf.
  pose proof (reachable_paired LITTLE_ENDIAN b Hr) as Hp.
  destruct (writePair_inside b off v Hwf Hp Ht Hin)
    as (b' & cs & Hw & Hwf' & Hp' & Ht' & Hle & Hdw & Hin' & H0 & H1).
  exists b', cs.
  destruct (readPair_dispatch LITTLE_ENDIAN b' off Hwf') as (r & Hr' & _ & ->).
  rewrite (paired_reader_rw b' Hp' Ht') in Hr'. injection Hr' as <-.
  rewrite <- Hle, <- Hdw in H0, H1.
  rewrite (pairRead_layout b' off v Hp' Hin' H0 H1).
  eexists. split; [exact Hw|reflexivity].
Qed.

(** X9.  After a pair write inside a READWRITE block, single-unit reads of
    the two offsets return the two halves of the value: the low half at
    the lower offset when the block is little-endian, the high half when it
    is big-endian, whatever the byte order of the host.  As for X8, the
    pair lies inside the block, the units have between 1 and 15 bits, the
    value is not negative and below [2^(2 * dataWidth)], and on a buffer of
    the byte order of the host the offset is even. *)
Theorem writePair_units b off v :
  reachable b -> type b = TYPE.READWRITE -> inside b off v ->
  exists b' cs cs0 cs1,
    writePairAt b off v = (Returns tt, b', cs) /\
    read b' off
    = (Returns (Some (if littleEndian b then v mod 2 ^ dataWidth b
                      else v / 2 ^ dataWidth b)), cs0) /\
    read b' (S off)
    = (Returns (Some (if littleEndian b then v / 2 ^ dataWidth b
                      else v mod 2 ^ dataWidth b)), cs1).
Proof.
  intros Hr Ht Hin.
  pose proof (reachable_wf LITTLE_ENDIAN b Hr) as Hwf.
  pose proof (reachable_paired LITTLE_ENDIAN b Hr) as Hp.
  destruct (writePair_inside b off v Hwf Hp Ht Hin)
    as (b' & cs & Hw & Hwf' & Hp' & Ht' & Hle & Hdw & Hin' & H0 & H1).
  destruct (read_eq LITTLE_ENDIAN b' off Hwf') as [cs0 E0].
  destruct (read_eq LITTLE_ENDIAN b' (S off) Hwf') as [cs1 E1].
  rewrite Ht', H0 in E0. rewrite Ht', H1 in E1.
  exists b', cs, cs0, cs1. split; [exact Hw|]. split; [exact E0|exact E1].
Qed.

(** *** The dirty flag *)

Lemma new_kind arrayBuffer bi cfg :
  type (new LITTLE_ENDIAN arrayBuffer bi cfg)
  = (if truthy (cfg_type cfg) then num (cfg_type cfg) else TYPE.NONE) /\
  bus (new LITTLE_ENDIAN arrayBuffer bi cfg) = bus_type bi /\
  fDirty (new LITTLE_ENDIAN arrayBuffer bi cfg) = false.
Proof.
  unfold new.
  match goal with |- context [initValues ?v ?b0] =>
    destruct (initValues_values v b0) as [vs ->] end.
  cbv zeta.
  repeat match goal with |- context [if ?c =? ?d then _ else _] => destruct (c =? d) end;
    cbn; auto.
Qed.

Lemma step_kind o b :
  wf b -> paired b ->
  type (step LITTLE_ENDIAN o b) = type b /\ bus (step LITTLE_ENDIAN o b) = bus b.
Proof.
  intros Hwf Hp. destruct o; cbn [step]; try (split; reflexivity).
  - destruct (write_dispatch LITTLE_ENDIAN b off v Hwf) as (w & _ & _ & ->).
    cbn [fst snd]. pose proof (callWriter_frame w b off v) as F. cbv zeta in F. tauto.
  - destruct (writePair_eq b off v Hwf Hp) as (w & cs & _ & -> & _).
    cbn [fst snd]. pose proof (callWriter_frame w b off v) as F. cbv zeta in F. tauto.
  - destruct (trap_frame f b (snd (trapRead f b))) as (F1 & F2 & _); tauto.
  - destruct (trap_frame f b (snd (trapWrite f b))) as (F1 & F2 & _); tauto.
  - destruct (trap_frame f b (snd (untrapRead f b))) as (F1 & F2 & _); tauto.
  - destruct (trap_frame f b (snd (untrapWrite f b))) as (F1 & F2 & _); tauto.
  - unfold isDirty. destruct (fDirty b); cbn [snd]; [|tauto].
    cbn [nWriteTraps set_fDirty]. destruct (nWriteTraps b =? 0)%nat; split; reflexivity.
  - unfold onReset. destruct (TYPE.READWRITE <=? type b); split; reflexivity.
Qed.

Lemma step_fDirty o b :
  wf b -> paired b -> type b = TYPE.READWRITE -> bus b = STATIC ->
  fDirty (step LITTLE_ENDIAN o b)
  = match o with Write _ _ => true | IsDirty => false | _ => fDirty b end.
Proof.
  intros Hwf Hp Ht Hb. destruct o; cbn [step]; try reflexivity.
  - destruct (write_dispatch LITTLE_ENDIAN b off v Hwf) as (w & Hw & _ & ->).
    cbn [fst snd]. destruct Hwf as (_ & _ & _ & [H|[H|H]]);
      try (destruct H as (H & _); rewrite Ht in H; discriminate H).
    destruct H as (_ & _ & H). rewrite Hb in H.
    destruct H as [H|[H Hf]]; rewrite Hw in H; injection H as ->;
      cbn [Memory.callWriter snd].
    + unfold swapWriteData. cbn [nWriteTraps set_fDirty set_values].
      destruct (nWriteTraps b =? 0)%nat; reflexivity.
    + exact Hf.
  - apply writePair_fDirty; assumption.
  - destruct (trap_frame f b (snd (trapRead f b))); tauto.
  - destruct (trap_frame f b (snd (trapWrite f b))); tauto.
  - destruct (trap_frame f b (snd (untrapRead f b))); tauto.
  - destruct (trap_frame f b (snd (untrapWrite f b))); tauto.
  - unfold isDirty. destruct (fDirty b) eqn:Ef; cbn [snd]; [|exact Ef].
    cbn [nWriteTraps set_fDirty]. destruct (nWriteTraps b =? 0)%nat; reflexivity.
  - unfold onReset. destruct (TYPE.READWRITE <=? type b); reflexivity.
Qed.

Lemma run_fDirty ops : forall b,
  wf b -> paired b -> type b = TYPE.READWRITE -> bus b = STATIC ->
  fDirty (run LITTLE_ENDIAN ops b) = dirtied ops (fDirty b).
Proof.
  induction ops as [|o ops IH]; intros b Hwf Hp Ht Hb; [reflexivity|].
  cbn [run dirtied fold_left].
  destruct (step_kind o b Hwf Hp) as [Kt Kb].
  change (fold_left (fun b' o' => step LITTLE_ENDIAN o' b') ops (step LITTLE_ENDIAN o b))
    with (run LITTLE_ENDIAN ops (step LITTLE_ENDIAN o b)).
  rewrite IH;
    [|apply step_wf, Hwf|apply step_paired; assumption|congruence|congruence].
  rewrite (step_fDirty o b Hwf Hp Ht Hb). reflexivity.
Qed.

Lemma run_reachable ops : forall b, reachable b -> reachable (run LITTLE_ENDIAN ops b).
Proof.
  induction ops as [|o ops IH]; intros b Hr; [exact Hr|].
  apply IH. constructor. exact Hr.
Qed.

(** X10.  [isDirty()] answers whether a single-unit write has happened
    since the previous [isDirty()] (or since the construction): for a
    READWRITE block of a STATIC bus, after any sequence of reads, writes,
    pair accesses, trap changes, resets and [isDirty()] calls it returns
    true exactly when the last of the [Write] and [IsDirty] operations is a
    [Write]; pair writes do not count.  For a block of another type, or of
    a DYNAMIC bus, it always returns false. *)
Theorem isDirty_tracks_writes arrayBuffer bi cfg ops :
  typed cfg ->
  (cfg_type cfg = Some TYPE.READWRITE -> bus_type bi = STATIC ->
   fst (isDirty (run LITTLE_ENDIAN ops (new LITTLE_ENDIAN arrayBuffer bi cfg)))
   = dirtied ops false) /\
  (cfg_type cfg <> Some TYPE.READWRITE \/ bus_type bi = DYNAMIC ->
   fst (isDirty (run LITTLE_ENDIAN ops (new LITTLE_ENDIAN arrayBuffer bi cfg)))
   = false).
Proof.
  intros Hty.
  assert (Hfst : forall b, fst (isDirty b) = fDirty b)
    by (intros b; unfold isDirty; destruct (fDirty b); reflexivity).
  rewrite !Hfst.
  destruct (new_kind arrayBuffer bi cfg) as (Kt & Kb & Kf).
  pose proof (new_wf LITTLE_ENDIAN arrayBuffer bi cfg Hty) as Hwf.
  pose proof (new_paired LITTLE_ENDIAN arrayBuffer bi cfg Hty) as Hp.
  split.
  - intros Ht Hb. rewrite Ht in Kt. rewrite run_fDirty, Kf; try assumption.
    + reflexivity.
    + congruence.
  - intros Hn.
    set (b := run LITTLE_ENDIAN ops (new LITTLE_ENDIAN arrayBuffer bi cfg)).
    destruct (fDirty b) eqn:Ef; [|reflexivity]. exfalso.
    assert (Hrb : reachable b) by (apply run_reachable; constructor; exact Hty).
    destruct (wf_dirty_static b (reachable_wf LITTLE_ENDIAN b Hrb) Ef)
      as [Ht Hb].
    assert (Hkind : forall ops' b0, wf b0 -> paired b0 ->
              type (run LITTLE_ENDIAN ops' b0) = type b0 /\
              bus (run LITTLE_ENDIAN ops' b0) = bus b0).
    { induction ops' as [|o ops' IH]; intros b0 Hw0 Hp0; [split; reflexivity|].
      cbn [run fold_left].
      destruct (step_kind o b0 Hw0 Hp0) as [K1 K2].
      destruct (IH (step LITTLE_ENDIAN o b0)) as [I1 I2];
        [apply step_wf, Hw0|apply step_paired; assumption|].
      unfold run in I1, I2. split; congruence. }
    destruct (Hkind ops _ Hwf Hp) as [Rt Rb]. fold b in Rt, Rb.
    rewrite Ht in Rt. rewrite Hb in Rb. rewrite Kt in Rt. rewrite Kb in Rb.
    destruct Hn as [Hn|Hn]; [|congruence].
    destruct Hty as [H|[H|[H|[H|H]]]]; rewrite H in Rt; cbn in Rt;
      try discriminate Rt. contradiction.
Qed.

End MemoryPairAccess.

Section MemoryState.
Import Memory.

(** What [compress] returns decompresses to the array (the first half of
    the round trip, for arrays of any content). *)
Lemma compress_then_decompress (xs : jsarray) :
  exists ys, NumIO.compress xs = Some ys /\
             NumIO.decompress ys (length xs) = Some xs.
Proof.
  rewrite compress_eq.
  destruct (Nat.ltb_spec (length (NumIO.runLengthEncoding xs)) (length xs)) as [Hlt|Hge].
  - eexists. split; [reflexivity|]. apply decompress_runLengthEncoding, Hlt.
  - eexists. split; [reflexivity|]. apply decompress_same_length.
Qed.

Lemma copy_prefix vs b k :
  length vs = length (values b) ->
  (buffer b = true -> bytes vs) ->
  (k <= length vs)%nat ->
  fold_left (fun b' i => set_values (store b' i (aget vs i)) b') (seq 0 k) b
  = set_values (take k vs ++ drop k (values b)) b.
Proof.
  intros Hlen Hb. induction k as [|k IH]; intros Hk.
  - cbn. rewrite drop_0. destruct b; reflexivity.
  - rewrite seq_S, fold_left_app, IH by lia. cbn [fold_left Nat.add].
    destruct (lookup_lt_is_Some_2 vs k ltac:(lia)) as [x Hx].
    destruct (lookup_lt_is_Some_2 (values b) k ltac:(lia)) as [y Hy].
    assert (Hst : store (set_values (take k vs ++ drop k (values b)) b) k (aget vs k)
                  = take (S k) vs ++ drop (S k) (values b)).
    { unfold store, aset. cbn [buffer values set_values].
      rewrite length_app, length_take, length_drop.
      replace (k <? k `min` length vs + (length (values b) - k))%nat with true
        by (symmetry; apply Nat.ltb_lt; lia).
      unfold aget. rewrite Hx. cbn [default].
      rewrite (take_S_r _ _ _ Hx), (drop_S _ _ _ Hy), <- app_assoc. cbn [app].
      assert (Hins : forall z : option Z,
                <[k := z]> (take k vs ++ y :: drop (S k) (values b))
                = take k vs ++ z :: drop (S k) (values b)).
      { intros z. rewrite insert_app_r_alt by (rewrite length_take; lia).
        rewrite length_take. replace (k - k `min` length vs)%nat with 0%nat by lia.
        reflexivity. }
      destruct (buffer b) eqn:Eb; rewrite Hins; [|reflexivity].
      specialize (Hb eq_refl). unfold bytes in Hb. rewrite Forall_lookup in Hb.
      destruct (Hb k x Hx) as (z & -> & Hz). cbn [num].
      rewrite Z.mod_small by exact Hz. reflexivity. }
    rewrite Hst. destruct b; reflexivity.
Qed.

Lemma copyValues_all vs b :
  length vs = length (values b) -> length (values b) = Z.to_nat (size b) ->
  (buffer b = true -> bytes vs) ->
  copyValues vs b = set_values vs b.
Proof.
  intros Hlen Hsz Hb. unfold copyValues. rewrite <- Hsz, <- Hlen.
  rewrite copy_prefix by (try assumption; lia).
  rewrite take_ge, drop_ge, app_nil_r by lia. reflexivity.
Qed.

(** X11.  What [saveState] pushes, [loadState] restores: loading it into a
    block of the same device, size and storage gives that block the saved
    values and the saved dirty flag, returns true and consumes the four
    elements.  A block with another identity returns false and is left as
    it is, but has taken the identity off the array. *)
Theorem saveState_loadState idDevice b b' state rest :
  length (values b) = Z.to_nat (size b) ->
  size b' = size b -> buffer b' = buffer b ->
  length (values b') = length (values b) ->
  (buffer b = true -> bytes (values b)) ->
  exists saved,
    saveState idDevice b state = Some (state ++ Id idDevice :: saved) /\
    loadState idDevice (Id idDevice :: saved ++ rest) b'
    = Some (true, set_values (values b) (set_fDirty (fDirty b) b'), rest) /\
    (forall other, other <> idDevice ->
       loadState other (Id idDevice :: saved ++ rest) b'
       = Some (false, b', saved ++ rest)).
Proof.
  intros Hsz Hs' Hbuf Hlen Hbytes.
  destruct (compress_then_decompress (values b)) as (ys & Hc & Hd).
  exists [Flag (fDirty b); Flag false; Values ys].
  unfold saveState, loadState. rewrite Hc, Nat.eqb_refl. cbn [app].
  rewrite Hs', <- Hsz, Hd.
  split; [reflexivity|]. split.
  - rewrite copyValues_all; cbn [values set_fDirty size buffer];
      [reflexivity|congruence|congruence|rewrite Hbuf; exact Hbytes].
  - intros other Hne.
    replace (idDevice =? other)%nat with false
      by (symmetry; apply Nat.eqb_neq; congruence).
    reflexivity.
Qed.

End MemoryState.

(** *** On the blocks of the examples *)

Lemma staticBlock_reachable : Memory.reachable true Examples.staticBlock.
Proof. apply Memory.reach_new. do 4 right. reflexivity. Qed.

Lemma bufferBlock_reachable : Memory.reachable true Examples.bufferBlock.
Proof. apply Memory.reach_new. do 4 right. reflexivity. Qed.

Lemma staticBlock_inside : Memory.inside true Examples.staticBlock 1 0x1234.
Proof.
  unfold Memory.inside. split; [vm_compute; lia|].
  split; [vm_compute; split; [reflexivity|discriminate]|].
  split; [vm_compute; split; [discriminate|reflexivity]|].
  intros H. discriminate H.
Qed.

Lemma bufferBlock_inside : Memory.inside true Examples.bufferBlock 1 0x1234.
Proof.
  unfold Memory.inside. split; [vm_compute; lia|].
  split; [vm_compute; split; [reflexivity|discriminate]|].
  split; [vm_compute; split; [discriminate|reflexivity]|].
  intros _. split; [reflexivity|]. intros H. discriminate H.
Qed.

(** X7, on [staticBlock]. *)
Lemma writePair_keeps_fDirty_witness :
  Memory.reachable true Examples.staticBlock /\
  Memory.fDirty (snd (fst (Memory.writePairAt true Examples.staticBlock 0 0x1234)))
  = Memory.fDirty Examples.staticBlock.
Proof.
  split; [exact staticBlock_reachable|].
  exact (writePair_keeps_fDirty true Examples.staticBlock 0 0x1234 staticBlock_reachable).
Defined.

(** X8, on [staticBlock]: the pair 0x1234 at the offsets 1 and 2. *)
Lemma writePair_then_readPair_witness :
  Memory.reachable true Examples.staticBlock /\
  Memory.type Examples.staticBlock = Memory.TYPE.READWRITE /\
  Memory.inside true Examples.staticBlock 1 0x1234 /\
  exists b' cs cs',
    Memory.writePairAt true Examples.staticBlock 1 0x1234 = (Memory.Returns tt, b', cs) /\
    Memory.readPairAt true b' 1 = (Memory.Returns (Some 0x1234), cs').
Proof.
  split; [exact staticBlock_reachable|]. split; [reflexivity|].
  split; [exact staticBlock_inside|].
  exact (writePair_then_readPair true Examples.staticBlock 1 0x1234
           staticBlock_reachable eq_refl staticBlock_inside).
Defined.

(** X9, on [bufferBlock], a big-endian block on a little-endian host: the
    high half 0x12 is at the lower offset. *)
Lemma writePair_units_witness :
  Memory.reachable true Examples.bufferBlock /\
  Memory.type Examples.bufferBlock = Memory.TYPE.READWRITE /\
  Memory.inside true Examples.bufferBlock 1 0x1234 /\
  exists b' cs cs0 cs1,
    Memory.writePairAt true Examples.bufferBlock 1 0x1234 = (Memory.Returns tt, b', cs) /\
    Memory.read true b' 1 = (Memory.Returns (Some 0x12), cs0) /\
    Memory.read true b' 2 = (Memory.Returns (Some 0x34), cs1).
Proof.
  split; [exact bufferBlock_reachable|]. split; [reflexivity|].
  split; [exact bufferBlock_inside|].
  exact (writePair_units true Examples.bufferBlock 1 0x1234
           bufferBlock_reachable eq_refl bufferBlock_inside).
Defined.

(** X10, on the configuration of [staticBlock]: a write, [isDirty()] and a
    pair write leave the block clean. *)
Lemma isDirty_tracks_writes_witness :
  Memory.typed (Memory.mkConfig (Some 0) 4 (Some Memory.TYPE.READWRITE) None) /\
  fst (Memory.isDirty
         (Memory.run true [Memory.Write 0 1; Memory.IsDirty; Memory.WritePair 0 5]
            Examples.staticBlock))
  = false.
Proof.
  assert (Ht : Memory.typed (Memory.mkConfig (Some 0) 4 (Some Memory.TYPE.READWRITE) None))
    by (do 4 right; reflexivity).
  split; [exact Ht|].
  exact (proj1 (isDirty_tracks_writes true false (Memory.mkBusInfo Memory.STATIC 8 true)
                  (Memory.mkConfig (Some 0) 4 (Some Memory.TYPE.READWRITE) None)
                  [Memory.Write 0 1; Memory.IsDirty; Memory.WritePair 0 5] Ht)
           eq_refl eq_refl).
Defined.

(** X11: the state of [staticBlock] after a write, loaded into the new
    [staticBlock]. *)
Lemma saveState_loadState_witness :
  exists saved,
    Memory.saveState 3 (Memory.step true (Memory.Write 1 5) Examples.staticBlock) []
    = Some ([] ++ Memory.Id 3 :: saved) /\
    Memory.loadState 3 (Memory.Id 3 :: saved ++ []) Examples.staticBlock
    = Some (true,
            Memory.set_values
              (Memory.values (Memory.step true (Memory.Write 1 5) Examples.staticBlock))
              (Memory.set_fDirty
                 (Memory.fDirty (Memory.step true (Memory.Write 1 5) Examples.staticBlock))
                 Examples.staticBlock), []) /\
    (forall other, other <> 3%nat ->
       Memory.loadState other (Memory.Id 3 :: saved ++ []) Examples.staticBlock
       = Some (false, Examples.staticBlock, saved ++ [])).
Proof.
  apply (saveState_loadState 3 (Memory.step true (Memory.Write 1 5) Examples.staticBlock)
           Examples.staticBlock [] []).
  - reflexivity.
  - reflexivity.
  - reflexivity.
  - reflexivity.
  - intros H. discriminate H.
Defined.

(** *** The blocks of the examples *)

Lemma staticBlock_wf : Memory.wf Examples.staticBlock.
Proof. apply new_wf. do 4 right. reflexivity. Defined.

Lemma dynamicBlock_wf : Memory.wf Examples.dynamicBlock.
Proof. apply new_wf. do 4 right. reflexivity. Defined.

Lemma trappedBlock_wf : Memory.wf Examples.trappedBlock.
Proof. apply trapWrite_wf, trapRead_wf, staticBlock_wf. Defined.

(** C1, on [staticBlock]: writing 5 at offset 1 and reading it back. *)
Lemma write_then_read_witness :
  Memory.wf Examples.staticBlock /\
  (1 < length (Memory.values Examples.staticBlock))%nat /\
  exists b' cs,
    Memory.write true Examples.staticBlock 1 5 = (Memory.Returns tt, b', cs) /\
    (exists cs', Memory.read true b' 1 = (Memory.Returns (Some 5), cs')) /\
    Memory.fDirty b' = true.
Proof.
  assert (Hlen : (1 < length (Memory.values Examples.staticBlock))%nat)
    by (vm_compute; lia).
  split; [exact staticBlock_wf|]. split; [exact Hlen|].
  exact (proj1 (write_then_read true Examples.staticBlock 1 5 staticBlock_wf Hlen)
           eq_refl).
Defined.

(** C1 as the specification states it fails on a DYNAMIC bus: the block is
    READWRITE, the write is stored, and the block is not dirty. *)
Lemma write_dynamic_not_dirty :
  Memory.type Examples.dynamicBlock = Memory.TYPE.READWRITE /\
  Memory.fDirty Examples.dynamicBlock = false /\
  fst (fst (Memory.write true Examples.dynamicBlock 1 5)) = Memory.Returns tt /\
  fst (Memory.read true (snd (fst (Memory.write true Examples.dynamicBlock 1 5))) 1)
  = Memory.Returns (Some 5) /\
  Memory.fDirty (snd (fst (Memory.write true Examples.dynamicBlock 1 5))) = false.
Proof. vm_compute. repeat split; reflexivity. Qed.

(** C3, on [staticBlock] with the functions 7 and 8. *)
Lemma trap_nesting_witness :
  Memory.wf Examples.staticBlock /\ 7%nat <> 8%nat /\
  let b1 := snd (Memory.trapRead 7 Examples.staticBlock) in
  let b2 := snd (Memory.trapRead 7 b1) in
  let b3 := snd (Memory.untrapRead 7 b2) in
  let b4 := snd (Memory.untrapRead 7 b3) in
  fst (Memory.trapRead 7 Examples.staticBlock) = true /\
  fst (Memory.trapRead 7 b1) = true /\
  Memory.nReadTraps b2 = 2%nat /\
  Memory.trapRead 8 b1 = (false, b1) /\ Memory.trapRead 8 b2 = (false, b2) /\
  fst (Memory.untrapRead 7 b2) = true /\
  (exists x, Memory.read true b3 2
             = (Memory.Returns x,
                [Memory.mkCall 7 (Memory.addr Examples.staticBlock) 2 x
                   (Memory.values Examples.staticBlock)])) /\
  fst (Memory.untrapRead 7 b3) = true /\ b4 = Examples.staticBlock /\
  (exists x, Memory.read true b4 2 = (Memory.Returns x, [])).
Proof.
  assert (Hne : 7%nat <> 8%nat) by lia.
  split; [exact staticBlock_wf|]. split; [exact Hne|].
  exact (proj1 (trap_nesting true Examples.staticBlock 7 8 2 0 staticBlock_wf Hne)
           eq_refl).
Defined.

(** C4, on [trappedBlock]. *)
Lemma trap_after_read_before_write_witness :
  Memory.wf Examples.trappedBlock /\
  Memory.read true Examples.trappedBlock 2
  = (Memory.Returns (Some 255),
     [Memory.mkCall 7 (Some 0) 2 (Some 255) (replicate 4 (Some 255))]) /\
  exists f w,
    Memory.writeTrap Examples.trappedBlock = Some f /\
    Memory.writeDataOrig Examples.trappedBlock = Some w /\
    Memory.write true Examples.trappedBlock 2 9
    = (Memory.callWriter true w Examples.trappedBlock 2 9,
       [Memory.mkCall f (Memory.addr Examples.trappedBlock) 2 (Some 9)
          (Memory.values Examples.trappedBlock)]).
Proof.
  pose proof (trap_after_read_before_write true Examples.trappedBlock 2 9
                trappedBlock_wf) as [_ Hw].
  split; [exact trappedBlock_wf|]. split; [reflexivity|].
  apply Hw. discriminate.
Defined.

(** C10, on [trappedBlock]. *)
Lemma pair_trap_twice_witness :
  Memory.wf Examples.trappedBlock /\
  Z.of_nat 2 + 2 <= Memory.size Examples.trappedBlock /\
  exists f r x,
    Memory.readTrap Examples.trappedBlock = Some f /\
    Memory.readPairOrig Examples.trappedBlock = Some r /\
    Memory.callReader true r Examples.trappedBlock 2 = Memory.Returns x /\
    Memory.readPairAt true Examples.trappedBlock 2
    = (Memory.Returns x,
       [Memory.mkCall f (Memory.addr Examples.trappedBlock) 2 x
          (Memory.values Examples.trappedBlock);
        Memory.mkCall f (Memory.addr Examples.trappedBlock) 3 x
          (Memory.values Examples.trappedBlock)]).
Proof.
  assert (Hsz : Z.of_nat 2 + 2 <= Memory.size Examples.trappedBlock)
    by (vm_compute; discriminate).
  split; [exact trappedBlock_wf|]. split; [exact Hsz|].
  apply (proj1 (pair_trap_twice true Examples.trappedBlock 2 0 trappedBlock_wf));
    [discriminate|exact Hsz].
Defined.

(** ** Bus: registering blocks *)

Section BusFacts.
Import Bus.

Variable LITTLE_ENDIAN : bool.
Variable arrayBuffer : bool.

Local Abbreviation addBlocksLoop := (Bus.addBlocksLoop LITTLE_ENDIAN arrayBuffer).
Local Abbreviation addBlocks := (Bus.addBlocks LITTLE_ENDIAN arrayBuffer).
Local Abbreviation written := (Bus.written LITTLE_ENDIAN arrayBuffer).
Local Abbreviation newMemory := (Bus.newMemory LITTLE_ENDIAN arrayBuffer).
Local Abbreviation fillSlot := (Bus.fillSlot LITTLE_ENDIAN arrayBuffer).

Lemma shr_div a n :
  0 <= a < 2 ^ 32 -> 0 <= n < 32 -> shr a n = a / 2 ^ n.
Proof.
  intros Ha Hn. unfold shr, toUint32.
  rewrite (Z.mod_small a) by lia.
  rewrite (Z.mod_small n (2 ^ 32)) by lia.
  rewrite (Z.mod_small n 32) by lia.
  apply Z.shiftr_div_pow2. lia.
Qed.

Lemma wf_blockSize_pos b : wf b -> 0 < blockSize b.
Proof. intros (Hs & -> & _). apply Z.pow_pos_nonneg; lia. Qed.

Lemma written_0 b i type : written b i 0 type = b.
Proof.
  unfold Bus.written. cbn [seq map]. rewrite Nat.add_0_r, app_nil_r.
  cbn [app]. rewrite take_drop. destruct b; reflexivity.
Qed.

Lemma fillSlot_wf b i type : wf b -> wf (fillSlot b i type).
Proof.
  intros (Hs & Hb & Hn & Hr). unfold Bus.fillSlot, Bus.newMemory, wf. cbn.
  rewrite length_insert, length_app. cbn.
  repeat split; try assumption; try lia.
  intros j r Hj. destruct (decide (j = Z.to_nat i)) as [->|Hne].
  - pose proof (lookup_lt_Some _ _ _ Hj) as Hlt. rewrite length_insert in Hlt.
    rewrite list_lookup_insert_eq in Hj by exact Hlt. injection Hj as <-. lia.
  - rewrite list_lookup_insert_ne in Hj by congruence.
    specialize (Hr _ _ Hj). lia.
Qed.

Lemma fillSlot_slot b i j type :
  wf b -> 0 <= i -> i <> j -> slot (fillSlot b i type) j = slot b j.
Proof.
  intros (_ & _ & _ & Hr) Hi Hne. unfold Bus.fillSlot, Bus.newMemory, slot. cbn.
  destruct (j <? 0) eqn:Ej; [reflexivity|]. apply Z.ltb_ge in Ej.
  rewrite list_lookup_insert_ne by lia.
  destruct (blocks b !! Z.to_nat j) as [[r|]|] eqn:Eb; try reflexivity.
  apply lookup_app_l. eapply Hr. exact Eb.
Qed.

Lemma fillSlot_freeRun b i type m : forall j,
  wf b -> 0 <= i -> i < j ->
  freeRun (fillSlot b i type) j m = freeRun b j m.
Proof.
  induction m as [|m IH]; intros j Hwf Hi Hj; [reflexivity|].
  cbn [freeRun]. unfold isFree. rewrite fillSlot_slot by (assumption || lia).
  rewrite IH by (assumption || lia). reflexivity.
Qed.

Lemma written_fillSlot b i k type :
  wf b -> 0 <= i -> i < Z.of_nat (length (blocks b)) ->
  written (fillSlot b i type) (i + 1) k type = written b i (S k) type.
Proof.
  intros _ Hi Hlt. destruct b as [ty aw at' al bs bt bsh bl dw dl le bks nt hp].
  unfold Bus.written, Bus.fillSlot, Bus.newMemory, info, set_blocks, set_heap.
  cbn in *. rewrite length_app. cbn [length].
  replace (length hp + 1)%nat with (S (length hp)) by lia.
  f_equal.
  - replace (Z.to_nat (i + 1)) with (S (Z.to_nat i)) by lia.
    rewrite (take_S_r _ _ (Some (length hp)))
      by (apply list_lookup_insert_eq; lia).
    rewrite take_insert_ge by lia.
    rewrite drop_insert_lt by lia.
    rewrite <- app_assoc. cbn.
    replace (Z.to_nat i + S k)%nat with (S (Z.to_nat i + k)) by lia. reflexivity.
  - rewrite <- app_assoc. f_equal. cbn [app seq map]. f_equal.
    + replace (i + Z.of_nat 0) with i by lia. reflexivity.
    + rewrite <- seq_shift, map_map. apply map_ext. intros j.
      replace (i + 1 + Z.of_nat j) with (i + Z.of_nat (S j)) by lia. reflexivity.
Qed.

(** The cases of one iteration of the loop (without a preallocated block). *)
Lemma loop_done fuel b addrNext sizeLeft offset i type :
  sizeLeft <= 0 ->
  addBlocksLoop (S fuel) b addrNext sizeLeft offset i type None = Some (true, b).
Proof.
  intros Hs. cbn [Bus.addBlocksLoop].
  replace (0 <? sizeLeft) with false by (symmetry; apply Z.ltb_ge; lia).
  reflexivity.
Qed.

Lemma loop_unaligned fuel b addrNext sizeLeft offset i type :
  0 < sizeLeft -> i < Z.of_nat (length (blocks b)) ->
  addrNext <> i * blockSize b ->
  addBlocksLoop (S fuel) b addrNext sizeLeft offset i type None = Some (false, b).
Proof.
  intros Hs Hi Hne. cbn [Bus.addBlocksLoop].
  replace (0 <? sizeLeft) with true by (symmetry; apply Z.ltb_lt; lia).
  replace (i <? Z.of_nat (length (blocks b))) with true
    by (symmetry; apply Z.ltb_lt; lia).
  replace (addrNext =? i * blockSize b) with false
    by (symmetry; apply Z.eqb_neq; exact Hne).
  reflexivity.
Qed.

Lemma loop_partial fuel b sizeLeft offset i type :
  0 < sizeLeft < blockSize b -> i < Z.of_nat (length (blocks b)) ->
  addBlocksLoop (S fuel) b (i * blockSize b) sizeLeft offset i type None
  = Some (false, b).
Proof.
  intros Hs Hi. cbn [Bus.addBlocksLoop].
  replace (0 <? sizeLeft) with true by (symmetry; apply Z.ltb_lt; lia).
  replace (i <? Z.of_nat (length (blocks b))) with true
    by (symmetry; apply Z.ltb_lt; lia).
  cbn [andb]. rewrite Z.eqb_refl, Z.sub_diag, Z.sub_0_r. cbn [negb orb].
  replace (sizeLeft <? blockSize b) with true by (symmetry; apply Z.ltb_lt; lia).
  replace (sizeLeft =? blockSize b) with false by (symmetry; apply Z.eqb_neq; lia).
  reflexivity.
Qed.

Lemma loop_occupied fuel b sizeLeft offset i type :
  blockSize b <= sizeLeft -> 0 < blockSize b ->
  i < Z.of_nat (length (blocks b)) -> isFree b i = false ->
  addBlocksLoop (S fuel) b (i * blockSize b) sizeLeft offset i type None
  = Some (false, b).
Proof.
  intros Hs Hb Hi Hf. cbn [Bus.addBlocksLoop].
  replace (0 <? sizeLeft) with true by (symmetry; apply Z.ltb_lt; lia).
  replace (i <? Z.of_nat (length (blocks b))) with true
    by (symmetry; apply Z.ltb_lt; lia).
  cbn [andb]. rewrite Z.eqb_refl, Z.sub_diag, Z.sub_0_r. cbn [negb orb].
  replace (sizeLeft <? blockSize b) with false by (symmetry; apply Z.ltb_ge; lia).
  rewrite Z.eqb_refl. cbn [negb]. unfold isFree in Hf.
  destruct (slot b i) as [e|]; [|discriminate Hf]. rewrite Hf. reflexivity.
Qed.

Lemma loop_fill fuel b sizeLeft offset i type :
  blockSize b <= sizeLeft -> 0 < blockSize b ->
  i < Z.of_nat (length (blocks b)) -> isFree b i = true ->
  addBlocksLoop (S fuel) b (i * blockSize b) sizeLeft offset i type None
  = addBlocksLoop fuel (fillSlot b i type) ((i + 1) * blockSize b)
      (sizeLeft - blockSize b) (offset + blockSize b) (i + 1) type None.
Proof.
  intros Hs Hb Hi Hf. cbn [Bus.addBlocksLoop].
  replace (0 <? sizeLeft) with true by (symmetry; apply Z.ltb_lt; lia).
  replace (i <? Z.of_nat (length (blocks b))) with true
    by (symmetry; apply Z.ltb_lt; lia).
  cbn [andb]. rewrite Z.eqb_refl, Z.sub_diag, Z.sub_0_r. cbn [negb orb].
  replace (sizeLeft <? blockSize b) with false by (symmetry; apply Z.ltb_ge; lia).
  rewrite Z.eqb_refl. cbn [negb]. unfold isFree in Hf.
  replace (match slot b i with
           | Some e => negb (Memory.type e =? Memory.TYPE.NONE)
           | None => false
           end) with false
    by (destruct (slot b i); [rewrite Hf|]; reflexivity).
  unfold Bus.fillSlot, Bus.newMemory.
  replace ((i + 1) * blockSize b) with (i * blockSize b + blockSize b) by lia.
  reflexivity.
Qed.

(** The loop from an aligned slot on, for a request of [m] whole blocks and
    a rest of [rest] units that lies inside the address space: it fills the
    free slots in a row, and succeeds when that is all [m] and nothing is
    left over. *)
Lemma loop_run m : forall fuel b i rest offset type,
  wf b -> 0 <= i -> 0 <= rest < blockSize b ->
  i + Z.of_nat m + (if 0 <? rest then 1 else 0) <= Z.of_nat (length (blocks b)) ->
  (m < fuel)%nat ->
  addBlocksLoop fuel b (i * blockSize b) (Z.of_nat m * blockSize b + rest)
    offset i type None
  = Some ((rest =? 0) && (freeRun b i m =? m)%nat, written b i (freeRun b i m) type).
Proof.
  induction m as [|m IH]; intros fuel b i rest offset type Hwf Hi Hr Hin Hf;
    (destruct fuel as [|fuel]; [lia|]);
    pose proof (wf_blockSize_pos b Hwf) as Hpos.
  - cbn [freeRun Z.of_nat]. rewrite written_0, Z.mul_0_l, Z.add_0_l.
    destruct (Z.ltb_spec 0 rest) as [Hlt|Hge].
    + rewrite loop_partial by lia.
      replace (rest =? 0) with false by (symmetry; apply Z.eqb_neq; lia). reflexivity.
    + rewrite loop_done by lia.
      replace (rest =? 0) with true by (symmetry; apply Z.eqb_eq; lia). reflexivity.
  - assert (Hi' : i < Z.of_nat (length (blocks b))) by (destruct (0 <? rest); lia).
    assert (Hsz : blockSize b <= Z.of_nat (S m) * blockSize b + rest) by nia.
    cbn [freeRun]. destruct (isFree b i) eqn:Efree.
    + rewrite loop_fill by assumption.
      replace (Z.of_nat (S m) * blockSize b + rest - blockSize b)
        with (Z.of_nat m * blockSize (fillSlot b i type) + rest)
        by (unfold Bus.fillSlot, Bus.newMemory; cbn; lia).
      replace ((i + 1) * blockSize b) with ((i + 1) * blockSize (fillSlot b i type))
        by (unfold Bus.fillSlot, Bus.newMemory; cbn; lia).
      rewrite IH.
      * rewrite fillSlot_freeRun by (assumption || lia).
        rewrite written_fillSlot by assumption. reflexivity.
      * apply fillSlot_wf, Hwf.
      * lia.
      * unfold Bus.fillSlot, Bus.newMemory; cbn. exact Hr.
      * unfold Bus.fillSlot, Bus.newMemory; cbn. rewrite length_insert.
        destruct (0 <? rest); lia.
      * lia.
    + rewrite loop_occupied by assumption. rewrite written_0, andb_false_r.
      reflexivity.
Qed.

Lemma freeRun_le b m : forall i, (freeRun b i m <= m)%nat.
Proof.
  induction m as [|m IH]; intros i; cbn [freeRun]; [lia|].
  destruct (isFree b i); [specialize (IH (i + 1))|]; lia.
Qed.

Lemma freeRun_full b m : forall i,
  freeRun b i m = m <->
  (forall j, i <= j < i + Z.of_nat m -> isFree b j = true).
Proof.
  induction m as [|m IH]; intros i; cbn [freeRun].
  - split; [intros _ j Hj; lia|reflexivity].
  - destruct (isFree b i) eqn:Ef.
    + split.
      * intros H j Hj. injection H as H.
        destruct (decide (j = i)) as [->|Hne]; [exact Ef|].
        apply (proj1 (IH (i + 1)) H). lia.
      * intros H. f_equal. apply IH. intros j Hj. apply H. lia.
    + split; [discriminate|].
      intros H. rewrite H in Ef by lia. discriminate Ef.
Qed.

Lemma freeRun_short b m : forall i,
  freeRun b i m <> m ->
  exists j, i <= j < i + Z.of_nat m /\ isFree b j = false.
Proof.
  induction m as [|m IH]; intros i H; cbn [freeRun] in H; [contradiction|].
  destruct (isFree b i) eqn:Ef.
  - destruct (IH (i + 1)) as (j & Hj & Hf); [congruence|].
    exists j. split; [lia|exact Hf].
  - exists i. split; [lia|exact Ef].
Qed.

(** C2 (as amended).  For a request of positive size that lies inside the
    address space, [addBlocks(addr, size, type)] fills, from the slot of
    [addr] on, the free slots in a row among the whole blocks requested,
    none at all when [addr] is not aligned, and changes nothing else.  It
    returns false exactly when [addr] is not aligned to [blockSize], when
    [size] is not a multiple of [blockSize] (every slot, the last one
    included, must be a whole block), or when one of the requested slots
    holds a block whose type is not NONE.  In particular
    [addBlocks(500, 1024)] on a bus of block size 1024 returns false and
    leaves the bus as it was. *)
Theorem addBlocks_whole_blocks b type :
  wf b ->
  (forall addr size,
     0 <= addr -> 0 < size ->
     addr + size <= blockSize b * Z.of_nat (length (blocks b)) ->
     let i := addr / blockSize b in
     let m := Z.to_nat (size / blockSize b) in
     exists ok k,
       addBlocks b addr size type None = Some (ok, written b i k type) /\
       k = (if addr mod blockSize b =? 0 then freeRun b i m else 0%nat) /\
       (ok = true -> k = m) /\
       (ok = false <->
        addr mod blockSize b <> 0 \/ size mod blockSize b <> 0 \/
        exists j, i <= j < i + size / blockSize b /\ isFree b j = false)) /\
  (blockSize b = 1024 -> blocks b <> [] ->
   addBlocks b 500 1024 type None = Some (false, b)).
Proof.
  intros Hwf. pose proof (wf_blockSize_pos b Hwf) as Hpos.
  pose proof Hwf as (Hsh & Hbs & H32 & _).
  split.
  - intros addr size Ha Hs Hin i m.
    assert (Hshr : shr addr (blockShift b) = i).
    { unfold i. rewrite Hbs. apply shr_div; [nia|lia]. }
    assert (Hi : 0 <= i) by (apply Z.div_pos; lia).
    assert (Hlt : i < Z.of_nat (length (blocks b))).
    { apply Z.div_lt_upper_bound; nia. }
    pose proof (Z.div_mod addr (blockSize b) ltac:(lia)) as Hdm.
    pose proof (Z.mod_pos_bound addr (blockSize b) Hpos) as Hmb.
    fold i in Hdm.
    unfold Bus.addBlocks. rewrite Hshr.
    destruct (Z.eqb_spec (addr mod blockSize b) 0) as [Hal|Hun].
    + pose proof (Z.div_mod size (blockSize b) ltac:(lia)) as Hdm'.
      pose proof (Z.mod_pos_bound size (blockSize b) Hpos) as Hmb'.
      assert (Hm : Z.of_nat m = size / blockSize b).
      { unfold m. apply Z2Nat.id. apply Z.div_pos; lia. }
      assert (Hrun := loop_run m (S (length (blocks b))) b i
                        (size mod blockSize b) 0 type Hwf Hi Hmb').
      replace (i * blockSize b) with addr in Hrun by lia.
      replace (Z.of_nat m * blockSize b + size mod blockSize b) with size in Hrun
        by (rewrite Hm; lia).
      rewrite Hrun;
        [|destruct (Z.ltb_spec 0 (size mod blockSize b)); nia|nia].
      eexists. eexists. split; [reflexivity|]. split; [reflexivity|].
      pose proof (freeRun_le b m i) as Hle.
      pose proof (freeRun_full b m i) as Hfull.
      destruct (Z.eqb_spec (size mod blockSize b) 0) as [Hz|Hnz];
        destruct (Nat.eqb_spec (freeRun b i m) m) as [Hk|Hk]; cbn [andb];
        (split; [congruence|]); split; try discriminate; try tauto.
      * intros [H|[H|(j & Hj & Hf)]]; try contradiction.
        rewrite <- Hm in Hj. rewrite (proj1 Hfull Hk j Hj) in Hf. discriminate Hf.
      * intros _. right. right. rewrite <- Hm. apply freeRun_short, Hk.
    + rewrite loop_unaligned by lia.
      exists false, 0%nat. rewrite written_0.
      split; [reflexivity|]. split; [reflexivity|].
      split; [discriminate|]. split; [intros _; left; exact Hun|reflexivity].
  - intros H1024 Hne.
    assert (Hs10 : blockShift b = 10).
    { apply (Z.pow_inj_r 2); [lia|lia|lia|]. rewrite <- Hbs, H1024. reflexivity. }
    unfold Bus.addBlocks. rewrite Hs10.
    change (shr 500 10) with 0.
    apply loop_unaligned; [lia| |rewrite H1024; lia].
    destruct (blocks b); [contradiction|cbn; lia].
Qed.

End BusFacts.
(** ** Bus: the constructor, accesses through the bus and the trap count *)

Section BusNew.
Import Bus.

Variable LITTLE_ENDIAN : bool.
Variable arrayBuffer : bool.

Local Abbreviation addBlocksLoop := (Bus.addBlocksLoop LITTLE_ENDIAN arrayBuffer).
Local Abbreviation addBlocks := (Bus.addBlocks LITTLE_ENDIAN arrayBuffer).
Local Abbreviation fillLoop := (Bus.fillLoop LITTLE_ENDIAN arrayBuffer).
Local Abbreviation new := (Bus.new LITTLE_ENDIAN arrayBuffer).
Local Abbreviation readBlockData := (Bus.readBlockData LITTLE_ENDIAN).
Local Abbreviation writeBlockData := (Bus.writeBlockData LITTLE_ENDIAN).

(** [addBlocks] with a preallocated block of one block size: the slot
    refers to that very block. *)
Lemma addBlocks_shared b i r blk type :
  0 <= blockShift b < 32 -> blockSize b = 2 ^ blockShift b ->
  blockSize b * Z.of_nat (length (blocks b)) <= 2 ^ 32 ->
  0 <= i < Z.of_nat (length (blocks b)) ->
  heap b !! r = Some blk -> Memory.size blk = blockSize b ->
  isFree b i = true ->
  addBlocks b (i * blockSize b) (blockSize b) type (Some r)
  = Some (true, set_blocks (<[Z.to_nat i := Some r]> (blocks b)) b).
Proof.
  intros Hs Hb Hn Hi Hr Hsz Hfree.
  assert (Hpos : 0 < blockSize b) by (rewrite Hb; apply Z.pow_pos_nonneg; lia).
  unfold Bus.addBlocks.
  assert (Hshr : shr (i * blockSize b) (blockShift b) = i).
  { rewrite shr_div by (try lia; nia). rewrite Hb. apply Z.div_mul. lia. }
  rewrite Hshr.
  destruct (length (blocks b)) as [|n] eqn:El; [lia|].
  cbn [Bus.addBlocksLoop]. rewrite El.
  replace (0 <? blockSize b) with true by (symmetry; apply Z.ltb_lt; lia).
  replace (i <? Z.of_nat (S n)) with true by (symmetry; apply Z.ltb_lt; lia).
  cbn [andb]. rewrite Z.eqb_refl, Z.sub_diag, Z.sub_0_r. cbn [negb orb].
  rewrite Z.ltb_irrefl, Z.eqb_refl. cbn [negb]. unfold isFree in Hfree.
  replace (match slot b i with
           | Some e => negb (Memory.type e =? Memory.TYPE.NONE)
           | None => false
           end) with false
    by (destruct (slot b i); [rewrite Hfree|]; reflexivity).
  rewrite Hr, Hsz, Z.eqb_refl, Z.sub_diag. cbn [Z.ltb Z.compare andb].
  reflexivity.
Qed.


Lemma insert_replicate_app {A} (x y : A) j m :
  <[j := x]> (replicate j x ++ replicate (S m) y) = replicate (S j) x ++ replicate m y.
Proof.
  rewrite insert_app_r_alt by (rewrite length_replicate; lia).
  rewrite length_replicate, Nat.sub_diag.
  rewrite (replicate_S_end j x), <- app_assoc. reflexivity.
Qed.

(** The loop of the constructor: slot after slot comes to refer to the one
    NONE block. *)
Lemma fillLoop_shared b0 none n : forall k j fuel,
  0 <= blockShift b0 < 32 -> blockSize b0 = 2 ^ blockShift b0 ->
  blockSize b0 * Z.of_nat n <= 2 ^ 32 ->
  addrTotal b0 = Z.of_nat n * blockSize b0 ->
  heap b0 = [none] -> Memory.size none = blockSize b0 ->
  (j + k = n)%nat -> (k < fuel)%nat ->
  fillLoop fuel (set_blocks (replicate j (Some 0%nat) ++ replicate k None) b0)
    (Z.of_nat j * blockSize b0) 0%nat
  = Some (set_blocks (replicate n (Some 0%nat)) b0).
Proof.
  induction k as [|k IH]; intros j fuel Hs Hb Hn Ht Hh Hsz Hjk Hf;
    (destruct fuel as [|fuel]; [lia|]);
    assert (Hpos : 0 < blockSize b0) by (rewrite Hb; apply Z.pow_pos_nonneg; lia);
    cbn [Bus.fillLoop addrTotal set_blocks blockSize].
  - replace (Z.of_nat j * blockSize b0 <? addrTotal b0) with false
      by (symmetry; apply Z.ltb_ge; rewrite Ht; nia).
    cbn [replicate]. rewrite app_nil_r. replace j with n by lia. reflexivity.
  - replace (Z.of_nat j * blockSize b0 <? addrTotal b0) with true
      by (symmetry; apply Z.ltb_lt; rewrite Ht; nia).
    pose proof (addBlocks_shared
                  (set_blocks (replicate j (Some 0%nat) ++ replicate (S k) None) b0)
                  (Z.of_nat j) 0%nat none (Some Memory.TYPE.NONE)) as H.
    cbn [blockShift blockSize blocks heap set_blocks] in H.
    rewrite H; clear H.
    + rewrite Nat2Z.id, insert_replicate_app.
      replace (Z.of_nat j * blockSize b0 + blockSize b0)
        with (Z.of_nat (S j) * blockSize b0) by lia.
      apply IH; try assumption; lia.
    + exact Hs.
    + exact Hb.
    + rewrite length_app, !length_replicate. nia.
    + rewrite length_app, !length_replicate. lia.
    + rewrite Hh. reflexivity.
    + exact Hsz.
    + unfold isFree, slot. cbn [blocks set_blocks].
      replace (Z.of_nat j <? 0) with false by (symmetry; apply Z.ltb_ge; lia).
      rewrite Nat2Z.id, lookup_app_r by (rewrite length_replicate; lia).
      rewrite length_replicate, Nat.sub_diag. reflexivity.
Qed.


(** The block that the constructor of the bus creates. *)
Lemma none_block bi size :
  let blk := Memory.new LITTLE_ENDIAN arrayBuffer bi (Memory.mkConfig None size None None) in
  Memory.type blk = Memory.TYPE.NONE /\ Memory.size blk = size /\
  Memory.dataLimit blk = 2 ^ Memory.bus_dataWidth bi - 1 /\
  Memory.readData blk = Some Memory.readNone /\
  Memory.writeData blk = Some Memory.writeNone.
Proof.
  cbv zeta. unfold Memory.new.
  match goal with |- context [Memory.initValues ?v ?b0] =>
    destruct (initValues_values v b0) as [vs ->] end.
  cbn. repeat split.
Qed.

Lemma new_eq static aw dw k le :
  0 < aw <= 30 -> 0 <= k <= aw ->
  exists b0,
    new (mkConfig static (Some aw) dw (Some (2 ^ k)) le)
    = Some (set_nTraps (if static then 0 else 1)
              (set_blocks (replicate (Z.to_nat (2 ^ (aw - k))) (Some 0%nat)) b0)) /\
    blockShift b0 = k /\ blockSize b0 = 2 ^ k /\ blockLimit b0 = 2 ^ k - 1 /\
    addrTotal b0 = 2 ^ aw /\
    dataLimit b0 = 2 ^ dataWidth b0 - 1 /\
    heap b0 = [Memory.new LITTLE_ENDIAN arrayBuffer
                 (Memory.mkBusInfo (type b0) (dataWidth b0) (littleEndian b0))
                 (Memory.mkConfig None (2 ^ k) None None)].
Proof.
  intros Haw Hk.
  assert (Hpk : 0 < 2 ^ k) by (apply Z.pow_pos_nonneg; lia).
  assert (Hpa : 2 ^ k <= 2 ^ aw) by (apply Z.pow_le_mono_r; lia).
  assert (Hpa' : 2 ^ aw <= 2 ^ 30) by (apply Z.pow_le_mono_r; lia).
  assert (Hsplit : 2 ^ aw = 2 ^ (aw - k) * 2 ^ k)
    by (rewrite <- Z.pow_add_r by lia; f_equal; lia).
  assert (Hn : 0 < 2 ^ (aw - k) <= 2 ^ 30)
    by (split; [apply Z.pow_pos_nonneg; lia|apply Z.pow_le_mono_r; lia]).
  assert (Ha : truthy (Some aw) = true)
    by (cbn; apply negb_true_iff, Z.eqb_neq; lia).
  assert (Hb : truthy (Some (2 ^ k)) = true)
    by (cbn [truthy]; apply negb_true_iff, Z.eqb_neq; lia).
  assert (Hlt : (2 ^ aw <? 2 ^ k) = false) by (apply Z.ltb_ge; lia).
  assert (Hq : toInt32 (Z.quot (2 ^ aw) (2 ^ k)) = 2 ^ (aw - k)).
  { rewrite Z.quot_div_nonneg by lia. rewrite Hsplit, Z.div_mul by lia.
    apply toInt32_id. lia. }
  assert (Hl : toInt32 (Z.log2 (2 ^ k)) = k)
    by (rewrite Z.log2_pow2 by lia; apply toInt32_id; lia).
  assert (Hlim : shl 1 k - 1 = 2 ^ k - 1).
  { unfold shl. rewrite toUint32_width by lia. rewrite (toInt32_id 1) by lia.
    rewrite Z.shiftl_1_l. rewrite toInt32_id by lia. reflexivity. }
  unfold Bus.new, Bus.newMemory.
  cbn [cfg_static cfg_addrWidth cfg_dataWidth cfg_blockSize cfg_littleEndian num].
  rewrite Ha, Hb. cbv beta iota zeta. rewrite Hlt. cbv beta iota zeta.
  rewrite Hq, Hl, Hlim.
  cbn [heap length app type dataWidth littleEndian blocks set_heap info blockSize].
  set (ty := if static then Memory.STATIC else Memory.DYNAMIC).
  set (w := if truthy dw then num dw else 8).
  set (l := match le with Some false => false | _ => true end).
  set (none := Memory.new LITTLE_ENDIAN arrayBuffer (Memory.mkBusInfo ty w l)
                 (Memory.mkConfig None (2 ^ k) None None)).
  set (b0 := mkBus ty aw (2 ^ aw) (toInt32 (2 ^ aw - 1)) (2 ^ k) (2 ^ (aw - k)) k
               (2 ^ k - 1) w (2 ^ w - 1) l [] 0 [none]).
  exists b0.
  pose proof (fillLoop_shared b0 none (Z.to_nat (2 ^ (aw - k))) (Z.to_nat (2 ^ (aw - k)))
                0%nat (S (S (Z.to_nat (2 ^ (aw - k)))))) as H.
  cbn [replicate app] in H. change (Z.of_nat 0 * blockSize b0) with 0 in H.
  change (set_blocks (replicate (Z.to_nat (2 ^ (aw - k))) None) b0)
    with (mkBus ty aw (2 ^ aw) (toInt32 (2 ^ aw - 1)) (2 ^ k) (2 ^ (aw - k)) k
            (2 ^ k - 1) w (2 ^ w - 1) l (replicate (Z.to_nat (2 ^ (aw - k))) None) 0 [none])
    in H.
  match goal with |- context [Bus.fillLoop _ _ ?f ?bb 0 0%nat] =>
    change bb
      with (mkBus ty aw (2 ^ aw) (toInt32 (2 ^ aw - 1)) (2 ^ k) (2 ^ (aw - k)) k
              (2 ^ k - 1) w (2 ^ w - 1) l (replicate (Z.to_nat (2 ^ (aw - k))) None)
              0 [none])
  end.
  rewrite H; clear H.
  - split; [|repeat split].
    unfold selectInterface. cbn [nTraps set_blocks]. subst ty.
    destruct static; reflexivity.
  - cbn [blockShift b0]. subst b0. cbn. lia.
  - reflexivity.
  - subst b0. cbn [blockSize]. rewrite Z2Nat.id by lia. lia.
  - subst b0. cbn [addrTotal blockSize]. rewrite Z2Nat.id by lia. exact Hsplit.
  - reflexivity.
  - apply (none_block (Memory.mkBusInfo ty w l) (2 ^ k)).
  - lia.
  - lia.
Qed.


(** Reads and writes of a slot that holds a block without traps whose
    functions are [readNone] and [writeNone]. *)
Lemma slot_of_ref b i r blk :
  0 <= i -> blocks b !! Z.to_nat i = Some (Some r) -> heap b !! r = Some blk ->
  slot b i = Some blk.
Proof.
  intros Hi Hb Hh. unfold slot.
  replace (i <? 0) with false by (symmetry; apply Z.ltb_ge; lia).
  rewrite Hb. exact Hh.
Qed.

Lemma set_heap_same b h : heap b = h -> set_heap h b = b.
Proof. intros <-. destruct b; reflexivity. Qed.

(** X12.  A new bus of [2^aw] addresses and blocks of [2^k] units has
    [2^(aw-k)] slots that all refer to one and the same block of type NONE;
    its trap count starts at 0 when it is static and at 1 when it is
    dynamic; and at every address a read returns the all-ones value
    [2^dataWidth - 1] while a write returns and leaves the bus as it is. *)
Theorem new_bus static aw dw k le :
  0 < aw <= 30 -> 0 <= k <= aw ->
  exists b none,
    new (mkConfig static (Some aw) dw (Some (2 ^ k)) le) = Some b /\
    blocks b = replicate (Z.to_nat (2 ^ (aw - k))) (Some 0%nat) /\
    heap b = [none] /\ Memory.type none = Memory.TYPE.NONE /\
    nTraps b = (if static then 0 else 1) /\
    mapped b /\
    forall addr, 0 <= addr < 2 ^ aw ->
      readBlockData b addr = (Memory.Returns (Some (2 ^ dataWidth b - 1)), []) /\
      forall v, writeBlockData b addr v = (Memory.Returns tt, b, []).
Proof.
  intros Haw Hk.
  destruct (new_eq static aw dw k le Haw Hk)
    as (b0 & Hnew & Hshift & Hsize & Hlimit & Htotal & Hdl & Hheap).
  assert (Hpk : 0 < 2 ^ k) by (apply Z.pow_pos_nonneg; lia).
  assert (Hpa' : 2 ^ aw <= 2 ^ 30) by (apply Z.pow_le_mono_r; lia).
  assert (Hsplit : 2 ^ aw = 2 ^ (aw - k) * 2 ^ k)
    by (rewrite <- Z.pow_add_r by lia; f_equal; lia).
  assert (Hn : 0 < 2 ^ (aw - k)) by (apply Z.pow_pos_nonneg; lia).
  set (none := Memory.new LITTLE_ENDIAN arrayBuffer
                 (Memory.mkBusInfo (type b0) (dataWidth b0) (littleEndian b0))
                 (Memory.mkConfig None (2 ^ k) None None)) in *.
  destruct (none_block (Memory.mkBusInfo (type b0) (dataWidth b0) (littleEndian b0))
              (2 ^ k)) as (Nt & Ns & Nd & Nr & Nw).
  fold none in Nt, Ns, Nd, Nr, Nw. cbn [Memory.bus_dataWidth] in Nd.
  set (b := set_nTraps (if static then 0 else 1)
              (set_blocks (replicate (Z.to_nat (2 ^ (aw - k))) (Some 0%nat)) b0)) in *.
  assert (Hslot : forall addr, 0 <= addr < 2 ^ aw ->
            0 <= shr addr (blockShift b) /\
            blocks b !! Z.to_nat (shr addr (blockShift b)) = Some (Some 0%nat)).
  { intros addr Ha. subst b. cbn [blockShift set_nTraps set_blocks blocks].
    rewrite Hshift, shr_div by lia.
    assert (0 <= addr / 2 ^ k < 2 ^ (aw - k)).
    { split; [apply Z.div_pos; lia|apply Z.div_lt_upper_bound; lia]. }
    split; [lia|]. apply lookup_replicate_2. lia. }
  exists b, none.
  split; [exact Hnew|]. split; [reflexivity|]. split; [exact Hheap|].
  split; [exact Nt|]. split; [reflexivity|]. split; [|].
  - unfold mapped, wf. subst b.
    cbn [blockShift blockSize blockLimit blocks heap set_nTraps set_blocks].
    rewrite Hshift, Hsize, Hlimit, Hheap, length_replicate, Z2Nat.id by lia.
    repeat split; try lia.
    + intros i r Hi. apply lookup_replicate in Hi. destruct Hi as [Hi _].
      injection Hi as ->. cbn. lia.
    + intros i Hi. exists 0%nat. apply lookup_replicate_2. exact Hi.
  - intros addr Ha. destruct (Hslot addr Ha) as [H0 Hb]. split.
    + unfold Bus.readBlockData.
      rewrite (slot_of_ref b _ 0%nat none H0 Hb) by (subst b; cbn; rewrite Hheap; reflexivity).
      unfold Memory.read. rewrite Nr. cbn [Memory.callRead Memory.callReader].
      rewrite Nd. reflexivity.
    + intros v. unfold Bus.writeBlockData, ref. rewrite Hb.
      rewrite (slot_of_ref b _ 0%nat none H0 Hb) by (subst b; cbn; rewrite Hheap; reflexivity).
      unfold Memory.write. rewrite Nw. cbn [Memory.callWrite Memory.callWriter].
      unfold update. rewrite set_heap_same; [reflexivity|].
      subst b. cbn [heap set_nTraps set_blocks]. rewrite Hheap. reflexivity.
Qed.

End BusNew.

Section BusAccess.
Import Bus.

Variable LITTLE_ENDIAN : bool.
Variable arrayBuffer : bool.

Local Abbreviation readBlockData := (Bus.readBlockData LITTLE_ENDIAN).
Local Abbreviation writeBlockData := (Bus.writeBlockData LITTLE_ENDIAN).

Lemma aget_aset_other (a : jsarray) i j v : i <> j -> aget (aset a i v) j = aget a j.
Proof.
  intros Hne. destruct (Nat.lt_ge_cases j (length a)) as [Hj|Hj].
  - apply aget_aset_ne; assumption.
  - unfold aget, aset. rewrite (lookup_ge_None_2 a j) by lia.
    destruct (Nat.ltb_spec i (length a)).
    + rewrite list_lookup_insert_ne by exact Hne.
      rewrite lookup_ge_None_2 by lia. reflexivity.
    + rewrite lookup_app_r by lia.
      destruct (Nat.lt_ge_cases (j - length a) (i - length a)).
      * rewrite lookup_app_l by (rewrite length_replicate; lia).
        rewrite lookup_replicate_2 by lia. reflexivity.
      * rewrite lookup_app_r by (rewrite length_replicate; lia).
        rewrite length_replicate.
        rewrite lookup_ge_None_2 by (cbn [length]; lia). reflexivity.
Qed.

Lemma aget_store_other blk i j v : i <> j -> aget (Memory.store blk i v) j = aget (Memory.values blk) j.
Proof.
  intros Hne. unfold Memory.store. destruct (Memory.buffer blk).
  - destruct (i <? length (Memory.values blk))%nat; [|reflexivity].
    unfold aget. rewrite list_lookup_insert_ne by exact Hne. reflexivity.
  - apply aget_aset_other, Hne.
Qed.

(** A single-unit write of a block: it returns, and changes the value of
    its offset only. *)
Lemma write_block blk off v :
  Memory.wf blk ->
  exists blk' cs,
    Memory.write LITTLE_ENDIAN blk off v = (Memory.Returns tt, blk', cs) /\
    Memory.wf blk' /\
    Memory.type blk' = Memory.type blk /\ Memory.dataLimit blk' = Memory.dataLimit blk /\
    (forall off', off' <> off ->
       aget (Memory.values blk') off' = aget (Memory.values blk) off') /\
    (Memory.type blk = Memory.TYPE.READWRITE ->
     Memory.values blk' = Memory.store blk off (Some v)).
Proof.
  intros Hwf. pose proof (write_wf LITTLE_ENDIAN blk off v Hwf) as Hwf'.
  destruct (write_dispatch LITTLE_ENDIAN blk off v Hwf) as (w & Hw & Hc & E).
  rewrite E in Hwf' |- *. cbn [fst snd] in Hwf'.
  pose proof (callWriter_frame LITTLE_ENDIAN w blk off v) as F. cbv zeta in F.
  destruct F as (F1 & _ & _ & _ & _ & F6 & _).
  assert (Hrw : Memory.type blk = Memory.TYPE.READWRITE -> w <> Memory.writeNone).
  { intros Ht ->. destruct Hwf as (_ & _ & _ & [H|[H|H]]).
    - destruct H as (H & _). rewrite Ht in H. discriminate H.
    - destruct H as (H & _). rewrite Ht in H. discriminate H.
    - destruct H as (_ & _ & H). destruct (Memory.bus blk).
      + destruct H as [H|[H _]]; rewrite Hw in H; discriminate H.
      + destruct H as (H & _). rewrite Hw in H. discriminate H. }
  destruct Hc as [->|[->| ->]]; cbn [Memory.callWriter] in *;
    eexists; eexists; (split; [reflexivity|]);
    (split; [exact Hwf'|]); (split; [exact F1|]); (split; [exact F6|]); split.
  - reflexivity.
  - intros Ht. exfalso. apply (Hrw Ht). reflexivity.
  - intros off' Hne. cbn. apply aget_store_other. congruence.
  - reflexivity.
  - intros off' Hne. unfold Memory.swapWriteData.
    destruct (Memory.nWriteTraps _ =? 0)%nat; cbn; apply aget_store_other; congruence.
  - intros _. unfold Memory.swapWriteData.
    destruct (Memory.nWriteTraps _ =? 0)%nat; reflexivity.
Qed.

Lemma slot_ref b addr blk :
  slot b (shr addr (blockShift b)) = Some blk ->
  exists r, ref b addr = Some r /\ heap b !! r = Some blk.
Proof.
  unfold slot, ref. destruct (shr addr (blockShift b) <? 0); [discriminate|].
  destruct (blocks b !! Z.to_nat (shr addr (blockShift b))) as [[r|]|];
    try discriminate. eauto.
Qed.

Lemma ref_slot b addr r :
  0 <= shr addr (blockShift b) ->
  ref b addr = Some r -> slot b (shr addr (blockShift b)) = heap b !! r.
Proof.
  unfold slot, ref. intros H0.
  replace (shr addr (blockShift b) <? 0) with false by (symmetry; apply Z.ltb_ge; lia).
  destruct (blocks b !! Z.to_nat (shr addr (blockShift b))) as [[r'|]|];
    try discriminate. intros [= ->]. reflexivity.
Qed.

Lemma shr_nonneg a n : 0 <= shr a n.
Proof.
  unfold shr. apply Z.shiftr_nonneg. unfold toUint32.
  apply Z.mod_pos_bound. reflexivity.
Qed.

Lemma offset_nonneg b addr : mapped b -> 0 <= band addr (blockLimit b).
Proof.
  intros ((Hs & Hb & _) & Hs30 & Hl & _). unfold band. apply Z.land_nonneg. right.
  assert (0 < 2 ^ blockShift b <= 2 ^ 30)
    by (split; [apply Z.pow_pos_nonneg; lia|apply Z.pow_le_mono_r; lia]).
  rewrite toInt32_id by lia. lia.
Qed.

(** X13.  A write through the bus returns and is seen, by reads through
    the bus, at the addresses that reach the same unit of the same block
    and at no other: a read of the address written returns the value when
    the block is READWRITE (reduced modulo 256 on a byte buffer), and the
    value read at every address of another block, or of another offset,
    is what it was. *)
Theorem write_seen_at_its_address b addr v blk :
  mapped b -> slot b (shr addr (blockShift b)) = Some blk -> Memory.wf blk ->
  exists b' cs,
    writeBlockData b addr v = (Memory.Returns tt, b', cs) /\
    (Memory.type blk = Memory.TYPE.READWRITE ->
     (Z.to_nat (band addr (blockLimit b)) < length (Memory.values blk))%nat ->
     exists cs',
       readBlockData b' addr
       = (Memory.Returns (Some (if Memory.buffer blk then v mod 256 else v)), cs')) /\
    (forall addr',
       ref b addr' <> ref b addr \/ band addr' (blockLimit b) <> band addr (blockLimit b) ->
       fst (readBlockData b' addr') = fst (readBlockData b addr')).
Proof.
  intros Hm Hslot Hwf.
  destruct (slot_ref b addr blk Hslot) as (r & Hr & Hh).
  destruct (write_block blk (Z.to_nat (band addr (blockLimit b))) v Hwf)
    as (blk' & cs & Hw & Hwf' & Ht & Hd & Hother & Hrw).
  exists (update b r blk'), cs.
  assert (Hlt : (r < length (heap b))%nat) by (eapply lookup_lt_Some; exact Hh).
  split; [|split].
  - unfold Bus.writeBlockData. rewrite Hr, Hslot, Hw. reflexivity.
  - intros Hty Hoff. unfold Bus.readBlockData.
    change (blockShift (update b r blk')) with (blockShift b).
    change (blockLimit (update b r blk')) with (blockLimit b).
    pose proof (ref_slot (update b r blk') addr r (shr_nonneg _ _) Hr) as Hrs.
    change (blockShift (update b r blk')) with (blockShift b) in Hrs.
    rewrite Hrs. cbn [heap update set_heap]. rewrite list_lookup_insert_eq by exact Hlt.
    destruct (read_eq LITTLE_ENDIAN blk' (Z.to_nat (band addr (blockLimit b))) Hwf')
      as [cs' E].
    exists cs'. rewrite E, Ht, Hty, (Hrw Hty), aget_store by exact Hoff. reflexivity.
  - intros addr' Hdiff. unfold Bus.readBlockData.
    change (blockShift (update b r blk')) with (blockShift b).
    change (blockLimit (update b r blk')) with (blockLimit b).
    unfold slot. change (blocks (update b r blk')) with (blocks b).
    destruct (shr addr' (blockShift b) <? 0); [reflexivity|].
    destruct (blocks b !! Z.to_nat (shr addr' (blockShift b))) as [[r'|]|] eqn:Eb;
      try reflexivity.
    cbn [heap update set_heap].
    destruct (decide (r' = r)) as [->|Hne].
    + rewrite list_lookup_insert_eq by exact Hlt. rewrite Hh.
      assert (Hoff : Z.to_nat (band addr' (blockLimit b))
                     <> Z.to_nat (band addr (blockLimit b))).
      { destruct Hdiff as [Hd'|Hd'].
        - exfalso. apply Hd'. unfold ref. rewrite Eb. symmetry. exact Hr.
        - pose proof (offset_nonneg b addr Hm). pose proof (offset_nonneg b addr' Hm).
          lia. }
      destruct (read_eq LITTLE_ENDIAN blk' (Z.to_nat (band addr' (blockLimit b))) Hwf')
        as [cs1 E1].
      destruct (read_eq LITTLE_ENDIAN blk (Z.to_nat (band addr' (blockLimit b))) Hwf)
        as [cs2 E2].
      rewrite E1, E2, Ht, Hd, Hother by exact Hoff. reflexivity.
    + rewrite list_lookup_insert_ne by congruence. reflexivity.
Qed.

End BusAccess.

Section BusTraps.
Import Bus.

Variable LITTLE_ENDIAN : bool.
Variable arrayBuffer : bool.

Local Abbreviation addBlocksLoop := (Bus.addBlocksLoop LITTLE_ENDIAN arrayBuffer).
Local Abbreviation addBlocks := (Bus.addBlocks LITTLE_ENDIAN arrayBuffer).
Local Abbreviation fillLoop := (Bus.fillLoop LITTLE_ENDIAN arrayBuffer).
Local Abbreviation new := (Bus.new LITTLE_ENDIAN arrayBuffer).
Local Abbreviation step := (Bus.step LITTLE_ENDIAN arrayBuffer).
Local Abbreviation run := (Bus.run LITTLE_ENDIAN arrayBuffer).
Local Abbreviation traps :=
  (fun blk => Z.of_nat (Memory.nReadTraps blk) + Z.of_nat (Memory.nWriteTraps blk)).

(** What the trap count of the bus is meant to follow. *)
Local Abbreviation balance := (fun b => nTraps b - trapCount b).

Lemma new_untrapped bi cfg :
  traps (Memory.new LITTLE_ENDIAN arrayBuffer bi cfg) = 0.
Proof.
  unfold Memory.new.
  match goal with |- context [Memory.initValues ?v ?b0] =>
    destruct (initValues_values v b0) as [vs ->] end.
  cbv zeta.
  repeat match goal with |- context [if ?c =? ?d then _ else _] => destruct (c =? d) end;
    reflexivity.
Qed.

Lemma trapCount_app b x :
  trapCount (set_heap (heap b ++ [x]) b) = trapCount b + traps x.
Proof.
  unfold trapCount. cbn [heap set_heap]. induction (heap b) as [|y h IH]; cbn; lia.
Qed.

Lemma trapCount_update b r blk blk' :
  heap b !! r = Some blk ->
  trapCount (update b r blk') = trapCount b - traps blk + traps blk'.
Proof.
  unfold trapCount, update. cbn [heap set_heap]. cbn beta. revert r.
  induction (heap b) as [|y h IH]; intros [|r] H; try discriminate H.
  - injection H as ->. cbn. lia.
  - change (<[S r := blk']> (y :: h)) with (y :: <[r := blk']> h).
    cbn [fold_right]. rewrite (IH r H). lia.
Qed.

Lemma trapCount_update_same b r blk' :
  (forall blk, heap b !! r = Some blk -> traps blk' = traps blk) ->
  trapCount (update b r blk') = trapCount b.
Proof.
  intros H. destruct (heap b !! r) as [blk|] eqn:E.
  - rewrite (trapCount_update b r blk blk' E), (H blk eq_refl). lia.
  - unfold update. rewrite list_insert_ge by (apply lookup_ge_None; exact E).
    destruct b; reflexivity.
Qed.

(** The four trap functions of a block move its count by one when they
    succeed and leave it when they fail. *)
Lemma memory_trap_counts f blk :
  traps (snd (Memory.trapRead f blk))
  = traps blk + (if fst (Memory.trapRead f blk) then 1 else 0) /\
  traps (snd (Memory.trapWrite f blk))
  = traps blk + (if fst (Memory.trapWrite f blk) then 1 else 0) /\
  traps (snd (Memory.untrapRead f blk))
  = traps blk + (if fst (Memory.untrapRead f blk) then -1 else 0) /\
  traps (snd (Memory.untrapWrite f blk))
  = traps blk + (if fst (Memory.untrapWrite f blk) then -1 else 0).
Proof.
  unfold Memory.trapRead, Memory.trapWrite, Memory.untrapRead, Memory.untrapWrite.
  destruct (Memory.nReadTraps blk) as [|[|n]] eqn:Er;
    destruct (Memory.nWriteTraps blk) as [|[|m]] eqn:Ew;
    cbn;
    destruct (bool_decide (Memory.readTrap blk = Some f));
    destruct (bool_decide (Memory.writeTrap blk = Some f));
    cbn; rewrite ?Er, ?Ew; repeat split; lia.
Qed.

Lemma trapWith_balance (op : Memory.callback -> Memory.block -> bool * Memory.block)
    delta b addr f :
  (forall blk, traps (snd (op f blk)) = traps blk + (if fst (op f blk) then delta else 0)) ->
  balance (snd (trapWith op delta b addr f)) = balance b.
Proof.
  intros Hop. unfold trapWith.
  destruct (ref b addr) as [r|] eqn:Er; [|reflexivity].
  destruct (slot b (shr addr (blockShift b))) as [blk|] eqn:Es; [|reflexivity].
  assert (Hh : heap b !! r = Some blk).
  { unfold ref, slot in *.
    destruct (shr addr (blockShift b) <? 0); [discriminate|].
    destruct (blocks b !! Z.to_nat (shr addr (blockShift b))) as [[r'|]|];
      try discriminate. congruence. }
  specialize (Hop blk). destruct (op f blk) as [ok blk']. cbn [fst snd] in Hop.
  destruct ok; cbn [snd]; unfold selectInterface; cbn [nTraps set_nTraps];
    change (trapCount (set_nTraps ?x ?y)) with (trapCount y);
    rewrite ?(trapCount_update b r blk blk' Hh);
    change (nTraps (update b r blk')) with (nTraps b); lia.
Qed.

Lemma callWriter_traps w blk off v :
  traps (snd (Memory.callWriter LITTLE_ENDIAN w blk off v)) = traps blk.
Proof.
  destruct w; cbn [Memory.callWriter];
    unfold Memory.swapWriteData, Memory.swapWritePair, Memory.storePair;
    repeat match goal with |- context [if ?c then _ else _] => destruct c eqn:? end;
    cbn; reflexivity.
Qed.

Lemma write_traps blk off v :
  traps (snd (fst (Memory.write LITTLE_ENDIAN blk off v))) = traps blk.
Proof.
  unfold Memory.write, Memory.callWrite, Memory.invoke.
  destruct (Memory.writeData blk) as [w|]; [|reflexivity].
  destruct w; cbn [fst snd]; try apply callWriter_traps;
    destruct (Memory.writeTrap blk); cbn [fst snd]; try reflexivity;
    repeat match goal with
           | |- context [match Memory.writeDataOrig blk with _ => _ end] =>
               destruct (Memory.writeDataOrig blk)
           | |- context [match Memory.writePairOrig blk with _ => _ end] =>
               destruct (Memory.writePairOrig blk)
           end;
    cbn [fst snd]; try reflexivity; apply callWriter_traps.
Qed.

Lemma writeData_balance b addr v :
  balance (snd (fst (Bus.writeBlockData LITTLE_ENDIAN b addr v))) = balance b.
Proof.
  unfold Bus.writeBlockData.
  destruct (ref b addr) as [r|] eqn:Er; [|reflexivity].
  destruct (slot b (shr addr (blockShift b))) as [blk|] eqn:Es; [|reflexivity].
  assert (Hh : heap b !! r = Some blk).
  { unfold ref, slot in *.
    destruct (shr addr (blockShift b) <? 0); [discriminate|].
    destruct (blocks b !! Z.to_nat (shr addr (blockShift b))) as [[r'|]|];
      try discriminate. congruence. }
  pose proof (write_traps blk (Z.to_nat (band addr (blockLimit b))) v) as Hw.
  destruct (Memory.write LITTLE_ENDIAN blk _ v) as [[o blk'] cs]. cbn [fst snd] in *.
  rewrite (trapCount_update b r blk blk' Hh).
  change (nTraps (update b r blk')) with (nTraps b). lia.
Qed.

(** [addBlocks] returns, and the blocks it creates have no traps. *)
Lemma addBlocksLoop_balance fuel : forall b addrNext sizeLeft offset i type block,
  0 <= i -> (length (blocks b) - Z.to_nat i < fuel)%nat ->
  exists ok b',
    addBlocksLoop fuel b addrNext sizeLeft offset i type block = Some (ok, b') /\
    balance b' = balance b /\ length (blocks b') = length (blocks b).
Proof.
  induction fuel as [|fuel IH]; intros b addrNext sizeLeft offset i type block Hi Hf;
    [lia|].
  cbn [Bus.addBlocksLoop].
  destruct ((0 <? sizeLeft) && (i <? Z.of_nat (length (blocks b)))) eqn:Ec; [|eauto].
  apply andb_true_iff in Ec. destruct Ec as [_ Ec]. apply Z.ltb_lt in Ec.
  destruct (negb (addrNext =? i * blockSize b) || _); [eauto|].
  destruct (match slot b i with Some _ => _ | None => false end); [eauto|].
  set (sizeBlock := if sizeLeft <? blockSize b - (addrNext - i * blockSize b)
                    then sizeLeft else blockSize b - (addrNext - i * blockSize b)).
  assert (Hnext : forall r b1,
            balance b1 = balance b -> length (blocks b1) = length (blocks b) ->
            exists ok b',
              addBlocksLoop fuel
                (set_blocks (<[Z.to_nat i := Some r]> (blocks b1)) b1)
                (i * blockSize b + blockSize b) (sizeLeft - sizeBlock)
                (offset + sizeBlock) (i + 1) type block = Some (ok, b') /\
              balance b' = balance b /\ length (blocks b') = length (blocks b)).
  { intros r b1 Hb1 Hl1.
    destruct (IH (set_blocks (<[Z.to_nat i := Some r]> (blocks b1)) b1)
                (i * blockSize b + blockSize b) (sizeLeft - sizeBlock)
                (offset + sizeBlock) (i + 1) type block) as (ok & b' & E & B & L).
    - lia.
    - cbn [blocks set_blocks]. rewrite length_insert, Hl1. lia.
    - exists ok, b'. split; [exact E|]. split.
      + rewrite B. exact Hb1.
      + rewrite L. cbn [blocks set_blocks]. rewrite length_insert. exact Hl1. }
  assert (Hfresh : forall vals,
            let p := Bus.newMemory LITTLE_ENDIAN arrayBuffer
                       (Memory.mkConfig (Some addrNext) sizeBlock type vals) b in
            balance (snd p) = balance b /\ length (blocks (snd p)) = length (blocks b)).
  { intros vals. unfold Bus.newMemory. cbn [snd]. split; [|reflexivity].
    rewrite trapCount_app, new_untrapped. cbn [nTraps set_heap]. lia. }
  destruct block as [r|].
  - destruct (heap b !! r) as [blk|] eqn:Eh.
    + destruct (Memory.size blk =? blockSize b).
      * apply Hnext; reflexivity.
      * destruct (negb (Z.of_nat (length (slice (Memory.values blk) offset
                                           (offset + sizeBlock))) =? sizeBlock));
          [eauto|].
        destruct (Hfresh (Some (slice (Memory.values blk) offset (offset + sizeBlock))))
          as [B L].
        unfold Bus.newMemory in *. cbn [fst snd] in *. apply Hnext; assumption.
    + destruct (Hfresh None) as [B L].
      unfold Bus.newMemory in *. cbn [fst snd] in *. apply Hnext; assumption.
  - destruct (Hfresh None) as [B L].
    unfold Bus.newMemory in *. cbn [fst snd] in *. apply Hnext; assumption.
Qed.

Lemma addBlocks_balance b addr size type block :
  exists ok b',
    addBlocks b addr size type block = Some (ok, b') /\
    balance b' = balance b /\ length (blocks b') = length (blocks b).
Proof.
  unfold Bus.addBlocks. apply addBlocksLoop_balance; [|lia].
  unfold shr. apply Z.shiftr_nonneg. unfold toUint32. apply Z.mod_pos_bound. reflexivity.
Qed.

Lemma fillLoop_balance fuel : forall b addr block b',
  fillLoop fuel b addr block = Some b' -> balance b' = balance b.
Proof.
  induction fuel as [|fuel IH]; intros b addr block b' H; [discriminate H|].
  cbn [Bus.fillLoop] in H. destruct (addr <? addrTotal b); [|congruence].
  destruct (addBlocks_balance b addr (blockSize b) (Some Memory.TYPE.NONE) (Some block))
    as (ok & b1 & E & B & _).
  rewrite E in H. rewrite (IH _ _ _ _ H). exact B.
Qed.

Lemma new_balance_from fuel b1 block delta b :
  match fillLoop fuel b1 0 block with
  | Some b2 => Some (selectInterface delta b2)
  | None => None
  end = Some b ->
  balance b = balance b1 + delta.
Proof.
  destruct (fillLoop fuel b1 0 block) as [b2|] eqn:E; [|discriminate].
  intros [= <-]. rewrite <- (fillLoop_balance _ _ _ _ _ E).
  unfold selectInterface, trapCount. cbn [nTraps heap set_nTraps]. lia.
Qed.

Lemma newMemory_balance cfg0 b0 :
  nTraps b0 = 0 -> heap b0 = [] ->
  balance (snd (Bus.newMemory LITTLE_ENDIAN arrayBuffer cfg0 b0)) = 0 /\
  fst (Bus.newMemory LITTLE_ENDIAN arrayBuffer cfg0 b0) = 0%nat.
Proof.
  intros Hn Hh. unfold Bus.newMemory. cbn [fst snd].
  rewrite trapCount_app, new_untrapped. cbn [nTraps set_heap].
  unfold trapCount. rewrite Hn, Hh. split; reflexivity.
Qed.

Lemma new_balance cfg b :
  new cfg = Some b -> balance b = (if cfg_static cfg then 0 else 1).
Proof.
  unfold Bus.new. cbv zeta.
  match goal with |- context [Bus.newMemory _ _ ?c ?bb] =>
    set (b0 := bb); set (c0 := c);
    assert (Hn : nTraps b0 = 0) by reflexivity;
    assert (Hh : heap b0 = []) by reflexivity;
    assert (Ht : type b0 = if cfg_static cfg then Memory.STATIC else Memory.DYNAMIC)
      by reflexivity;
    clearbody b0 c0
  end.
  destruct (newMemory_balance c0 b0 Hn Hh) as [B _].
  destruct (Bus.newMemory LITTLE_ENDIAN arrayBuffer c0 b0) as [block b1].
  cbn [snd] in B. intros H. apply new_balance_from in H. rewrite H, B.
  destruct (cfg_static cfg); reflexivity.
Qed.

Lemma step_balance o b : balance (step o b) = balance b.
Proof.
  destruct o as [addr size ty|addr v|addr f|addr f|addr f|addr f]; cbn [Bus.step].
  - destruct (addBlocks_balance b addr size ty None) as (ok & b' & -> & B & _).
    exact B.
  - apply writeData_balance.
  - apply trapWith_balance. intros blk. apply (memory_trap_counts f blk).
  - apply trapWith_balance. intros blk. apply (memory_trap_counts f blk).
  - apply trapWith_balance. intros blk. apply (memory_trap_counts f blk).
  - apply trapWith_balance. intros blk. apply (memory_trap_counts f blk).
Qed.

(** X14.  The trap count of the bus follows the traps of the Memory objects
    that the bus has created: after any sequence of [addBlocks], writes
    and trap and untrap requests, successful or not, on a newly constructed
    bus, [nTraps] is the number of traps installed on these objects, plus
    the one that a dynamic bus starts with.  The objects are the blocks of
    the slots and the blocks that [addBlocks] has replaced: a trap on a
    replaced block remains counted. *)
Theorem nTraps_counts_traps cfg b ops :
  new cfg = Some b ->
  nTraps (run ops b) = (if cfg_static cfg then 0 else 1) + trapCount (run ops b).
Proof.
  intros Hnew. pose proof (new_balance cfg b Hnew) as B.
  assert (H : forall b0, balance (run ops b0) = balance b0).
  { induction ops as [|o ops IH]; intros b0; [reflexivity|].
    cbn [Bus.run fold_left].
    change (fold_left (fun b' o' => step o' b') ops (step o b0))
      with (run ops (step o b0)).
    rewrite IH. apply step_balance. }
  specialize (H b). cbn beta in H, B. lia.
Qed.

End BusTraps.


Section BusClean.
Import Bus.

Lemma isDirty_fst blk : fst (Memory.isDirty blk) = Memory.fDirty blk.
Proof. unfold Memory.isDirty. destruct (Memory.fDirty blk); reflexivity. Qed.

Lemma isDirty_clean blk : Memory.fDirty (snd (Memory.isDirty blk)) = false.
Proof.
  unfold Memory.isDirty. destruct (Memory.fDirty blk) eqn:E; cbn [snd]; [|exact E].
  cbn [Memory.nWriteTraps Memory.set_fDirty].
  destruct (Memory.nWriteTraps blk =? 0)%nat; reflexivity.
Qed.

Lemma isDirty_id blk : Memory.fDirty blk = false -> Memory.isDirty blk = (false, blk).
Proof. intros E. unfold Memory.isDirty. rewrite E. reflexivity. Qed.

Lemma band_mask a k : 0 <= k <= 30 -> band a (2 ^ k - 1) = a mod 2 ^ k.
Proof.
  intros Hk. unfold band.
  assert (0 < 2 ^ k <= 2 ^ 30)
    by (split; [apply Z.pow_pos_nonneg; lia|apply Z.pow_le_mono_r; lia]).
  rewrite (toInt32_id (2 ^ k - 1)) by lia.
  replace (2 ^ k - 1) with (Z.ones k) by (rewrite Z.ones_equiv; lia).
  rewrite Z.land_ones by lia.
  destruct (toInt32_mod a) as [q ->].
  replace (2 ^ 32) with (2 ^ (32 - k) * 2 ^ k)
    by (rewrite <- Z.pow_add_r by lia; f_equal; lia).
  rewrite Z.mul_assoc. apply Z.mod_add. lia.
Qed.

(** The slots hold blocks. *)
Local Abbreviation valid :=
  (fun b : bus =>
     (forall i, (i < length (blocks b))%nat -> exists r, blocks b !! i = Some (Some r)) /\
     (forall i r, blocks b !! i = Some (Some r) -> (r < length (heap b))%nat)).

Lemma cleanLoop_spec fuel : forall b rem sb s clean E,
  valid b -> 0 < blockSize b -> 0 <= s ->
  (length (blocks b) - Z.to_nat s < fuel)%nat ->
  (0 < rem <-> s * blockSize b < E) -> rem - sb = E - (s + 1) * blockSize b ->
  exists c b',
    cleanLoop fuel b rem sb s clean = Some (Memory.Returns c, b') /\
    b' = set_heap (heap b') b /\ length (heap b') = length (heap b) /\
    (forall r blk, heap b !! r = Some blk ->
       heap b' !! r = Some blk \/
       (heap b' !! r = Some (snd (Memory.isDirty blk)) /\
        exists s', s <= s' < Z.of_nat (length (blocks b)) /\ s' * blockSize b < E /\
                   blocks b !! Z.to_nat s' = Some (Some r))) /\
    (forall s' r, s <= s' < Z.of_nat (length (blocks b)) -> s' * blockSize b < E ->
       blocks b !! Z.to_nat s' = Some (Some r) ->
       exists blk', heap b' !! r = Some blk' /\ Memory.fDirty blk' = false) /\
    (c = true <->
     clean = true /\
     forall s' r blk, s <= s' < Z.of_nat (length (blocks b)) -> s' * blockSize b < E ->
       blocks b !! Z.to_nat s' = Some (Some r) -> heap b !! r = Some blk ->
       Memory.fDirty blk = false) /\
    (c = false ->
     clean = false \/
     exists s' r blk, s <= s' < Z.of_nat (length (blocks b)) /\ s' * blockSize b < E /\
       blocks b !! Z.to_nat s' = Some (Some r) /\ heap b !! r = Some blk /\
       Memory.fDirty blk = true).
Proof.
  induction fuel as [|fuel IH]; intros b rem sb s clean E [Hfull Hrefs] Hbs Hs Hf H1 H2;
    [lia|].
  cbn [cleanLoop].
  destruct ((0 <? rem) && (s <? Z.of_nat (length (blocks b)))) eqn:Ec.
  - apply andb_true_iff in Ec. destruct Ec as [Er Ei].
    apply Z.ltb_lt in Er, Ei.
    destruct (Hfull (Z.to_nat s) ltac:(lia)) as [r Hr]. rewrite Hr.
    pose proof (Hrefs _ _ Hr) as Hlt.
    destruct (lookup_lt_is_Some_2 (heap b) r Hlt) as [blk Hblk]. rewrite Hblk.
    pose proof (isDirty_fst blk) as Hd. pose proof (isDirty_clean blk) as Hc.
    destruct (Memory.isDirty blk) as [d blk1] eqn:Eis. cbn [fst snd] in Hd, Hc.
    destruct (IH (update b r blk1) (rem - sb) (blockSize b) (s + 1)
                (if d then false else clean) E)
      as (c & b' & Eq & Hset & Hlen & Hobj & Hvis & Hres & Hwhy).
    + unfold update. cbn [blocks heap set_heap]. rewrite length_insert. split; assumption.
    + exact Hbs.
    + lia.
    + unfold update. cbn [blocks set_heap]. lia.
    + unfold update. cbn [blockSize set_heap]. lia.
    + unfold update. cbn [blockSize set_heap]. lia.
    + unfold update in Hset, Hlen, Hobj, Hvis, Hres, Hwhy.
      cbn [blocks heap blockSize set_heap] in Hset, Hlen, Hobj, Hvis, Hres, Hwhy.
      rewrite length_insert in Hlen.
      exists c, b'. split; [exact Eq|].
      split; [|split; [exact Hlen|split; [|split; [|split]]]].
      * rewrite Hset. destruct b; reflexivity.
      * intros r0 blk0 H0. destruct (decide (r0 = r)) as [->|Hne].
        -- rewrite Hblk in H0. injection H0 as <-. right. rewrite Eis. cbn [snd].
           assert (Hmine : exists s', s <= s' < Z.of_nat (length (blocks b)) /\
                             s' * blockSize b < E /\
                             blocks b !! Z.to_nat s' = Some (Some r)).
           { exists s. split; [lia|]. split; [apply H1; lia|exact Hr]. }
           split; [|exact Hmine].
           destruct (Hobj r blk1) as [Ho|[Ho _]];
             [apply list_lookup_insert_eq; exact Hlt|exact Ho|].
           rewrite Ho, (isDirty_id blk1 Hc). reflexivity.
        -- destruct (Hobj r0 blk0) as [Ho|[Ho (s' & Hs' & HE & Hb')]].
           ++ rewrite list_lookup_insert_ne by congruence. exact H0.
           ++ left. exact Ho.
           ++ right. split; [exact Ho|]. exists s'. split; [lia|]. split; assumption.
      * intros s' r0 Hs' HE Hb'. destruct (decide (s' = s)) as [->|Hne].
        -- rewrite Hr in Hb'. injection Hb' as <-.
           destruct (Hobj r blk1) as [Ho|[Ho _]];
             [apply list_lookup_insert_eq; exact Hlt| |].
           ++ exists blk1. split; assumption.
           ++ eexists. split; [exact Ho|]. apply isDirty_clean.
        -- apply (Hvis s' r0); try assumption. lia.
      * rewrite Hres. split.
        -- intros [Hcl Hall]. destruct d; [discriminate Hcl|].
           split; [exact Hcl|]. intros s' r0 blk0 Hs' HE Hb' H0.
           destruct (decide (s' = s)) as [->|Hne].
           ++ rewrite Hr in Hb'. injection Hb' as <-. rewrite Hblk in H0.
              injection H0 as <-. symmetry. exact Hd.
           ++ apply (Hall s' r0 blk0); try assumption; [lia|].
              assert (blk1 = blk).
              { rewrite (isDirty_id blk (eq_sym Hd)) in Eis. congruence. }
              subst blk1. rewrite list_insert_id by exact Hblk. exact H0.
        -- intros [Hcl Hall].
           assert (Hd' : d = false).
           { rewrite Hd. apply (Hall s r blk); try assumption; [lia|]. apply H1. lia. }
           rewrite Hd' in Hd, Eis |- *. split; [exact Hcl|].
           assert (blk1 = blk).
           { rewrite (isDirty_id blk (eq_sym Hd)) in Eis. congruence. }
           subst blk1. rewrite list_insert_id by exact Hblk.
           intros s' r0 blk0 Hs' HE Hb' H0. apply (Hall s' r0 blk0); try assumption. lia.
      * intros Hcf. destruct d.
        -- right. exists s, r, blk. split; [lia|]. split; [apply H1; lia|].
           split; [exact Hr|]. split; [exact Hblk|]. symmetry. exact Hd.
        -- assert (blk1 = blk).
           { rewrite (isDirty_id blk (eq_sym Hd)) in Eis. congruence. }
           subst blk1. rewrite list_insert_id in Hwhy by exact Hblk.
           destruct (Hwhy Hcf) as [Hcl|(s' & r0 & blk0 & Hs' & HE & Hb' & H0 & Hd0)];
             [left; exact Hcl|].
           right. exists s', r0, blk0. split; [lia|]. auto.
  - exists clean, b. split; [reflexivity|]. split; [destruct b; reflexivity|].
    split; [reflexivity|].
    assert (Hnone : forall s', s <= s' < Z.of_nat (length (blocks b)) ->
                      s' * blockSize b < E -> False).
    { intros s' Hs' HE. apply andb_false_iff in Ec.
      destruct Ec as [Ec|Ec]; [apply Z.ltb_ge in Ec|apply Z.ltb_ge in Ec; lia].
      assert (s * blockSize b < E) by nia. apply H1 in H. lia. }
    split; [|split; [|split]].
    + intros r blk H0. left. exact H0.
    + intros s' r Hs' HE _. destruct (Hnone s' Hs' HE).
    + split; [intros ->; split; [reflexivity|]|intros [-> _]; reflexivity].
      intros s' r blk Hs' HE _ _. destruct (Hnone s' Hs' HE).
    + intros ->. left. reflexivity.
Qed.


Lemma dirtyAt_iff b s :
  0 <= s ->
  dirtyAt b s <->
  exists r blk, blocks b !! Z.to_nat s = Some (Some r) /\ heap b !! r = Some blk /\
                Memory.fDirty blk = true.
Proof.
  intros Hs. unfold dirtyAt, slot.
  replace (s <? 0) with false by (symmetry; apply Z.ltb_ge; lia).
  split.
  - intros (blk & H & Hd).
    destruct (blocks b !! Z.to_nat s) as [[r|]|]; try discriminate H. eauto.
  - intros (r & blk & -> & H & Hd). eauto.
Qed.

(** X15.  [cleanBlocks(addr, size)] returns, on a bus whose slots all hold
    blocks: false exactly when one of the blocks that overlap the
    addresses was dirty; afterwards none of them is dirty, so that the
    same call made again returns true and changes nothing. *)
Theorem cleanBlocks_spec b addr size :
  mapped b -> 0 <= addr < 2 ^ 32 -> 0 < size ->
  exists c b',
    cleanBlocks b addr size = Some (Memory.Returns c, b') /\
    (c = false <-> exists s, overlaps b addr size s /\ dirtyAt b s) /\
    (forall s, overlaps b addr size s -> ~ dirtyAt b' s) /\
    cleanBlocks b' addr size = Some (Memory.Returns true, b').
Proof.
  intros ((Hsh & Hbs & Hn & Hrefs) & H30 & Hlim & Hfull) Haddr Hsize.
  assert (Hpos : 0 < blockSize b) by (rewrite Hbs; apply Z.pow_pos_nonneg; lia).
  assert (Hs0 : shr addr (blockShift b) = addr / blockSize b)
    by (rewrite shr_div, Hbs by lia; reflexivity).
  assert (Hoff : band addr (blockLimit b) = addr mod blockSize b)
    by (rewrite Hlim, Hbs; apply band_mask; lia).
  pose proof (Z.div_mod addr (blockSize b) ltac:(lia)) as Hdm.
  pose proof (Z.mod_pos_bound addr (blockSize b) Hpos) as Hmod.
  assert (Hdiv : 0 <= addr / blockSize b) by (apply Z.div_pos; lia).
  assert (Hargs : forall b0 : bus,
            blockSize b0 = blockSize b ->
            (0 < size <-> addr / blockSize b * blockSize b0 < addr + size) /\
            size - (blockSize b - addr mod blockSize b)
            = addr + size - (addr / blockSize b + 1) * blockSize b0).
  { intros b0 ->. split; [split; intros; nia|nia]. }
  unfold cleanBlocks. rewrite Hs0, Hoff.
  destruct (cleanLoop_spec (S (length (blocks b))) b size
              (blockSize b - addr mod blockSize b) (addr / blockSize b) true
              (addr + size))
    as (c & b' & Eq & Hset & Hlen & Hobj & Hvis & Hres & Hwhy);
    [split; assumption|exact Hpos|exact Hdiv|lia|apply (Hargs b eq_refl)
    |apply (Hargs b eq_refl)|].
  assert (Hblocks : blocks b' = blocks b) by (rewrite Hset; reflexivity).
  assert (Hsize' : blockSize b' = blockSize b) by (rewrite Hset; reflexivity).
  assert (Hshift' : blockShift b' = blockShift b) by (rewrite Hset; reflexivity).
  assert (Hlim' : blockLimit b' = blockLimit b) by (rewrite Hset; reflexivity).
  exists c, b'. split; [exact Eq|]. split; [|split].
  - split.
    + intros Hc.
      destruct (Hwhy Hc) as [Hcl|(s' & r & blk & Hs' & HE & Hb' & H0 & Hd)];
        [discriminate Hcl|].
      exists s'. split.
      * unfold overlaps. rewrite Hs0. split; assumption.
      * apply dirtyAt_iff; [lia|]. eauto.
    + intros (s & [Hs HE] & Hd). rewrite Hs0 in Hs.
      apply dirtyAt_iff in Hd; [|lia]. destruct Hd as (r & blk & Hb' & H0 & Hd).
      destruct c; [exfalso|reflexivity].
      destruct Hres as [Hres _]. destruct (Hres eq_refl) as [_ Hall].
      rewrite (Hall s r blk Hs HE Hb' H0) in Hd. discriminate Hd.
  - intros s [Hs HE] Hd. rewrite Hs0 in Hs.
    apply dirtyAt_iff in Hd; [|lia]. destruct Hd as (r & blk & Hb' & H0 & Hd).
    rewrite Hblocks in Hb'.
    destruct (Hvis s r Hs HE Hb') as (blk' & H0' & Hd'). congruence.
  - rewrite Hblocks, Hshift', Hlim', Hsize', Hs0, Hoff.
    destruct (cleanLoop_spec (S (length (blocks b))) b' size
                (blockSize b - addr mod blockSize b) (addr / blockSize b) true
                (addr + size))
      as (c2 & b2 & Eq2 & Hset2 & Hlen2 & Hobj2 & _ & Hres2 & _).
    + rewrite Hblocks, Hlen. split; assumption.
    + lia.
    + exact Hdiv.
    + rewrite Hblocks. lia.
    + apply (Hargs b' Hsize').
    + apply (Hargs b' Hsize').
    + rewrite Eq2. rewrite Hblocks in Hobj2, Hres2.
      assert (Hc2 : c2 = true).
      { apply Hres2. split; [reflexivity|]. intros s' r blk Hs' HE Hb' H0.
        rewrite Hsize' in HE.
        destruct (Hvis s' r Hs' HE Hb') as (blk' & H0' & Hd'). congruence. }
      assert (Hheap : heap b2 = heap b').
      { apply list_eq. intros r.
        destruct (heap b' !! r) as [blk|] eqn:E0.
        - destruct (Hobj2 r blk E0) as [Ho|[Ho (s' & Hs' & HE & Hb')]]; [exact Ho|].
          rewrite Hsize' in HE.
          destruct (Hvis s' r Hs' HE Hb') as (blk' & H0' & Hd').
          rewrite Ho. rewrite E0 in H0'. injection H0' as <-.
          rewrite (isDirty_id blk Hd'). reflexivity.
        - apply lookup_ge_None. apply lookup_ge_None in E0. lia. }
      assert (Hb2 : b2 = b') by (rewrite Hset2, Hheap; destruct b'; reflexivity).
      rewrite Hc2, Hb2. reflexivity.
Qed.

End BusClean.

(** *** Pairs at odd addresses *)

Section BusPairs.
Import Bus.

Variable LITTLE_ENDIAN : bool.

Local Abbreviation readBlockData := (Bus.readBlockData LITTLE_ENDIAN).
Local Abbreviation writeBlockData := (Bus.writeBlockData LITTLE_ENDIAN).
Local Abbreviation readPair := (Bus.readPair LITTLE_ENDIAN).
Local Abbreviation writePair := (Bus.writePair LITTLE_ENDIAN).

Lemma length_store_le blk off v :
  (length (Memory.values blk) <= length (Memory.store blk off v))%nat.
Proof.
  unfold Memory.store. destruct (Memory.buffer blk).
  - destruct (off <? _)%nat; [rewrite length_insert|]; lia.
  - rewrite length_aset. lia.
Qed.

(** A single write to a unit of a READWRITE block. *)
Lemma write_unit blk off v :
  Memory.wf blk -> Memory.type blk = Memory.TYPE.READWRITE ->
  (off < length (Memory.values blk))%nat ->
  (Memory.buffer blk = true -> 0 <= v < 256) ->
  exists blk' cs,
    Memory.write LITTLE_ENDIAN blk off v = (Memory.Returns tt, blk', cs) /\
    Memory.wf blk' /\ Memory.type blk' = Memory.TYPE.READWRITE /\
    Memory.buffer blk' = Memory.buffer blk /\
    (length (Memory.values blk) <= length (Memory.values blk'))%nat /\
    aget (Memory.values blk') off = Some v /\
    (forall off', off' <> off ->
       aget (Memory.values blk') off' = aget (Memory.values blk) off').
Proof.
  intros Hwf Hty Hoff Hv.
  destruct (write_block LITTLE_ENDIAN blk off v Hwf)
    as (blk' & cs & Hw & Hwf' & Ht & _ & Hother & Hrw).
  exists blk', cs. split; [exact Hw|]. split; [exact Hwf'|].
  split; [congruence|].
  assert (Hb : Memory.buffer blk' = Memory.buffer blk).
  { destruct (write_dispatch LITTLE_ENDIAN blk off v Hwf) as (w & _ & _ & E).
    rewrite Hw in E. injection E as E _.
    pose proof (callWriter_frame LITTLE_ENDIAN w blk off v) as F. cbv zeta in F.
    rewrite <- E in F. cbn [snd] in F. apply F. }
  split; [exact Hb|]. rewrite (Hrw Hty). split; [apply length_store_le|].
  split; [|intros off' Hne; rewrite <- (Hrw Hty); apply Hother, Hne].
  rewrite aget_store by exact Hoff.
  destruct (Memory.buffer blk); [|reflexivity].
  rewrite Z.mod_small by (apply Hv; reflexivity). reflexivity.
Qed.

Lemma writeData_unit b addr v r blk :
  ref b addr = Some r -> heap b !! r = Some blk ->
  Memory.wf blk -> Memory.type blk = Memory.TYPE.READWRITE ->
  (Z.to_nat (band addr (blockLimit b)) < length (Memory.values blk))%nat ->
  (Memory.buffer blk = true -> 0 <= v < 256) ->
  exists blk' cs,
    writeBlockData b addr v = (Memory.Returns tt, update b r blk', cs) /\
    Memory.wf blk' /\ Memory.type blk' = Memory.TYPE.READWRITE /\
    Memory.buffer blk' = Memory.buffer blk /\
    (length (Memory.values blk) <= length (Memory.values blk'))%nat /\
    aget (Memory.values blk') (Z.to_nat (band addr (blockLimit b))) = Some v /\
    (forall off', off' <> Z.to_nat (band addr (blockLimit b)) ->
       aget (Memory.values blk') off' = aget (Memory.values blk) off').
Proof.
  intros Hr Hh Hwf Hty Hoff Hv.
  destruct (write_unit blk _ v Hwf Hty Hoff Hv) as (blk' & cs & Hw & H).
  exists blk', cs. split; [|exact H].
  unfold Bus.writeBlockData.
  rewrite Hr, (ref_slot b addr r (shr_nonneg _ _) Hr), Hh, Hw. reflexivity.
Qed.

Lemma readData_unit b addr r blk :
  ref b addr = Some r -> heap b !! r = Some blk ->
  Memory.wf blk -> Memory.type blk = Memory.TYPE.READWRITE ->
  exists cs,
    readBlockData b addr
    = (Memory.Returns (aget (Memory.values blk) (Z.to_nat (band addr (blockLimit b)))),
       cs).
Proof.
  intros Hr Hh Hwf Hty. unfold Bus.readBlockData.
  rewrite (ref_slot b addr r (shr_nonneg _ _) Hr), Hh.
  destruct (read_eq LITTLE_ENDIAN blk (Z.to_nat (band addr (blockLimit b))) Hwf)
    as [cs E].
  exists cs. rewrite E, Hty. reflexivity.
Qed.

(** The offset of an odd address is odd and that of the address after it is
    even, when a block has two units or more. *)
Lemma odd_offsets b addr :
  mapped b -> 1 <= blockShift b -> band addr 1 <> 0 ->
  Z.to_nat (band addr (blockLimit b))
  <> Z.to_nat (band (band (addr + 1) (addrLimit b)) (blockLimit b)).
Proof.
  intros Hm Hs Hodd.
  pose proof (offset_nonneg b addr Hm) as H0.
  pose proof (offset_nonneg b (band (addr + 1) (addrLimit b)) Hm) as H1.
  intros E. apply Z2Nat.inj in E; [|exact H0|exact H1].
  assert (Hbit : Z.testbit addr 0 = true).
  { destruct (Z.testbit addr 0) eqn:Eb; [reflexivity|]. exfalso. apply Hodd.
    apply Z.bits_inj'. intros i Hi. rewrite band_testbit, Z.bits_0 by lia.
    destruct (Z.eq_dec i 0) as [->|Hne].
    - rewrite Z.min_l by lia. rewrite Eb. reflexivity.
    - replace (Z.testbit 1 (Z.min i 31)) with false; [apply andb_false_r|].
      symmetry. apply (Z.bits_above_log2 1); cbn; lia. }
  destruct Hm as ((Hs1 & Hb & _) & Hs30 & Hl & _).
  assert (Hlim : Z.testbit (blockLimit b) 0 = true).
  { rewrite Hl, Hb. replace (2 ^ blockShift b - 1) with (Z.ones (blockShift b))
      by (rewrite Z.ones_equiv; lia).
    apply Z.ones_spec_low. lia. }
  assert (Hnext : Z.testbit (addr + 1) 0 = false).
  { rewrite Z.bit0_odd in Hbit |- *. rewrite Z.odd_add, Hbit. reflexivity. }
  assert (Ht : Z.testbit (band addr (blockLimit b)) 0 = true).
  { rewrite band_testbit by lia. rewrite Z.min_l by lia. rewrite Hbit, Hlim.
    reflexivity. }
  rewrite E in Ht. rewrite !band_testbit in Ht by lia.
  rewrite !Z.min_l in Ht by lia. rewrite Hnext in Ht. discriminate Ht.
Qed.

(** Two single writes at an odd address and at the address after it, and
    the two reads that follow. *)
Lemma odd_units b addr x0 x1 blk0 blk1 :
  mapped b -> 1 <= blockShift b -> band addr 1 <> 0 ->
  slot b (shr addr (blockShift b)) = Some blk0 ->
  slot b (shr (band (addr + 1) (addrLimit b)) (blockShift b)) = Some blk1 ->
  Memory.wf blk0 -> Memory.wf blk1 ->
  Memory.type blk0 = Memory.TYPE.READWRITE ->
  Memory.type blk1 = Memory.TYPE.READWRITE ->
  (Z.to_nat (band addr (blockLimit b)) < length (Memory.values blk0))%nat ->
  (Z.to_nat (band (band (addr + 1) (addrLimit b)) (blockLimit b))
   < length (Memory.values blk1))%nat ->
  (Memory.buffer blk0 = true \/ Memory.buffer blk1 = true ->
   0 <= x0 < 256 /\ 0 <= x1 < 256) ->
  exists b1 b2 cs1 cs2 cs3 cs4,
    writeBlockData b addr x0 = (Memory.Returns tt, b1, cs1) /\
    writeBlockData b1 (band (addr + 1) (addrLimit b)) x1 = (Memory.Returns tt, b2, cs2) /\
    readBlockData b2 addr = (Memory.Returns (Some x0), cs3) /\
    readBlockData b2 (band (addr + 1) (addrLimit b)) = (Memory.Returns (Some x1), cs4) /\
    addrLimit b2 = addrLimit b /\ dataWidth b2 = dataWidth b /\
    littleEndian b2 = littleEndian b.
Proof.
  intros Hm Hs Hodd Hs0 Hs1 Hwf0 Hwf1 Hty0 Hty1 Hoff0 Hoff1 Hx.
  pose proof (odd_offsets b addr Hm Hs Hodd) as Hne.
  set (next := band (addr + 1) (addrLimit b)) in *.
  destruct (slot_ref b addr blk0 Hs0) as (r0 & Hr0 & Hh0).
  destruct (slot_ref b next blk1 Hs1) as (r1 & Hr1 & Hh1).
  assert (Hlt0 : (r0 < length (heap b))%nat) by (eapply lookup_lt_Some; exact Hh0).
  assert (Hlt1 : (r1 < length (heap b))%nat) by (eapply lookup_lt_Some; exact Hh1).
  destruct (writeData_unit b addr x0 r0 blk0 Hr0 Hh0 Hwf0 Hty0 Hoff0)
    as (blk0' & cs1 & Hw1 & Hwf0' & Hty0' & Hbuf0' & Hlen0' & Hget0 & Hoth0).
  { intros Hb. apply Hx. left. exact Hb. }
  set (b1 := update b r0 blk0') in *.
  assert (Hh1' : exists blkA,
             heap b1 !! r1 = Some blkA /\ Memory.wf blkA /\
             Memory.type blkA = Memory.TYPE.READWRITE /\
             (Z.to_nat (band next (blockLimit b)) < length (Memory.values blkA))%nat /\
             (Memory.buffer blkA = true -> 0 <= x1 < 256) /\
             (r1 = r0 ->
              aget (Memory.values blkA) (Z.to_nat (band addr (blockLimit b))) = Some x0)).
  { destruct (decide (r1 = r0)) as [->|Hd].
    - exists blk0'. rewrite Hh0 in Hh1. injection Hh1 as <-.
      split; [cbn [heap b1 update set_heap]; apply list_lookup_insert_eq, Hlt0|].
      split; [exact Hwf0'|]. split; [exact Hty0'|]. split; [lia|].
      split; [|intros _; exact Hget0].
      intros Hb. apply Hx. left. congruence.
    - exists blk1.
      split; [cbn [heap b1 update set_heap]; rewrite list_lookup_insert_ne by congruence;
              exact Hh1|].
      split; [exact Hwf1|]. split; [exact Hty1|]. split; [exact Hoff1|].
      split; [|intros E; contradiction].
      intros Hb. apply Hx. right. exact Hb. }
  destruct Hh1' as (blkA & HhA & HwfA & HtyA & HoffA & HxA & HgetA).
  destruct (writeData_unit b1 next x1 r1 blkA Hr1 HhA HwfA HtyA HoffA HxA)
    as (blkA' & cs2 & Hw2 & HwfA' & HtyA' & _ & _ & Hget1 & Hoth1).
  set (b2 := update b1 r1 blkA') in *.
  assert (Hlen1 : length (heap b1) = length (heap b))
    by (cbn [heap b1 update set_heap]; apply length_insert).
  assert (HhA' : heap b2 !! r1 = Some blkA')
    by (cbn [heap b2 update set_heap]; apply list_lookup_insert_eq; lia).
  assert (H0 : exists blkB,
             heap b2 !! r0 = Some blkB /\ Memory.wf blkB /\
             Memory.type blkB = Memory.TYPE.READWRITE /\
             aget (Memory.values blkB) (Z.to_nat (band addr (blockLimit b))) = Some x0).
  { destruct (decide (r1 = r0)) as [E|Hd].
    - exists blkA'. rewrite <- E. split; [exact HhA'|]. split; [exact HwfA'|].
      split; [exact HtyA'|].
      rewrite (Hoth1 (Z.to_nat (band addr (blockLimit b)))) by exact Hne.
      apply HgetA, E.
    - exists blk0'.
      split; [cbn [heap b2 b1 update set_heap];
              rewrite list_lookup_insert_ne by congruence;
              apply list_lookup_insert_eq, Hlt0|].
      split; [exact Hwf0'|]. split; [exact Hty0'|]. exact Hget0. }
  destruct H0 as (blkB & HhB & HwfB & HtyB & HgetB).
  destruct (readData_unit b2 addr r0 blkB Hr0 HhB HwfB HtyB) as [cs3 Hrd0].
  destruct (readData_unit b2 next r1 blkA' Hr1 HhA' HwfA' HtyA') as [cs4 Hrd1].
  exists b1, b2, cs1, cs2, cs3, cs4.
  split; [exact Hw1|]. split; [exact Hw2|].
  split; [rewrite Hrd0; f_equal; f_equal; exact HgetB|].
  split; [rewrite Hrd1; f_equal; f_equal; exact Hget1|].
  repeat split.
Qed.

(** X22.  A pair written through the bus at an odd address is two single
    writes, at the address and at the one after it (wrapped at the end of
    the address space), so it may lie across two blocks; the low unit is at
    the address on a little-endian bus and after it on a big-endian one,
    and a pair read of the same address returns the value written.  This
    holds on a bus of blocks of two units or more, whose units have between
    1 and 15 bits (at most 8 where a block is a byte buffer) and whose
    [dataLimit] is [2^dataWidth - 1], for READWRITE blocks that hold both
    offsets, and for a value that is not negative and below
    [2^(2 * dataWidth)]. *)
Theorem odd_pair_write_then_read b addr v blk0 blk1 :
  let next := band (addr + 1) (addrLimit b) in
  let low := if littleEndian b then addr else next in
  let high := if littleEndian b then next else addr in
  mapped b -> 1 <= blockShift b -> band addr 1 <> 0 ->
  slot b (shr addr (blockShift b)) = Some blk0 ->
  slot b (shr next (blockShift b)) = Some blk1 ->
  Memory.wf blk0 -> Memory.wf blk1 ->
  Memory.type blk0 = Memory.TYPE.READWRITE ->
  Memory.type blk1 = Memory.TYPE.READWRITE ->
  (Z.to_nat (band addr (blockLimit b)) < length (Memory.values blk0))%nat ->
  (Z.to_nat (band next (blockLimit b)) < length (Memory.values blk1))%nat ->
  0 < dataWidth b <= 15 -> dataLimit b = 2 ^ dataWidth b - 1 ->
  (Memory.buffer blk0 = true \/ Memory.buffer blk1 = true -> dataWidth b <= 8) ->
  0 <= v < 2 ^ (2 * dataWidth b) ->
  exists b' cs cs',
    writePair b addr v = (Memory.Returns tt, b', cs) /\
    readPair b' addr = (Memory.Returns (Some v), cs') /\
    fst (readBlockData b' low) = Memory.Returns (Some (v mod 2 ^ dataWidth b)) /\
    fst (readBlockData b' high) = Memory.Returns (Some (v / 2 ^ dataWidth b)).
Proof.
  intros next low high Hm Hs Hodd Hs0 Hs1 Hwf0 Hwf1 Hty0 Hty1 Hoff0 Hoff1 Hw Hlim Hbuf Hv.
  destruct (halves_range v (dataWidth b) Hw Hv) as (H1 & H2 & Hlo & Hhi & _).
  assert (Elo : band v (dataLimit b) = v mod 2 ^ dataWidth b)
    by (rewrite Hlim; apply band_limit; lia).
  assert (Ehi : sar v (dataWidth b) = v / 2 ^ dataWidth b) by (apply sar_div; lia).
  assert (Hodd' : negb (band addr 1 =? 0) = true)
    by (apply negb_true_iff, Z.eqb_neq, Hodd).
  assert (H256 : Memory.buffer blk0 = true \/ Memory.buffer blk1 = true ->
                 2 ^ dataWidth b <= 256).
  { intros Hb. change 256 with (2 ^ 8). apply Z.pow_le_mono_r; [lia|]. apply Hbuf, Hb. }
  unfold Bus.writePair, Bus.readPair, Bus.writeBlockPair, Bus.readBlockPair.
  rewrite Hodd'. subst low high. fold next.
  destruct (littleEndian b) eqn:Ele.
  - destruct (odd_units b addr (v mod 2 ^ dataWidth b) (v / 2 ^ dataWidth b) blk0 blk1
                Hm Hs Hodd Hs0 Hs1 Hwf0 Hwf1 Hty0 Hty1 Hoff0 Hoff1)
      as (b1 & b2 & cs1 & cs2 & cs3 & cs4 & Hw1 & Hw2 & Hr0 & Hr1 & Ea & Ed & El).
    { intros Hb. specialize (H256 Hb). lia. }
    fold next in Hw2, Hr1.
    exists b2, (cs1 ++ cs2), (cs3 ++ cs4).
    rewrite Elo, Ehi, Hw1, Hw2, El, Ele, Ea, Ed. fold next. rewrite Hr0, Hr1.
    cbn [num fst]. rewrite bor_shl_halves by assumption. repeat split.
  - destruct (odd_units b addr (v / 2 ^ dataWidth b) (v mod 2 ^ dataWidth b) blk0 blk1
                Hm Hs Hodd Hs0 Hs1 Hwf0 Hwf1 Hty0 Hty1 Hoff0 Hoff1)
      as (b1 & b2 & cs1 & cs2 & cs3 & cs4 & Hw1 & Hw2 & Hr0 & Hr1 & Ea & Ed & El).
    { intros Hb. specialize (H256 Hb). lia. }
    fold next in Hw2, Hr1.
    exists b2, (cs1 ++ cs2), (cs4 ++ cs3).
    rewrite Elo, Ehi, Hw1, Hw2, El, Ele, Ea, Ed. fold next. rewrite Hr0, Hr1.
    cbn [num fst]. rewrite bor_shl_halves by assumption. repeat split.
Qed.

End BusPairs.


(** *** The bus of the examples *)

Lemma smallBus_new :
  Bus.new true false Examples.smallBusConfig = Some Examples.smallBus.
Proof. vm_compute. reflexivity. Qed.

Lemma smallBus_wf : Bus.wf Examples.smallBus.
Proof.
  assert (Hs : Bus.blockShift Examples.smallBus = 10) by (vm_compute; reflexivity).
  assert (Hb : Bus.blockSize Examples.smallBus = 1024) by (vm_compute; reflexivity).
  assert (Hl : Bus.blocks Examples.smallBus = replicate 4 (Some 0%nat))
    by (vm_compute; reflexivity).
  assert (Hh : length (Bus.heap Examples.smallBus) = 1%nat)
    by (vm_compute; reflexivity).
  unfold Bus.wf. rewrite Hs, Hb, Hl, Hh. cbn [length replicate].
  repeat split; try lia.
  intros i r H. do 4 (destruct i as [|i]; [injection H as <-; lia|]).
  discriminate H.
Qed.

(** C2, on [smallBus]: two whole blocks at address 1024. *)
Lemma addBlocks_whole_blocks_witness :
  Bus.wf Examples.smallBus /\
  exists ok k,
    Bus.addBlocks true false Examples.smallBus 1024 2048
      (Some Memory.TYPE.READWRITE) None
    = Some (ok, Bus.written true false Examples.smallBus
                  (1024 / Bus.blockSize Examples.smallBus) k
                  (Some Memory.TYPE.READWRITE)) /\
    k = (if 1024 mod Bus.blockSize Examples.smallBus =? 0
         then Bus.freeRun Examples.smallBus
                (1024 / Bus.blockSize Examples.smallBus)
                (Z.to_nat (2048 / Bus.blockSize Examples.smallBus))
         else 0%nat) /\
    (ok = true -> k = Z.to_nat (2048 / Bus.blockSize Examples.smallBus)) /\
    (ok = false <->
     1024 mod Bus.blockSize Examples.smallBus <> 0 \/
     2048 mod Bus.blockSize Examples.smallBus <> 0 \/
     exists j,
       1024 / Bus.blockSize Examples.smallBus <= j
       < 1024 / Bus.blockSize Examples.smallBus
         + 2048 / Bus.blockSize Examples.smallBus /\
       Bus.isFree Examples.smallBus j = false).
Proof.
  split; [exact smallBus_wf|].
  apply (proj1 (addBlocks_whole_blocks true false Examples.smallBus
                  (Some Memory.TYPE.READWRITE) smallBus_wf) 1024 2048).
  - lia.
  - lia.
  - vm_compute. discriminate.
Defined.

(** C2 as the specification states it fails: on [smallBus] a request at
    address 0 of one block and a half, whose last slot is partial and ends
    exactly at [addr + size], returns false (after filling slot 0); and an
    unaligned request of size 0, or one beyond the last slot, returns true. *)
Lemma addBlocks_partial_last_slot_fails :
  fst <$> Bus.addBlocks true false Examples.smallBus 0 1536
            (Some Memory.TYPE.READWRITE) None = Some false /\
  snd <$> Bus.addBlocks true false Examples.smallBus 0 1536
            (Some Memory.TYPE.READWRITE) None
  = Some (Bus.written true false Examples.smallBus 0 1 (Some Memory.TYPE.READWRITE)) /\
  Bus.addBlocks true false Examples.smallBus 500 0 (Some Memory.TYPE.READWRITE) None
  = Some (true, Examples.smallBus) /\
  Bus.addBlocks true false Examples.smallBus 4596 1024 (Some Memory.TYPE.READWRITE) None
  = Some (true, Examples.smallBus).
Proof. vm_compute. repeat split; reflexivity. Qed.
(** *** The extra properties of the bus, on the examples *)

(** X12, on the configuration of [smallBus]: 12 address bits, blocks of
    [2^10] units. *)
Lemma new_bus_witness :
  0 < 12 <= 30 /\ 0 <= 10 <= 12 /\
  exists b none,
    Bus.new true false (Bus.mkConfig false (Some 12) None (Some (2 ^ 10)) None) = Some b /\
    Bus.blocks b = replicate (Z.to_nat (2 ^ (12 - 10))) (Some 0%nat) /\
    Bus.heap b = [none] /\ Memory.type none = Memory.TYPE.NONE /\
    Bus.nTraps b = 1 /\
    Bus.mapped b /\
    forall addr, 0 <= addr < 2 ^ 12 ->
      Bus.readBlockData true b addr
      = (Memory.Returns (Some (2 ^ Bus.dataWidth b - 1)), []) /\
      forall v, Bus.writeBlockData true b addr v = (Memory.Returns tt, b, []).
Proof.
  split; [lia|]. split; [lia|].
  apply (new_bus true false false 12 None 10 None); lia.
Defined.

Lemma ramBus_mapped : Bus.mapped Examples.ramBus.
Proof.
  assert (Hs : Bus.blockShift Examples.ramBus = 10) by (vm_compute; reflexivity).
  assert (Hb : Bus.blockSize Examples.ramBus = 1024) by (vm_compute; reflexivity).
  assert (Hm : Bus.blockLimit Examples.ramBus = 1023) by (vm_compute; reflexivity).
  assert (Hl : Bus.blocks Examples.ramBus
               = [Some 0%nat; Some 1%nat; Some 2%nat; Some 0%nat])
    by (vm_compute; reflexivity).
  assert (Hh : length (Bus.heap Examples.ramBus) = 3%nat)
    by (vm_compute; reflexivity).
  unfold Bus.mapped, Bus.wf. rewrite Hs, Hb, Hm, Hl, Hh. cbn [length].
  repeat split; try lia.
  - intros i r H. do 4 (destruct i as [|i]; [injection H as <-; lia|]).
    discriminate H.
  - intros i Hi. do 4 (destruct i as [|i]; [eexists; reflexivity|]). lia.
Qed.

Lemma ramBlock_wf : Memory.wf Examples.ramBlock.
Proof. apply new_wf. do 4 right. reflexivity. Qed.

Lemma ramBus_slot :
  Bus.slot Examples.ramBus (shr 1030 (Bus.blockShift Examples.ramBus))
  = Some Examples.ramBlock.
Proof. vm_compute. reflexivity. Qed.

(** X13, on [ramBus]: a write of 5 at the address 1030. *)
Lemma write_seen_at_its_address_witness :
  Bus.mapped Examples.ramBus /\
  Bus.slot Examples.ramBus (shr 1030 (Bus.blockShift Examples.ramBus))
  = Some Examples.ramBlock /\
  Memory.wf Examples.ramBlock /\
  exists b' cs,
    Bus.writeBlockData true Examples.ramBus 1030 5 = (Memory.Returns tt, b', cs) /\
    (Memory.type Examples.ramBlock = Memory.TYPE.READWRITE ->
     (Z.to_nat (band 1030 (Bus.blockLimit Examples.ramBus))
      < length (Memory.values Examples.ramBlock))%nat ->
     exists cs',
       Bus.readBlockData true b' 1030
       = (Memory.Returns
            (Some (if Memory.buffer Examples.ramBlock then 5 mod 256 else 5)), cs')) /\
    (forall addr',
       Bus.ref Examples.ramBus addr' <> Bus.ref Examples.ramBus 1030 \/
       band addr' (Bus.blockLimit Examples.ramBus)
       <> band 1030 (Bus.blockLimit Examples.ramBus) ->
       fst (Bus.readBlockData true b' addr')
       = fst (Bus.readBlockData true Examples.ramBus addr')).
Proof.
  split; [exact ramBus_mapped|]. split; [exact ramBus_slot|].
  split; [exact ramBlock_wf|].
  exact (write_seen_at_its_address true Examples.ramBus 1030 5 Examples.ramBlock
           ramBus_mapped ramBus_slot ramBlock_wf).
Defined.

(** X14, on [smallBus]: a trap on the NONE block, a new block and a trap
    on it, and the first trap removed. *)
Lemma nTraps_counts_traps_witness :
  Bus.new true false Examples.smallBusConfig = Some Examples.smallBus /\
  Bus.nTraps
    (Bus.run true false
       [Bus.TrapRead 0 7; Bus.AddBlocks 1024 1024 (Some Memory.TYPE.READWRITE);
        Bus.TrapWrite 1030 8; Bus.UntrapRead 0 7] Examples.smallBus)
  = 1 + Bus.trapCount
          (Bus.run true false
             [Bus.TrapRead 0 7; Bus.AddBlocks 1024 1024 (Some Memory.TYPE.READWRITE);
              Bus.TrapWrite 1030 8; Bus.UntrapRead 0 7] Examples.smallBus).
Proof.
  split; [exact smallBus_new|].
  exact (nTraps_counts_traps true false Examples.smallBusConfig Examples.smallBus
           [Bus.TrapRead 0 7; Bus.AddBlocks 1024 1024 (Some Memory.TYPE.READWRITE);
            Bus.TrapWrite 1030 8; Bus.UntrapRead 0 7] smallBus_new).
Defined.

(** A trap on the NONE block stays counted when [addBlocks] has replaced
    that block in every slot: no block of a slot has a trap then. *)
Example nTraps_counts_replaced_block :
  let b :=
    Bus.run true false
      [Bus.TrapRead 0 7; Bus.AddBlocks 0 4096 (Some Memory.TYPE.READWRITE)]
      Examples.smallBus in
  Bus.nTraps b = 2 /\ Bus.trapCount b = 1 /\
  forall i, 0 <= i < 4 ->
    exists blk, Bus.slot b i = Some blk /\
      Memory.nReadTraps blk = 0%nat /\ Memory.nWriteTraps blk = 0%nat.
Proof.
  split; [vm_compute; reflexivity|]. split; [vm_compute; reflexivity|].
  intros i Hi.
  assert (Hc : i = 0 \/ i = 1 \/ i = 2 \/ i = 3) by lia.
  destruct Hc as [->|[->|[->| ->]]]; eexists;
    (split; [vm_compute; reflexivity|split; reflexivity]).
Qed.

Lemma staticBus_mapped : Bus.mapped Examples.staticBus.
Proof.
  assert (Hs : Bus.blockShift Examples.staticBus = 10) by (vm_compute; reflexivity).
  assert (Hb : Bus.blockSize Examples.staticBus = 1024) by (vm_compute; reflexivity).
  assert (Hm : Bus.blockLimit Examples.staticBus = 1023) by (vm_compute; reflexivity).
  assert (Hl : Bus.blocks Examples.staticBus
               = [Some 0%nat; Some 1%nat; Some 2%nat; Some 0%nat])
    by (vm_compute; reflexivity).
  assert (Hh : length (Bus.heap Examples.staticBus) = 3%nat)
    by (vm_compute; reflexivity).
  unfold Bus.mapped, Bus.wf. rewrite Hs, Hb, Hm, Hl, Hh. cbn [length].
  repeat split; try lia.
  - intros i r H. do 4 (destruct i as [|i]; [injection H as <-; lia|]).
    discriminate H.
  - intros i Hi. do 4 (destruct i as [|i]; [eexists; reflexivity|]). lia.
Qed.

(** [staticBus] is dirty at the block of the address 1030. *)
Example staticBus_dirty :
  fst <$> Bus.cleanBlocks Examples.staticBus 1024 2048 = Some (Memory.Returns false) /\
  fst <$> Bus.cleanBlocks Examples.staticBus 2048 1024 = Some (Memory.Returns true).
Proof. vm_compute. split; reflexivity. Qed.

(** X15, on [staticBus]: the two blocks at the addresses 1024 to 3071. *)
Lemma cleanBlocks_spec_witness :
  Bus.mapped Examples.staticBus /\ 0 <= 1024 < 2 ^ 32 /\ 0 < 2048 /\
  exists c b',
    Bus.cleanBlocks Examples.staticBus 1024 2048 = Some (Memory.Returns c, b') /\
    (c = false <->
     exists s, Bus.overlaps Examples.staticBus 1024 2048 s /\
               Bus.dirtyAt Examples.staticBus s) /\
    (forall s, Bus.overlaps Examples.staticBus 1024 2048 s -> ~ Bus.dirtyAt b' s) /\
    Bus.cleanBlocks b' 1024 2048 = Some (Memory.Returns true, b').
Proof.
  split; [exact staticBus_mapped|]. split; [lia|]. split; [lia|].
  apply (cleanBlocks_spec Examples.staticBus 1024 2048 staticBus_mapped); lia.
Defined.

(** X22, on [ramBus]: the pair 0x1234 at the address 2047, the last unit
    of the first block and the first unit of the second. *)
Lemma ramBlockNext_wf : Memory.wf Examples.ramBlockNext.
Proof. apply new_wf. do 4 right. reflexivity. Qed.

Lemma ramBus_slot_last :
  Bus.slot Examples.ramBus (shr 2047 (Bus.blockShift Examples.ramBus))
  = Some Examples.ramBlock.
Proof. vm_compute. reflexivity. Qed.

Lemma ramBus_slot_next :
  Bus.slot Examples.ramBus
    (shr (band (2047 + 1) (Bus.addrLimit Examples.ramBus))
       (Bus.blockShift Examples.ramBus))
  = Some Examples.ramBlockNext.
Proof. vm_compute. reflexivity. Qed.

Lemma odd_pair_write_then_read_witness :
  Bus.littleEndian Examples.ramBus = true /\
  band (2047 + 1) (Bus.addrLimit Examples.ramBus) = 2048 /\
  Bus.dataWidth Examples.ramBus = 8 /\
  exists b' cs cs',
    Bus.writePair true Examples.ramBus 2047 4660 = (Memory.Returns tt, b', cs) /\
    Bus.readPair true b' 2047 = (Memory.Returns (Some 4660), cs') /\
    fst (Bus.readBlockData true b'
           (if Bus.littleEndian Examples.ramBus then 2047
            else band (2047 + 1) (Bus.addrLimit Examples.ramBus)))
    = Memory.Returns (Some (4660 mod 2 ^ Bus.dataWidth Examples.ramBus)) /\
    fst (Bus.readBlockData true b'
           (if Bus.littleEndian Examples.ramBus
            then band (2047 + 1) (Bus.addrLimit Examples.ramBus) else 2047))
    = Memory.Returns (Some (4660 / 2 ^ Bus.dataWidth Examples.ramBus)).
Proof.
  assert (Hw : Bus.dataWidth Examples.ramBus = 8) by (vm_compute; reflexivity).
  assert (Hs : Bus.blockShift Examples.ramBus = 10) by (vm_compute; reflexivity).
  split; [vm_compute; reflexivity|]. split; [vm_compute; reflexivity|].
  split; [exact Hw|].
  apply (odd_pair_write_then_read true Examples.ramBus 2047 4660
           Examples.ramBlock Examples.ramBlockNext).
  - exact ramBus_mapped.
  - rewrite Hs. lia.
  - vm_compute. discriminate.
  - exact ramBus_slot_last.
  - exact ramBus_slot_next.
  - exact ramBlock_wf.
  - exact ramBlockNext_wf.
  - reflexivity.
  - reflexivity.
  - vm_compute. lia.
  - vm_compute. lia.
  - rewrite Hw. lia.
  - vm_compute. reflexivity.
  - rewrite Hw. lia.
  - rewrite Hw. lia.
Defined.

(** ** Time: the scheduler *)

Section TimeFacts.
Import Time.

Variable h : host.

#[local] Open Scope Z_scope.

(** A loop over the indices [length, ..., 1] that reads the element of each
    index visits the list from its end. *)
Lemma fold_indices {A B} (f : A -> B -> A) (l : list B) : forall (k : nat) a,
  (k <= length l)%nat ->
  fold_left
    (fun acc iTimer =>
       match l !! Z.to_nat (iTimer - 1) with
       | Some x => f acc x
       | None => acc
       end)
    (map (fun i => Z.of_nat (S i)) (rev (seq 0 k))) a
  = fold_left f (rev (take k l)) a.
Proof.
  induction k as [|k IH]; intros a Hk; [reflexivity|].
  rewrite seq_S, rev_app_distr. cbn [rev app map fold_left Nat.add].
  replace (Z.to_nat (Z.of_nat (S k) - 1)) with k by lia.
  destruct (lookup_lt_is_Some_2 l k ltac:(lia)) as [x Hx].
  rewrite Hx, (take_S_r _ _ _ Hx), rev_app_distr. cbn [rev app fold_left].
  apply IH. lia.
Qed.

Lemma capByTimer_fold ts : forall n,
  let r := fold_left capByTimer ts n in
  r <= n /\
  (forall tm, In tm ts -> 0 <= nCyclesLeft tm -> r <= nCyclesLeft tm) /\
  (r = n \/ exists tm, In tm ts /\ 0 <= nCyclesLeft tm /\ r = nCyclesLeft tm).
Proof.
  induction ts as [|tm ts IH]; intros n; cbn [fold_left].
  - split; [lia|]. split; [intros tm []|left; reflexivity].
  - destruct (IH (capByTimer n tm)) as (Hle & Hall & Hex).
    assert (Hc : capByTimer n tm <= n /\
                 (0 <= nCyclesLeft tm -> capByTimer n tm <= nCyclesLeft tm) /\
                 (capByTimer n tm = n \/
                  (0 <= nCyclesLeft tm /\ capByTimer n tm = nCyclesLeft tm))).
    { unfold capByTimer.
      destruct (Z.ltb_spec (nCyclesLeft tm) 0);
        destruct (Z.ltb_spec (nCyclesLeft tm) n); lia. }
    destruct Hc as (Hc1 & Hc2 & Hc3).
    split; [lia|]. split.
    + intros tm' [<-|Hin] Hpos; [specialize (Hc2 Hpos); lia|auto].
    + destruct Hex as [Hex|(tm' & Hin & Hpos & Hex)].
      * destruct Hc3 as [Hc3|[Hpos Hc3]]; [left; lia|].
        right. exists tm. split; [left; reflexivity|]. split; [exact Hpos|lia].
      * right. exists tm'. split; [right; exact Hin|]. split; [exact Hpos|exact Hex].
Qed.

Lemma rateBudget_aTimers fAnimation t :
  aTimers (snd (rateBudget fAnimation t)) = aTimers t.
Proof.
  unfold rateBudget. destruct fAnimation; [|reflexivity].
  destruct (nlt (nCyclesDeposited t) 1); cbn;
    match goal with |- context [nlt ?x 0] => destruct (nlt x 0) end; reflexivity.
Qed.

(** The budget of a run segment is the smallest of the budget of the
    target rate and the countdowns of the armed timers. *)
Lemma getCyclesPerRun_min fAnimation t :
  let nCycles := fst (getCyclesPerRun fAnimation 0 t) in
  nCycles <= fst (rateBudget fAnimation t) /\
  (forall tm, In tm (aTimers t) -> 0 <= nCyclesLeft tm -> nCycles <= nCyclesLeft tm) /\
  (nCycles = fst (rateBudget fAnimation t) \/
   exists tm, In tm (aTimers t) /\ 0 <= nCyclesLeft tm /\ nCycles = nCyclesLeft tm).
Proof.
  unfold getCyclesPerRun. cbn [Z.eqb negb].
  pose proof (rateBudget_aTimers fAnimation t) as Hts.
  destruct (rateBudget fAnimation t) as [n t1]. cbn [fst snd] in *.
  unfold timerIndices. rewrite fold_indices by lia.
  rewrite firstn_all, Hts.
  pose proof (capByTimer_fold (rev (aTimers t)) n) as (H1 & H2 & H3).
  split; [exact H1|]. split.
  - intros tm Hin. apply H2. apply in_rev in Hin. exact Hin.
  - destruct H3 as [H3|(tm & Hin & Hpos & H3)]; [left; exact H3|].
    right. exists tm. split; [apply in_rev; exact Hin|]. split; assumption.
Qed.

(** C6.  The cycles that [getCyclesPerRun] computes for a run segment (with
    no minimum) are at most the cycles that the target rate allows and at
    most the countdown of every armed timer; they are the smallest of these
    numbers. *)
Theorem getCyclesPerRun_within_timers fAnimation t :
  let nCycles := fst (getCyclesPerRun fAnimation 0 t) in
  nCycles <= fst (rateBudget fAnimation t) /\
  (forall tm, In tm (aTimers t) -> 0 <= nCyclesLeft tm -> nCycles <= nCyclesLeft tm) /\
  (nCycles = fst (rateBudget fAnimation t) \/
   exists tm, In tm (aTimers t) /\ 0 <= nCyclesLeft tm /\ nCycles = nCyclesLeft tm).
Proof. exact (getCyclesPerRun_min fAnimation t). Qed.

(** *** What the functions on the path of a burst change *)

Lemma callbacks_app l1 l2 : callbacks (l1 ++ l2) = callbacks l1 ++ callbacks l2.
Proof. unfold callbacks. apply omap_app. Qed.

Lemma ext_refl l : ext l l.
Proof. exists []. split; [reflexivity|]. rewrite app_nil_r. reflexivity. Qed.

Lemma ext_trans l1 l2 l3 : ext l1 l2 -> ext l2 l3 -> ext l1 l3.
Proof.
  intros (m1 & H1 & ->) (m2 & H2 & ->). exists (m1 ++ m2). split.
  - rewrite callbacks_app, H1, H2. reflexivity.
  - rewrite app_assoc. reflexivity.
Qed.

Lemma ext_snoc l e :
  match e with Callback _ => False | _ => True end -> ext l (l ++ [e]).
Proof.
  intros He. exists [e]. split; [|reflexivity].
  destruct e; try contradiction; reflexivity.
Qed.


Ltac ext_solve :=
  cbn [log set_log set_nYields set_fYield set_nCyclesDeposited set_nCyclesLife
       set_nCyclesRun set_nCyclesThisRun set_nCyclesRemain set_nCyclesBurst
       set_aTimers set_fRunning set_nStepping emit println setBindingText];
  repeat first
    [ eassumption
    | apply ext_refl
    | eapply ext_trans; [|eassumption]
    | eapply ext_trans; [|apply ext_snoc; exact I] ].

Lemma logged_refl t : logged t t.
Proof. exists (log t). split; [apply ext_refl|]. destruct t; reflexivity. Qed.

Lemma logged_trans t1 t2 t3 : logged t1 t2 -> logged t2 t3 -> logged t1 t3.
Proof.
  intros (l1 & H1 & ->) (l2 & H2 & ->). exists l2. split; [|reflexivity].
  exact (ext_trans _ _ _ H1 H2).
Qed.

Lemma logged_emit e t :
  match e with Callback _ => False | _ => True end -> logged t (emit e t).
Proof. intros He. exists (log t ++ [e]). split; [apply ext_snoc, He|reflexivity]. Qed.

Lemma logged_fold {A} (g : A -> event) (l : list A) :
  (forall x, match g x with Callback _ => False | _ => True end) ->
  forall t, logged t (fold_left (fun t x => emit (g x) t) l t).
Proof.
  intros Hg. induction l as [|x l IH]; intros t; cbn [fold_left];
    [apply logged_refl|].
  eapply logged_trans; [apply (logged_emit (g x)), Hg|apply IH].
Qed.

Ltac logged_steps :=
  repeat (eapply logged_trans; [|apply logged_emit; exact I]);
  try apply logged_refl.

Lemma update_logged f t : logged t (update f t).
Proof.
  unfold update. cbv zeta.
  eapply logged_trans;
    [|apply (logged_fold (fun d => OnUpdate d (bool_decide (is_Some f))));
      intros x; exact I].
  destruct f as [[|]|];
    match goal with |- context [if ?c then _ else _] => destruct c end;
    unfold setBindingText, println; logged_steps.
Qed.

(** Destructs the conditions of the goal, innermost first. *)
Ltac split_ifs :=
  repeat match goal with
         | |- context [if ?c then _ else _] =>
             lazymatch c with
             | context [if _ then _ else _] => fail
             | _ => destruct c
             end
         end.

(** Replaces the calls of [update] in the goal by what they do. *)
Ltac open_update :=
  repeat match goal with
         | |- context [update ?f ?x] =>
             let l := fresh "l" in let H := fresh "H" in let E := fresh "E" in
             destruct (update_logged f x) as (l & H & E); rewrite E; clear E
         end.

(** [yield] sets [fYield], counts the yield and may log an update. *)
Lemma yield_eq t :
  exists l y, ext (log t) l /\
    yield t = set_log l (set_nYields y (set_fYield true t)).
Proof.
  unfold yield. cbv zeta. split_ifs; open_update;
    match goal with
    | |- exists _ _, _ /\ ?lhs = _ =>
        exists (log lhs), (nYields lhs); split; [ext_solve|reflexivity]
    end.
Qed.

Ltac open_yield :=
  repeat match goal with
         | |- context [yield ?x] =>
             let l := fresh "l" in let y := fresh "y" in
             let H := fresh "H" in let E := fresh "E" in
             destruct (yield_eq x) as (l & y & H & E); rewrite E; clear E
         end.

Ltac open_fold g :=
  repeat match goal with
         | |- context [fold_left ?f ?l ?x] =>
             let l' := fresh "l" in let H := fresh "H" in let E := fresh "E" in
             destruct (logged_fold g l (fun _ => I) x) as (l' & H & E);
             rewrite E; clear E
         end.

(** [endBurst] adds the cycles to the counters and ends the burst; when the
    clock goes by frames it takes them from the deposit and may yield. *)
Lemma endBurst_eq arg t :
  let n := match arg with Some n => n | None => nCyclesBurst t - nCyclesRemain t end in
  exists l y fy d, ext (log t) l /\
    endBurst arg t =
    (n, set_log l (set_nYields y (set_fYield fy (set_nCyclesDeposited d
          (set_nCyclesLife (nCyclesLife t + n)
            (set_nCyclesRun (if fRunning t then nCyclesRun t + n else 0)
              (set_nCyclesThisRun (nCyclesThisRun t + n)
                (set_nCyclesRemain 0 (set_nCyclesBurst 0 t))))))))).
Proof.
  intros n. unfold endBurst. cbv zeta. fold n.
  destruct (fRunning t) eqn:Erun; destruct (fClockByFrame t);
    cbn [negb];
    repeat match goal with
           | |- context [if ntruthy ?c then _ else _] => destruct (ntruthy c)
           end;
    open_fold StopClock;
    repeat match goal with
           | |- context [if nlt ?c 1 then _ else _] => destruct (nlt c 1)
           end;
    open_yield;
    cbn [fRunning set_log set_nYields set_fYield set_nCyclesDeposited
         set_nCyclesLife set_nCyclesRun set_nCyclesThisRun set_nCyclesRemain
         set_nCyclesBurst];
    rewrite ?Erun; cbn [negb];
    match goal with
    | |- exists _ _ _ _, _ /\ (_, ?lhs) = _ =>
        exists (log lhs), (nYields lhs), (fYield lhs), (nCyclesDeposited lhs);
        split; [ext_solve|try reflexivity]
    end.
Qed.

Ltac touched_here :=
  match goal with
  | |- touched ?t ?t' =>
      exists (log t'), (nYields t'), (fYield t'), (nCyclesDeposited t'),
        (nCyclesLife t'), (nCyclesRun t'), (nCyclesThisRun t'),
        (nCyclesRemain t'), (nCyclesBurst t'), (aTimers t'); reflexivity
  end.

Lemma touched_refl t : touched t t.
Proof. destruct t. touched_here. Qed.

Lemma touched_trans t1 t2 t3 : touched t1 t2 -> touched t2 t3 -> touched t1 t3.
Proof.
  intros (l & y & fy & d & life & run & thisRun & remain & burst & ts & ->)
         (l' & y' & fy' & d' & life' & run' & thisRun' & remain' & burst' & ts' & ->).
  touched_here.
Qed.

Lemma logged_touched t t' : logged t t' -> touched t t'.
Proof. intros (l & _ & ->). touched_here. Qed.

Lemma yield_touched t : touched t (yield t).
Proof. destruct (yield_eq t) as (l & y & _ & ->). touched_here. Qed.

Lemma endBurst_touched arg t : touched t (snd (endBurst arg t)).
Proof.
  destruct (endBurst_eq arg t) as (l & y & fy & d & _ & ->). cbn [snd].
  touched_here.
Qed.

(** What a burst leaves alone: the state of the machine, the rate and the
    registered devices. *)
Lemma touched_frame t t' :
  touched t t' ->
  fRunning t' = fRunning t /\ nStepping t' = nStepping t /\
  fClockByFrame t' = fClockByFrame t /\
  fRequestAnimationFrame t' = fRequestAnimationFrame t /\
  aClocks t' = aClocks t /\
  forall ms, getCyclesPerMS ms t' = getCyclesPerMS ms t.
Proof.
  intros (l & y & fy & d & life & run & thisRun & remain & burst & ts & ->).
  repeat split.
Qed.


(** *** The timers after a burst *)

(** [setTimer] arms a dormant timer for [ms] milliseconds, in a state where
    no burst is open. *)
(** [getCyclesPerMS] converts at the current multiplier. *)
Lemma getCyclesPerMS_cyclesAt ms t :
  getCyclesPerMS ms t = cyclesAt (nCyclesPerSecond t) (nCurrentMultiplier t) ms.
Proof. reflexivity. Qed.







(** *** Bursts *)

Lemma after_touched {A} t1 t2 (r : result A) :
  touched t1 t2 -> after (touched t2) r -> after (touched t1) r.
Proof. destruct r; cbn; eauto using touched_trans. Qed.

Lemma setTimer_touched i ms r t : touched t (snd (setTimer i ms r t)).
Proof.
  unfold setTimer.
  destruct ((0 <? i) && (i <=? Z.of_nat (length (aTimers t))));
    [|apply touched_refl].
  destruct (aTimers t !! Z.to_nat (i - 1)) as [tm|]; [|apply touched_refl].
  destruct (r || (nCyclesLeft tm <? 0)); [|apply touched_refl].
  destruct (fRunning t).
  - destruct (endBurst_eq None t) as (l & y & fy & d & _ & ->). cbn [snd].
    touched_here.
  - cbn [snd]. touched_here.
Qed.

Lemma fold_touched {A} (f : time -> A -> time) (l : list A) :
  (forall t x, touched t (f t x)) -> forall t, touched t (fold_left f l t).
Proof.
  intros Hf. induction l as [|x l IH]; intros t; cbn [fold_left];
    [apply touched_refl|].
  exact (touched_trans _ _ _ (Hf t x) (IH _)).
Qed.

Lemma notifyTimer_touched n t i : touched t (notifyTimer h n t i).
Proof.
  unfold notifyTimer.
  destruct (aTimers t !! Z.to_nat (i - 1)) as [tm|]; [|apply touched_refl].
  destruct (nCyclesLeft tm <? 0); [apply touched_refl|]. cbv zeta.
  destruct (nCyclesLeft tm - n <=? 0); [|touched_here].
  match goal with
  | |- touched _ (if _ then snd (setTimer _ _ _ ?x) else _) =>
      assert (Hx : touched t x)
  end.
  { unfold invoke. cbv zeta. destruct (callBack tm).
    - eapply touched_trans; [|apply yield_touched]. touched_here.
    - eapply touched_trans; [|apply fold_touched].
      + unfold emit. touched_here.
      + intros t1 [[i1 ms1] r1]. apply setTimer_touched. }
  destruct (Qleb 0 (msAuto tm)); [|exact Hx].
  exact (touched_trans _ _ _ Hx (setTimer_touched _ _ _ _)).
Qed.

Lemma notifyTimers_touched n t : touched t (notifyTimers h n t).
Proof.
  unfold notifyTimers. destruct (1 <=? n); [|apply touched_refl].
  apply fold_touched. intros; apply notifyTimer_touched.
Qed.

Lemma getCyclesPerRun_touched fAnimation nMinCycles t :
  touched t (snd (getCyclesPerRun fAnimation nMinCycles t)).
Proof.
  unfold getCyclesPerRun.
  destruct (negb (nMinCycles =? 0)); [cbn [snd]; touched_here|].
  destruct (rateBudget fAnimation t) as [n t'] eqn:E. cbn [snd].
  unfold rateBudget in E. destruct fAnimation.
  - destruct (nlt (nCyclesDeposited t) 1);
      match type of E with
      | context [nlt ?x 0] => destruct (nlt x 0)
      end; injection E as _ <-; unfold emit;
      first [touched_here|apply touched_refl].
  - injection E as _ <-. apply touched_refl.
Qed.

Lemma doBurstLoop_touched fuel : forall iClock nCycles t,
  after (touched t) (doBurstLoop h fuel iClock nCycles t).
Proof.
  induction fuel as [|fuel IH]; intros iClock nCycles t; cbn [doBurstLoop];
    [exact I|].
  destruct (0 <? nCyclesRemain t); [|apply touched_refl].
  destruct (aClocks t !! iClock) as [clock|].
  - destruct (startClock h (log t) clock nCycles) as [n|e].
    + eapply after_touched; [|apply IH]. unfold emit. touched_here.
    + unfold emit. cbn. touched_here.
  - eapply after_touched; [|apply IH]. touched_here.
Qed.

Lemma doBurst_touched fuel nCycles t : after (touched t) (doBurst h fuel nCycles t).
Proof.
  unfold doBurst. cbv zeta.
  cbn [aClocks set_nCyclesRemain set_nCyclesBurst].
  destruct (aClocks t); [cbn; touched_here|].
  eapply after_touched; [|apply doBurstLoop_touched]. touched_here.
Qed.

Lemma burst_touched fuel fAnimation nMinCycles t :
  after (touched t) (burst h fuel fAnimation nMinCycles t).
Proof.
  unfold burst.
  pose proof (getCyclesPerRun_touched fAnimation nMinCycles t) as H1.
  destruct (getCyclesPerRun fAnimation nMinCycles t) as [n t1]. cbn [snd] in H1.
  pose proof (doBurst_touched fuel n t1) as H2.
  destruct (doBurst h fuel n t1) as [n2 t2|e t2|]; cbn [after] in H2 |- *;
    [| |exact I].
  - pose proof (endBurst_touched (Some n2) t2) as H3.
    destruct (endBurst (Some n2) t2) as [n3 t3]. cbn [snd] in H3. cbn [after].
    exact (touched_trans _ _ _ H1 (touched_trans _ _ _ H2
             (touched_trans _ _ _ H3 (notifyTimers_touched _ _)))).
  - exact (touched_trans _ _ _ H1 H2).
Qed.

Lemma runLoop_touched fAnimation fuel : forall t,
  after (touched t) (runLoop h fuel fAnimation t).
Proof.
  induction fuel as [|fuel IH]; intros t; [exact I|]. cbn [runLoop].
  pose proof (burst_touched (S fuel) fAnimation 0 t) as H1.
  destruct (burst h (S fuel) fAnimation 0 t) as [[] t1|e t1|];
    cbn [after] in H1 |- *; [|exact H1|exact I].
  destruct (fRunning t1 && negb (fYield t1)); [|exact H1].
  eapply after_touched; [exact H1|apply IH].
Qed.

(** With clocks that execute exactly what they are asked, a burst executes
    its budget, and nothing when the budget is not positive. *)
Lemma doBurst_exact fuel nCycles t :
  exact h -> (2 <= fuel)%nat ->
  exists n t',
    doBurst h fuel nCycles t = Ok n t' /\
    (n = nCycles \/ (nCycles <= 0 /\ n = 0)).
Proof.
  intros Hex Hfuel. unfold doBurst. cbv zeta.
  cbn [aClocks set_nCyclesRemain set_nCyclesBurst].
  destruct (aClocks t) as [|clock clocks] eqn:Ec.
  - eexists _, _. split; [reflexivity|]. left. reflexivity.
  - destruct fuel as [|[|fuel]]; try lia. cbn [doBurstLoop].
    cbn [nCyclesRemain set_nCyclesRemain set_nCyclesBurst aClocks log nCyclesBurst
         emit set_log].
    rewrite Ec. cbn [lookup list_lookup].
    destruct (Z.ltb_spec 0 nCycles) as [Hpos|Hneg].
    + rewrite Hex by lia.
      replace (nCycles =? 0) with false by lia.
      replace (0 <? nCycles - nCycles) with false by lia.
      eexists _, _. split; [reflexivity|]. left. lia.
    + eexists _, _. split; [reflexivity|]. right. lia.
Qed.

(** X19.  With clocks that execute exactly the cycles they are asked for,
    the burst that [getCyclesPerRun] budgets returns and ends at or before
    the deadline of every armed timer: no timer is overrun. *)
Lemma burst_within_timers fuel fAnimation t :
  exact h -> (2 <= fuel)%nat ->
  exists n t',
    doBurst h fuel (fst (getCyclesPerRun fAnimation 0 t))
      (snd (getCyclesPerRun fAnimation 0 t)) = Ok n t' /\
    forall tm, In tm (aTimers t) -> 0 <= nCyclesLeft tm -> n <= nCyclesLeft tm.
Proof.
  intros Hex Hfuel.
  destruct (getCyclesPerRun_min fAnimation t) as (_ & Hle & _).
  cbv zeta in Hle.
  destruct (doBurst_exact fuel (fst (getCyclesPerRun fAnimation 0 t))
              (snd (getCyclesPerRun fAnimation 0 t)) Hex Hfuel)
    as (n & t' & E & Hn).
  exists n, t'. split; [exact E|]. intros tm Hin Hpos.
  specialize (Hle tm Hin Hpos). lia.
Qed.

(** *** Running and stopping *)

Lemma ext_In l l' e : ext l l' -> In e l -> In e l'.
Proof. intros (m & _ & ->) H. apply in_or_app. left. exact H. Qed.

Lemma fRunning_set_fYield b t : fRunning (set_fYield b t) = fRunning t.
Proof. reflexivity. Qed.

Lemma startRun_frame t :
  fRunning (startRun h t) = fRunning t /\ nStepping (startRun h t) = nStepping t.
Proof. unfold startRun, calcCycles. cbv zeta. split_ifs; split; reflexivity. Qed.

Lemma stopRun_frame t :
  let t' := snd (stopRun h t) in
  fRunning t' = fRunning t /\ nStepping t' = nStepping t /\
  nCyclesLife t' = nCyclesLife t /\ nCyclesThisRun t' = nCyclesThisRun t /\
  ext (log t) (log t').
Proof.
  unfold stopRun, calcSpeed. cbv zeta.
  split_ifs; cbn [snd]; repeat split; ext_solve.
Qed.

(** [stop] while running: the cycles of the open burst are added to the
    counters, and the machine stands still. *)
Lemma stop_running t :
  fRunning t = true ->
  let n := nCyclesBurst t - nCyclesRemain t in
  let t' := snd (stop t) in
  fst (stop t) = true /\
  fRunning t' = false /\ nStepping t' = nStepping t /\
  nCyclesLife t' = nCyclesLife t + n /\
  nCyclesThisRun t' = nCyclesThisRun t + n /\
  ext (log t) (log t').
Proof.
  intros Hrun. unfold stop. rewrite Hrun. cbv zeta.
  destruct (endBurst_eq None (set_fRunning false t)) as (l & y & fy & d & Hl & ->).
  cbn [snd fst]. split_ifs; open_update; cbn [snd fst]; repeat split; ext_solve.
Qed.

(** Only a clock that throws makes the loop of [runCycles] throw. *)
Lemma doBurstLoop_thrownBy fuel : forall iClock nCycles t,
  thrownBy (doBurstLoop h fuel iClock nCycles t).
Proof.
  induction fuel as [|fuel IH]; intros iClock nCycles t; cbn [doBurstLoop];
    [exact I|].
  destruct (0 <? nCyclesRemain t); [|exact I].
  destruct (aClocks t !! iClock) as [clock|]; [|apply IH].
  destruct (startClock h (log t) clock nCycles) as [n|e] eqn:E; [apply IH|].
  cbn. exists clock, nCycles. apply last_snoc.
Qed.

Lemma runLoop_thrownBy fAnimation fuel : forall t,
  thrownBy (runLoop h fuel fAnimation t).
Proof.
  induction fuel as [|fuel IH]; intros t; [exact I|]. cbn [runLoop].
  assert (H1 : thrownBy (burst h (S fuel) fAnimation 0 t)).
  { unfold burst. destruct (getCyclesPerRun fAnimation 0 t) as [n t1].
    unfold doBurst. cbv zeta.
    match goal with |- context [match ?x with [] => _ | _ => _ end] => destruct x end;
      [destruct (endBurst _ _); exact I|].
    match goal with |- context [doBurstLoop h ?f ?i ?n ?x] =>
      pose proof (doBurstLoop_thrownBy f i n x) as H;
      destruct (doBurstLoop h f i n x) end;
      [destruct (endBurst _ _); exact I|exact H|exact I]. }
  destruct (burst h (S fuel) fAnimation 0 t) as [[] t1|e t1|];
    [|exact H1|exact I].
  destruct (fRunning t1 && negb (fYield t1)); [apply IH|exact I].
Qed.

(** C8.  [runCycles] never lets an exception out.  When a clock throws in a
    burst of a running machine, [runCycles] returns; the message of the
    error is printed; the machine no longer runs; and the cycles that the
    burst had counted before the exception, [nCyclesBurst - nCyclesRemain],
    are added to [nCyclesLife] and [nCyclesThisRun]. *)
Theorem runCycles_catches fuel fAnimation t :
  fRunning t = true ->
  (forall e t', runCycles h fuel fAnimation t <> Throw e t') /\
  forall e t1,
    runLoop h fuel fAnimation (set_fYield false (startRun h t)) = Throw e t1 ->
    (exists clock n, last (log t1) = Some (StartClock clock n (Throws e))) /\
    exists ms t2,
      runCycles h fuel fAnimation t = Ok ms t2 /\
      In (Print (ErrorMessage e)) (log t2) /\
      fRunning t2 = false /\
      nCyclesLife t2 = nCyclesLife t1 + (nCyclesBurst t1 - nCyclesRemain t1) /\
      nCyclesThisRun t2 = nCyclesThisRun t1 + (nCyclesBurst t1 - nCyclesRemain t1).
Proof.
  intros Hrun. split.
  - intros e t'. unfold runCycles. cbv zeta.
    destruct (runLoop h fuel fAnimation _) as [[] t1|e1 t1|];
      try destruct (stopRun h _); discriminate.
  - intros e t1 Hloop.
    pose proof (runLoop_thrownBy fAnimation fuel (set_fYield false (startRun h t)))
      as Hby.
    pose proof (runLoop_touched fAnimation fuel (set_fYield false (startRun h t)))
      as Hto.
    rewrite Hloop in Hby, Hto. cbn [thrownBy after] in Hby, Hto.
    split; [exact Hby|].
    unfold runCycles. cbv zeta. rewrite Hloop.
    set (t1' := println (ErrorMessage e) t1).
    assert (Hrun1 : fRunning t1' = true).
    { change (fRunning t1') with (fRunning t1).
      rewrite (proj1 (touched_frame _ _ Hto)), fRunning_set_fYield.
      rewrite (proj1 (startRun_frame t)). exact Hrun. }
    destruct (stop_running t1' Hrun1) as (_ & S1 & _ & S2 & S3 & S4).
    cbv zeta in S1, S2, S3, S4.
    pose proof (stopRun_frame (snd (stop t1'))) as R. cbv zeta in R.
    destruct R as (R1 & _ & R2 & R3 & R4).
    destruct (stopRun h (snd (stop t1'))) as [ms t2]. cbn [snd] in *.
    exists ms, t2. split; [reflexivity|].
    split; [|split; [congruence|split; [rewrite R2, S2|rewrite R3, S3]; reflexivity]].
    apply (ext_In _ _ _ (ext_trans _ _ _ S4 R4)).
    subst t1'. cbn [log println emit set_log]. apply in_or_app. right. left.
    reflexivity.
Qed.

(** *** Running and stepping *)

Lemma settles_refl t : settles t t.
Proof. split; auto. Qed.

Lemma settles_trans t1 t2 t3 : settles t1 t2 -> settles t2 t3 -> settles t1 t3.
Proof. intros [H1 H2] [H3 H4]. split; [auto|]. destruct H4; [|auto]. lia. Qed.

Lemma settles_same t t' :
  fRunning t' = fRunning t -> nStepping t' = nStepping t -> settles t t'.
Proof. intros H1 H2. split; [congruence|auto]. Qed.

Lemma touched_settles t t' : touched t t' -> settles t t'.
Proof.
  intros H. destruct (touched_frame _ _ H) as (H1 & H2 & _).
  apply settles_same; assumption.
Qed.

Lemma settles_exclusive t t' : exclusive t -> settles t t' -> exclusive t'.
Proof. unfold exclusive. intros Ht [H1 H2] Hr. destruct H2; [|auto]. rewrite H. auto. Qed.

Lemma after_settles {A} t1 t2 (r : result A) :
  settles t1 t2 -> after (settles t2) r -> after (settles t1) r.
Proof. destruct r; cbn; eauto using settles_trans. Qed.

Lemma after_touched_settles {A} t (r : result A) :
  after (touched t) r -> after (settles t) r.
Proof. destruct r; cbn; auto using touched_settles. Qed.

Lemma calcCycles_settles t : settles t (calcCycles t).
Proof. unfold calcCycles. cbv zeta. split_ifs; apply settles_same; reflexivity. Qed.

Lemma resetTimers_settles t : settles t (resetTimers t).
Proof.
  apply touched_settles. unfold resetTimers. apply fold_touched.
  intros t' i. destruct (aTimers t' !! Z.to_nat (i - 1)) as [tm|];
    [|apply touched_refl].
  destruct (Qleb 0 (msAuto tm)); [apply setTimer_touched|apply touched_refl].
Qed.

Lemma setSpeed_settles nMultiplier t : settles t (snd (setSpeed nMultiplier t)).
Proof.
  unfold setSpeed.
  match goal with
  | |- settles _ (snd (let '(a, b) := ?x in _)) =>
      assert (Hx : settles t (snd x)); [|destruct x as [fSuccess t1]]
  end.
  { destruct nMultiplier; [|apply settles_refl]. cbv zeta. unfold setBindingText, emit.
    split_ifs; apply settles_same; reflexivity. }
  cbn [snd] in *. cbv zeta.
  eapply settles_trans; [|apply resetTimers_settles].
  eapply settles_trans; [|apply calcCycles_settles].
  eapply settles_trans; [exact Hx|].
  destruct (fClockByFrame t1); apply settles_same; reflexivity.
Qed.

Lemma setSpeedThrottle_settles t : settles t (snd (setSpeedThrottle t)).
Proof.
  unfold setSpeedThrottle. destruct (throttle t) as [[[v mn] mx]|];
    [|apply settles_refl].
  cbv zeta.
  match goal with
  | |- context [setSpeed ?m t] =>
      generalize (setSpeed_settles m t); generalize (setSpeed m t)
  end.
  intros p Hp. exact (Hp : settles t (snd (true, snd p))).
Qed.

Lemma resetSpeed_settles t : settles t (resetSpeed t).
Proof.
  unfold resetSpeed. cbv zeta.
  match goal with
  | |- settles _ (let '(a, b) := setSpeedThrottle ?x in _) =>
      pose proof (setSpeedThrottle_settles x) as Hx;
      destruct (setSpeedThrottle x) as [found t1]
  end.
  cbn [snd] in Hx.
  assert (H0 : settles t t1).
  { eapply settles_trans; [|exact Hx]. apply settles_same; reflexivity. }
  destruct (negb found); [|exact H0].
  exact (settles_trans _ _ _ H0 (setSpeed_settles _ _)).
Qed.

Lemma addTimer_settles i cb ms t : settles t (snd (addTimer i cb ms t)).
Proof.
  unfold addTimer. cbv zeta. cbn [snd].
  destruct (Qleb 0 ms); [|apply settles_same; reflexivity].
  eapply settles_trans; [|apply touched_settles, setTimer_touched].
  apply settles_same; reflexivity.
Qed.

Lemma new_exclusive cfg : exclusive (new cfg).
Proof.
  unfold new. cbv zeta.
  match goal with
  | |- exclusive (resetSpeed ?x) =>
      apply (settles_exclusive x _); [|apply resetSpeed_settles]
  end.
  destruct (default _ (clockByFrame cfg)).
  - intros H. discriminate H.
  - eapply settles_exclusive; [|apply addTimer_settles]. intros H. discriminate H.
Qed.

(** [start] starts a machine that neither runs nor steps, and only this. *)
Lemma start_spec t :
  if fRunning t || negb (nStepping t =? 0)
  then start h t = (false, t)
  else fst (start h t) = true /\
       fRunning (snd (start h t)) = true /\
       nStepping (snd (start h t)) = nStepping t.
Proof.
  unfold start. destruct (fRunning t || negb (nStepping t =? 0)); [reflexivity|].
  cbv zeta. unfold setTimeout, requestFrame, emit.
  split_ifs; open_update; repeat split.
Qed.

(** [stop] stops a machine that runs or steps, and only this. *)
Lemma stop_spec t :
  fst (stop t) = fRunning t || negb (nStepping t =? 0) /\
  fRunning (snd (stop t)) = false /\
  (nStepping (snd (stop t)) = nStepping t \/ nStepping (snd (stop t)) = 0) /\
  (fRunning t = false -> nStepping (snd (stop t)) = 0).
Proof.
  destruct (fRunning t) eqn:Hrun.
  - destruct (stop_running t Hrun) as (H1 & H2 & H3 & _).
    cbv zeta in H2, H3. rewrite H1, H2, H3. repeat split; auto. discriminate.
  - unfold stop. rewrite Hrun. cbn [orb].
    destruct (Z.eqb_spec (nStepping t) 0) as [E|E]; cbn [negb fst snd].
    + rewrite Hrun, E. auto.
    + open_update. cbn. auto.
Qed.

Lemma stop_settles t : settles t (snd (stop t)).
Proof.
  destruct (stop_spec t) as (_ & H1 & H2 & _). split; [congruence|exact H2].
Qed.

(** [step] steps a machine that does not run, and only this; the machine
    does not run afterwards either. *)
Lemma step_spec fuel nRepeat t :
  match step h fuel nRepeat t with
  | Ok r t' => r = negb (fRunning t) /\ fRunning t' = fRunning t
  | Throw _ t' => fRunning t = false /\ fRunning t' = false
  | OutOfFuel => True
  end.
Proof.
  unfold step. destruct (fRunning t) eqn:Hrun; cbn [negb]; [auto|]. cbv zeta.
  match goal with
  | |- context [if negb (nStepping ?x =? 0) then _ else _] =>
      assert (Hx : fRunning x = false) by (split_ifs; exact Hrun);
      revert Hx; generalize x
  end.
  intros x Hx.
  destruct (negb (nStepping x =? 0)); [|auto].
  match goal with
  | |- context [burst h fuel true 1 ?y] =>
      pose proof (burst_touched fuel true 1 y) as Hb;
      assert (Hy : fRunning y = false) by exact Hx;
      destruct (burst h fuel true 1 y) as [[] t1|e t1|]
  end; cbn [after] in Hb; [| |exact I].
  - destruct (touched_frame _ _ Hb) as (H1 & _).
    open_update. unfold setTimeout, emit. split_ifs; cbn; split; congruence.
  - destruct (touched_frame _ _ Hb) as (H1 & _). split; congruence.
Qed.

Lemma runCycles_settles fuel fAnimation t :
  after (settles t) (runCycles h fuel fAnimation t).
Proof.
  unfold runCycles. cbv zeta.
  assert (H0 : settles t (set_fYield false (startRun h t))).
  { eapply settles_trans; [apply settles_same; apply startRun_frame|].
    generalize (startRun h t). intros x. apply settles_same; reflexivity. }
  pose proof (runLoop_touched fAnimation fuel (set_fYield false (startRun h t)))
    as H1.
  destruct (runLoop h fuel fAnimation _) as [[] t1|e t1|]; cbn [after] in H1;
    [| |exact I].
  - pose proof (stopRun_frame t1) as R. cbv zeta in R.
    destruct R as (R1 & R2 & _).
    destruct (stopRun h t1) as [ms t2]. cbn [snd after] in *.
    eapply settles_trans; [exact H0|].
    eapply settles_trans; [apply touched_settles, H1|].
    apply settles_same; assumption.
  - set (t1' := println (ErrorMessage e) t1).
    pose proof (stopRun_frame (snd (stop t1'))) as R. cbv zeta in R.
    destruct R as (R1 & R2 & _).
    destruct (stopRun h (snd (stop t1'))) as [ms t2]. cbn [snd after] in *.
    eapply settles_trans; [exact H0|].
    eapply settles_trans; [apply touched_settles, H1|].
    eapply settles_trans; [|apply settles_same; eassumption].
    eapply settles_trans; [|apply stop_settles].
    apply settles_same; reflexivity.
Qed.

Lemma animate_settles fuel t : after (settles t) (animate h fuel t).
Proof.
  unfold animate. cbv zeta.
  assert (Hc : forall t1, settles t t1 ->
             after (settles t)
               (let t2 := fold_left (fun t f => emit (Animation f) t)
                            (aAnimations t1) t1 in
                if fRunning t2 && fRequestAnimationFrame t2
                then let '(i, t3) := requestFrame h t2 in Ok tt (set_idAnimation i t3)
                else Ok tt t2)).
  { intros t1 H1. cbv zeta.
    destruct (logged_fold Animation (aAnimations t1) (fun _ => I) t1)
      as (l & _ & ->).
    unfold requestFrame, emit. split_ifs; cbn [after];
      (eapply settles_trans; [exact H1|]); apply settles_same; reflexivity. }
  destruct (fClockByFrame t); [|apply Hc, settles_refl].
  destruct (negb (fRunning (set_idAnimation 0 t)));
    [cbn [after]; apply settles_same; reflexivity|].
  pose proof (runCycles_settles fuel true (set_idAnimation 0 t)) as H1.
  destruct (runCycles h fuel true (set_idAnimation 0 t)) as [ms t1|e t1|];
    cbn [after] in H1; [| |exact I].
  - apply Hc. eapply settles_trans; [|exact H1]. apply settles_same; reflexivity.
  - cbn [after]. eapply settles_trans; [|exact H1]. apply settles_same; reflexivity.
Qed.

Lemma run_settles fuel t : after (settles t) (run h fuel t).
Proof.
  unfold run. cbv zeta.
  destruct (negb (fRunning (set_idRunTimeout 0 t)));
    [cbn [after]; apply settles_same; reflexivity|].
  pose proof (runCycles_settles fuel false (set_idRunTimeout 0 t)) as H1.
  assert (H0 : settles t (set_idRunTimeout 0 t)) by (apply settles_same; reflexivity).
  destruct (runCycles h fuel false (set_idRunTimeout 0 t)) as [ms t1|e t1|];
    cbn [after] in H1; [| |exact I].
  - destruct (fRunning t1); [|exact (settles_trans _ _ _ H0 H1)].
    unfold setTimeout, emit.
    match goal with
    | |- context [animate h fuel ?x] =>
        assert (Hx : settles t x)
          by (eapply settles_trans; [exact (settles_trans _ _ _ H0 H1)|];
              apply settles_same; reflexivity);
        pose proof (animate_settles fuel x) as Ha;
        destruct (negb (fRequestAnimationFrame x))
    end.
    + exact (after_settles _ _ _ Hx Ha).
    + exact Hx.
  - exact (settles_trans _ _ _ H0 H1).
Qed.

Lemma reachable_exclusive t : reachable h t -> exclusive t.
Proof.
  induction 1 as [cfg|c t _ IH|i f ms t _ IH|d t _ IH|f t _ IH|i ms r t _ IH
                 |m t _ IH|t _ IH|t _ IH|fuel n t t' _ IH Hf|fuel t t' _ IH Hf
                 |fuel t t' _ IH Hf].
  - apply new_exclusive.
  - exact IH.
  - exact (settles_exclusive _ _ IH (addTimer_settles _ _ _ _)).
  - exact IH.
  - exact IH.
  - exact (settles_exclusive _ _ IH (touched_settles _ _ (setTimer_touched _ _ _ _))).
  - exact (settles_exclusive _ _ IH (setSpeed_settles _ _)).
  - pose proof (start_spec t) as Hs.
    destruct (fRunning t || negb (nStepping t =? 0)) eqn:E.
    + rewrite Hs. exact IH.
    + destruct Hs as (_ & _ & Hn). intros _. rewrite Hn.
      apply orb_false_elim in E. destruct E as [_ E]. lia.
  - exact (settles_exclusive _ _ IH (stop_settles _)).
  - destruct (fRunning t) eqn:E.
    + unfold step in Hf. rewrite E in Hf. cbn [negb final] in Hf.
      injection Hf as <-. exact IH.
    + pose proof (step_spec fuel n t) as Hs.
      destruct (step h fuel n t) as [r t1|e t1|]; cbn [final] in Hf;
        [| |discriminate]; injection Hf as <-; destruct Hs as [_ Hs];
        intros Hrun; congruence.
  - pose proof (run_settles fuel t) as Hs.
    destruct (run h fuel t) as [r t1|e t1|]; cbn [final after] in *;
      [| |discriminate]; injection Hf as <-; exact (settles_exclusive _ _ IH Hs).
  - pose proof (animate_settles fuel t) as Hs.
    destruct (animate h fuel t) as [r t1|e t1|]; cbn [final after] in *;
      [| |discriminate]; injection Hf as <-; exact (settles_exclusive _ _ IH Hs).
Qed.

(** C9.  In every state that the operations of the scheduler reach, a
    running machine has no steps to go, so that it never both runs and
    steps.  [start] returns true exactly when the machine neither runs nor
    steps, and the machine runs then; [step] returns true exactly when the
    machine does not run; [stop] returns true exactly when the machine runs
    or steps, and after [stop] it does neither. *)
Theorem running_stepping_exclusive t :
  reachable h t ->
  (fRunning t = true -> nStepping t = 0) /\
  ~ (fRunning t = true /\ 0 < nStepping t) /\
  (fst (start h t) = true <-> fRunning t = false /\ nStepping t = 0) /\
  (fst (start h t) = true -> fRunning (snd (start h t)) = true) /\
  (forall fuel nRepeat r t',
     step h fuel nRepeat t = Ok r t' -> (r = true <-> fRunning t = false)) /\
  (fst (stop t) = true <-> fRunning t = true \/ nStepping t <> 0) /\
  fRunning (snd (stop t)) = false /\ nStepping (snd (stop t)) = 0.
Proof.
  intros Hr. pose proof (reachable_exclusive t Hr) as He. unfold exclusive in He.
  split; [exact He|]. split; [intros [H1 H2]; specialize (He H1); lia|].
  pose proof (start_spec t) as Hs.
  split; [|split].
  - destruct (fRunning t) eqn:E1; destruct (Z.eqb_spec (nStepping t) 0) as [E2|E2];
      cbn [orb negb] in Hs; try (rewrite Hs; cbn [fst]);
      (split;
       [ first [discriminate|intros _; split; [reflexivity|exact E2]]
       | first [ intros [H _]; discriminate H
               | intros [_ H]; contradiction
               | intros _; apply Hs ] ]).
  - destruct (fRunning t || negb (nStepping t =? 0)).
    + rewrite Hs. discriminate.
    + intros _. apply Hs.
  - split; [|split; [|split]].
    + intros fuel nRepeat r t' E. pose proof (step_spec fuel nRepeat t) as Hp.
      rewrite E in Hp. destruct Hp as [-> _].
      destruct (fRunning t); cbn [negb]; split; congruence.
    + destruct (stop_spec t) as (S1 & _). rewrite S1.
      rewrite orb_true_iff, negb_true_iff, Z.eqb_neq. reflexivity.
    + apply stop_spec.
    + destruct (stop_spec t) as (_ & _ & S3 & S4).
      destruct (fRunning t); [|auto]. destruct S3 as [S3|S3]; [|exact S3].
      rewrite S3. auto.
Qed.

(** *** Bursts with any clocks, and the count of cycles *)

Lemma clocked_app l1 l2 : clocked (l1 ++ l2) = clocked l1 + clocked l2.
Proof.
  unfold clocked. induction l1 as [|e l1 IH]; [reflexivity|].
  cbn [app fold_right]. rewrite IH.
  destruct e as [clock n [m|e]| | | | | | | | | | |]; lia.
Qed.

(** The loop of [doBurst] with clocks that return counts that are not
    negative: it ends with nothing left, within two turns for each cycle
    that remains, having taken off what the clocks reported. *)
Lemma doBurstLoop_polite fuel : forall iClock nCycles t,
  polite h -> aClocks t <> [] ->
  (2 * Z.to_nat (nCyclesRemain t)
   + (if (iClock <? length (aClocks t))%nat then 0 else 1) < fuel)%nat ->
  exists n t' m,
    doBurstLoop h fuel iClock nCycles t = Ok n t' /\
    n = nCyclesBurst t - nCyclesRemain t' /\
    nCyclesBurst t' = nCyclesBurst t /\
    nCyclesRemain t' <= 0 /\
    log t' = log t ++ m /\
    clocked m = nCyclesRemain t - Z.min (nCyclesRemain t) (nCyclesRemain t') /\
    nCyclesRemain t' <= nCyclesRemain t /\
    t' = set_nCyclesRemain (nCyclesRemain t') (set_log (log t') t).
Proof.
  induction fuel as [|fuel IH]; intros iClock nCycles t Hp Hc Hf; [lia|].
  cbn [doBurstLoop]. destruct (Z.ltb_spec 0 (nCyclesRemain t)) as [Hpos|Hneg].
  - destruct (aClocks t !! iClock) as [clock|] eqn:Ei.
    + pose proof (lookup_lt_Some _ _ _ Ei) as Hlt.
      replace (iClock <? length (aClocks t))%nat with true in Hf
        by (symmetry; apply Nat.ltb_lt; exact Hlt).
      destruct (Hp (log t) clock nCycles) as (k & -> & Hk).
      set (nC := if k =? 0 then 1 else k).
      assert (HnC : 1 <= nC) by (subst nC; destruct (Z.eqb_spec k 0); lia).
      set (t1 := set_nCyclesRemain
                   (nCyclesRemain (emit (StartClock clock nCycles (Returns k)) t) - nC)
                   (emit (StartClock clock nCycles (Returns k)) t)).
      destruct (IH (S iClock) nC t1 Hp)
        as (n & t' & m & E & Hn & Hb & Hr & Hl & Hm & Hle & Hnf).
      * exact Hc.
      * subst t1. cbn [nCyclesRemain set_nCyclesRemain emit set_log aClocks].
        destruct (S iClock <? length (aClocks t))%nat; lia.
      * exists n, t', (StartClock clock nCycles (Returns k) :: m).
        subst t1. cbn [nCyclesRemain nCyclesBurst set_nCyclesRemain emit set_log log] in *.
        split; [exact E|]. split; [exact Hn|]. split; [exact Hb|]. split; [exact Hr|].
        split; [rewrite Hl, <- app_assoc; reflexivity|].
        split; [|split; [lia|rewrite Hnf at 1; reflexivity]].
        change (clocked (StartClock clock nCycles (Returns k) :: m))
          with (nC + clocked m). lia.
    + apply lookup_ge_None in Ei.
      replace (iClock <? length (aClocks t))%nat with false in Hf
        by (symmetry; apply Nat.ltb_ge; exact Ei).
      set (t1 := set_nCyclesRemain (nCyclesRemain t - 0) t).
      destruct (IH 0%nat 0 t1 Hp)
        as (n & t' & m & E & Hn & Hb & Hr & Hl & Hm & Hle & Hnf).
      * exact Hc.
      * subst t1. cbn [nCyclesRemain set_nCyclesRemain aClocks].
        replace (0 <? length (aClocks t))%nat with true
          by (symmetry; apply Nat.ltb_lt; destruct (aClocks t);
              [contradiction|cbn; lia]).
        lia.
      * exists n, t', m.
        subst t1. cbn [nCyclesRemain nCyclesBurst set_nCyclesRemain log] in *.
        split; [exact E|]. split; [exact Hn|]. split; [exact Hb|]. split; [exact Hr|].
        split; [exact Hl|]. split; [lia|]. split; [lia|rewrite Hnf at 1; reflexivity].
  - exists (nCyclesBurst t - nCyclesRemain t), t, [].
    split; [reflexivity|]. split; [reflexivity|]. split; [reflexivity|].
    split; [exact Hneg|]. split; [rewrite app_nil_r; reflexivity|].
    split; [cbn; lia|]. split; [lia|destruct t; reflexivity].
Qed.

Lemma doBurst_polite fuel nCycles t :
  polite h -> (2 * Z.to_nat nCycles + 1 < fuel)%nat ->
  exists n t' m,
    doBurst h fuel nCycles t = Ok n t' /\
    nCycles <= n /\
    n = nCyclesBurst t' - nCyclesRemain t' /\ nCyclesRemain t' <= 0 /\
    log t' = log t ++ m /\
    (aClocks t <> [] -> n = clocked m) /\
    t' = set_nCyclesRemain (nCyclesRemain t')
           (set_nCyclesBurst nCycles (set_log (log t') t)).
Proof.
  intros Hp Hf. unfold doBurst. cbv zeta.
  cbn [aClocks set_nCyclesRemain set_nCyclesBurst].
  destruct (aClocks t) as [|clock clocks] eqn:Ec.
  - eexists _, _, []. split; [reflexivity|].
    cbn [nCyclesBurst nCyclesRemain set_nCyclesRemain set_nCyclesBurst log].
    rewrite app_nil_r. repeat split; try lia. intros H. contradiction.
  - set (t0 := set_nCyclesRemain nCycles (set_nCyclesBurst nCycles t)).
    destruct (doBurstLoop_polite fuel 0%nat nCycles t0 Hp)
      as (n & t' & m & E & Hn & Hb & Hr & Hl & Hm & Hle & Hnf).
    + subst t0. cbn [aClocks set_nCyclesRemain set_nCyclesBurst]. rewrite Ec. discriminate.
    + subst t0. cbn [aClocks nCyclesRemain set_nCyclesRemain set_nCyclesBurst].
      rewrite Ec. cbn [length Nat.ltb Nat.leb]. lia.
    + exists n, t', m. subst t0.
      cbn [nCyclesBurst nCyclesRemain set_nCyclesRemain set_nCyclesBurst log] in *.
      split; [exact E|].
      repeat split; first [lia|exact Hl|intros _; lia|rewrite Hnf at 1; reflexivity].
Qed.

(** X16.  With clocks that return counts that are not negative,
    [doBurst(nCycles)] returns within two turns of its loop for each cycle
    asked for; it never executes fewer cycles than it was asked for; what
    it returns is what its clocks reported (a report of 0 counting as 1);
    and nothing remains of the burst. *)
Theorem doBurst_executes fuel nCycles t :
  polite h -> (2 * Z.to_nat nCycles + 1 < fuel)%nat ->
  exists n t' m,
    doBurst h fuel nCycles t = Ok n t' /\
    nCycles <= n /\
    n = nCyclesBurst t' - nCyclesRemain t' /\ nCyclesRemain t' <= 0 /\
    log t' = log t ++ m /\
    (aClocks t <> [] -> n = clocked m).
Proof.
  intros Hp Hf.
  destruct (doBurst_polite fuel nCycles t Hp Hf)
    as (n & t' & m & E & H1 & H2 & H3 & H4 & H5 & _).
  exists n, t', m. auto 10.
Qed.

(** *** The cycles counted *)

Lemma endBurst_getCycles getClock t :
  getCycles getClock (snd (endBurst None t)) = getCycles getClock t.
Proof.
  destruct (endBurst_eq None t) as (l & y & fy & d & _ & ->).
  unfold getCycles. cbn. lia.
Qed.

Lemma setTimer_getCycles getClock i ms r t :
  getCycles getClock (snd (setTimer i ms r t)) = getCycles getClock t.
Proof.
  unfold setTimer.
  destruct ((0 <? i) && (i <=? Z.of_nat (length (aTimers t)))); [|reflexivity].
  destruct (aTimers t !! Z.to_nat (i - 1)) as [tm|]; [|reflexivity].
  destruct (r || (nCyclesLeft tm <? 0)); [|reflexivity].
  destruct (fRunning t); [|reflexivity].
  pose proof (endBurst_getCycles getClock t) as H.
  destruct (endBurst None t) as [n t1]. cbn [snd] in *. exact H.
Qed.

Lemma logged_getCycles getClock t t' :
  logged t t' -> getCycles getClock t' = getCycles getClock t.
Proof. intros (l & _ & ->). reflexivity. Qed.

Lemma stop_getCycles getClock t :
  getCycles getClock (snd (stop t)) = getCycles getClock t.
Proof.
  unfold stop. destruct (fRunning t) eqn:Hrun.
  - cbv zeta.
    pose proof (endBurst_getCycles getClock (set_fRunning false t)) as H.
    destruct (endBurst None (set_fRunning false t)) as [n t1]. cbn [snd] in *.
    rewrite (logged_getCycles getClock _ _ (update_logged _ _)).
    unfold emit. split_ifs; exact H.
  - destruct (negb (nStepping t =? 0)); [|reflexivity]. cbn [snd].
    rewrite (logged_getCycles getClock _ _ (update_logged _ _)). reflexivity.
Qed.

Lemma start_getCycles getClock t :
  getCycles getClock (snd (start h t)) = getCycles getClock t.
Proof.
  unfold start. destruct (fRunning t || negb (nStepping t =? 0)); [reflexivity|].
  cbv zeta. unfold setTimeout, requestFrame, emit.
  split_ifs; open_update; reflexivity.
Qed.

Lemma addTimer_getCycles getClock i cb ms t :
  getCycles getClock (snd (addTimer i cb ms t)) = getCycles getClock t.
Proof.
  unfold addTimer. cbv zeta. cbn [snd]. destruct (Qleb 0 ms); [|reflexivity].
  rewrite setTimer_getCycles. reflexivity.
Qed.

(** X17.  The count of cycles that [getCycles()] reports, for given answers
    of the clocks, is not changed by the calls that control the scheduler:
    [endBurst()] without argument, [setTimer], [addTimer], [start] and
    [stop] move the cycles of the burst under way into the cycles of the
    life of the machine and lose none. *)
Theorem getCycles_conserved getClock t :
  getCycles getClock (snd (endBurst None t)) = getCycles getClock t /\
  (forall iTimer ms fReset,
     getCycles getClock (snd (setTimer iTimer ms fReset t)) = getCycles getClock t) /\
  (forall id cb msAuto,
     getCycles getClock (snd (addTimer id cb msAuto t)) = getCycles getClock t) /\
  getCycles getClock (snd (start h t)) = getCycles getClock t /\
  getCycles getClock (snd (stop t)) = getCycles getClock t.
Proof.
  split; [apply endBurst_getCycles|].
  split; [intros; apply setTimer_getCycles|].
  split; [intros; apply addTimer_getCycles|].
  split; [apply start_getCycles|apply stop_getCycles].
Qed.

(** *** Stepping *)

Ltac idle_here :=
  match goal with
  | |- exists l y fy ts, ?t' = _ =>
      exists (log t'), (nYields t'), (fYield t'), (aTimers t'); reflexivity
  end.

(** While the machine does not run, the timers change themselves, the
    yields and the log, and nothing else. *)
Lemma setTimer_idle i ms r t :
  fRunning t = false ->
  exists l y fy ts,
    snd (setTimer i ms r t)
    = set_log l (set_nYields y (set_fYield fy (set_aTimers ts t))).
Proof.
  intros Hrun. unfold setTimer. rewrite Hrun.
  destruct ((0 <? i) && (i <=? Z.of_nat (length (aTimers t))));
    [|destruct t; idle_here].
  destruct (aTimers t !! Z.to_nat (i - 1)) as [tm|]; [|destruct t; idle_here].
  destruct (r || (nCyclesLeft tm <? 0)); [|destruct t; idle_here].
  cbn [snd]. idle_here.
Qed.

Lemma setTimers_idle (calls : list (Z * Q * bool)) t : forall t1,
  fRunning t = false ->
  (exists l y fy ts,
     t1 = set_log l (set_nYields y (set_fYield fy (set_aTimers ts t)))) ->
  exists l y fy ts,
    fold_left (fun t '(iTimer, ms, fReset) => snd (setTimer iTimer ms fReset t))
      calls t1
    = set_log l (set_nYields y (set_fYield fy (set_aTimers ts t))).
Proof.
  induction calls as [|[[i ms] r] calls IH]; intros t1 Hrun H1; [exact H1|].
  cbn [fold_left]. apply IH; [exact Hrun|].
  destruct H1 as (l & y & fy & ts & ->).
  destruct (setTimer_idle i ms r
              (set_log l (set_nYields y (set_fYield fy (set_aTimers ts t)))) Hrun)
    as (l' & y' & fy' & ts' & ->).
  idle_here.
Qed.

Lemma notifyTimer_idle n t i :
  fRunning t = false ->
  exists l y fy ts,
    notifyTimer h n t i = set_log l (set_nYields y (set_fYield fy (set_aTimers ts t))).
Proof.
  intros Hrun. unfold notifyTimer.
  destruct (aTimers t !! Z.to_nat (i - 1)) as [tm|]; [|destruct t; idle_here].
  destruct (nCyclesLeft tm <? 0); [destruct t; idle_here|]. cbv zeta.
  destruct (nCyclesLeft tm - n <=? 0); [|idle_here].
  match goal with
  | |- context [invoke h (callBack tm) ?x] =>
      assert (Hy : exists l y fy ts,
                invoke h (callBack tm) x
                = set_log l (set_nYields y (set_fYield fy (set_aTimers ts t))))
  end.
  { unfold invoke. cbv zeta. destruct (callBack tm).
    - open_yield. unfold emit. idle_here.
    - apply setTimers_idle; [exact Hrun|]. unfold emit. idle_here. }
  destruct Hy as (l & y & fy & ts & ->).
  destruct (Qleb 0 (msAuto tm)); [|idle_here].
  match goal with
  | |- context [setTimer i (msAuto tm) false ?x] =>
      destruct (setTimer_idle i (msAuto tm) false x Hrun) as (l' & y' & fy' & ts' & ->)
  end.
  idle_here.
Qed.

Lemma notifyTimers_idle n t :
  fRunning t = false ->
  exists l y fy ts,
    notifyTimers h n t = set_log l (set_nYields y (set_fYield fy (set_aTimers ts t))).
Proof.
  intros Hrun. unfold notifyTimers. destruct (1 <=? n); [|destruct t; idle_here].
  generalize (timerIndices t). intros ids.
  assert (H : forall t1,
            (exists l y fy ts,
               t1 = set_log l (set_nYields y (set_fYield fy (set_aTimers ts t)))) ->
            exists l y fy ts,
              fold_left (notifyTimer h n) ids t1
              = set_log l (set_nYields y (set_fYield fy (set_aTimers ts t)))).
  { induction ids as [|i ids IH]; intros t1 H1; [exact H1|]. cbn [fold_left].
    apply IH. destruct H1 as (l & y & fy & ts & ->).
    destruct (notifyTimer_idle n
                (set_log l (set_nYields y (set_fYield fy (set_aTimers ts t)))) i Hrun)
      as (l' & y' & fy' & ts' & ->).
    idle_here. }
  apply H. destruct t; idle_here.
Qed.

(** X18.  A call of [step] on a machine that does not run, with clocks
    that return counts that are not negative: when there are steps to go
    (the repeat count, or the steps left of an earlier request), it
    executes one burst of at least one cycle, counts one step down and
    leaves the machine not running; it asks for another call, by a timeout
    that is the last call in the log, when steps remain, and leaves the
    timeout alone when it was the last step.  A negative count never
    reaches zero.  When there is no step to go it returns true and changes
    nothing. *)
Theorem step_counts_down fuel nRepeat t :
  polite h -> (3 < fuel)%nat -> fRunning t = false ->
  let steps :=
    if negb (nRepeat =? 0) && (nStepping t =? 0) then nRepeat else nStepping t in
  (steps = 0 -> step h fuel nRepeat t = Ok true t) /\
  (steps <> 0 ->
   exists n t',
     step h fuel nRepeat t = Ok true t' /\
     1 <= n /\ nCyclesLife t' = nCyclesLife t + n /\
     nStepping t' = steps - 1 /\ fRunning t' = false /\
     (steps < 0 -> nStepping t' < 0) /\
     if steps - 1 =? 0 then idStepTimeout t' = idStepTimeout t
     else last (log t') = Some (SetTimeout onStepTimeout 0 (idStepTimeout t'))).
Proof.
  intros Hp Hf Hrun. cbv zeta.
  set (steps := if negb (nRepeat =? 0) && (nStepping t =? 0)
                then nRepeat else nStepping t).
  assert (Ha : (if negb (nRepeat =? 0) && (nStepping t =? 0)
                then set_nStepping nRepeat t else t) = set_nStepping steps t).
  { subst steps. destruct (negb (nRepeat =? 0) && (nStepping t =? 0));
      [reflexivity|destruct t; reflexivity]. }
  assert (Hz : steps = 0 -> nStepping t = 0).
  { subst steps. destruct (Z.eqb_spec nRepeat 0), (Z.eqb_spec (nStepping t) 0);
      cbn [negb andb]; lia. }
  clearbody steps.
  unfold step. rewrite Hrun. cbn [negb]. cbv zeta. rewrite Ha.
  cbn [nStepping set_nStepping]. split.
  - intros E0. specialize (Hz E0). rewrite E0. cbn [Z.eqb negb].
    destruct t; cbn in Hz |- *. rewrite Hz. reflexivity.
  - intros Hne. replace (steps =? 0) with false by lia. cbn [negb].
    unfold burst, getCyclesPerRun. cbn [Z.eqb negb].
    match goal with
    | |- context [doBurst h fuel 1 ?x] =>
        destruct (doBurst_polite fuel 1 x Hp ltac:(lia))
          as (n & t1 & m & E & Hn1 & _ & _ & _ & _ & Hnf);
        rewrite E; rewrite Hnf; clear E Hnf
    end.
    match goal with
    | |- context [endBurst (Some n) ?x] =>
        destruct (endBurst_eq (Some n) x) as (l & y & fy & d & _ & E);
        cbv zeta in E; rewrite E; clear E
    end.
    match goal with
    | |- context [notifyTimers h n ?x] =>
        destruct (notifyTimers_idle n x Hrun) as (l2 & y2 & fy2 & ts2 & E);
        rewrite E; clear E
    end.
    open_update.
    cbn [nStepping set_log set_nYields set_fYield set_aTimers set_nCyclesDeposited
         set_nCyclesLife set_nCyclesRun set_nCyclesThisRun set_nCyclesRemain
         set_nCyclesBurst set_nStepping].
    unfold setTimeout, emit.
    destruct (Z.eqb_spec (steps - 1) 0) as [E0|E0]; cbn [negb];
      eexists n, _; (split; [reflexivity|]); cbn;
      repeat split; try lia; try assumption.
    apply last_snoc.
Qed.

(** *** The rates *)

Lemma getBounded_range n min max :
  (min <= max)%Q -> (min <= getBounded n min max <= max)%Q.
Proof.
  intros Hmm. unfold getBounded, Qltb. cbv zeta.
  destruct (Qle_bool min n) eqn:E1; cbn [negb].
  - apply Qle_bool_iff in E1.
    destruct (Qle_bool n max) eqn:E2; cbn [negb].
    + apply Qle_bool_iff in E2. split; assumption.
    + split; [exact Hmm|apply Qle_refl].
  - destruct (Qle_bool min max) eqn:E2; cbn [negb].
    + split; [apply Qle_refl|exact Hmm].
    + split; [exact Hmm|apply Qle_refl].
Qed.

Lemma steady_refl t : steady t t.
Proof. repeat split. left. reflexivity. Qed.

Lemma steady_trans t1 t2 t3 : steady t1 t2 -> steady t2 t3 -> steady t1 t3.
Proof.
  intros (A1 & A2 & A3 & A4) (B1 & B2 & B3 & B4).
  split; [congruence|]. split; [congruence|]. split; [congruence|].
  destruct B4 as [B4|B4]; [|right; exact B4].
  destruct A4 as [A4|A4]; [left; congruence|].
  right. rewrite B4, B3. exact A4.
Qed.

Lemma steady_same t t' :
  nYieldsPerSecond t' = nYieldsPerSecond t ->
  nYieldsPerUpdate t' = nYieldsPerUpdate t ->
  nTargetMultiplier t' = nTargetMultiplier t ->
  nCurrentMultiplier t' = nCurrentMultiplier t ->
  steady t t'.
Proof. intros. repeat split; auto. Qed.

Lemma steady_sane t t' : sane t -> steady t t' -> sane t'.
Proof.
  intros (S1 & S2 & S3) (A1 & A2 & A3 & A4). unfold sane.
  rewrite A1, A2. split; [exact S1|]. split; [exact S2|].
  destruct A4 as [A4|A4]; [rewrite A4, A3; exact S3|exact A4].
Qed.

Lemma touched_steady t t' : touched t t' -> steady t t'.
Proof.
  intros (l & y & fy & d & life & run & thisRun & remain & burst & ts & ->).
  apply steady_same; reflexivity.
Qed.

Lemma logged_steady t t' : logged t t' -> steady t t'.
Proof. intros H. apply touched_steady, logged_touched, H. Qed.

Lemma after_steady {A} t1 t2 (r : result A) :
  steady t1 t2 -> after (steady t2) r -> after (steady t1) r.
Proof. destruct r; cbn; eauto using steady_trans. Qed.

Lemma calcCycles_capped t :
  nYieldsPerSecond (calcCycles t) = nYieldsPerSecond t /\
  nYieldsPerUpdate (calcCycles t) = nYieldsPerUpdate t /\
  nTargetMultiplier (calcCycles t) = nTargetMultiplier t /\
  (nCurrentMultiplier (calcCycles t) <= nTargetMultiplier (calcCycles t))%Q.
Proof.
  unfold calcCycles. cbv zeta. repeat split.
  cbn [nCurrentMultiplier nTargetMultiplier set_nCurrentMultiplier set_nCyclesPerYield].
  generalize (fdiv (mhzCurrent t) (mhzBase t)). intros m.
  destruct (Qeqb m 0); cbn [orb]; [apply Qle_refl|].
  unfold Qltb. destruct (Qle_bool m (nTargetMultiplier t)) eqn:E;
    cbn [negb]; [apply Qle_bool_iff, E|apply Qle_refl].
Qed.

Lemma calcCycles_steady t : steady t (calcCycles t).
Proof. destruct (calcCycles_capped t) as (H1 & H2 & H3 & H4). repeat split; auto. Qed.

Lemma resetTimers_steady t : steady t (resetTimers t).
Proof.
  apply touched_steady. unfold resetTimers. apply fold_touched.
  intros t' i. destruct (aTimers t' !! Z.to_nat (i - 1)) as [tm|];
    [|apply touched_refl].
  destruct (Qleb 0 (msAuto tm)); [apply setTimer_touched|apply touched_refl].
Qed.

(** [setSpeed] may move the target; it computes the current multiplier
    anew. *)
Lemma setSpeed_sane nMultiplier t : sane t -> sane (snd (setSpeed nMultiplier t)).
Proof.
  intros Hs. unfold setSpeed.
  match goal with
  | |- sane (snd (let '(a, b) := ?x in _)) =>
      assert (Hx : nYieldsPerSecond (snd x) = nYieldsPerSecond t /\
                   nYieldsPerUpdate (snd x) = nYieldsPerUpdate t);
      [|destruct x as [fSuccess t1]]
  end.
  { destruct nMultiplier; [|split; reflexivity]. cbv zeta. unfold setBindingText, emit.
    split_ifs; split; reflexivity. }
  cbn [snd] in *. cbv zeta. destruct Hx as [X1 X2].
  eapply steady_sane; [|apply resetTimers_steady].
  match goal with
  | |- sane (calcCycles ?x) =>
      assert (Y : nYieldsPerSecond x = nYieldsPerSecond t /\
                  nYieldsPerUpdate x = nYieldsPerUpdate t)
        by (destruct (fClockByFrame t1); split; assumption);
      generalize (calcCycles_capped x); generalize (calcCycles x); revert Y;
      generalize x
  end.
  intros x [Y1 Y2] c (C1 & C2 & C3 & C4).
  destruct Hs as (S1 & S2 & _). unfold sane.
  rewrite C1, C2, Y1, Y2. split; [exact S1|]. split; [exact S2|exact C4].
Qed.

Lemma setSpeedThrottle_sane t : sane t -> sane (snd (setSpeedThrottle t)).
Proof.
  intros Hs. unfold setSpeedThrottle. destruct (throttle t) as [[[v mn] mx]|];
    [|exact Hs].
  cbv zeta.
  match goal with
  | |- context [setSpeed ?m t] =>
      generalize (setSpeed_sane m t Hs); generalize (setSpeed m t)
  end.
  intros p Hp. exact (Hp : sane (snd (true, snd p))).
Qed.

Lemma resetSpeed_sane t : sane t -> sane (resetSpeed t).
Proof.
  intros Hs. unfold resetSpeed. cbv zeta.
  match goal with
  | |- sane (let '(a, b) := setSpeedThrottle ?x in _) =>
      assert (Hx0 : sane x) by exact Hs;
      pose proof (setSpeedThrottle_sane x Hx0) as Hx;
      destruct (setSpeedThrottle x) as [found t1]
  end.
  cbn [snd] in Hx. destruct (negb found); [|exact Hx].
  apply setSpeed_sane, Hx.
Qed.

Lemma addTimer_steady i cb ms t : steady t (snd (addTimer i cb ms t)).
Proof.
  unfold addTimer. cbv zeta. cbn [snd].
  destruct (Qleb 0 ms); [|apply steady_same; reflexivity].
  eapply steady_trans; [|apply touched_steady, setTimer_touched].
  apply steady_same; reflexivity.
Qed.

Lemma new_sane cfg : sane (new cfg).
Proof.
  unfold new. cbv zeta.
  apply resetSpeed_sane.
  match goal with
  | |- sane (if ?c then ?x else snd (addTimer ?i ?cb ?ms ?x)) =>
      assert (Hx : sane x);
      [|revert Hx; generalize x; intros x0 Hx0;
        destruct c; [exact Hx0|exact (steady_sane _ _ Hx0 (addTimer_steady i cb ms x0))]]
  end.
  unfold sane.
  cbn [nYieldsPerSecond nYieldsPerUpdate nCurrentMultiplier nTargetMultiplier].
  assert (H1 : (30 <= getBounded (default YIELDS_PER_SECOND (yieldsPerSecond cfg)) 30 120
                <= 120)%Q) by (apply getBounded_range; discriminate).
  split; [exact H1|]. split; [|apply Qle_refl].
  apply getBounded_range. eapply Qle_trans; [|apply H1]. discriminate.
Qed.


Lemma startRun_steady t : steady t (startRun h t).
Proof.
  unfold startRun. cbv zeta.
  generalize (calcCycles_steady t). generalize (calcCycles t). intros c Hc.
  eapply steady_trans; [exact Hc|]. unfold emit.
  split_ifs; apply steady_same; reflexivity.
Qed.

Lemma stopRun_steady t : steady t (snd (stopRun h t)).
Proof.
  unfold stopRun, calcSpeed, println, emit. cbv zeta.
  split_ifs; cbn [snd]; apply steady_same; reflexivity.
Qed.

Lemma start_steady t : steady t (snd (start h t)).
Proof.
  unfold start. destruct (fRunning t || negb (nStepping t =? 0));
    [apply steady_refl|].
  cbv zeta. unfold setTimeout, requestFrame, emit.
  split_ifs; open_update; apply steady_same; reflexivity.
Qed.

Lemma stop_steady t : steady t (snd (stop t)).
Proof.
  unfold stop. destruct (fRunning t).
  - cbv zeta.
    destruct (endBurst_eq None (set_fRunning false t)) as (l & y & fy & d & _ & ->).
    cbn [snd]. unfold emit. split_ifs; open_update; apply steady_same; reflexivity.
  - destruct (negb (nStepping t =? 0)); [|apply steady_refl].
    cbn [snd]. open_update. apply steady_same; reflexivity.
Qed.

Lemma step_steady fuel nRepeat t : after (steady t) (step h fuel nRepeat t).
Proof.
  unfold step. destruct (negb (fRunning t)); [|apply steady_refl]. cbv zeta.
  match goal with
  | |- context [if negb (nStepping ?x =? 0) then _ else _] =>
      assert (Hx : steady t x) by (split_ifs; apply steady_same; reflexivity);
      revert Hx; generalize x
  end.
  intros x Hx.
  destruct (negb (nStepping x =? 0)); [|exact Hx].
  match goal with
  | |- context [burst h fuel true 1 ?y] =>
      pose proof (burst_touched fuel true 1 y) as Hb;
      assert (Hy : steady t y)
        by (eapply steady_trans; [exact Hx|]; apply steady_same; reflexivity);
      destruct (burst h fuel true 1 y) as [[] t1|e t1|]
  end; cbn [after] in Hb; [| |exact I].
  - apply touched_steady in Hb. pose proof (steady_trans _ _ _ Hy Hb) as H1.
    revert H1. generalize t1. intros t2 H2.
    open_update. unfold setTimeout, emit.
    split_ifs; cbn [after]; (eapply steady_trans; [exact H2|]);
      apply steady_same; reflexivity.
  - cbn [after]. apply touched_steady in Hb. exact (steady_trans _ _ _ Hy Hb).
Qed.

Lemma runCycles_steady fuel fAnimation t :
  after (steady t) (runCycles h fuel fAnimation t).
Proof.
  unfold runCycles. cbv zeta.
  assert (H0 : steady t (set_fYield false (startRun h t))).
  { eapply steady_trans; [apply startRun_steady|].
    generalize (startRun h t). intros x. apply steady_same; reflexivity. }
  pose proof (runLoop_touched fAnimation fuel (set_fYield false (startRun h t)))
    as H1.
  destruct (runLoop h fuel fAnimation _) as [[] t1|e t1|]; cbn [after] in H1;
    [| |exact I].
  - pose proof (stopRun_steady t1) as R.
    destruct (stopRun h t1) as [ms t2]. cbn [snd after] in *.
    eapply steady_trans; [exact H0|].
    eapply steady_trans; [apply touched_steady, H1|exact R].
  - set (t1' := println (ErrorMessage e) t1).
    pose proof (stopRun_steady (snd (stop t1'))) as R.
    destruct (stopRun h (snd (stop t1'))) as [ms t2]. cbn [snd after] in *.
    eapply steady_trans; [exact H0|].
    eapply steady_trans; [apply touched_steady, H1|].
    eapply steady_trans; [|exact R].
    eapply steady_trans; [|apply stop_steady].
    apply steady_same; reflexivity.
Qed.

Lemma animate_steady fuel t : after (steady t) (animate h fuel t).
Proof.
  unfold animate. cbv zeta.
  assert (Hc : forall t1, steady t t1 ->
             after (steady t)
               (let t2 := fold_left (fun t f => emit (Animation f) t)
                            (aAnimations t1) t1 in
                if fRunning t2 && fRequestAnimationFrame t2
                then let '(i, t3) := requestFrame h t2 in Ok tt (set_idAnimation i t3)
                else Ok tt t2)).
  { intros t1 H1. cbv zeta.
    destruct (logged_fold Animation (aAnimations t1) (fun _ => I) t1)
      as (l & _ & ->).
    unfold requestFrame, emit. split_ifs; cbn [after];
      (eapply steady_trans; [exact H1|]); apply steady_same; reflexivity. }
  destruct (fClockByFrame t); [|apply Hc, steady_refl].
  destruct (negb (fRunning (set_idAnimation 0 t)));
    [cbn [after]; apply steady_same; reflexivity|].
  pose proof (runCycles_steady fuel true (set_idAnimation 0 t)) as H1.
  destruct (runCycles h fuel true (set_idAnimation 0 t)) as [ms t1|e t1|];
    cbn [after] in H1; [| |exact I].
  - apply Hc. eapply steady_trans; [|exact H1]. apply steady_same; reflexivity.
  - cbn [after]. eapply steady_trans; [|exact H1]. apply steady_same; reflexivity.
Qed.

Lemma run_steady fuel t : after (steady t) (run h fuel t).
Proof.
  unfold run. cbv zeta.
  destruct (negb (fRunning (set_idRunTimeout 0 t)));
    [cbn [after]; apply steady_same; reflexivity|].
  pose proof (runCycles_steady fuel false (set_idRunTimeout 0 t)) as H1.
  assert (H0 : steady t (set_idRunTimeout 0 t)) by (apply steady_same; reflexivity).
  destruct (runCycles h fuel false (set_idRunTimeout 0 t)) as [ms t1|e t1|];
    cbn [after] in H1; [| |exact I].
  - destruct (fRunning t1); [|exact (steady_trans _ _ _ H0 H1)].
    unfold setTimeout, emit.
    match goal with
    | |- context [animate h fuel ?x] =>
        assert (Hx : steady t x)
          by (eapply steady_trans; [exact (steady_trans _ _ _ H0 H1)|];
              apply steady_same; reflexivity);
        pose proof (animate_steady fuel x) as Ha;
        destruct (negb (fRequestAnimationFrame x))
    end.
    + exact (after_steady _ _ _ Hx Ha).
    + exact Hx.
  - exact (steady_trans _ _ _ H0 H1).
Qed.

Lemma reachable_sane t : reachable h t -> sane t.
Proof.
  induction 1 as [cfg|c t _ IH|i f ms t _ IH|d t _ IH|f t _ IH|i ms r t _ IH
                 |m t _ IH|t _ IH|t _ IH|fuel n t t' _ IH Hf|fuel t t' _ IH Hf
                 |fuel t t' _ IH Hf].
  - apply new_sane.
  - exact IH.
  - exact (steady_sane _ _ IH (addTimer_steady _ _ _ _)).
  - exact IH.
  - exact IH.
  - exact (steady_sane _ _ IH (touched_steady _ _ (setTimer_touched _ _ _ _))).
  - apply setSpeed_sane, IH.
  - exact (steady_sane _ _ IH (start_steady _)).
  - exact (steady_sane _ _ IH (stop_steady _)).
  - pose proof (step_steady fuel n t) as Hs.
    destruct (step h fuel n t) as [r t1|e t1|]; cbn [final after] in *;
      [| |discriminate]; injection Hf as <-; exact (steady_sane _ _ IH Hs).
  - pose proof (run_steady fuel t) as Hs.
    destruct (run h fuel t) as [r t1|e t1|]; cbn [final after] in *;
      [| |discriminate]; injection Hf as <-; exact (steady_sane _ _ IH Hs).
  - pose proof (animate_steady fuel t) as Hs.
    destruct (animate h fuel t) as [r t1|e t1|]; cbn [final after] in *;
      [| |discriminate]; injection Hf as <-; exact (steady_sane _ _ IH Hs).
Qed.

(** X20.  In every state that the operations of the scheduler reach from a
    new one, whatever the configuration and whatever the callbacks of the
    timers do, the yields per second are within 30 and 120, the yields per
    update within 1 and the yields per second, and the current speed
    multiplier does not exceed the target multiplier. *)
Theorem rates_stay_sane t :
  reachable h t ->
  (30 <= nYieldsPerSecond t <= 120)%Q /\
  (1 <= nYieldsPerUpdate t <= nYieldsPerSecond t)%Q /\
  (nCurrentMultiplier t <= nTargetMultiplier t)%Q.
Proof. intros Hr. exact (reachable_sane t Hr). Qed.

(** More cycles per second, a higher multiplier or more milliseconds never
    give fewer cycles: every step of the conversion keeps the order. *)
Lemma cyclesAt_mono cps m1 m2 ms :
  (0 <= cps)%Q -> (0 <= ms)%Q -> (m1 <= m2)%Q ->
  cyclesAt cps m1 ms <= cyclesAt cps m2 ms.
Proof.
  intros Hc Hms Hm. unfold cyclesAt. apply Qceiling_resp_le, fl_mono.
  apply Qmult_le_compat_r; [|exact Hms]. apply fl_mono.
  unfold Qdiv. apply Qmult_le_compat_r; [|discriminate]. apply fl_mono.
  rewrite !(Qmult_comm cps). apply Qmult_le_compat_r; assumption.
Qed.

(** X23.  The scheduler never budgets more cycles than its target speed
    allows: in every state that its operations reach from a new one, with
    cycles per second that are not negative, [getCyclesPerMS(ms)] for
    [ms >= 0], which converts at the current multiplier, is at most the
    cycles of [ms] milliseconds at the target multiplier.  The roundings of
    the double arithmetic do not break this, because each keeps the
    order. *)
Theorem budget_within_target t ms :
  reachable h t -> (0 <= nCyclesPerSecond t)%Q -> (0 <= ms)%Q ->
  getCyclesPerMS ms t <= cyclesAt (nCyclesPerSecond t) (nTargetMultiplier t) ms.
Proof.
  intros Hr Hc Hms. destruct (reachable_sane t Hr) as (_ & _ & S3).
  rewrite getCyclesPerMS_cyclesAt. apply cyclesAt_mono; assumption.
Qed.

(** *** The delay until the next run *)

Lemma stopRun_delay t : (0 <= fst (stopRun h t))%Q.
Proof.
  unfold stopRun. cbv zeta.
  match goal with
  | |- context [if Qltb ?x 0 && Qltb 1 ?y then _ else _] =>
      generalize x; intros msRemains
  end.
  unfold Qltb.
  destruct (Qle_bool 0 msRemains) eqn:E; cbn [negb andb].
  - apply Qle_bool_iff in E. split_ifs; cbn [fst]; first [exact E|apply Qle_refl].
  - split_ifs; cbn [fst]; apply Qle_refl.
Qed.

(** X21.  The delay that [stopRun] returns, and that [runCycles] passes on
    to [setTimeout], is never negative, whatever the clock of the host
    reads and also when an exception has ended the run. *)
Theorem runCycles_delay fuel fAnimation t :
  (0 <= fst (stopRun h t))%Q /\
  match runCycles h fuel fAnimation t with
  | Ok ms _ => (0 <= ms)%Q
  | _ => True
  end.
Proof.
  split; [apply stopRun_delay|].
  unfold runCycles. cbv zeta.
  destruct (runLoop h fuel fAnimation _) as [[] t1|e t1|]; [| |exact I].
  - pose proof (stopRun_delay t1) as H.
    destruct (stopRun h t1) as [ms t2]. exact H.
  - match goal with
    | |- context [stopRun h ?x] =>
        pose proof (stopRun_delay x) as H; destruct (stopRun h x) as [ms t2]
    end.
    exact H.
Qed.

End TimeFacts.


(** *** The scheduler of the examples *)



Example machine_yield_timer :
  map Time.nCyclesLeft (Time.aTimers Examples.machine) = [5200] /\
  map Time.nCyclesLeft
    (Time.aTimers
       (Time.notifyTimers Examples.exactHost 6000
          (snd (Time.endBurst (Some 6000) Examples.machine))))
  = [5200] /\
  map Time.nCyclesLeft
    (Time.aTimers
       (Time.notifyTimers Examples.exactHost 1000
          (snd (Time.endBurst (Some 1000) Examples.machine))))
  = [4200] /\
  Time.callbacks
    (Time.log
       (Time.notifyTimers Examples.exactHost 6000
          (snd (Time.endBurst (Some 6000) Examples.machine))))
  = [Time.onYield].
Proof. vm_compute. repeat split. Qed.

(** The conversion of milliseconds to cycles rounds as doubles do: at
    128080 cycles per second, 25 milliseconds are 3202 cycles exactly, and
    3203 cycles as [getCyclesPerMS] computes them. *)
Example getCyclesPerMS_rounds :
  let t :=
    Time.new (Time.mkConfig None None (Some 128080%Q) (Some 40%Q) None None None) in
  Time.nCyclesPerSecond t = 128080%Q /\ Time.nCurrentMultiplier t = 1%Q /\
  Time.getCyclesPerMS 25 t = 3203 /\
  Qceiling (128080 * 1 / 1000 * 25) = 3202.
Proof. vm_compute. repeat split; reflexivity. Qed.


(** C8, on [faultyMachine]: clock 0 executes 100 cycles, clock 1 throws;
    the 100 cycles are counted. *)
Lemma runCycles_catches_witness :
  Time.fRunning Examples.faultyMachine = true /\
  Time.runLoop Examples.faultyHost 5 false
    (Time.set_fYield false (Time.startRun Examples.faultyHost Examples.faultyMachine))
  = Time.Throw 7 Examples.faultyState /\
  exists ms t2,
    Time.runCycles Examples.faultyHost 5 false Examples.faultyMachine = Time.Ok ms t2 /\
    In (Time.Print (Time.ErrorMessage 7)) (Time.log t2) /\
    Time.fRunning t2 = false /\
    Time.nCyclesLife t2 = 100 /\
    Time.nCyclesThisRun t2 = 100.
Proof.
  assert (Hrun : Time.fRunning Examples.faultyMachine = true)
    by (vm_compute; reflexivity).
  assert (Hloop :
    Time.runLoop Examples.faultyHost 5 false
      (Time.set_fYield false
         (Time.startRun Examples.faultyHost Examples.faultyMachine))
    = Time.Throw 7 Examples.faultyState) by (vm_compute; reflexivity).
  split; [exact Hrun|]. split; [exact Hloop|].
  destruct (runCycles_catches Examples.faultyHost 5 false Examples.faultyMachine Hrun)
    as [_ H].
  destruct (H 7%nat Examples.faultyState Hloop)
    as (_ & ms & t2 & H1 & H2 & H3 & H4 & H5).
  exists ms, t2. split; [exact H1|]. split; [exact H2|]. split; [exact H3|].
  split; [rewrite H4|rewrite H5]; vm_compute; reflexivity.
Defined.

(** C9, on [faultyMachine], which runs. *)
Lemma running_stepping_exclusive_witness :
  Time.reachable Examples.faultyHost Examples.faultyMachine /\
  Time.nStepping Examples.faultyMachine = 0 /\
  fst (Time.start Examples.faultyHost Examples.faultyMachine) = false /\
  fst (Time.stop Examples.faultyMachine) = true /\
  Time.fRunning (snd (Time.stop Examples.faultyMachine)) = false /\
  Time.nStepping (snd (Time.stop Examples.faultyMachine)) = 0.
Proof.
  assert (Hr : Time.reachable Examples.faultyHost Examples.faultyMachine).
  { apply Time.reach_start, Time.reach_addClock, Time.reach_addClock,
      Time.reach_new. }
  assert (Hrun : Time.fRunning Examples.faultyMachine = true)
    by (vm_compute; reflexivity).
  destruct (running_stepping_exclusive Examples.faultyHost Examples.faultyMachine Hr)
    as (H1 & _ & H2 & _ & _ & H3 & H4 & H5).
  split; [exact Hr|]. split; [exact (H1 Hrun)|]. split; [|split; [|split]].
  - destruct (fst (Time.start Examples.faultyHost Examples.faultyMachine));
      [|reflexivity].
    destruct (proj1 H2 eq_refl) as [H _]. rewrite Hrun in H. discriminate H.
  - apply H3. left. exact Hrun.
  - exact H4.
  - exact H5.
Defined.
(** *** The extra properties of the scheduler, on the examples *)

Lemma exactHost_polite : Time.polite Examples.exactHost.
Proof. intros l clock n. eexists. split; [reflexivity|]. lia. Qed.

Lemma exactHost_exact : Time.exact Examples.exactHost.
Proof. intros l clock n Hn. cbn. f_equal. lia. Qed.

(** X16, on [machine] with one clock: a burst of 100 cycles. *)
Lemma doBurst_executes_witness :
  Time.polite Examples.exactHost /\ (2 * Z.to_nat 100 + 1 < 300)%nat /\
  exists n t' m,
    Time.doBurst Examples.exactHost 300 100 (Time.addClock 0 Examples.machine)
    = Time.Ok n t' /\
    100 <= n /\
    n = Time.nCyclesBurst t' - Time.nCyclesRemain t' /\ Time.nCyclesRemain t' <= 0 /\
    Time.log t' = Time.log (Time.addClock 0 Examples.machine) ++ m /\
    (Time.aClocks (Time.addClock 0 Examples.machine) <> [] -> n = Time.clocked m).
Proof.
  split; [exact exactHost_polite|]. split; [cbn; lia|].
  apply (doBurst_executes Examples.exactHost 300 100 (Time.addClock 0 Examples.machine)
           exactHost_polite).
  cbn. lia.
Defined.

(** X18, on [machine] with one clock: a request of two steps. *)
Lemma step_counts_down_witness :
  Time.polite Examples.exactHost /\ (3 < 4)%nat /\
  Time.fRunning (Time.addClock 0 Examples.machine) = false /\
  let t := Time.addClock 0 Examples.machine in
  let steps :=
    if negb (2 =? 0) && (Time.nStepping t =? 0) then 2 else Time.nStepping t in
  (steps = 0 -> Time.step Examples.exactHost 4 2 t = Time.Ok true t) /\
  (steps <> 0 ->
   exists n t',
     Time.step Examples.exactHost 4 2 t = Time.Ok true t' /\
     1 <= n /\ Time.nCyclesLife t' = Time.nCyclesLife t + n /\
     Time.nStepping t' = steps - 1 /\ Time.fRunning t' = false /\
     (steps < 0 -> Time.nStepping t' < 0) /\
     if steps - 1 =? 0 then Time.idStepTimeout t' = Time.idStepTimeout t
     else last (Time.log t')
          = Some (Time.SetTimeout Time.onStepTimeout 0 (Time.idStepTimeout t'))).
Proof.
  split; [exact exactHost_polite|]. split; [lia|]. split; [reflexivity|].
  exact (step_counts_down Examples.exactHost 4 2 (Time.addClock 0 Examples.machine)
           exactHost_polite ltac:(lia) eq_refl).
Defined.

(** The first of the two steps asks for the second, which asks for none. *)
Example two_steps :
  match Time.step Examples.exactHost 4 2 (Time.addClock 0 Examples.machine) with
  | Time.Ok true t1 =>
      Time.nStepping t1 = 1 /\
      match Time.step Examples.exactHost 4 0 t1 with
      | Time.Ok true t2 =>
          Time.nStepping t2 = 0 /\ Time.idStepTimeout t2 = Time.idStepTimeout t1 /\
          Time.nCyclesLife t2 = 2
      | _ => False
      end
  | _ => False
  end.
Proof. vm_compute. repeat split. Qed.

(** X19, on [machine] with one clock: the timer of [yield] is armed for
    5200 cycles. *)
Lemma burst_within_timers_witness :
  Time.exact Examples.exactHost /\ (2 <= 2)%nat /\
  exists n t',
    Time.doBurst Examples.exactHost 2
      (fst (Time.getCyclesPerRun false 0 (Time.addClock 0 Examples.machine)))
      (snd (Time.getCyclesPerRun false 0 (Time.addClock 0 Examples.machine)))
    = Time.Ok n t' /\
    forall tm, In tm (Time.aTimers (Time.addClock 0 Examples.machine)) ->
               0 <= Time.nCyclesLeft tm -> n <= Time.nCyclesLeft tm.
Proof.
  split; [exact exactHost_exact|]. split; [lia|].
  exact (burst_within_timers Examples.exactHost 2 false
           (Time.addClock 0 Examples.machine) exactHost_exact ltac:(lia)).
Defined.

(** X20, on [machine]. *)
Lemma rates_stay_sane_witness :
  Time.reachable Examples.exactHost Examples.machine /\
  (30 <= Time.nYieldsPerSecond Examples.machine <= 120)%Q /\
  (1 <= Time.nYieldsPerUpdate Examples.machine
   <= Time.nYieldsPerSecond Examples.machine)%Q /\
  (Time.nCurrentMultiplier Examples.machine
   <= Time.nTargetMultiplier Examples.machine)%Q.
Proof.
  split; [apply Time.reach_new|].
  exact (rates_stay_sane Examples.exactHost Examples.machine
           (Time.reach_new Examples.exactHost Examples.timeConfig)).
Defined.

(** X23, on [machine] and 8 milliseconds. *)
Lemma budget_within_target_witness :
  Time.reachable Examples.exactHost Examples.machine /\
  (0 <= Time.nCyclesPerSecond Examples.machine)%Q /\ (0 <= 8)%Q /\
  Time.getCyclesPerMS 8 Examples.machine
  <= Time.cyclesAt (Time.nCyclesPerSecond Examples.machine)
       (Time.nTargetMultiplier Examples.machine) 8.
Proof.
  assert (Hc : (0 <= Time.nCyclesPerSecond Examples.machine)%Q)
    by (vm_compute; discriminate).
  assert (Hms : (0 <= 8)%Q) by discriminate.
  split; [apply Time.reach_new|]. split; [exact Hc|]. split; [exact Hms|].
  exact (budget_within_target Examples.exactHost Examples.machine 8
           (Time.reach_new Examples.exactHost Examples.timeConfig) Hc Hms).
Defined.
